(** * BOSSWAVE core: URI algebra, capability engine, terminus, resolution cache

    A shallow embedding of the parts of the BOSSWAVE router that the
    specification makes claims about, followed by the theorems that settle
    those claims against the code.

    Conventions of the embedding:
    - a Go [string] is a [string] (a sequence of bytes), a [[]byte] is a
      [list byte], a Go [int] is a [Z];
    - a Go [map] is a [gmap]; reading a missing key yields the zero value
      (a nil slice is the empty list);
    - a [for] statement with a [break] is [for_loop]; running out of fuel is
      the result [None], and the functions built on it are proved total;
    - a [panic] of a parser is the outcome [Panic], which the deferred
      [recover] of the parser turns into an error. *)

From Stdlib Require Import ZArith Lia Bool Ascii String.
From Stdlib.Strings Require Import Byte.
From stdpp Require Import gmap strings list.

#[local] Set Warnings "-register-all".
#[local] Open Scope Z_scope.

(** Bytes are compared and used as map keys. *)
#[global] Instance byte_eq_dec : EqDecision byte := Byte.byte_eq_dec.
#[global] Instance byte_countable : Countable byte :=
  inj_countable Byte.to_N Byte.of_N Byte.of_to_N.

(** [bytes.Equal] *)
Definition bytes_Equal (a b : list byte) : bool := bool_decide (a = b).

(** [copy(a[:], b)] into a zeroed [[32]byte]. *)
Definition copy32 (b : list byte) : list byte :=
  take 32 (b ++ replicate 32 x00).

(** ** Go statements *)

(** [for ; cond; post { body }], where [body] answers [None] on [break]. *)
Fixpoint for_loop {S : Type} (fuel : nat) (cond : S -> bool)
    (body : S -> option S) (post : S -> S) (s : S) : option S :=
  match fuel with
  | O => None
  | Datatypes.S k =>
      if cond s then
        match body s with
        | Some s' => for_loop k cond body post (post s')
        | None => Some s
        end
      else Some s
  end.

(** ** package util *)

Module Util.

(** [strings.Split(s, "/")]: one cell more than there are separators. *)
Fixpoint Split (s : string) : list string :=
  match s with
  | EmptyString => [EmptyString]
  | String c s' =>
      if Ascii.eqb c "/" then EmptyString :: Split s'
      else match Split s' with
           | h :: t => String c h :: t
           | [] => [String c EmptyString]
           end
  end.

(** [strings.Join(cells, "/")]. *)
Fixpoint Join (cells : list string) : string :=
  match cells with
  | [] => EmptyString
  | [c] => c
  | c :: rest => String.append c (String "/" (Join rest))
  end.

Definition byte_le (a b : ascii) : bool := (N_of_ascii a <=? N_of_ascii b)%N.

(** The character test of both loops of [AnalyzeSuffix]. *)
Definition permitted (k : ascii) : bool :=
  byte_le "0" k && byte_le k "9" ||
  byte_le "a" k && byte_le k "z" ||
  byte_le "A" k && byte_le k "Z" ||
  Ascii.eqb k "-" || Ascii.eqb k "_" ||
  Ascii.eqb k "," || Ascii.eqb k "(" ||
  Ascii.eqb k ")" || Ascii.eqb k ".".

(** [for i := 0; i < len(c); i++ { if !permitted(c[i]) { return } }] *)
Fixpoint all_permitted (c : string) : bool :=
  match c with
  | EmptyString => true
  | String k c' => permitted k && all_permitted c'
  end.

(** The five named results of [AnalyzeSuffix]. *)
Record SuffixInfo := mkSuffixInfo {
  valid : bool;
  hasStar : bool;
  hasPlus : bool;
  hasDollar : bool;
  hasBang : bool
}.

(** The loop over the cells.  An early [return] leaves [valid] false and the
    flags as they stand. *)
Fixpoint analyze_cells (cells : list string) (star plus dollar bang : bool)
  : SuffixInfo :=
  match cells with
  | [] => mkSuffixInfo true star plus dollar bang
  | c :: rest =>
      let stop := mkSuffixInfo false star plus dollar bang in
      match c with
      | EmptyString => stop
      | String k EmptyString =>
          if String.eqb c "*" then
            if star then stop else analyze_cells rest true plus dollar bang
          else if String.eqb c "+" then analyze_cells rest star true dollar bang
          else if String.eqb c "!" then stop
          else if String.eqb c "$" then analyze_cells rest star plus true bang
          else if negb (permitted k) then stop
          else analyze_cells rest star plus dollar bang
      | String k c' =>
          if Ascii.eqb k "!" then
            if bang then stop
            else if all_permitted c'
                 then analyze_cells rest star plus dollar true
                 else mkSuffixInfo false star plus dollar true
          else if all_permitted c
               then analyze_cells rest star plus dollar bang
               else stop
      end
  end.

Definition AnalyzeSuffix (uri : string) : SuffixInfo :=
  analyze_cells (Split uri) false false false false.

(** [VerifyMVK] *)
Definition VerifyMVK (mvk : list byte) : bool :=
  Nat.eqb (length mvk) 32.

(** The cursors and the two output slices of [RestrictBy]. *)
Record Cursor := mkCursor {
  fi : Z; bi : Z; fni : Z; bni : Z;
  fout : list string; bout : list string
}.

(** [p[i]].  The phases before the last read a cell only after the bounds
    test the source makes; the reads of the last phase are shown to be in
    range by [phase5_reads_in_range]. *)
Definition cell (p : list string) (i : Z) : string :=
  nth (Z.to_nat i) p EmptyString.

Definition len (p : list string) : Z := Z.of_nat (length p).

Definition is_star (c : string) : bool := String.eqb c "*".
Definition is_plus (c : string) : bool := String.eqb c "+".

Section RestrictBy.
Variables fp bp : list string.

(** One cell of [from] against one cell of [by]: the cell to emit, or a
    [break]. *)
Definition meet (f b : string) : option string :=
  if String.eqb f b || (is_plus b && negb (is_star f)) then Some f
  else if is_plus f && negb (is_star b) then Some b
  else None.

(** phase 1: emit matching prefix *)
Definition phase1 (fuel : nat) (c : Cursor) : option Cursor :=
  for_loop fuel
    (fun c => (fi c <? len fp) && (bi c <? len bp))
    (fun c => match meet (cell fp (fi c)) (cell bp (bi c)) with
              | Some x => Some (mkCursor (fi c) (bi c) (fni c) (bni c)
                                  (fout c ++ [x]) (bout c))
              | None => None
              end)
    (fun c => mkCursor (fi c + 1) (bi c + 1) (fni c) (bni c) (fout c) (bout c))
    c.

(** phase 2: emit matching suffix *)
Definition phase2 (fuel : nat) (c : Cursor) : option Cursor :=
  for_loop fuel
    (fun c => (fni c >=? fi c) && (bni c >=? bi c))
    (fun c => match meet (cell fp (fni c)) (cell bp (bni c)) with
              | Some x => Some (mkCursor (fi c) (bi c) (fni c) (bni c)
                                  (fout c) (bout c ++ [x]))
              | None => None
              end)
    (fun c => mkCursor (fi c) (bi c) (fni c - 1) (bni c - 1) (fout c) (bout c))
    c.

(** phase 3: emit front *)
Definition phase3 (fuel : nat) (c : Cursor) : option Cursor :=
  if (fi c <? len fp) && is_star (cell fp (fi c)) then
    for_loop fuel
      (fun c => (bi c <? len bp) && negb (is_star (cell bp (bi c)))
                && (bi c <=? bni c))
      (fun c => Some (mkCursor (fi c) (bi c) (fni c) (bni c)
                        (fout c ++ [cell bp (bi c)]) (bout c)))
      (fun c => mkCursor (fi c) (bi c + 1) (fni c) (bni c) (fout c) (bout c))
      c
  else if (bi c <? len bp) && is_star (cell bp (bi c)) then
    for_loop fuel
      (fun c => (fi c <? len fp) && negb (is_star (cell fp (fi c)))
                && (fi c <=? fni c))
      (fun c => Some (mkCursor (fi c) (bi c) (fni c) (bni c)
                        (fout c ++ [cell fp (fi c)]) (bout c)))
      (fun c => mkCursor (fi c + 1) (bi c) (fni c) (bni c) (fout c) (bout c))
      c
  else Some c.

(** phase 4: emit back *)
Definition phase4 (fuel : nat) (c : Cursor) : option Cursor :=
  if (fni c >=? 0) && is_star (cell fp (fni c)) then
    for_loop fuel
      (fun c => (bni c >=? 0) && negb (is_star (cell bp (bni c)))
                && (bni c >=? bi c))
      (fun c => Some (mkCursor (fi c) (bi c) (fni c) (bni c)
                        (fout c) (bout c ++ [cell bp (bni c)])))
      (fun c => mkCursor (fi c) (bi c) (fni c) (bni c - 1) (fout c) (bout c))
      c
  else if (bni c >=? 0) && is_star (cell bp (bni c)) then
    for_loop fuel
      (fun c => (fni c >=? 0) && negb (is_star (cell fp (fni c)))
                && (fni c >=? fi c))
      (fun c => Some (mkCursor (fi c) (bi c) (fni c) (bni c)
                        (fout c) (bout c ++ [cell fp (fni c)])))
      (fun c => mkCursor (fi c) (bi c) (fni c - 1) (bni c) (fout c) (bout c))
      c
  else Some c.

(** The closure [emit]: [fout] followed by [bout] reversed. *)
Definition emit (fo bo : list string) : string * bool :=
  (Join (fo ++ rev bo), true).

(** phase 5 and the tail of the function. *)
Definition phase5 (c : Cursor) : string * bool :=
  if (fi c =? fni c) && is_star (cell fp (fi c)) &&
     (bi c =? bni c) && is_star (cell bp (bi c))
  then emit (fout c ++ ["*"%string]) (bout c)
  else
    let fi' := if (fi c <? len fp) && is_star (cell fp (fi c))
               then fi c + 1 else fi c in
    let bi' := if (bi c <? len bp) && is_star (cell bp (bi c))
               then bi c + 1 else bi c in
    if ((fi' =? fni c + 1) || (fi' =? len fp)) &&
       ((bi' =? bni c + 1) || (bi' =? len bp))
    then emit (fout c) (bout c)
    else (EmptyString, false).

Definition restrict_cells (fuel : nat) : option (string * bool) :=
  c1 ← phase1 fuel (mkCursor 0 0 (len fp - 1) (len bp - 1) [] []);
  c2 ← phase2 fuel c1;
  c3 ← phase3 fuel c2;
  c4 ← phase4 fuel c3;
  Some (phase5 c4).
End RestrictBy.

(** No loop of [RestrictBy] runs more often than there are cells. *)
Definition restrict_fuel (fp bp : list string) : nat :=
  S (length fp + length bp).

(** [RestrictBy], with [None] for a loop that did not finish. *)
Definition RestrictBy_opt (from by_ : string) : option (string * bool) :=
  let fp := Split from in
  let bp := Split by_ in
  restrict_cells fp bp (restrict_fuel fp bp).

(** [RestrictBy(from, by)]; [RestrictBy_total] shows the default is never
    taken. *)
Definition RestrictBy (from by_ : string) : string * bool :=
  default (EmptyString, false) (RestrictBy_opt from by_).

End Util.

(** ** package objects *)

Module Objects.

(** *** Errors, panics and slices *)

Inductive error :=
  | EOF
  | ErrorString (msg : string)
  | ObjectError (ObjectID : Z) (Message : string).

(** What a call can come to: a value, an error value, a run-time panic, or a
    loop that is still running when the fuel is spent. *)
Inductive outcome (A : Type) :=
  | Ok (a : A)
  | Err (e : error)
  | Panic
  | OutOfFuel.
Arguments Ok {A} a.
Arguments Err {A} e.
Arguments Panic {A}.
Arguments OutOfFuel {A}.

#[global] Instance outcome_ret : MRet outcome := fun A a => Ok a.
#[global] Instance outcome_bind : MBind outcome := fun A B f m =>
  match m with
  | Ok a => f a
  | Err e => Err e
  | Panic => Panic
  | OutOfFuel => OutOfFuel
  end.

Definition NewObjectError {A} (oid : Z) (msg : string) : outcome A :=
  Err (ObjectError oid msg).

(** [defer func() { if r := recover(); r != nil { err = ...; rv = nil } }()] *)
Definition recover {A} (oid : Z) (msg : string) (m : outcome A) : outcome A :=
  match m with
  | Panic => NewObjectError oid msg
  | _ => m
  end.

Definition byte_val (b : byte) : Z := Z.of_N (Byte.to_N b).

(** [content[i]] *)
Definition index (content : list byte) (i : nat) : outcome byte :=
  match content !! i with
  | Some b => Ok b
  | None => Panic
  end.

(** [content[a:b]], for a slice whose capacity is its length, as the buffer
    that [LoadBosswaveObject] allocates is.  [SubSlice.slice] is the slice
    expression on a content with spare capacity. *)
Definition slice (content : list byte) (a b : nat) : outcome (list byte) :=
  if (a <=? b)%nat && (b <=? length content)%nat
  then Ok (take (b - a) (drop a content))
  else Panic.

(** [content[a:]] *)
Definition slice_from (content : list byte) (a : nat) : outcome (list byte) :=
  slice content a (length content).

(** [binary.LittleEndian]: the value of the first [n] bytes. *)
Fixpoint le_value (n : nat) (b : list byte) : outcome Z :=
  match n with
  | O => Ok 0
  | S n' =>
      match b with
      | [] => Panic
      | x :: b' => v ← le_value n' b'; Ok (byte_val x + 256 * v)
      end
  end.
Definition Uint16 : list byte -> outcome Z := le_value 2.
Definition Uint32 : list byte -> outcome Z := le_value 4.
Definition Uint64 : list byte -> outcome Z := le_value 8.

(** [int64(u)] for a [uint64] value. *)
Definition int64 (u : Z) : Z :=
  let w := u mod 2 ^ 64 in if w <? 2 ^ 63 then w else w - 2 ^ 64.

Definition to_string (b : list byte) : string := string_of_list_byte b.

(** *** Routing object numbers *)

Definition ROAccessDChainHash : Z := 0x01.
Definition ROPermissionDChainHash : Z := 0x11.
Definition ROAccessDChain : Z := 0x02.
Definition ROPermissionDChain : Z := 0x12.
Definition ROAccessDOT : Z := 0x20.
Definition ROPermissionDOT : Z := 0x21.

Definition SaneObjectSize : Z := 16 * 1024 * 1024.

(** *** Permission sets *)

Record AccessDOTPermissionSet := mkADPS {
  CanPublish : bool;
  CanConsume : bool;
  CanConsumePlus : bool;
  CanConsumeStar : bool;
  CanTap : bool;
  CanTapPlus : bool;
  CanTapStar : bool;
  CanList : bool
}.

(** Modelled from the spec: [ReduceBy] is not among the sources.  "bitwise-AND
    on permission flags, with the +/* subsumption invariant re-established":
    each flag is the conjunction of the two, then star implies plus and plus
    implies the plain permission. *)
Definition ReduceBy (ps rhs : AccessDOTPermissionSet) : AccessDOTPermissionSet :=
  let cs := CanConsumeStar ps && CanConsumeStar rhs in
  let cp := (CanConsumePlus ps && CanConsumePlus rhs) || cs in
  let c := (CanConsume ps && CanConsume rhs) || cp in
  let ts := CanTapStar ps && CanTapStar rhs in
  let tp := (CanTapPlus ps && CanTapPlus rhs) || ts in
  let t := (CanTap ps && CanTap rhs) || tp in
  mkADPS (CanPublish ps && CanPublish rhs) c cp cs t tp ts
         (CanList ps && CanList rhs).

(** Modelled from the spec: [IsSubsetOf] is not among the sources.  "desired ⊆
    dot.perms": every flag of the left set is a flag of the right one. *)
Definition IsSubsetOf (ps rhs : AccessDOTPermissionSet) : bool :=
  implb (CanPublish ps) (CanPublish rhs) &&
  implb (CanConsume ps) (CanConsume rhs) &&
  implb (CanConsumePlus ps) (CanConsumePlus rhs) &&
  implb (CanConsumeStar ps) (CanConsumeStar rhs) &&
  implb (CanTap ps) (CanTap rhs) &&
  implb (CanTapPlus ps) (CanTapPlus rhs) &&
  implb (CanTapStar ps) (CanTapStar rhs) &&
  implb (CanList ps) (CanList rhs).

(** *** DOT *)

Record PublishLimits := mkPublishLimits {
  TxLimit : Z;
  StoreLimit : Z;
  Retain : Z
}.

Record DOT := mkDOT {
  content : list byte;
  hash : list byte;
  giverVK : list byte;
  receiverVK : list byte;
  expires : option Z;
  created : option Z;
  revokers : list (list byte);
  contact : string;
  comment : string;
  signature : list byte;
  isAccess : bool;
  ttl : Z;
  mVK : list byte;
  uriSuffix : string;
  uri : string;
  pubLim : option PublishLimits;
  canPublish : bool;
  canConsume : bool;
  canConsumePlus : bool;
  canConsumeStar : bool;
  canTap : bool;
  canTapPlus : bool;
  canTapStar : bool;
  canList : bool;
  kv : gmap string string
}.

Definition GetGiverVK (ro : DOT) : list byte := giverVK ro.
Definition GetReceiverVK (ro : DOT) : list byte := receiverVK ro.
Definition GetTTL (ro : DOT) : Z := ttl ro.
Definition GetHash (ro : DOT) : list byte := hash ro.
Definition GetAccessURISuffix (ro : DOT) : string := uriSuffix ro.
Definition GetAccessURIMVK (ro : DOT) : list byte := mVK ro.

(** Modelled from the spec: [GetPermissionSet] is not among the sources.
    "perms = C[0].permissions (copied)": a fresh set holding the flags of the
    DOT. *)
Definition GetPermissionSet (ro : DOT) : AccessDOTPermissionSet :=
  mkADPS (canPublish ro) (canConsume ro) (canConsumePlus ro)
         (canConsumeStar ro) (canTap ro) (canTapPlus ro) (canTapStar ro)
         (canList ro).

(** The optional header fields that the first loop of [NewDOT] fills in. *)
Record Header := mkHeader {
  h_pubLim : option PublishLimits;
  h_created : option Z;
  h_expires : option Z;
  h_revokers : list (list byte);
  h_contact : string;
  h_comment : string
}.

(** [time.Unix(0, int64(binary.LittleEndian.Uint64(b)*1000000))], as
    nanoseconds. *)
Definition unix_ms (b : list byte) : outcome Z :=
  v ← Uint64 b; Ok (int64 (v * 1000000 mod 2 ^ 64)).

(** One turn of the first [for] of [NewDOT], on the header field at [idx]:
    whether the tag 0 ended the loop, the index after the field, and the
    header. *)
Definition header_field (ronum : Z) (content : list byte) (idx : nat)
    (h : Header) : outcome (bool * nat * Header) :=
  tag ← index content idx;
  match byte_val tag with
  | 0x01 => (* Publish limits *)
      l ← index content (idx + 1);
      if negb (byte_val l =? 17) then
        NewObjectError ronum "Invalid publim in DoT"
      else
        let idx := (idx + 2)%nat in
        b0 ← slice_from content idx; tx ← Uint64 b0;
        b1 ← slice_from content (idx + 8); st ← Uint64 b1;
        r ← index content (idx + 16);
        Ok (false, (idx + 17)%nat,
            mkHeader (Some (mkPublishLimits (int64 tx) (int64 st) (byte_val r)))
              (h_created h) (h_expires h) (h_revokers h)
              (h_contact h) (h_comment h))
  | 0x02 => (* Creation date *)
      l ← index content (idx + 1);
      if negb (byte_val l =? 8) then
        NewObjectError ronum "Invalid creation date in DoT"
      else
        let idx := (idx + 2)%nat in
        b0 ← slice_from content idx; t ← unix_ms b0;
        Ok (false, (idx + 8)%nat,
            mkHeader (h_pubLim h) (Some t) (h_expires h) (h_revokers h)
              (h_contact h) (h_comment h))
  | 0x03 => (* Expiry date *)
      l ← index content (idx + 1);
      if negb (byte_val l =? 8) then
        NewObjectError ronum "Invalid expiry date in DoT"
      else
        let idx := (idx + 2)%nat in
        b0 ← slice_from content idx; t ← unix_ms b0;
        Ok (false, (idx + 8)%nat,
            mkHeader (h_pubLim h) (h_created h) (Some t) (h_revokers h)
              (h_contact h) (h_comment h))
  | 0x04 => (* Delegated revoker *)
      l ← index content (idx + 1);
      if negb (byte_val l =? 8) then
        NewObjectError ronum "Invalid delegated revoker in DoT"
      else
        let idx := (idx + 2)%nat in
        r ← slice content idx (idx + 32);
        Ok (false, (idx + 32)%nat,
            mkHeader (h_pubLim h) (h_created h) (h_expires h)
              (h_revokers h ++ [r]) (h_contact h) (h_comment h))
  | 0x05 => (* contact *)
      l ← index content (idx + 1);
      let ln := Z.to_nat (byte_val l) in
      c ← slice content (idx + 2) (idx + 2 + ln);
      Ok (false, (idx + (2 + ln))%nat,
          mkHeader (h_pubLim h) (h_created h) (h_expires h) (h_revokers h)
            (to_string c) (h_comment h))
  | 0x06 => (* Comment *)
      l ← index content (idx + 1);
      let ln := Z.to_nat (byte_val l) in
      c ← slice content (idx + 2) (idx + 2 + ln);
      Ok (false, (idx + (2 + ln))%nat,
          mkHeader (h_pubLim h) (h_created h) (h_expires h) (h_revokers h)
            (h_contact h) (to_string c))
  | 0x00 => (* End *)
      Ok (true, (idx + 1)%nat, h)
  | _ => (* Skip unknown header *)
      l ← index content (idx + 1);
      Ok (false, (idx + (Z.to_nat (byte_val l) + 1))%nat, h)
  end.

(** The first [for] of [NewDOT]: header fields up to the tag 0. *)
Fixpoint header_loop (fuel : nat) (ronum : Z) (content : list byte)
    (idx : nat) (h : Header) : outcome (nat * Header) :=
  match fuel with
  | O => OutOfFuel
  | S k =>
      '(done, idx, h) ← header_field ronum content idx h;
      if done : bool then Ok (idx, h) else header_loop k ronum content idx h
  end.

(** One turn of the [for] over the key-value pairs of a permission DOT. *)
Definition kv_pair (content : list byte) (idx : nat) (kv : gmap string string)
  : outcome (bool * nat * gmap string string) :=
  kl ← index content idx;
  let keylen := Z.to_nat (byte_val kl) in
  if (keylen =? 0)%nat then Ok (true, (idx + 1)%nat, kv)
  else
    key ← slice content (idx + 1) (idx + 1 + keylen);
    let idx := (idx + (1 + keylen))%nat in
    b ← slice_from content idx; vl ← Uint16 b;
    let valLen := Z.to_nat vl in
    val ← slice content (idx + 2) (idx + 2 + valLen);
    Ok (false, (idx + (2 + valLen))%nat, <[to_string key := to_string val]> kv).

Fixpoint kv_loop (fuel : nat) (content : list byte) (idx : nat)
    (kv : gmap string string) : outcome (nat * gmap string string) :=
  match fuel with
  | O => OutOfFuel
  | S k =>
      '(done, idx, kv) ← kv_pair content idx kv;
      if done : bool then Ok (idx, kv) else kv_loop k content idx kv
  end.

Definition bit (perm mask : Z) : bool := negb (Z.land perm mask =? 0).

(** *** DChain *)

Record DChain := mkDChain {
  dothashes : list byte;
  chainhash : list byte;
  dots : list (option DOT);
  dc_isAccess : bool;
  dc_ronum : Z;
  elaborated : bool
}.

Inductive RoutingObject :=
  | RODChain (dc : DChain)
  | RODOT (d : DOT).

Section Codec.
(** [crypto/sha256] and [encoding/base64] are taken as they come. *)
Variable sha256 : list byte -> list byte.
Variable base64url : list byte -> string.

Definition NewDChain_body (ronum : Z) (content : list byte) : outcome RoutingObject :=
  if (ronum =? ROAccessDChain) || (ronum =? ROPermissionDChain) then
    if negb (length content mod 32 =? 0)%nat || (length content =? 0)%nat then
      NewObjectError ronum "Wrong content length"
    else
      Ok (RODChain (mkDChain content (sha256 content)
                      (replicate (length content / 32) None)
                      (ronum =? 0x02) ronum true))
  else if (ronum =? ROAccessDChainHash) || (ronum =? ROPermissionDChainHash) then
    if negb (length content =? 32)%nat then
      NewObjectError ronum "Wrong content length"
    else
      Ok (RODChain (mkDChain [] content [] (ronum =? 0x01) ronum false))
  else Panic.

(** [NewDChain] deserialises a DChain from a byte array. *)
Definition NewDChain (ronum : Z) (content : list byte) : outcome RoutingObject :=
  recover ronum "Bad DChain" (NewDChain_body ronum content).

(** The tail of [NewDOT], from the label [done] on. *)
Definition NewDOT_tail (fuel : nat) (ronum : Z) (content : list byte)
    (g r : list byte) (t : byte) (idx : nat) (h : Header) : outcome RoutingObject :=
  let finish (idx : nat) (acc : bool) (perm : Z) (mvk : list byte)
             (sfx : string) (u : string) (kv : gmap string string) :=
    signed ← slice content 0 idx;
    sig ← slice content idx (idx + 64);
    Ok (RODOT (mkDOT content (sha256 signed) g r (h_expires h) (h_created h)
                 (h_revokers h) (h_contact h) (h_comment h) sig acc
                 (byte_val t) mvk sfx u (h_pubLim h)
                 (bit perm 0x0040)
                 (bit perm 0x0001 || bit perm 0x0002 || bit perm 0x0004)
                 (bit perm 0x0002 || bit perm 0x0004)
                 (bit perm 0x0004)
                 (bit perm 0x0008 || bit perm 0x0010 || bit perm 0x0020)
                 (bit perm 0x0010 || bit perm 0x0020)
                 (bit perm 0x0020)
                 (bit perm 0x0080)
                 kv)) in
  if ronum =? ROAccessDOT then
    b ← slice_from content idx; perm ← Uint16 b;
    let idx := (idx + 2)%nat in
    mvk ← slice content idx (idx + 32);
    let idx := (idx + 32)%nat in
    b ← slice_from content idx; ln ← Uint16 b;
    let idx := (idx + 2)%nat in
    sfx ← slice content idx (idx + Z.to_nat ln);
    finish (idx + Z.to_nat ln)%nat true perm mvk (to_string sfx)
      (String.append (base64url mvk) (String "/" (to_string sfx))) ∅
  else if ronum =? ROPermissionDOT then
    '(idx, kv) ← kv_loop fuel content idx ∅;
    finish idx false 0 [] EmptyString EmptyString kv
  else NewObjectError ronum "Unknown RONum".

Definition NewDOT_body (fuel : nat) (ronum : Z) (content : list byte)
  : outcome RoutingObject :=
  g ← slice content 0 32;
  r ← slice content 32 64;
  t ← index content 64;
  '(idx, h) ← header_loop fuel ronum content 65
                (mkHeader None None None [] EmptyString EmptyString);
  NewDOT_tail fuel ronum content g r t idx h.

(** [NewDOT] constructs a DOT from its packed form.  Each turn of either
    loop moves [idx] on, so the length of the content bounds them. *)
Definition NewDOT (ronum : Z) (content : list byte) : outcome RoutingObject :=
  recover ronum "Bad DoT" (NewDOT_body (S (length content)) ronum content).

(** [RoutingObjectConstructor] *)
Definition RoutingObjectConstructor (onum : Z)
  : option (Z -> list byte -> outcome RoutingObject) :=
  if (onum =? 0x01) || (onum =? 0x11) || (onum =? 0x02) || (onum =? 0x12)
  then Some NewDChain
  else if onum =? 0x20 then Some NewDOT
  else None.

(** An [io.Reader] over a byte string: a [Read] hands out what is left, up
    to the size asked for, and [EOF] once nothing is left. *)
Definition Reader := list byte.

Definition Read (s : Reader) (n : nat) : list byte * option error * Reader :=
  match s with
  | [] => ([], Some EOF, s)
  | _ => (take n s, None, drop n s)
  end.

(** [for totn < ln { n, e := s.Read(buf[totn:]); totn += n; if e != nil {
    return nil, e } }] *)
Fixpoint read_loop (fuel : nat) (s : Reader) (ln : nat) (buf : list byte)
  : outcome (list byte * Reader) :=
  match fuel with
  | O => OutOfFuel
  | S k =>
      if (length buf <? ln)%nat then
        let '(p, e, s') := Read s (ln - length buf) in
        match e with
        | Some e => Err e
        | None => read_loop k s' ln (buf ++ p)
        end
      else Ok (buf, s)
  end.

(** [LoadBosswaveObject] loads an object from a reader. *)
Definition LoadBosswaveObject (s : Reader) : outcome RoutingObject :=
  '(hdr, s) ← read_loop 9 s 8 [];
  b ← slice hdr 0 4; onum ← Uint32 b;
  b ← slice hdr 4 8; ln ← Uint32 b;
  if ln >? SaneObjectSize then Err (ErrorString "Object is of insane size")
  else
    '(buf, s) ← read_loop (S (Z.to_nat ln)) s (Z.to_nat ln) [];
    if Z.land onum 0xFFFFFF00 =? 0 then
      match RoutingObjectConstructor onum with
      | None => NewObjectError onum "No such routing object constructor"
      | Some constructor => constructor onum buf
      end
    else NewObjectError onum "No constructor for this object type yet".
End Codec.

End Objects.

(** ** package core: messages and chain analysis *)

Module Core.
Import Objects.

Definition TypePublish : Z := 0x01.
Definition TypePersist : Z := 0x02.
Definition TypeSubscribe : Z := 0x03.
Definition TypeTap : Z := 0x04.
Definition TypeQuery : Z := 0x05.
Definition TypeTapQuery : Z := 0x06.
Definition TypeLS : Z := 0x07.
Definition TypeUnsubscribe : Z := 0x08.

(** The error codes of package bwe that chain analysis raises. *)
Inductive bwe :=
  | BadURI
  | ChainOriginNotMVK
  | TTLExpired
  | BadLink
  | OverconstrainedURI
  | BadPermissions
  | BadOperation.

#[global] Instance bwe_eq_dec : EqDecision bwe.
Proof. solve_decision. Defined.

(** The named results of [AnalyzeAccessDOTChain]; [None] is [nil]. *)
Record Analysis := mkAnalysis {
  err : option bwe;
  mvk : option (list byte);
  mergeduri : option string;
  star : bool;
  plus : bool;
  ps : option AccessDOTPermissionSet;
  originVK : option (list byte)
}.

(** The variables that the loop over the links carries along. *)
Record Walk := mkWalk {
  w_ttl : Z;
  w_ps : AccessDOTPermissionSet;
  w_tail : list byte;
  w_uri : string
}.

(** The body of [for i := 1; i < dc.NumHashes(); i++]: the error raised at
    the link together with the permission set as it stands, or the variables
    for the next link. *)
Definition link_step (mvk : list byte) (w : Walk) (d : DOT)
  : bwe * AccessDOTPermissionSet + Walk :=
  if w_ttl w =? 0 then inl (TTLExpired, w_ps w)
  else
    let ttl := w_ttl w - 1 in
    let ps := ReduceBy (w_ps w) (GetPermissionSet d) in
    let ttl := if GetTTL d <? ttl then GetTTL d else ttl in
    if negb (bytes_Equal (w_tail w) (GetGiverVK d)) ||
       negb (bytes_Equal mvk (GetAccessURIMVK d))
    then inl (BadLink, ps)
    else
      let '(uri, okay) := Util.RestrictBy (w_uri w) (GetAccessURISuffix d) in
      if negb okay then inl (OverconstrainedURI, ps)
      else inr (mkWalk ttl ps (GetReceiverVK d) uri).

(** The loop over the DOTs after the first. *)
Fixpoint walk_links (mvk : list byte) (w : Walk) (links : list DOT)
  : bwe * AccessDOTPermissionSet + Walk :=
  match links with
  | [] => inr w
  | d :: links' =>
      match link_step mvk w d with
      | inl e => inl e
      | inr w' => walk_links mvk w' links'
      end
  end.

(** The [switch mtype] on the reduced permission set. *)
Definition check_permissions (mtype : Z) (star plus : bool)
    (ps : AccessDOTPermissionSet) : option bwe :=
  if (mtype =? TypePublish) || (mtype =? TypePersist) then
    if negb (CanPublish ps) then Some BadPermissions else None
  else if (mtype =? TypeQuery) || (mtype =? TypeSubscribe) then
    if negb (CanConsume ps) || (plus && negb (CanConsumePlus ps))
       || (star && negb (CanConsumeStar ps))
    then Some BadPermissions else None
  else if (mtype =? TypeTapQuery) || (mtype =? TypeTap) then
    if negb (CanTap ps) || (plus && negb (CanTapPlus ps))
       || (star && negb (CanTapStar ps))
    then Some BadPermissions else None
  else if mtype =? TypeLS then
    if negb (CanList ps) then Some BadPermissions else None
  else Some BadOperation.

(** [AnalyzeAccessDOTChain] on the first DOT and the DOTs after it. *)
Definition analyze (mtype : Z) (targetURI : string) (firstdot : DOT)
    (links : list DOT) : Analysis :=
  let head := GetGiverVK firstdot in
  let tail := GetReceiverVK firstdot in
  let ttl := GetTTL firstdot in
  let '(uri, uriok) := Util.RestrictBy targetURI (GetAccessURISuffix firstdot) in
  if negb uriok then mkAnalysis (Some BadURI) None None false false None None
  else
    let mvk := GetAccessURIMVK firstdot in
    let ps := GetPermissionSet firstdot in
    if negb (bytes_Equal head mvk) then
      mkAnalysis (Some ChainOriginNotMVK) (Some mvk) None false false (Some ps) None
    else
      match walk_links mvk (mkWalk ttl ps tail uri) links with
      | inl (e, ps) => mkAnalysis (Some e) (Some mvk) None false false (Some ps) None
      | inr w =>
          let a := Util.AnalyzeSuffix (w_uri w) in
          let star := Util.hasStar a in
          let plus := Util.hasPlus a in
          let result e :=
            mkAnalysis e (Some mvk) (Some (w_uri w)) star plus
              (Some (w_ps w)) (Some (w_tail w)) in
          if negb (Util.valid a) then result (Some OverconstrainedURI)
          else result (check_permissions mtype star plus (w_ps w))
      end.

(** [AnalyzeAccessDOTChain(mtype, targetURI, dc)] for an elaborated chain
    given by its DOTs.  [dc.GetDOT(0)] of a chain without DOTs is a run-time
    panic, the result [None]. *)
Definition AnalyzeAccessDOTChain (mtype : Z) (targetURI : string)
    (dc : list DOT) : option Analysis :=
  match dc with
  | [] => None
  | firstdot :: links => Some (analyze mtype targetURI firstdot links)
  end.

(** ** package core: terminus *)

Definition clientid := N.

(** [UniqueMessageID{Mid, Sig}] *)
Definition UniqueMessageID := (Z * Z)%type.

(** A subscription; its handler is known by the subscription it belongs
    to. *)
Record subscription := mkSubscription {
  subid : UniqueMessageID;
  client : clientid;
  tap : bool
}.

#[global] Instance subscription_eq_dec : EqDecision subscription.
Proof. solve_decision. Defined.

Inductive snode := SNode {
  children : gmap string snode;
  (* map cid to subscription (NOT SUBID) *)
  subs : gmap clientid subscription
}.

Definition NewSnode : snode := SNode ∅ ∅.

(** [rmatchSubs]: the subscriptions handed to the visitor, in the order of
    the calls.  The recursion goes through the children of the node, which
    are looked up under [parts[0]], "+" and "*"; [rmatchSubs_cons] states it
    in the shape of the source. *)
Fixpoint rmatchSubs (s : snode) {struct s} : list string -> list subscription :=
  let kids := rmatchSubs <$> children s in
  fun parts =>
    match parts with
    | [] =>
        (* for _, sub := range s.subs { visitor(sub) }; the order of a range
           over a map is not fixed, that of map_to_list stands for it *)
        (map_to_list (subs s)).*2
    | p :: rest =>
        (match kids !! p with Some v1 => v1 rest | None => [] end) ++
        (match kids !! "+"%string with Some v2 => v2 rest | None => [] end) ++
        (match kids !! "*"%string with
         | Some v3 =>
             (* for i := 0; i < len(parts); i++ { v3.rmatchSubs(parts[i:]) } *)
             (fix star (ps : list string) : list subscription :=
                match ps with
                | [] => []
                | _ :: ps' => v3 ps ++ star ps'
                end) parts
         | None => []
         end)
    end.

(** [addSub]: the id of the subscription in the tree and the tree after the
    call; the node that holds the subscription is the one under [parts]. *)
Fixpoint addSub (parts : list string) (sub : subscription) (s : snode)
  : UniqueMessageID * snode :=
  match parts with
  | [] =>
      match subs s !! client sub with
      | Some existing => (subid existing, s)
      | None => (subid sub, SNode (children s) (<[client sub := sub]> (subs s)))
      end
  | p :: rest =>
      match children s !! p with
      | None =>
          let '(id, nc) := addSub rest sub NewSnode in
          (id, SNode (<[p := nc]> (children s)) (subs s))
      | Some child =>
          let '(id, child') := addSub rest sub child in
          (id, SNode (<[p := child']> (children s)) (subs s))
      end
  end.

(** The subscription tree and the map from a subscription id to the node
    that holds it, a node being known by its path from the root. *)
Record Terminus := mkTerminus {
  stree : snode;
  rstree : gmap UniqueMessageID (list string)
}.

Definition CreateTerminus : Terminus := mkTerminus NewSnode ∅.

Definition AddSub (topic : string) (s : subscription) (tm : Terminus)
  : UniqueMessageID * Terminus :=
  let parts := Util.Split topic in
  let '(id, tree) := addSub parts s (stree tm) in
  if bool_decide (id = subid s)
  then (id, mkTerminus tree (<[id := parts]> (rstree tm)))
  else (id, mkTerminus tree (rstree tm)).

Definition RMatchSubs (topic : string) (tm : Terminus) : list subscription :=
  rmatchSubs (stree tm) (Util.Split topic).

(** The fields of [Message] that the terminus reads. *)
Record Message := mkMessage {
  Type_ : Z;
  Consumers : Z;
  Topic : string;
  UMid : UniqueMessageID
}.

(** [Subscribe]; a topic shorter than 39 bytes is a panic, the result
    [None]. *)
Definition Subscribe (cl : clientid) (m : Message) (tm : Terminus)
  : option (UniqueMessageID * Terminus) :=
  let newsub := mkSubscription (UMid m) cl (Type_ m =? TypeTap) in
  if (String.length (Topic m) <? 39)%nat then None
  else Some (AddSub (Topic m) newsub tm).

(** [rand.Intn(n)], from the next raw draw of the generator. *)
Definition Intn (draw n : nat) : nat := draw mod n.

(** [clientlist[i], clientlist[j] = clientlist[j], clientlist[i]] *)
Definition swap (l : list subscription) (i j : nat) : list subscription :=
  match l !! i, l !! j with
  | Some a, Some b => <[i := b]> (<[j := a]> l)
  | _, _ => l
  end.

(** [for i := range clientlist { j := rand.Intn(i + 1); swap i j }], the
    generator being the list of its raw draws. *)
Definition shuffle (draws : list nat) (clientlist : list subscription)
  : list subscription :=
  foldl (fun l i => swap l i (Intn (nth i draws O) (i + 1))) clientlist
        (seq 0 (length clientlist)).

(** The delivery loop of [Publish]: the subscriptions whose handler is
    started, and [count]. *)
Fixpoint deliver (consumers : Z) (clientlist : list subscription) (count : Z)
  : list subscription * Z :=
  match clientlist with
  | [] => ([], count)
  | sub :: rest =>
      if negb (tap sub) && negb (consumers =? 0) && (count >=? consumers)
      then deliver consumers rest count (* We hit limit *)
      else let '(ds, n) := deliver consumers rest (count + 1) in (sub :: ds, n)
  end.

(** [Publish], in internal/core/terminus.go. *)
Definition Publish (m : Message) (draws : list nat) (tm : Terminus)
  : list subscription :=
  let clientlist := RMatchSubs (Topic m) tm in
  let clientlist :=
    if negb (Consumers m =? 0) then shuffle draws clientlist else clientlist in
  fst (deliver (Consumers m) clientlist 0).

End Core.

(** ** The terminus of internal/core/types.go

    The tree and its walker are those of terminus.go; [Publish] queues a
    [MsgSubPair] per delivery instead of starting a handler, tests the limit
    with [==], and leaves what remains of the limit in the message. *)

Module CoreQueue.
Import Core.

Fixpoint deliver (consumers : Z) (clientlist : list subscription) (count : Z)
  : list subscription * Z :=
  match clientlist with
  | [] => ([], count)
  | sub :: rest =>
      if negb (tap sub) && negb (consumers =? 0) && (count =? consumers)
      then deliver consumers rest count (* We hit limit *)
      else let '(ds, n) := deliver consumers rest (count + 1) in (sub :: ds, n)
  end.

(** [Publish]: the subscriptions a [MsgSubPair] is queued for, and
    [m.Consumers] after the call. *)
Definition Publish (m : Message) (draws : list nat) (tm : Terminus)
  : list subscription * Z :=
  let clientlist := RMatchSubs (Topic m) tm in
  let clientlist :=
    if negb (Consumers m =? 0) then shuffle draws clientlist else clientlist in
  let '(ds, count) := deliver (Consumers m) clientlist 0 in
  (ds, if negb (Consumers m =? 0) && (count <? Consumers m)
       then Consumers m - count else Consumers m).

End CoreQueue.

(** ** The resolution cache of internal/core/types.go *)

Module Resolution.
Import Objects.

Definition StateUnknown : Z := 0.
Definition StateValid : Z := 1.
Definition StateExpired : Z := 2.
Definition StateRevoked : Z := 3.
Definition StateError : Z := 4.

(** [bc.Bytes32] is [[32]byte].  Modelled from the spec: [bc.SliceToBytes32]
    is not among the sources; a hash or VK, "32 bytes", is copied into the
    array. *)
Abbreviation Bytes32 := (list byte).
Definition SliceToBytes32 (b : list byte) : Bytes32 := copy32 b.

(** What the cache reads of an entity. *)
Record Entity := mkEntity {
  ent_vk : list byte
}.

Record registryEntityResult := mkEntityResult {
  er_ro : Entity;
  er_s : Z
}.

Record registryDOTResult := mkDOTResult {
  dr_ro : DOT;
  dr_s : Z
}.

(** The maps of [ResolutionData] that entities and DOTs go through. *)
Record ResolutionData := mkResolutionData {
  (* vk -> entity *)
  entityCache : gmap Bytes32 registryEntityResult;
  (* dothash -> dot *)
  dotHashCache : gmap Bytes32 registryDOTResult;
  (* dot from vk -> hash used for inv *)
  dotFromInvCache : gmap Bytes32 (list Bytes32);
  dotFromCompleteCache : gmap Bytes32 (list Bytes32);
  (* dot to vk -> hash used for inv *)
  dotToInvCache : gmap Bytes32 (list Bytes32)
}.

Definition newResolutionData : ResolutionData :=
  mkResolutionData ∅ ∅ ∅ ∅ ∅.

(** Discard cached DOT.  The two indexes are left as they are. *)
Definition flushDOT (hash : Bytes32) (rd : ResolutionData) : ResolutionData :=
  mkResolutionData (entityCache rd) (delete hash (dotHashCache rd))
    (dotFromInvCache rd) (dotFromCompleteCache rd) (dotToInvCache rd).

Definition FlushDOT (hash : list byte) (rd : ResolutionData) : ResolutionData :=
  flushDOT (SliceToBytes32 hash) rd.

(** [for _, dhash := range hashes { bw.flushDOT(dhash) }] *)
Definition flush_all (hashes : list Bytes32) (rd : ResolutionData) : ResolutionData :=
  foldl (fun rd dhash => flushDOT dhash rd) rd hashes.

(** Discard cached entity and call FlushDOT on all dots that use the
    entity. *)
Definition FlushEntity (vk : list byte) (rd : ResolutionData) : ResolutionData :=
  let kvk := SliceToBytes32 vk in
  let rd := mkResolutionData (delete kvk (entityCache rd)) (dotHashCache rd)
              (dotFromInvCache rd) (dotFromCompleteCache rd) (dotToInvCache rd) in
  let dTo := default [] (dotToInvCache rd !! kvk) in
  let rd := flush_all dTo rd in
  let rd := mkResolutionData (entityCache rd) (dotHashCache rd)
              (dotFromInvCache rd) (dotFromCompleteCache rd)
              (delete kvk (dotToInvCache rd)) in
  let dFrom := default [] (dotFromInvCache rd !! kvk) in
  let rd := flush_all dFrom rd in
  mkResolutionData (entityCache rd) (dotHashCache rd)
    (delete kvk (dotFromInvCache rd)) (dotFromCompleteCache rd)
    (dotToInvCache rd).

Definition FlushGrantedFromCache (vk : list byte) (rd : ResolutionData)
  : ResolutionData :=
  mkResolutionData (entityCache rd) (dotHashCache rd) (dotFromInvCache rd)
    (delete (SliceToBytes32 vk) (dotFromCompleteCache rd)) (dotToInvCache rd).

Definition resolveEntityFromCache (vk : list byte) (rd : ResolutionData)
  : bool * option Entity * Z :=
  match entityCache rd !! SliceToBytes32 vk with
  | Some entry => (true, Some (er_ro entry), er_s entry)
  | None => (false, None, StateUnknown)
  end.

Definition cacheEntity (ro : Entity) (s : Z) (rd : ResolutionData)
  : ResolutionData :=
  mkResolutionData
    (<[SliceToBytes32 (ent_vk ro) := mkEntityResult ro s]> (entityCache rd))
    (dotHashCache rd) (dotFromInvCache rd) (dotFromCompleteCache rd)
    (dotToInvCache rd).

Definition resolveDOTFromCache (hash : list byte) (rd : ResolutionData)
  : bool * option DOT * Z :=
  match dotHashCache rd !! SliceToBytes32 hash with
  | Some entry => (true, Some (dr_ro entry), dr_s entry)
  | None => (false, None, StateUnknown)
  end.

(** [for _, hash := range l { if hash == khash { existing = true; break } }] *)
Definition existing_in (khash : Bytes32) (l : list Bytes32) : bool :=
  existsb (fun hash => bool_decide (hash = khash)) l.

Definition cacheDOT (ro : DOT) (s : Z) (rd : ResolutionData) : ResolutionData :=
  let khash := SliceToBytes32 (GetHash ro) in
  let hashes := <[khash := mkDOTResult ro s]> (dotHashCache rd) in
  let kFromVK := SliceToBytes32 (GetGiverVK ro) in
  let kToVK := SliceToBytes32 (GetReceiverVK ro) in
  (* If the has does not exist in one of the caches, it doesn't
     exist in both (and vice versa) *)
  let from := default [] (dotFromInvCache rd !! kFromVK) in
  if existing_in khash from then
    mkResolutionData (entityCache rd) hashes (dotFromInvCache rd)
      (dotFromCompleteCache rd) (dotToInvCache rd)
  else
    mkResolutionData (entityCache rd) hashes
      (<[kFromVK := from ++ [khash]]> (dotFromInvCache rd))
      (dotFromCompleteCache rd)
      (<[kToVK := default [] (dotToInvCache rd !! kToVK) ++ [khash]]>
         (dotToInvCache rd)).

Definition cacheGrantedDOTs (vk : list byte) (dots : list Bytes32)
    (rd : ResolutionData) : ResolutionData :=
  mkResolutionData (entityCache rd) (dotHashCache rd) (dotFromInvCache rd)
    (<[SliceToBytes32 vk := dots]> (dotFromCompleteCache rd)) (dotToInvCache rd).

(** The operations on the cache that [FlushEntity], [FlushDOT] and
    [ResolveDOT] (on a miss) come to. *)
Inductive cache_op :=
  | OpCacheDOT (ro : DOT) (s : Z)
  | OpCacheEntity (ro : Entity) (s : Z)
  | OpFlushDOT (hash : list byte)
  | OpFlushEntity (vk : list byte)
  | OpFlushGrantedFromCache (vk : list byte).

Definition run_op (rd : ResolutionData) (op : cache_op) : ResolutionData :=
  match op with
  | OpCacheDOT ro s => cacheDOT ro s rd
  | OpCacheEntity ro s => cacheEntity ro s rd
  | OpFlushDOT hash => FlushDOT hash rd
  | OpFlushEntity vk => FlushEntity vk rd
  | OpFlushGrantedFromCache vk => FlushGrantedFromCache vk rd
  end.

Definition run_ops (ops : list cache_op) (rd : ResolutionData) : ResolutionData :=
  foldl run_op rd ops.

(** The invariant that the comments of [FlushEntity] and [cacheDOT] rely on:
    every cached DOT is listed under its giver in the from-index and under
    its receiver in the to-index. *)
Definition indexed (rd : ResolutionData) : Prop :=
  forall (khash : Bytes32) (entry : registryDOTResult),
    dotHashCache rd !! khash = Some entry ->
    khash ∈ default [] (dotFromInvCache rd !! SliceToBytes32 (GetGiverVK (dr_ro entry))) /\
    khash ∈ default [] (dotToInvCache rd !! SliceToBytes32 (GetReceiverVK (dr_ro entry))).

End Resolution.

(** ** package api: the chain builder *)

Module Api.
Import Objects.

(** Modelled from the spec: [util.EverybodySlice] is not among the sources;
    the "everybody" sentinel is the "all-zero 32-byte VK". *)
Definition EverybodySlice : list byte := replicate 32 x00.

Record CacheKey := mkCacheKey {
  ck_uri : string;
  ck_perms : string;
  ck_target : list byte;
  ck_nsvk : list byte
}.

(** captures the dot, and it's state *)
Record DOTLink := mkDOTLink {
  D : DOT;
  S : Z
}.

Record scenario := mkScenario {
  chain : list DOT;
  suffix : string
}.

Definition TTL (s : scenario) : Z :=
  foldl (fun ttl d => let ttl := ttl - 1 in
                      if GetTTL d <? ttl then GetTTL d else ttl)
        256 (chain s).

Definition NewScenario (d : DOT) : scenario :=
  mkScenario [d] (GetAccessURISuffix d).

Definition AddAndClone (s : scenario) (d : DOT) : option scenario :=
  let cc := chain s ++ [d] in
  let '(nuri, okay) := Util.RestrictBy (suffix s) (GetAccessURISuffix d) in
  if negb okay then None
  else
    let rv := mkScenario cc nuri in
    if TTL rv <? 0 then None else Some rv.

(** [s.chain[len(s.chain)-1].GetReceiverVK()]; no scenario is without a
    DOT. *)
Definition GetTerminalVK (s : scenario) : list byte :=
  default [] (GetReceiverVK <$> last (chain s)).

Record ChainBuilder := mkChainBuilder {
  cb_uri : string;
  cb_perms : string;
  cb_target : list byte;
  cb_nsvk : list byte;
  cb_urisuffix : string;
  cb_desperms : AccessDOTPermissionSet
}.

(** [strings.SplitN(s, "/", 2)] *)
Fixpoint SplitN2 (s : string) : list string :=
  match s with
  | EmptyString => [EmptyString]
  | String c s' =>
      if Ascii.eqb c "/" then [EmptyString; s']
      else match SplitN2 s' with
           | h :: t => String c h :: t
           | [] => [String c EmptyString]
           end
  end.

Section Builder.
Variable sha256 : list byte -> list byte.
(** The router that the builder asks: the DOTs granted from a VK, the key
    behind a name, and the chains already built for a key. *)
Variable GetDOTsFrom : list byte -> list DOTLink.
Variable ResolveKey : string -> option (list byte).
Variable LookupChain : CacheKey -> option (list DChain).

(** Modelled from the spec: [CreateDChain] and [GetChainHash] are not among
    the sources.  A DChain is the "ordered sequence of DOT hashes", its
    "chain hash = SHA-256 of the concatenated hash sequence". *)
Definition ToChain (s : scenario) : DChain :=
  let hashes := concat (GetHash <$> chain s) in
  mkDChain hashes (sha256 hashes) (Some <$> chain s) true ROAccessDChain true.

Definition GetChainHash (dc : DChain) : list byte := chainhash dc.

Definition dotUseful (b : ChainBuilder) (d : DOT) : bool :=
  let adps := GetPermissionSet d in
  if negb (bytes_Equal (GetAccessURIMVK d) (cb_nsvk b)) then false
  else if negb (IsSubsetOf (cb_desperms b) adps) then false
  else
    let '(nu, ok) := Util.RestrictBy (cb_urisuffix b) (GetAccessURISuffix d) in
    if negb ok || negb (String.eqb nu (cb_urisuffix b)) then false
    else true.

Definition getOptions (b : ChainBuilder) (from : list byte) : list DOT :=
  D <$> filter (fun dl => S dl = Resolution.StateValid /\ dotUseful b (D dl) = true)
               (GetDOTsFrom from).

Definition reaches_target (b : ChainBuilder) (s : scenario) : bool :=
  bytes_Equal (GetTerminalVK s) (cb_target b) ||
  bytes_Equal (GetTerminalVK s) EverybodySlice.

(** [for _, dt := range opts { ... }] of the graph walk: the scenarios
    pushed onto [validscenarios] and onto [evals]. *)
Fixpoint extend (b : ChainBuilder) (s : scenario) (opts : list DOT)
  : list scenario * list scenario :=
  match opts with
  | [] => ([], [])
  | dt :: opts' =>
      let '(vs, es) := extend b s opts' in
      match AddAndClone s dt with
      | None => (vs, es)
      | Some newscenario =>
          if reaches_target b newscenario
          then (newscenario :: vs, es)
          else (vs, newscenario :: es)
      end
  end.

(** [for evals.Front() != nil { ... }] *)
Fixpoint graph_walk (fuel : nat) (b : ChainBuilder)
    (evals validscenarios : list scenario) : outcome (list scenario) :=
  match fuel with
  | O => OutOfFuel
  | Datatypes.S k =>
      match evals with
      | [] => Ok validscenarios
      | s :: evals' =>
          let opts := getOptions b (GetTerminalVK s) in
          let '(vs, es) := extend b s opts in
          graph_walk k b (evals' ++ es) (validscenarios ++ vs)
      end
  end.

(** The last loop of [Build]: [seen] is read for every chain and written
    for none. *)
Fixpoint collect (seen : gmap (list byte) bool) (validscenarios : list scenario)
    (rv : list DChain) : list DChain :=
  match validscenarios with
  | [] => rv
  | e :: rest =>
      let chn := ToChain e in
      let k := GetChainHash chn in
      match seen !! k with
      | None => collect seen rest (rv ++ [chn])
      | Some _ => collect seen rest rv
      end
  end.

(** [Build]; the chains returned on a cache miss are also handed to
    [CacheChain]. *)
Definition Build (fuel : nat) (b : ChainBuilder) : outcome (list DChain) :=
  let ck := mkCacheKey (cb_uri b) (cb_perms b)
              (copy32 (cb_target b)) (copy32 (cb_nsvk b)) in
  match LookupChain ck with
  | Some cached => Ok cached
  | None =>
      match SplitN2 (cb_uri b) with
      | [p0; p1] =>
          if negb (Util.valid (Util.AnalyzeSuffix p1))
          then Err (ErrorString "Invalid URI")
          else
            match ResolveKey p0 with
            | None => Err (ErrorString "could not resolve key")
            | Some mvk =>
                let initial := getOptions b mvk in
                let starts := NewScenario <$> initial in
                let validscenarios := filter (fun s => reaches_target b s = true) starts in
                let evals := filter (fun s => reaches_target b s <> true) starts in
                all ← graph_walk fuel b evals validscenarios;
                Ok (collect ∅ all [])
            end
      | _ => Err (ErrorString "Invalid URI")
      end
  end.
End Builder.

End Api.

(** ** package objects: building and packing DOTs and DChains *)

Module DOTs.
Import Objects.

(** [byte(v)] *)
Definition to_byte (v : Z) : byte :=
  default x00 (Byte.of_N (Z.to_N (v mod 256))).

(** [uint64(v)] and [uint16(v)] *)
Definition uint64 (v : Z) : Z := v mod 2 ^ 64.
Definition uint16 (v : Z) : Z := v mod 2 ^ 16.

(** [copy(dst, src)]: [dst] after the call. *)
Definition copy (dst src : list byte) : list byte :=
  take (length dst) src ++ drop (length src) dst.

(** The [n] bytes that [binary.LittleEndian] writes for [v]. *)
Fixpoint le_bytes (n : nat) (v : Z) : list byte :=
  match n with
  | O => []
  | S k => to_byte v :: le_bytes k (v / 256)
  end.

(** [binary.LittleEndian.PutUint64(b, v)] and [PutUint16(b, v)]; every
    buffer they are handed here is as long as the number written. *)
Definition PutUint64 (b : list byte) (v : Z) : list byte := copy b (le_bytes 8 v).
Definition PutUint16 (b : list byte) (v : Z) : list byte := copy b (le_bytes 2 v).

Definition toBytes (p : PublishLimits) : list byte :=
  let rv := replicate 17 x00 in
  let rv := PutUint64 rv (uint64 (TxLimit p)) in
  let rv := PutUint64 rv (uint64 (StoreLimit p)) in
  <[16%nat := to_byte (Retain p)]> rv.

(** *** DChain *)

(** [NumHashes] returns the length of the chain. *)
Definition NumHashes (ro : DChain) : outcome Z :=
  if elaborated ro then Ok (Z.of_nat (length (dots ro))) else Panic.

(** [GetHash] of a DChain returns the hash at the specific index. *)
Definition GetHashAt (ro : DChain) (num : nat) : outcome (list byte) :=
  slice (dothashes ro) (num * 32) ((num + 1) * 32).

Definition DChain_GetRONum (ro : DChain) : Z := dc_ronum ro.

(** [GetContent] of a DChain returns the serialised content. *)
Definition DChain_GetContent (ro : DChain) : outcome (list byte) :=
  if (dc_ronum ro =? ROAccessDChain) || (dc_ronum ro =? ROPermissionDChain)
  then Ok (dothashes ro)
  else if (dc_ronum ro =? ROAccessDChainHash) || (dc_ronum ro =? ROPermissionDChainHash)
  then Ok (chainhash ro)
  else Panic.

(** *** DOT: the setters *)

(** [CreateDOT] is used to create a DOT from scratch. *)
Definition CreateDOT (isAccess : bool) (giverVK receiverVK : list byte) : DOT :=
  mkDOT [] [] giverVK receiverVK None None [] EmptyString EmptyString []
        isAccess 0 [] EmptyString EmptyString None
        false false false false false false false false ∅.

Definition SetCanConsume (normal plus star : bool) (ro : DOT) : outcome DOT :=
  if negb (isAccess ro) then Panic
  else
    let plus := plus || star in
    let normal := normal || plus in
    Ok (mkDOT (content ro) (hash ro) (giverVK ro) (receiverVK ro) (expires ro)
          (created ro) (revokers ro) (contact ro) (comment ro) (signature ro)
          (isAccess ro) (ttl ro) (mVK ro) (uriSuffix ro) (uri ro) (pubLim ro)
          (canPublish ro) normal plus star
          (canTap ro) (canTapPlus ro) (canTapStar ro) (canList ro) (kv ro)).

Definition SetCanTap (normal plus star : bool) (ro : DOT) : outcome DOT :=
  if negb (isAccess ro) then Panic
  else
    let plus := plus || star in
    let normal := normal || plus in
    Ok (mkDOT (content ro) (hash ro) (giverVK ro) (receiverVK ro) (expires ro)
          (created ro) (revokers ro) (contact ro) (comment ro) (signature ro)
          (isAccess ro) (ttl ro) (mVK ro) (uriSuffix ro) (uri ro) (pubLim ro)
          (canPublish ro) (canConsume ro) (canConsumePlus ro) (canConsumeStar ro)
          normal plus star (canList ro) (kv ro)).

Definition SetCanPublish (value : bool) (ro : DOT) : outcome DOT :=
  if negb (isAccess ro) then Panic
  else
    Ok (mkDOT (content ro) (hash ro) (giverVK ro) (receiverVK ro) (expires ro)
          (created ro) (revokers ro) (contact ro) (comment ro) (signature ro)
          (isAccess ro) (ttl ro) (mVK ro) (uriSuffix ro) (uri ro) (pubLim ro)
          value (canConsume ro) (canConsumePlus ro) (canConsumeStar ro)
          (canTap ro) (canTapPlus ro) (canTapStar ro) (canList ro) (kv ro)).

Definition SetCanList (value : bool) (ro : DOT) : outcome DOT :=
  if negb (isAccess ro) then Panic
  else
    Ok (mkDOT (content ro) (hash ro) (giverVK ro) (receiverVK ro) (expires ro)
          (created ro) (revokers ro) (contact ro) (comment ro) (signature ro)
          (isAccess ro) (ttl ro) (mVK ro) (uriSuffix ro) (uri ro) (pubLim ro)
          (canPublish ro) (canConsume ro) (canConsumePlus ro) (canConsumeStar ro)
          (canTap ro) (canTapPlus ro) (canTapStar ro) value (kv ro)).

(** [SetCreation] and [SetExpiry]; a time is its nanoseconds since 1970. *)
Definition SetCreation (time : Z) (ro : DOT) : DOT :=
  mkDOT (content ro) (hash ro) (giverVK ro) (receiverVK ro) (expires ro)
    (Some time) (revokers ro) (contact ro) (comment ro) (signature ro)
    (isAccess ro) (ttl ro) (mVK ro) (uriSuffix ro) (uri ro) (pubLim ro)
    (canPublish ro) (canConsume ro) (canConsumePlus ro) (canConsumeStar ro)
    (canTap ro) (canTapPlus ro) (canTapStar ro) (canList ro) (kv ro).

(** [SetCreationToNow], [now] being [time.Now().UnixNano()]: the time is cut
    to the millisecond. *)
Definition SetCreationToNow (now : Z) (ro : DOT) : DOT :=
  let t := now in
  let t := Z.quot t 1000000 in
  let t := t * 1000000 in
  SetCreation t ro.

Definition SetExpiry (time : Z) (ro : DOT) : DOT :=
  mkDOT (content ro) (hash ro) (giverVK ro) (receiverVK ro) (Some time)
    (created ro) (revokers ro) (contact ro) (comment ro) (signature ro)
    (isAccess ro) (ttl ro) (mVK ro) (uriSuffix ro) (uri ro) (pubLim ro)
    (canPublish ro) (canConsume ro) (canConsumePlus ro) (canConsumeStar ro)
    (canTap ro) (canTapPlus ro) (canTapStar ro) (canList ro) (kv ro).

(** [SetExpireFromNow] sets the creation time to now, and the expiry to the
    given delta from the creation time. *)
Definition SetExpireFromNow (now delta : Z) (ro : DOT) : DOT :=
  let ro := SetCreationToNow now ro in
  match created ro with
  | Some c => SetExpiry (c + delta) ro
  | None => ro
  end.

(** [GetRONum] returns the ronum of the dot. *)
Definition GetRONum (ro : DOT) : Z :=
  if isAccess ro then ROAccessDOT else ROPermissionDOT.

(** [GetContent] returns the binary representation of the DOT if Encode has
    been called. *)
Definition GetContent (ro : DOT) : list byte := content ro.

(** [SetPermission] sets the given key in a Permission DOT's table. *)
Definition SetPermission (key value : string) (ro : DOT) : outcome DOT :=
  if isAccess ro then Panic
  else if (255 <? Z.of_nat (String.length key)) ||
          (65535 <? Z.of_nat (String.length value))
  then Panic
  else
    Ok (mkDOT (content ro) (hash ro) (giverVK ro) (receiverVK ro) (expires ro)
          (created ro) (revokers ro) (contact ro) (comment ro) (signature ro)
          (isAccess ro) (ttl ro) (mVK ro) (uriSuffix ro) (uri ro) (pubLim ro)
          (canPublish ro) (canConsume ro) (canConsumePlus ro) (canConsumeStar ro)
          (canTap ro) (canTapPlus ro) (canTapStar ro) (canList ro)
          (<[key := value]> (kv ro))).

(** [SetTTL] sets the TTL of a dot. *)
Definition SetTTL (v : Z) (ro : DOT) : outcome DOT :=
  if (v <? 0) || (v >? 255) then Panic
  else
    Ok (mkDOT (content ro) (hash ro) (giverVK ro) (receiverVK ro) (expires ro)
          (created ro) (revokers ro) (contact ro) (comment ro) (signature ro)
          (isAccess ro) v (mVK ro) (uriSuffix ro) (uri ro) (pubLim ro)
          (canPublish ro) (canConsume ro) (canConsumePlus ro) (canConsumeStar ro)
          (canTap ro) (canTapPlus ro) (canTapStar ro) (canList ro) (kv ro)).

(** [GetPermString] gets the human readable permission string for an access
    dot. *)
Definition GetPermString (ro : DOT) : outcome string :=
  if negb (isAccess ro) then Panic
  else
    let rv := EmptyString in
    let rv := if canConsumeStar ro then String.append rv "C*"
              else if canConsumePlus ro then String.append rv "C+"
              else if canConsume ro then String.append rv "C"
              else rv in
    let rv := if canTapStar ro then String.append rv "T*"
              else if canTapPlus ro then String.append rv "T+"
              else if canTap ro then String.append rv "T"
              else rv in
    let rv := if canPublish ro then String.append rv "P" else rv in
    let rv := if canList ro then String.append rv "L" else rv in
    Ok rv.

Section Encode.
(** [crypto/sha256], [encoding/base64] and what [crypto.SignBlob] writes
    into the signature buffer are taken as they come. *)
Variable sha256 : list byte -> list byte.
Variable base64url : list byte -> string.
Variable SignBlob : list byte -> list byte -> list byte -> list byte.

(** [SetAccessURI] sets the URI of an Access DOT. *)
Definition SetAccessURI (mvk : list byte) (suffix : string) (ro : DOT) : outcome DOT :=
  if negb (isAccess ro) then Panic
  else
    Ok (mkDOT (content ro) (hash ro) (giverVK ro) (receiverVK ro) (expires ro)
          (created ro) (revokers ro) (contact ro) (comment ro) (signature ro)
          (isAccess ro) (ttl ro) mvk suffix
          (String.append (base64url mvk) (String "/" suffix)) (pubLim ro)
          (canPublish ro) (canConsume ro) (canConsumePlus ro) (canConsumeStar ro)
          (canTap ro) (canTapPlus ro) (canTapStar ro) (canList ro) (kv ro)).

(** The contact and the comment, packed alike: nothing for the empty
    string, and no more than 255 bytes, the field of the DOT being cut to what
    is packed. *)
Definition put_text (tag : byte) (buf : list byte) (s : string)
  : list byte * string :=
  if String.eqb s EmptyString then (buf, s)
  else
    let s := if (255 <? String.length s)%nat then substring 0 255 s else s in
    (buf ++ [tag; to_byte (Z.of_nat (String.length s))] ++ list_byte_of_string s, s).

(** [if flag { perm |= mask }] *)
Definition or_if (flag : bool) (mask perm : Z) : Z :=
  if flag then Z.lor perm mask else perm.

Definition perm_word (ro : DOT) : Z :=
  let perm := 0 in
  let perm := or_if (canConsume ro) 0x01 perm in
  let perm := or_if (canConsumePlus ro) 0x03 perm in
  let perm := or_if (canConsumeStar ro) 0x07 perm in
  let perm := or_if (canTap ro) 0x08 perm in
  let perm := or_if (canTapPlus ro) 0x18 perm in
  let perm := or_if (canTapStar ro) 0x38 perm in
  let perm := or_if (canPublish ro) 0x40 perm in
  let perm := or_if (canList ro) 0x80 perm in
  perm.

(** [Encode] will work out the content of the DOT based on the fields that
    have been set, and sign it with the given sk: the DOT after the call.
    [for key, value := range ro.kv] walks the table of a permission DOT in
    no fixed order; [order] is the order of the walk, the entries of the
    table in some order. *)
Definition EncodeWalk (order : list (string * string)) (sk : list byte)
    (ro : DOT) : DOT :=
  let buf := replicate 65 x00 in
  let buf := copy buf (giverVK ro) in
  let buf := take 32 buf ++ copy (drop 32 buf) (receiverVK ro) in
  let buf := <[64%nat := to_byte (ttl ro)]> buf in
  let buf := match pubLim ro with
             | Some p => buf ++ [x01; x11] ++ toBytes p
             | None => buf
             end in
  let buf := match created ro with
             | Some t => buf ++ [x02; x08]
                           ++ PutUint64 (replicate 8 x00) (uint64 (Z.quot t 1000000))
             | None => buf
             end in
  let buf := match expires ro with
             | Some t => buf ++ [x03; x08]
                           ++ PutUint64 (replicate 8 x00) (uint64 (Z.quot t 1000000))
             | None => buf
             end in
  let buf := foldl (fun buf dr => buf ++ [x04; x20] ++ dr) buf (revokers ro) in
  let '(buf, contact) := put_text x05 buf (contact ro) in
  let '(buf, comment) := put_text x06 buf (comment ro) in
  let buf := buf ++ [x00] in
  let buf :=
    if isAccess ro then
      let buf := buf ++ [to_byte (perm_word ro); x00] in
      let buf := buf ++ mVK ro in
      let buf := buf ++ PutUint16 (replicate 2 x00)
                          (uint16 (Z.of_nat (String.length (uriSuffix ro)))) in
      buf ++ list_byte_of_string (uriSuffix ro)
    else
      let buf :=
        foldl (fun buf '(key, value) =>
                 let buf := buf ++ [to_byte (Z.of_nat (String.length key))] in
                 let buf := buf ++ list_byte_of_string key in
                 let buf := buf ++ PutUint16 (replicate 2 x00)
                                     (uint16 (Z.of_nat (String.length value))) in
                 buf ++ list_byte_of_string value)
              buf order in
      buf ++ [x00] in
  let hash := sha256 buf in
  let sig := copy (replicate 64 x00) (SignBlob sk (giverVK ro) buf) in
  let buf := buf ++ sig in
  mkDOT buf hash (giverVK ro) (receiverVK ro) (expires ro) (created ro)
    (revokers ro) contact comment sig (isAccess ro) (ttl ro) (mVK ro)
    (uriSuffix ro) (uri ro) (pubLim ro)
    (canPublish ro) (canConsume ro) (canConsumePlus ro) (canConsumeStar ro)
    (canTap ro) (canTapPlus ro) (canTapStar ro) (canList ro) (kv ro).

(** [Encode] when the table is walked in the order of [map_to_list].  The
    table of an access DOT is not walked at all. *)
Definition Encode (sk : list byte) (ro : DOT) : DOT :=
  EncodeWalk (map_to_list (kv ro)) sk ro.
End Encode.

End DOTs.

(** ** package core: the client's side of the terminus *)

Module CoreClient.
Import Core.

(** [delete(node.subs, cid)] for the node that [rstree] points to.  The node
    is known by its path from the root, as in [Terminus]; a path that leaves
    the tree changes nothing (no node is ever removed, so a path that
    [AddSub] recorded stays in the tree). *)
Fixpoint delete_at (parts : list string) (cid : clientid) (s : snode) : snode :=
  match parts with
  | [] => SNode (children s) (delete cid (subs s))
  | p :: rest =>
      match children s !! p with
      | Some child => SNode (<[p := delete_at rest cid child]> (children s)) (subs s)
      | None => s
      end
  end.

(** [Unsubscribe], for the client [cl]. *)
Definition Unsubscribe (cl : clientid) (subid : UniqueMessageID) (tm : Terminus)
  : Terminus :=
  match rstree tm !! subid with
  | None => tm
  | Some node =>
      (* TODO we don't clean up the tree! *)
      mkTerminus (delete_at node cl (stree tm)) (rstree tm)
  end.

End CoreClient.

(** ** package api: a new chain builder *)

Module ApiBuilder.
Import Objects Api.

Section NewChainBuilder.
(** The key behind a name, as the router resolves it, and
    [objects.GetADPSFromPermString], [None] for [nil]. *)
Variable ResolveKey : string -> option (list byte).
Variable GetADPSFromPermString : string -> option AccessDOTPermissionSet.

(** [NewChainBuilder]: [Ok None] is the [nil] returned for bad permissions;
    a key that does not resolve and a URI without "/" are panics. *)
Definition NewChainBuilder (uri perms : string) (target : list byte)
  : outcome (option ChainBuilder) :=
  match GetADPSFromPermString perms with
  | None => Ok None
  | Some desperms =>
      let uriparts := SplitN2 uri in
      match uriparts !! 0%nat with
      | None => Panic
      | Some part0 =>
          match ResolveKey part0 with
          | None => Panic (* need to fix this *)
          | Some nsvk =>
              match uriparts !! 1%nat with
              | None => Panic
              | Some part1 =>
                  Ok (Some (mkChainBuilder uri perms target nsvk part1 desperms))
              end
          end
      end
  end.
End NewChainBuilder.

End ApiBuilder.

(** ** package objects: a DOT read from a slice of a larger buffer

    [NewDOT] is also handed slices that end before their backing array does
    ([LoadMessage] cuts them out of the buffer of the message).  An index
    expression [content[i]] is bounded by the length of such a slice, a slice
    expression [content[a:b]] by its capacity, so that it can hold bytes that
    lie behind the content. *)

Module SubSlice.
Import Objects.

Section Spare.
(** The bytes of the backing array between the length and the capacity of
    the content. *)
Variable spare : list byte.

(** [content[a:b]] *)
Definition slice (content : list byte) (a b : nat) : outcome (list byte) :=
  if (a <=? b)%nat && (b <=? length content + length spare)%nat
  then Ok (take (b - a) (drop a (content ++ spare)))
  else Panic.

(** One turn of the first [for] of [NewDOT], on the header field at [idx]:
    whether the tag 0 ended the loop, the index after the field, and the
    header. *)
Definition header_field (ronum : Z) (content : list byte) (idx : nat)
    (h : Header) : outcome (bool * nat * Header) :=
  tag ← index content idx;
  match byte_val tag with
  | 0x01 => (* Publish limits *)
      l ← index content (idx + 1);
      if negb (byte_val l =? 17) then
        NewObjectError ronum "Invalid publim in DoT"
      else
        let idx := (idx + 2)%nat in
        b0 ← slice_from content idx; tx ← Uint64 b0;
        b1 ← slice_from content (idx + 8); st ← Uint64 b1;
        r ← index content (idx + 16);
        Ok (false, (idx + 17)%nat,
            mkHeader (Some (mkPublishLimits (int64 tx) (int64 st) (byte_val r)))
              (h_created h) (h_expires h) (h_revokers h)
              (h_contact h) (h_comment h))
  | 0x02 => (* Creation date *)
      l ← index content (idx + 1);
      if negb (byte_val l =? 8) then
        NewObjectError ronum "Invalid creation date in DoT"
      else
        let idx := (idx + 2)%nat in
        b0 ← slice_from content idx; t ← unix_ms b0;
        Ok (false, (idx + 8)%nat,
            mkHeader (h_pubLim h) (Some t) (h_expires h) (h_revokers h)
              (h_contact h) (h_comment h))
  | 0x03 => (* Expiry date *)
      l ← index content (idx + 1);
      if negb (byte_val l =? 8) then
        NewObjectError ronum "Invalid expiry date in DoT"
      else
        let idx := (idx + 2)%nat in
        b0 ← slice_from content idx; t ← unix_ms b0;
        Ok (false, (idx + 8)%nat,
            mkHeader (h_pubLim h) (h_created h) (Some t) (h_revokers h)
              (h_contact h) (h_comment h))
  | 0x04 => (* Delegated revoker *)
      l ← index content (idx + 1);
      if negb (byte_val l =? 8) then
        NewObjectError ronum "Invalid delegated revoker in DoT"
      else
        let idx := (idx + 2)%nat in
        r ← slice content idx (idx + 32);
        Ok (false, (idx + 32)%nat,
            mkHeader (h_pubLim h) (h_created h) (h_expires h)
              (h_revokers h ++ [r]) (h_contact h) (h_comment h))
  | 0x05 => (* contact *)
      l ← index content (idx + 1);
      let ln := Z.to_nat (byte_val l) in
      c ← slice content (idx + 2) (idx + 2 + ln);
      Ok (false, (idx + (2 + ln))%nat,
          mkHeader (h_pubLim h) (h_created h) (h_expires h) (h_revokers h)
            (to_string c) (h_comment h))
  | 0x06 => (* Comment *)
      l ← index content (idx + 1);
      let ln := Z.to_nat (byte_val l) in
      c ← slice content (idx + 2) (idx + 2 + ln);
      Ok (false, (idx + (2 + ln))%nat,
          mkHeader (h_pubLim h) (h_created h) (h_expires h) (h_revokers h)
            (h_contact h) (to_string c))
  | 0x00 => (* End *)
      Ok (true, (idx + 1)%nat, h)
  | _ => (* Skip unknown header *)
      l ← index content (idx + 1);
      Ok (false, (idx + (Z.to_nat (byte_val l) + 1))%nat, h)
  end.

(** The first [for] of [NewDOT]: header fields up to the tag 0. *)
Fixpoint header_loop (fuel : nat) (ronum : Z) (content : list byte)
    (idx : nat) (h : Header) : outcome (nat * Header) :=
  match fuel with
  | O => OutOfFuel
  | S k =>
      '(done, idx, h) ← header_field ronum content idx h;
      if done : bool then Ok (idx, h) else header_loop k ronum content idx h
  end.

(** One turn of the [for] over the key-value pairs of a permission DOT. *)
Definition kv_pair (content : list byte) (idx : nat) (kv : gmap string string)
  : outcome (bool * nat * gmap string string) :=
  kl ← index content idx;
  let keylen := Z.to_nat (byte_val kl) in
  if (keylen =? 0)%nat then Ok (true, (idx + 1)%nat, kv)
  else
    key ← slice content (idx + 1) (idx + 1 + keylen);
    let idx := (idx + (1 + keylen))%nat in
    b ← slice_from content idx; vl ← Uint16 b;
    let valLen := Z.to_nat vl in
    val ← slice content (idx + 2) (idx + 2 + valLen);
    Ok (false, (idx + (2 + valLen))%nat, <[to_string key := to_string val]> kv).

Fixpoint kv_loop (fuel : nat) (content : list byte) (idx : nat)
    (kv : gmap string string) : outcome (nat * gmap string string) :=
  match fuel with
  | O => OutOfFuel
  | S k =>
      '(done, idx, kv) ← kv_pair content idx kv;
      if done : bool then Ok (idx, kv) else kv_loop k content idx kv
  end.

Section Codec.
Variable sha256 : list byte -> list byte.
Variable base64url : list byte -> string.

(** The tail of [NewDOT], from the label [done] on. *)
Definition NewDOT_tail (fuel : nat) (ronum : Z) (content : list byte)
    (g r : list byte) (t : byte) (idx : nat) (h : Header) : outcome RoutingObject :=
  let finish (idx : nat) (acc : bool) (perm : Z) (mvk : list byte)
             (sfx : string) (u : string) (kv : gmap string string) :=
    signed ← slice content 0 idx;
    sig ← slice content idx (idx + 64);
    Ok (RODOT (mkDOT content (sha256 signed) g r (h_expires h) (h_created h)
                 (h_revokers h) (h_contact h) (h_comment h) sig acc
                 (byte_val t) mvk sfx u (h_pubLim h)
                 (bit perm 0x0040)
                 (bit perm 0x0001 || bit perm 0x0002 || bit perm 0x0004)
                 (bit perm 0x0002 || bit perm 0x0004)
                 (bit perm 0x0004)
                 (bit perm 0x0008 || bit perm 0x0010 || bit perm 0x0020)
                 (bit perm 0x0010 || bit perm 0x0020)
                 (bit perm 0x0020)
                 (bit perm 0x0080)
                 kv)) in
  if ronum =? ROAccessDOT then
    b ← slice_from content idx; perm ← Uint16 b;
    let idx := (idx + 2)%nat in
    mvk ← slice content idx (idx + 32);
    let idx := (idx + 32)%nat in
    b ← slice_from content idx; ln ← Uint16 b;
    let idx := (idx + 2)%nat in
    sfx ← slice content idx (idx + Z.to_nat ln);
    finish (idx + Z.to_nat ln)%nat true perm mvk (to_string sfx)
      (String.append (base64url mvk) (String "/" (to_string sfx))) ∅
  else if ronum =? ROPermissionDOT then
    '(idx, kv) ← kv_loop fuel content idx ∅;
    finish idx false 0 [] EmptyString EmptyString kv
  else NewObjectError ronum "Unknown RONum".

Definition NewDOT_body (fuel : nat) (ronum : Z) (content : list byte)
  : outcome RoutingObject :=
  g ← slice content 0 32;
  r ← slice content 32 64;
  t ← index content 64;
  '(idx, h) ← header_loop fuel ronum content 65
                (mkHeader None None None [] EmptyString EmptyString);
  NewDOT_tail fuel ronum content g r t idx h.

(** [NewDOT] constructs a DOT from its packed form.  Each turn of either
    loop moves [idx] on, so the length of the content bounds them. *)
Definition NewDOT (ronum : Z) (content : list byte) : outcome RoutingObject :=
  recover ronum "Bad DoT" (NewDOT_body (S (length content)) ronum content).

End Codec.
End Spare.

End SubSlice.


(** * Specifications

    What the theorems below are stated with: the specification's reading of
    suffix analysis, the chains, tries and caches of its scenarios, and the
    notions that the proofs carry along. *)

(** ** The cursors of [RestrictBy] *)

Module CursorSpec.
Import Util.

(** The cursors with the roles of [from] and [by] exchanged. *)
Definition swap_cursor (c : Cursor) : Cursor :=
  mkCursor (bi c) (fi c) (bni c) (fni c) (fout c) (bout c).

(** The cursors stay inside the two slices, one step beyond at most. *)
Definition in_range (fp bp : list string) (c : Cursor) : Prop :=
  0 <= fi c <= len fp /\ 0 <= bi c <= len bp /\
  -1 <= fni c < len fp /\ -1 <= bni c < len bp.

End CursorSpec.

(** ** Suffix analysis, as specified *)

Module SuffixSpec.

Fixpoint any_char (p : ascii -> bool) (s : string) : bool :=
  match s with
  | EmptyString => false
  | String k s' => p k || any_char p s'
  end.

Definition is_bang (k : ascii) : bool := Ascii.eqb k "!".

(** The permitted set [[A-Za-z0-9._,()-]], character by character. *)
Definition permitted_set : string :=
  "ABCDEFGHIJKLMNOPQRSTUVWXYZabcdefghijklmnopqrstuvwxyz0123456789._,()-".

Definition in_permitted_set (k : ascii) : bool :=
  any_char (Ascii.eqb k) permitted_set.

(** The special cells "+", "$" and "*". *)
Definition is_special (c : string) : bool :=
  String.eqb c "*" || String.eqb c "+" || String.eqb c "$".

Definition is_empty (c : string) : bool := String.eqb c EmptyString.

(** A "!" that is a standalone cell or appears other than as the first
    character of a cell. *)
Definition bang_misplaced (c : string) : bool :=
  String.eqb c "!" ||
  match c with
  | EmptyString => false
  | String _ r => any_char is_bang r
  end.

(** A character outside the permitted set, in a cell that is not special;
    the "!" has its own rule. *)
Definition foreign_char (c : string) : bool :=
  negb (is_special c) &&
  any_char (fun k => negb (in_permitted_set k) && negb (is_bang k)) c.

(** A cell that starts a metadata tree: a "!" followed by more. *)
Definition bang_led (c : string) : bool :=
  match c with
  | String k (String _ _) => is_bang k
  | _ => false
  end.

Definition count (p : string -> bool) (cells : list string) : nat :=
  length (List.filter p cells).

(** The suffixes that the claim takes to be rejected. *)
Definition rejected_as_claimed (s : string) : bool :=
  let cells := Util.Split s in
  existsb is_empty cells ||
  (1 <? count Util.is_star cells)%nat ||
  existsb bang_misplaced cells ||
  existsb foreign_char cells.

(** The suffixes that are rejected: those, and the ones with more than one
    cell led by "!". *)
Definition rejected (s : string) : bool :=
  rejected_as_claimed s || (1 <? count bang_led (Util.Split s))%nat.

(** A cell that cannot stand in a suffix, whatever stands around it. *)
Definition cell_bad (c : string) : bool :=
  is_empty c || bang_misplaced c || foreign_char c.

Definition is_dollar (c : string) : bool := String.eqb c "$".

End SuffixSpec.

(** ** Chains *)

Module ChainSpec.
Import Objects Core.
#[local] Open Scope string_scope.

(** An access DOT as [CreateDOT] and the setters leave it. *)
Definition access_dot (giver receiver mvk : list byte) (ttl : Z)
    (suffix : string) (ps : AccessDOTPermissionSet) : DOT :=
  mkDOT [] [] giver receiver None None [] EmptyString EmptyString [] true ttl
        mvk suffix EmptyString None
        (CanPublish ps) (CanConsume ps) (CanConsumePlus ps) (CanConsumeStar ps)
        (CanTap ps) (CanTapPlus ps) (CanTapStar ps) (CanList ps) ∅.

(** The permission strings "C*T" and "C". *)
Definition perm_CstarT : AccessDOTPermissionSet :=
  mkADPS false true true true true false false false.
Definition perm_C : AccessDOTPermissionSet :=
  mkADPS false true false false false false false false.

(** The links after a DOT are in order: each is granted by the receiver of
    the one before, lies in the namespace [mvk], and its suffix restricts the
    URI merged so far. *)
Fixpoint linked (mvk tail : list byte) (uri : string) (links : list DOT) : Prop :=
  match links with
  | [] => True
  | d :: links' =>
      tail = GetGiverVK d /\ mvk = GetAccessURIMVK d /\
      exists uri', Util.RestrictBy uri (GetAccessURISuffix d) = (uri', true) /\
                   linked mvk (GetReceiverVK d) uri' links'
  end.

(** The variables of the walk after the checks on the first DOT. *)
Definition start (firstdot : DOT) (uri : string) : Walk :=
  mkWalk (GetTTL firstdot) (GetPermissionSet firstdot)
         (GetReceiverVK firstdot) uri.

(** Four DOTs with the TTL 3, linked M to A to B to C to D on a/*. *)
Definition ttl3_chain : list DOT :=
  [access_dot [x00] [x01] [x00] 3 "a/*" perm_CstarT;
   access_dot [x01] [x02] [x00] 3 "a/*" perm_CstarT;
   access_dot [x02] [x03] [x00] 3 "a/*" perm_CstarT;
   access_dot [x03] [x04] [x00] 3 "a/*" perm_CstarT].

End ChainSpec.

(** ** Tries *)

Module TerminusSpec.
Import Core.
#[local] Open Scope string_scope.

(** A subscription is a tap, or it counts against the consumer limit. *)
Definition is_tap (s : subscription) : Prop := tap s = true.
Definition non_tap (s : subscription) : Prop := tap s = false.

#[global] Instance is_tap_dec s : Decision (is_tap s).
Proof. unfold is_tap. apply _. Defined.
#[global] Instance non_tap_dec s : Decision (non_tap s).
Proof. unfold non_tap. apply _. Defined.

(** The topic a/b/c in a namespace, as [LoadMessage] builds it: the MVK in
    base64 (44 characters), "/" and the suffix. *)
Definition ns : string := "AAAAAAAAAAAAAAAAAAAAAAAAAAAAAAAAAAAAAAAAAAA=".
Definition in_ns (suffix : string) : string := String.append ns (String "/" suffix).

(** One tap and three subscribers on the topic a/b/c. *)
Definition fanout : option Terminus :=
  let topic := in_ns "a/b/c" in
  '(_, tm) ← Subscribe 1%N (mkMessage TypeTap 0 topic (1, 1)) CreateTerminus;
  '(_, tm) ← Subscribe 2%N (mkMessage TypeSubscribe 0 topic (2, 2)) tm;
  '(_, tm) ← Subscribe 3%N (mkMessage TypeSubscribe 0 topic (3, 3)) tm;
  '(_, tm) ← Subscribe 4%N (mkMessage TypeSubscribe 0 topic (4, 4)) tm;
  Some tm.

(** A publish on a/b/c with the consumer limit 2. *)
Definition publish2 : Message := mkMessage TypePublish 2 (in_ns "a/b/c") (9, 9).

(** A subscription of client [n] and a trie with one subscription under each
    of seven patterns. *)
Definition sub_of (n : N) : subscription :=
  mkSubscription (Z.of_N n, Z.of_N n) n false.

Definition patterns : Terminus :=
  foldl (fun tm '(n, topic) => snd (AddSub topic (sub_of n) tm)) CreateTerminus
        [(1%N, "a/+/c"); (2%N, "a/b/+"); (3%N, "*/c"); (4%N, "a/*");
         (5%N, "*"); (6%N, "a/b"); (7%N, "a/b/c/d")].

End TerminusSpec.

(** ** A router for the chain builder *)

Module BuilderSpec.
Import Objects Api ChainSpec.
#[local] Open Scope string_scope.

(** A namespace [M] whose key grants the target [T] the permissions C*T on
    a/*, in a DOT that the router lists twice among the DOTs from [M]. *)
Definition key_M : list byte := replicate 32 x01.
Definition key_T : list byte := replicate 32 x02.

Definition grant_MT : DOT :=
  mkDOT [] (replicate 32 x09) key_M key_T None None [] EmptyString EmptyString [] true 3
        key_M "a/*" EmptyString None false true true true true false false false ∅.

Definition listed_twice (vk : list byte) : list DOTLink :=
  if bytes_Equal vk key_M
  then [mkDOTLink grant_MT Resolution.StateValid; mkDOTLink grant_MT Resolution.StateValid]
  else [].

Definition resolve_M (name : string) : option (list byte) :=
  if String.eqb name "M" then Some key_M else None.

Definition no_cache (ck : CacheKey) : option (list DChain) := None.

Definition builder_MT : ChainBuilder :=
  mkChainBuilder "M/a/b" "C" key_T key_M "a/b" perm_C.

End BuilderSpec.

(** ** Outcomes and a cached DOT *)

Module CodecSpec.
Import Objects.

(** A call returns: it comes to a value or to an error value. *)
Definition returns {A} (m : outcome A) : Prop :=
  match m with
  | Ok _ | Err _ => True
  | Panic | OutOfFuel => False
  end.

(** A call halts: it is not out of fuel. *)
Definition halts {A} (m : outcome A) : Prop := m <> OutOfFuel.

End CodecSpec.

Module CacheSpec.
Import Objects.

(** A DOT from the key 01.. to the key 02.., with the hash 03... *)
Definition cached_dot : DOT :=
  mkDOT [] (replicate 32 x03) (replicate 32 x01) (replicate 32 x02)
        None None [] EmptyString EmptyString [] true 3 (replicate 32 x01)
        "a/*"%string EmptyString None false true false false false false false
        false ∅.

End CacheSpec.

(** ** DOTs that can be packed *)

Module DOTSpec.
Import Objects DOTs.

(** A time that the packed form holds as it is: whole milliseconds, within
    the range of an [int64] of nanoseconds. *)
Definition whole_ms (t : option Z) : Prop :=
  match t with
  | Some t => Z.rem t 1000000 = 0 /\ - 2 ^ 63 <= t < 2 ^ 63
  | None => True
  end.

(** The flags as the setters and [NewDOT] leave them: star implies plus,
    plus implies the plain permission. *)
Definition closed_flags (ro : DOT) : Prop :=
  (canConsumeStar ro = true -> canConsumePlus ro = true) /\
  (canConsumePlus ro = true -> canConsume ro = true) /\
  (canTapStar ro = true -> canTapPlus ro = true) /\
  (canTapPlus ro = true -> canTap ro = true).

(** What both kinds of DOT need for their packed form to be read back. *)
Record packable (ro : DOT) : Prop := mkPackable {
  pk_giver : length (giverVK ro) = 32%nat;
  pk_receiver : length (receiverVK ro) = 32%nat;
  pk_ttl : 0 <= ttl ro <= 255;
  pk_created : whole_ms (created ro);
  pk_expires : whole_ms (expires ro)
}.

(** An access DOT as [CreateDOT] and the setters build it. *)
Record access_packable (base64url : list byte -> string) (ro : DOT) : Prop :=
  mkAccessPackable {
  ap_packable : packable ro;
  ap_access : isAccess ro = true;
  ap_mvk : length (mVK ro) = 32%nat;
  ap_suffix : Z.of_nat (String.length (uriSuffix ro)) < 65536;
  ap_uri : uri ro = String.append (base64url (mVK ro)) (String "/" (uriSuffix ro));
  ap_flags : closed_flags ro;
  ap_kv : kv ro = ∅
}.

(** A permission DOT as [CreateDOT] and [SetPermission] build it, with no
    empty key in its table. *)
Record permission_packable (ro : DOT) : Prop := mkPermissionPackable {
  pp_packable : packable ro;
  pp_access : isAccess ro = false;
  pp_mvk : mVK ro = [];
  pp_suffix : uriSuffix ro = EmptyString;
  pp_uri : uri ro = EmptyString;
  pp_flags : GetPermissionSet ro
             = mkADPS false false false false false false false false;
  pp_kv : forall key value, kv ro !! key = Some value ->
            0 < Z.of_nat (String.length key) <= 255 /\
            Z.of_nat (String.length value) <= 65535
}.

(** The publish limits that are read back from the packed form of [p]. *)
Definition packed_limits (p : PublishLimits) : PublishLimits :=
  mkPublishLimits (int64 (uint64 (StoreLimit p))) 0 (Retain p mod 256).

(** [ro] with other publish limits. *)
Definition with_pubLim (p : option PublishLimits) (ro : DOT) : DOT :=
  mkDOT (content ro) (hash ro) (giverVK ro) (receiverVK ro) (expires ro)
    (created ro) (revokers ro) (contact ro) (comment ro) (signature ro)
    (isAccess ro) (ttl ro) (mVK ro) (uriSuffix ro) (uri ro) p
    (canPublish ro) (canConsume ro) (canConsumePlus ro) (canConsumeStar ro)
    (canTap ro) (canTapPlus ro) (canTapStar ro) (canList ro) (kv ro).

(** *** The packed form, piece by piece *)

(** The 65 bytes at the head. *)
Definition head65 (ro : DOT) : list byte :=
  giverVK ro ++ receiverVK ro ++ [to_byte (ttl ro)].

Definition enc_publim (p : option PublishLimits) : list byte :=
  match p with
  | Some p => x01 :: x11 :: toBytes p
  | None => []
  end.

Definition enc_time (tag : byte) (t : option Z) : list byte :=
  match t with
  | Some t => tag :: x08 :: le_bytes 8 (uint64 (Z.quot t 1000000))
  | None => []
  end.

Definition enc_revokers (rs : list (list byte)) : list byte :=
  concat ((fun dr => x04 :: x20 :: dr) <$> rs).

(** A text as it is packed: its first 255 bytes. *)
Definition cut (s : string) : string :=
  if (255 <? String.length s)%nat then substring 0 255 s else s.

Definition enc_text (tag : byte) (s : string) : list byte :=
  if String.eqb s EmptyString then []
  else tag :: to_byte (Z.of_nat (String.length (cut s)))
           :: list_byte_of_string (cut s).

Definition enc_kv (e : string * string) : list byte :=
  to_byte (Z.of_nat (String.length e.1)) :: list_byte_of_string e.1
    ++ le_bytes 2 (uint16 (Z.of_nat (String.length e.2)))
    ++ list_byte_of_string e.2.

(** What follows the header fields: the permissions, the namespace and the
    suffix of an access DOT, the table of a permission DOT. *)
Definition enc_body (ro : DOT) : list byte :=
  if isAccess ro then
    to_byte (perm_word ro) :: x00 :: mVK ro
      ++ le_bytes 2 (uint16 (Z.of_nat (String.length (uriSuffix ro))))
      ++ list_byte_of_string (uriSuffix ro)
  else concat (enc_kv <$> map_to_list (kv ro)) ++ [x00].

(** The same when the table of a permission DOT is walked in [order]. *)
Definition enc_body_in (order : list (string * string)) (ro : DOT) : list byte :=
  if isAccess ro then
    to_byte (perm_word ro) :: x00 :: mVK ro
      ++ le_bytes 2 (uint16 (Z.of_nat (String.length (uriSuffix ro))))
      ++ list_byte_of_string (uriSuffix ro)
  else concat (enc_kv <$> order) ++ [x00].

(** The header fields, and the bytes that are hashed and signed. *)
Definition fields (ro : DOT) : list byte :=
  enc_publim (pubLim ro) ++ enc_time x02 (created ro)
    ++ enc_time x03 (expires ro) ++ enc_revokers (revokers ro)
    ++ enc_text x05 (contact ro) ++ enc_text x06 (comment ro).

Definition packed (ro : DOT) : list byte :=
  head65 ro ++ fields ro ++ x00 :: enc_body ro.

Definition packed_in (order : list (string * string)) (ro : DOT) : list byte :=
  head65 ro ++ fields ro ++ x00 :: enc_body_in order ro.

(** The header after each of the packed fields has been read. *)
Definition read_publim (p : option PublishLimits) (h : Header) : Header :=
  match p with
  | Some p => mkHeader (Some (packed_limits p)) (h_created h) (h_expires h)
                (h_revokers h) (h_contact h) (h_comment h)
  | None => h
  end.

Definition read_created (t : option Z) (h : Header) : Header :=
  match t with
  | Some t => mkHeader (h_pubLim h) (Some t) (h_expires h) (h_revokers h)
                (h_contact h) (h_comment h)
  | None => h
  end.

Definition read_expires (t : option Z) (h : Header) : Header :=
  match t with
  | Some t => mkHeader (h_pubLim h) (h_created h) (Some t) (h_revokers h)
                (h_contact h) (h_comment h)
  | None => h
  end.

Definition read_contact (s : string) (h : Header) : Header :=
  if String.eqb s EmptyString then h
  else mkHeader (h_pubLim h) (h_created h) (h_expires h) (h_revokers h)
         (cut s) (h_comment h).

Definition read_comment (s : string) (h : Header) : Header :=
  if String.eqb s EmptyString then h
  else mkHeader (h_pubLim h) (h_created h) (h_expires h) (h_revokers h)
         (h_contact h) (cut s).

(** The header before the first field, and after the last. *)
Definition no_header : Header :=
  mkHeader None None None [] EmptyString EmptyString.

Definition read_fields (ro : DOT) : Header :=
  read_comment (comment ro)
    (read_contact (contact ro)
       (read_expires (expires ro)
          (read_created (created ro) (read_publim (pubLim ro) no_header)))).

(** How the first loop of [NewDOT] runs from an index on: to the index and
    the header after the tag 0, or to an error. *)
Inductive runs (ronum : Z) (content : list byte)
  : nat -> Header -> outcome (nat * Header) -> Prop :=
  | runs_done idx h idx' h' :
      header_field ronum content idx h = Ok (true, idx', h') ->
      runs ronum content idx h (Ok (idx', h'))
  | runs_err idx h e :
      header_field ronum content idx h = Err e ->
      runs ronum content idx h (Err e)
  | runs_step idx h idx1 h1 r :
      header_field ronum content idx h = Ok (false, idx1, h1) ->
      runs ronum content idx1 h1 r ->
      runs ronum content idx h r.

(** *** Sample DOTs *)

(** An access DOT from the key 01.. to the key 02.. on a/* in the namespace
    01.., created at one millisecond and expiring at two. *)
Definition sample_access : DOT :=
  mkDOT [] [] (replicate 32 x01) (replicate 32 x02) (Some 2000000)
    (Some 1000000) [] "ops" EmptyString [] true 3 (replicate 32 x01) "a/*"
    "ns/a/*" None false true true true true false false false ∅.

(** The same DOT with publish limits. *)
Definition sample_limited : DOT :=
  with_pubLim (Some (mkPublishLimits 5 7 1)) sample_access.

(** The same DOT with a delegated revoker. *)
Definition sample_revocable : DOT :=
  mkDOT [] [] (replicate 32 x01) (replicate 32 x02) (Some 2000000)
    (Some 1000000) [replicate 32 x03] "ops" EmptyString [] true 3
    (replicate 32 x01) "a/*" "ns/a/*" None false true true true true false
    false false ∅.

(** A permission DOT with one entry in its table. *)
Definition sample_permission : DOT :=
  mkDOT [] [] (replicate 32 x01) (replicate 32 x02) None None [] EmptyString
    "note" [] false 0 [] EmptyString EmptyString None false false false false
    false false false false {["role"%string := "admin"%string]}.

(** A permission DOT with two entries in its table. *)
Definition sample_table : DOT :=
  mkDOT [] [] (replicate 32 x01) (replicate 32 x02) None None [] EmptyString
    "note" [] false 0 [] EmptyString EmptyString None false false false false
    false false false false
    {["role"%string := "admin"%string; "zone"%string := "b"%string]}.

(** Stand-ins for the hash, the base64 form of a key and the signature. *)
Definition no_hash (b : list byte) : list byte := [].
Definition ns_name (b : list byte) : string := "ns".
Definition no_signature (sk vk blob : list byte) : list byte := [].

End DOTSpec.

(** ** Patterns and the URIs they match *)

Module GlobSpec.
Import Util.

(** A cell of a pattern matches a cell of a URI: it is that cell, or "+". *)
Definition cell_matches (p c : string) : bool := String.eqb c p || is_plus p.

(** A pattern matches a URI, cell by cell: "*" stands for any number of
    cells, none included, and "+" for one cell. *)
Fixpoint glob (pat u : list string) : bool :=
  match pat with
  | [] => match u with [] => true | _ :: _ => false end
  | p :: pat' =>
      if is_star p
      then existsb (fun k => glob pat' (drop k u)) (seq 0 (S (length u)))
      else match u with
           | [] => false
           | c :: u' => cell_matches p c && glob pat' u'
           end
  end.

(** A URI without wildcards: no cell is "*" or "+". *)
Definition concrete (u : list string) : bool :=
  forallb (fun c => negb (is_star c) && negb (is_plus c)) u.

(** The number of "*" cells. *)
Definition stars (cells : list string) : nat :=
  length (List.filter is_star cells).

End GlobSpec.

(** ** Rules of the chain analysis *)

Module ChainRules.
Import Objects Core ChainSpec.

(** Each DOT of the chain has a TTL of at least the number of DOTs that
    follow it. *)
Fixpoint ttl_covers (chain : list DOT) : bool :=
  match chain with
  | [] => true
  | d :: rest => (Z.of_nat (length rest) <=? GetTTL d) && ttl_covers rest
  end.

(** The URI that is left of [uri] once the suffix of every link has
    restricted it in turn, while each restriction succeeds. *)
Fixpoint merged (uri : string) (links : list DOT) : option string :=
  match links with
  | [] => Some uri
  | d :: links' =>
      let '(uri', okay) := Util.RestrictBy uri (GetAccessURISuffix d) in
      if okay then merged uri' links' else None
  end.

(** M grants A on a/* with the TTL 1, A grants B on a/b/+ with the TTL 0. *)
Definition short_chain : list DOT :=
  [access_dot [x00] [x01] [x00] 1 "a/*" perm_CstarT;
   access_dot [x01] [x02] [x00] 0 "a/b/+" perm_C].

End ChainRules.

(** ** Patterns in the subscription tree *)

Module MatchSpec.
Import Core CoreClient.

(** The number of nodes of a tree. *)
Fixpoint snode_size (s : snode) : nat :=
  S (map_fold (fun _ c n => (snode_size c + n)%nat) O (children s)).

(** The node under a path of cells. *)
Fixpoint descend (path : list string) (s : snode) : option snode :=
  match path with
  | [] => Some s
  | p :: rest =>
      match children s !! p with
      | Some child => descend rest child
      | None => None
      end
  end.

(** The subscription that the node under [path] holds for the client [cl]. *)
Definition stored_at (s : snode) (path : list string) (cl : clientid)
  : option subscription :=
  match descend path s with
  | Some node => subs node !! cl
  | None => None
  end.

(** A pattern against the cells of a topic, as the walker sees it: a cell of
    the pattern takes the equal cell of the topic, "+" takes any one cell,
    and "*" takes any number of cells, none included, as long as it leaves a
    cell of the topic for what follows it. *)
Fixpoint tmatch (pat topic : list string) : bool :=
  match pat with
  | [] => match topic with [] => true | _ :: _ => false end
  | c :: pat' =>
      match topic with
      | [] => false
      | t :: topic' =>
          (String.eqb c t && tmatch pat' topic') ||
          (String.eqb c "+" && tmatch pat' topic') ||
          (String.eqb c "*" &&
           existsb (fun i => tmatch pat' (drop i topic)) (seq 0 (length topic)))
      end
  end.

(** A terminus with the subscription 7 of client 1 and the subscription 8 of
    client 2, both under a/b. *)
Definition two_clients : Terminus :=
  (AddSub "a/b" (mkSubscription (8, 8) 2%N false)
     (AddSub "a/b" (mkSubscription (7, 7) 1%N false) CreateTerminus).2).2.

End MatchSpec.

(** ** What the chain builder walks *)

Module BuildRules.
Import Objects Api ApiBuilder.

(** The TTL that [scenario.TTL] is left with after the DOTs [ds], from the
    running value [t]. *)
Definition ttl_after (t : Z) (ds : list DOT) : Z :=
  foldl (fun ttl d => let ttl := ttl - 1 in
                      if GetTTL d <? ttl then GetTTL d else ttl) t ds.

Section Walk.
Variable GetDOTsFrom : list byte -> list DOTLink.
Variable b : ChainBuilder.

(** A path of DOTs from the key [from]: the first is an option of the
    builder at [from], each of the others an option at the receiver of the
    one before. *)
Fixpoint walkable (from : list byte) (ds : list DOT) : Prop :=
  match ds with
  | [] => True
  | d :: rest =>
      d ∈ getOptions GetDOTsFrom b from /\ walkable (GetReceiverVK d) rest
  end.

(** What the builder keeps of a scenario: a path from [mvk] that is not
    empty, with a TTL that has not run out once there is a second DOT. *)
Definition built (mvk : list byte) (s : scenario) : Prop :=
  chain s <> [] /\ walkable mvk (chain s) /\
  ((1 < length (chain s))%nat -> 0 <= TTL s).

(** The router lists at most [m] DOTs under a key. *)
Definition fan_out (m : nat) : Prop :=
  forall from, (length (GetDOTsFrom from) <= m)%nat.
End Walk.

(** The scenarios that can still come of a scenario with [r] more DOTs to
    take, itself included, when no key has more than [m] options. *)
Fixpoint weight (m r : nat) : nat :=
  match r with
  | O => 1
  | Datatypes.S r' => 1 + m * weight m r'
  end.

(** The DOTs that a scenario can still take: its chain holds 256 at most. *)
Definition room (s : scenario) : nat := 256 - length (chain s).

Definition total_weight (m : nat) (evals : list scenario) : nat :=
  foldr (fun s n => weight m (room s) + n)%nat O evals.

(** A permission parser that reads "C" out of every string. *)
Definition reads_C (perms : string) : option AccessDOTPermissionSet :=
  Some ChainSpec.perm_C.

(** The two chains that the router of [BuilderSpec] gives rise to. *)
Definition chains_MT : list DChain :=
  ToChain DOTSpec.no_hash <$>
    [NewScenario BuilderSpec.grant_MT; NewScenario BuilderSpec.grant_MT].

End BuildRules.

(** ** Objects as their constructors leave them *)

Module ObjectSpec.
Import Objects DOTs DOTSpec.

Section Setters.
Variable base64url : list byte -> string.

(** An access DOT made from scratch: [CreateDOT], then the setters of the
    URI, the TTL, the permissions and the creation time, in this order. *)
Definition access_dot_of (giver receiver mvk : list byte) (suffix : string)
    (v : Z) (consume tap : bool * bool * bool) (publish list_ : bool) (now : Z)
  : outcome DOT :=
  let ro := CreateDOT true giver receiver in
  ro ← SetAccessURI base64url mvk suffix ro;
  ro ← SetTTL v ro;
  ro ← SetCanConsume consume.1.1 consume.1.2 consume.2 ro;
  ro ← SetCanTap tap.1.1 tap.1.2 tap.2 ro;
  ro ← SetCanPublish publish ro;
  ro ← SetCanList list_ ro;
  Ok (SetCreationToNow now ro).
End Setters.

(** An access DOT made from scratch, on a/b with the permissions C+ and P. *)
Definition made_sample : DOT :=
  Eval vm_compute in
    match access_dot_of ns_name (replicate 32 x01) (replicate 32 x02)
            (replicate 32 x03) "a/b" 3 (true, true, false) (false, false, false)
            true false 1700000000123456789 with
    | Ok ro => ro
    | _ => CreateDOT true [] []
    end.

(** The packed form of [sample_access] without its last ten bytes, and
    the ten bytes, which lie behind it in the buffer. *)
Definition cut_content : list byte :=
  Eval vm_compute in
    take (length (GetContent (Encode no_hash no_signature [] sample_access)) - 10)
         (GetContent (Encode no_hash no_signature [] sample_access)).

Definition cut_spare : list byte :=
  Eval vm_compute in
    drop (length (GetContent (Encode no_hash no_signature [] sample_access)) - 10)
         (GetContent (Encode no_hash no_signature [] sample_access)).

(** The DOT that [NewDOT] reads from that slice. *)
Definition cut_sample : DOT :=
  Eval vm_compute in
    match SubSlice.NewDOT cut_spare no_hash ns_name ROAccessDOT cut_content with
    | Ok (RODOT d) => d
    | _ => CreateDOT true [] []
    end.

End ObjectSpec.

(** * Theorems *)

(** ** Loops *)

Section ForLoop.
Context {S : Type}.
Implicit Types (cond : S -> bool) (body : S -> option S) (post : S -> S).

Lemma for_loop_exit fuel cond body post s :
  cond s = false -> for_loop (Datatypes.S fuel) cond body post s = Some s.
Proof. intros H. simpl. now rewrite H. Qed.

(** A loop whose turns keep an invariant and lower a measure ends before a
    fuel above the measure is spent. *)
Lemma for_loop_terminates (I : S -> Prop) (mu : S -> nat) cond body post :
  (forall s s', I s -> cond s = true -> body s = Some s' ->
                I (post s') /\ (mu (post s') < mu s)%nat) ->
  forall fuel s, I s -> (mu s < fuel)%nat ->
    exists s', for_loop fuel cond body post s = Some s' /\ I s'.
Proof.
  intros step fuel. induction fuel as [|k IH]; intros s Hs Hmu; [lia|].
  simpl. destruct (cond s) eqn:Hc; [|eauto].
  destruct (body s) as [s'|] eqn:Hb; [|eauto].
  destruct (step s s' Hs Hc Hb) as [Hi Hlt].
  apply IH; [assumption|lia].
Qed.

(** Two loops that correspond turn by turn along [R] end in corresponding
    states. *)
Lemma for_loop_mirror {T : Type} (R : S -> T) cond body post
    (cond' : T -> bool) (body' : T -> option T) (post' : T -> T) :
  (forall s, cond' (R s) = cond s) ->
  (forall s, cond s = true -> body' (R s) = R <$> body s) ->
  (forall s, post' (R s) = R (post s)) ->
  forall fuel s,
    for_loop fuel cond' body' post' (R s) = R <$> for_loop fuel cond body post s.
Proof.
  intros Hc Hb Hp fuel. induction fuel as [|k IH]; intros s; [reflexivity|].
  simpl. rewrite Hc. destruct (cond s) eqn:E; [|reflexivity].
  rewrite (Hb s E). destruct (body s) as [s'|]; simpl; [|reflexivity].
  rewrite Hp. apply IH.
Qed.
End ForLoop.

(** ** The URI algebra *)

Module UtilProofs.
Import Util CursorSpec.

Lemma Split_not_nil s : Split s <> [].
Proof.
  destruct s as [|c s]; simpl; [discriminate|].
  destruct (Ascii.eqb c "/"); [discriminate|].
  destruct (Split s); discriminate.
Qed.

Lemma Join_cons_cons c d rest :
  Join (c :: d :: rest) = String.append c (String "/" (Join (d :: rest))).
Proof. reflexivity. Qed.

Lemma Join_Split s : Join (Split s) = s.
Proof.
  induction s as [|c s IH]; [reflexivity|].
  simpl. destruct (Ascii.eqb_spec c "/") as [->|Hne].
  - pose proof (Split_not_nil s) as Hn.
    destruct (Split s) as [|h t] eqn:E; [contradiction|].
    rewrite Join_cons_cons, IH. reflexivity.
  - pose proof (Split_not_nil s) as Hn.
    destruct (Split s) as [|h t] eqn:E; [contradiction|].
    destruct t as [|d t]; simpl in *; now rewrite <- IH.
Qed.

Lemma meet_comm f b : meet f b = meet b f.
Proof.
  unfold meet, is_plus, is_star.
  destruct (String.eqb_spec f b) as [->|Hfb].
  - rewrite String.eqb_refl. reflexivity.
  - destruct (String.eqb_spec b f) as [E|_]; [congruence|].
    destruct (String.eqb_spec b "+") as [->|?], (String.eqb_spec f "+") as [->|?];
      try congruence; simpl;
      repeat match goal with |- context [String.eqb ?x ?y] =>
        destruct (String.eqb_spec x y); try congruence; simpl end;
      try reflexivity; try discriminate.
Qed.

Lemma meet_refl f : meet f f = Some f.
Proof. unfold meet. now rewrite String.eqb_refl. Qed.

Section Mirror.
Variables fp bp : list string.

Lemma phase1_mirror fuel c :
  phase1 bp fp fuel (swap_cursor c) = swap_cursor <$> phase1 fp bp fuel c.
Proof.
  unfold phase1. apply for_loop_mirror.
  - intros s. simpl. apply andb_comm.
  - intros s _. simpl. rewrite meet_comm.
    destruct (meet _ _); reflexivity.
  - reflexivity.
Qed.

Lemma phase2_mirror fuel c :
  phase2 bp fp fuel (swap_cursor c) = swap_cursor <$> phase2 fp bp fuel c.
Proof.
  unfold phase2. apply for_loop_mirror.
  - intros s. simpl. apply andb_comm.
  - intros s _. simpl. rewrite meet_comm.
    destruct (meet _ _); reflexivity.
  - reflexivity.
Qed.

Lemma phase3_mirror fuel c :
  phase3 bp fp (S fuel) (swap_cursor c) = swap_cursor <$> phase3 fp bp (S fuel) c.
Proof.
  unfold phase3. cbn [fi bi fni bni swap_cursor].
  destruct ((fi c <? len fp) && is_star (cell fp (fi c))) eqn:Ef;
  destruct ((bi c <? len bp) && is_star (cell bp (bi c))) eqn:Eb.
  - apply andb_prop in Ef as [Ef1 Ef2]. apply andb_prop in Eb as [Eb1 Eb2].
    rewrite !for_loop_exit; [reflexivity| |].
    + cbn. rewrite Eb2. now rewrite andb_false_r.
    + cbn. rewrite Ef2. now rewrite andb_false_r.
  - apply (for_loop_mirror swap_cursor); reflexivity.
  - apply (for_loop_mirror swap_cursor); reflexivity.
  - reflexivity.
Qed.

Lemma phase4_mirror fuel c :
  phase4 bp fp (S fuel) (swap_cursor c) = swap_cursor <$> phase4 fp bp (S fuel) c.
Proof.
  unfold phase4. cbn [fi bi fni bni swap_cursor].
  destruct ((fni c >=? 0) && is_star (cell fp (fni c))) eqn:Ef;
  destruct ((bni c >=? 0) && is_star (cell bp (bni c))) eqn:Eb.
  - apply andb_prop in Ef as [Ef1 Ef2]. apply andb_prop in Eb as [Eb1 Eb2].
    rewrite !for_loop_exit; [reflexivity| |].
    + cbn. rewrite Eb2. now rewrite andb_false_r.
    + cbn. rewrite Ef2. now rewrite andb_false_r.
  - apply (for_loop_mirror swap_cursor); reflexivity.
  - apply (for_loop_mirror swap_cursor); reflexivity.
  - reflexivity.
Qed.

Lemma phase5_mirror c : phase5 bp fp (swap_cursor c) = phase5 fp bp c.
Proof.
  unfold phase5. cbn [fi bi fni bni fout bout swap_cursor].
  destruct (fi c =? fni c), (is_star (cell fp (fi c))),
           (bi c =? bni c), (is_star (cell bp (bi c))); cbn [andb];
    try reflexivity;
    rewrite ?andb_true_r, ?andb_false_r;
    match goal with |- context [?a && ?b] => rewrite (andb_comm a b) end;
    reflexivity.
Qed.

Lemma restrict_cells_mirror fuel :
  restrict_cells bp fp (S fuel) = restrict_cells fp bp (S fuel).
Proof.
  unfold restrict_cells.
  change (mkCursor 0 0 (len bp - 1) (len fp - 1) [] [])
    with (swap_cursor (mkCursor 0 0 (len fp - 1) (len bp - 1) [] [])).
  rewrite phase1_mirror.
  destruct (phase1 fp bp (S fuel) _) as [c1|]; [|reflexivity]. cbn [fmap option_fmap option_map mbind option_bind].
  rewrite phase2_mirror.
  destruct (phase2 fp bp (S fuel) _) as [c2|]; [|reflexivity]. cbn [fmap option_fmap option_map mbind option_bind].
  rewrite phase3_mirror.
  destruct (phase3 fp bp (S fuel) _) as [c3|]; [|reflexivity]. cbn [fmap option_fmap option_map mbind option_bind].
  rewrite phase4_mirror.
  destruct (phase4 fp bp (S fuel) _) as [c4|]; [|reflexivity]. cbn [fmap option_fmap option_map mbind option_bind].
  now rewrite phase5_mirror.
Qed.
End Mirror.

Lemma RestrictBy_opt_comm a b : RestrictBy_opt a b = RestrictBy_opt b a.
Proof.
  unfold RestrictBy_opt, restrict_fuel.
  rewrite (Nat.add_comm (length (Split a))).
  symmetry. apply restrict_cells_mirror.
Qed.

Lemma RestrictBy_comm a b : RestrictBy a b = RestrictBy b a.
Proof. unfold RestrictBy. now rewrite RestrictBy_opt_comm. Qed.

Ltac loop_step :=
  let Hs := fresh in let Hq := fresh in let Hb := fresh in
  intros s s' Hs Hq Hb; unfold in_range in *; cbn in *;
  repeat match goal with
         | H : _ && _ = true |- _ => apply andb_prop in H as [? ?]
         end;
  repeat match goal with
         | H : match ?m with Some _ => _ | None => _ end = Some _ |- _ =>
             destruct m; [|discriminate]
         | H : Some _ = Some _ |- _ => injection H as <-
         end;
  cbn; lia.

Section Finishes.
Variables fp bp : list string.
Variable fuel : nat.
Hypothesis enough : (length fp + length bp < fuel)%nat.

Lemma phase1_total c : in_range fp bp c ->
  exists c', phase1 fp bp fuel c = Some c' /\ in_range fp bp c'.
Proof.
  intros Hc. unfold phase1.
  apply (for_loop_terminates (in_range fp bp) (fun c => Z.to_nat (len fp - fi c)));
    [loop_step|assumption|].
  unfold in_range, len in *. lia.
Qed.

Lemma phase2_total c : in_range fp bp c ->
  exists c', phase2 fp bp fuel c = Some c' /\ in_range fp bp c'.
Proof.
  intros Hc. unfold phase2.
  apply (for_loop_terminates (in_range fp bp) (fun c => Z.to_nat (fni c + 1)));
    [loop_step|assumption|].
  unfold in_range, len in *. lia.
Qed.

Lemma phase3_total c : in_range fp bp c ->
  exists c', phase3 fp bp fuel c = Some c' /\ in_range fp bp c'.
Proof.
  intros Hc. unfold phase3.
  destruct (_ && _).
  - apply (for_loop_terminates (in_range fp bp) (fun c => Z.to_nat (len bp - bi c)));
      [loop_step|assumption|].
    unfold in_range, len in *. lia.
  - destruct (_ && _); [|eauto].
    apply (for_loop_terminates (in_range fp bp) (fun c => Z.to_nat (len fp - fi c)));
      [loop_step|assumption|].
    unfold in_range, len in *. lia.
Qed.

Lemma phase4_total c : in_range fp bp c ->
  exists c', phase4 fp bp fuel c = Some c' /\ in_range fp bp c'.
Proof.
  intros Hc. unfold phase4.
  destruct (_ && _).
  - apply (for_loop_terminates (in_range fp bp) (fun c => Z.to_nat (bni c + 1)));
      [loop_step|assumption|].
    unfold in_range, len in *. lia.
  - destruct (_ && _); [|eauto].
    apply (for_loop_terminates (in_range fp bp) (fun c => Z.to_nat (fni c + 1)));
      [loop_step|assumption|].
    unfold in_range, len in *. lia.
Qed.

(** The cursors that phase 5 reads are inside the slices: [fp[fi]] is read
    after [fi == fni], and [bp[bi]] after [bi == bni]. *)
Lemma restrict_cells_total :
  exists c, in_range fp bp c /\ restrict_cells fp bp fuel = Some (phase5 fp bp c).
Proof.
  unfold restrict_cells.
  destruct (phase1_total (mkCursor 0 0 (len fp - 1) (len bp - 1) [] []))
    as (c1 & -> & H1); [unfold in_range, len; cbn; lia|].
  destruct (phase2_total c1 H1) as (c2 & E2 & H2).
  destruct (phase3_total c2 H2) as (c3 & E3 & H3).
  destruct (phase4_total c3 H3) as (c4 & E4 & H4).
  exists c4. cbn. rewrite E2. cbn. rewrite E3. cbn. rewrite E4. auto.
Qed.
End Finishes.

(** Phase 5 reads [fp[fi]] after [fi == fni] and [bp[bi]] after
    [bi == bni], inside the slices. *)
Lemma phase5_reads_in_range fp bp c :
  in_range fp bp c ->
  (fi c = fni c -> 0 <= fi c < len fp) /\ (bi c = bni c -> 0 <= bi c < len bp).
Proof. unfold in_range. lia. Qed.

Lemma RestrictBy_total a b : RestrictBy_opt a b = Some (RestrictBy a b).
Proof.
  unfold RestrictBy, RestrictBy_opt.
  destruct (restrict_cells_total (Split a) (Split b)
              (restrict_fuel (Split a) (Split b))) as (c & _ & ->);
    [unfold restrict_fuel; lia|reflexivity].
Qed.

(** *** A pattern restricted by itself *)

Section Idempotent.
Variable fp : list string.
Hypothesis nonempty : fp <> [].

Lemma cell_lookup (i : nat) x : fp !! i = Some x -> cell fp (Z.of_nat i) = x.
Proof.
  intros H. unfold cell. rewrite Nat2Z.id.
  apply nth_lookup_Some with (d := EmptyString) in H. exact H.
Qed.

Lemma phase1_self (k i : nat) a b bo :
  (i + k = length fp)%nat ->
  forall fuel, (k < fuel)%nat ->
  phase1 fp fp fuel (mkCursor (Z.of_nat i) (Z.of_nat i) a b (take i fp) bo)
  = Some (mkCursor (len fp) (len fp) a b fp bo).
Proof.
  revert i. induction k as [|k IH]; intros i Hik fuel Hf.
  - destruct fuel as [|fuel]; [lia|].
    assert (i = length fp) as -> by lia. rewrite firstn_all.
    unfold phase1. apply for_loop_exit. cbn. unfold len.
    rewrite Z.ltb_irrefl. reflexivity.
  - destruct fuel as [|fuel]; [lia|].
    destruct (lookup_lt_is_Some_2 fp i) as [x Hx]; [lia|].
    unfold phase1. cbn [for_loop fi bi].
    replace (Z.of_nat i <? len fp) with true
      by (symmetry; apply Z.ltb_lt; unfold len; lia).
    cbn [andb]. rewrite (cell_lookup i x Hx), meet_refl.
    cbn [fi bi fni bni fout bout].
    rewrite <- (take_S_r _ _ _ Hx).
    replace (Z.of_nat i + 1) with (Z.of_nat (S i)) by lia.
    apply (IH (S i)); lia.
Qed.

Lemma restrict_cells_self fuel :
  (length fp < fuel)%nat ->
  restrict_cells fp fp fuel = Some (Join fp, true).
Proof.
  intros Hf. unfold restrict_cells.
  assert (0 < len fp) as Hpos.
  { unfold len. destruct fp; [contradiction|cbn; lia]. }
  pose proof (phase1_self (length fp) 0 (len fp - 1) (len fp - 1) []
                (Nat.add_0_l _) fuel Hf) as H1.
  change (Z.of_nat 0) with 0 in H1. change (take 0 fp) with (@nil string) in H1.
  rewrite H1. clear H1.
  destruct fuel as [|fuel]; [lia|]. cbn [mbind option_bind].
  unfold phase2. rewrite for_loop_exit
    by (cbn; replace (len fp - 1 >=? len fp) with false
          by (symmetry; rewrite Z.geb_leb; apply Z.leb_gt; lia); reflexivity).
  cbn [mbind option_bind].
  unfold phase3. cbn [fi bi]. rewrite Z.ltb_irrefl. cbn [andb mbind option_bind].
  unfold phase4. cbn [fi bi fni bni].
  replace (len fp - 1 >=? 0) with true
    by (symmetry; rewrite Z.geb_leb; apply Z.leb_le; lia).
  cbn [andb].
  destruct (is_star (cell fp (len fp - 1))) eqn:Es.
  - rewrite for_loop_exit
      by (cbn; rewrite Es; now rewrite andb_false_r).
    cbn [mbind option_bind]. f_equal. unfold phase5. cbn [fi bi fni bni fout bout].
    replace (len fp =? len fp - 1) with false by (symmetry; apply Z.eqb_neq; lia).
    cbn [andb]. rewrite Z.ltb_irrefl. cbn [andb].
    replace (len fp =? len fp - 1 + 1) with true by (symmetry; apply Z.eqb_eq; lia).
    cbn [orb andb]. unfold emit. cbn [rev]. now rewrite app_nil_r.
  - cbn [mbind option_bind]. f_equal. unfold phase5. cbn [fi bi fni bni fout bout].
    replace (len fp =? len fp - 1) with false by (symmetry; apply Z.eqb_neq; lia).
    cbn [andb]. rewrite Z.ltb_irrefl. cbn [andb].
    replace (len fp =? len fp - 1 + 1) with true by (symmetry; apply Z.eqb_eq; lia).
    cbn [orb andb]. unfold emit. cbn [rev]. now rewrite app_nil_r.
Qed.
End Idempotent.

Lemma RestrictBy_self a : RestrictBy a a = (a, true).
Proof.
  unfold RestrictBy, RestrictBy_opt.
  rewrite restrict_cells_self; [|apply Split_not_nil|unfold restrict_fuel; lia].
  cbn. now rewrite Join_Split.
Qed.

(** C6.  For suffixes [a] and [b] that [AnalyzeSuffix] accepts,
    [RestrictBy a b] and [RestrictBy b a] are the same result: both fail, or
    both succeed with the same URI; and [RestrictBy a a] succeeds with [a]
    itself.  The results are those of loops that finish. *)
Theorem C6_restrict_by_commutes (a b : string) :
  valid (AnalyzeSuffix a) = true ->
  valid (AnalyzeSuffix b) = true ->
  RestrictBy a b = RestrictBy b a /\
  RestrictBy a a = (a, true) /\
  RestrictBy_opt a b = Some (RestrictBy a b).
Proof.
  intros _ _. split; [apply RestrictBy_comm|].
  split; [apply RestrictBy_self|apply RestrictBy_total].
Qed.

Lemma C6_restrict_by_commutes_witness :
  valid (AnalyzeSuffix "a/+/c") = true /\
  valid (AnalyzeSuffix "a/b/*") = true /\
  RestrictBy "a/+/c" "a/b/*" = RestrictBy "a/b/*" "a/+/c" /\
  RestrictBy "a/+/c" "a/+/c" = ("a/+/c"%string, true).
Proof.
  split; [reflexivity|]. split; [reflexivity|].
  destruct (C6_restrict_by_commutes "a/+/c" "a/b/*" eq_refl eq_refl)
    as (H1 & H2 & _).
  split; [exact H1|exact H2].
Defined.

End UtilProofs.

(** ** Suffix analysis *)

Module SuffixProofs.
Import Util SuffixSpec.

Lemma permitted_in_set k : permitted k = in_permitted_set k.
Proof. destruct k as [[] [] [] [] [] [] [] []]; reflexivity. Qed.

Lemma permitted_bang k : is_bang k = true -> permitted k = false.
Proof. unfold is_bang. intros H. apply Ascii.eqb_eq in H as ->. reflexivity. Qed.

Lemma all_permitted_spec s :
  all_permitted s =
  negb (any_char is_bang s ||
        any_char (fun k => negb (in_permitted_set k) && negb (is_bang k)) s).
Proof.
  induction s as [|k s IH]; [reflexivity|].
  cbn [all_permitted any_char]. rewrite IH, <- permitted_in_set.
  destruct (is_bang k) eqn:E.
  - rewrite (permitted_bang k E). reflexivity.
  - destruct (permitted k); cbn;
      destruct (any_char is_bang s); cbn; try reflexivity.
Qed.

(** A cell of one character. *)
Lemma single_char k :
  let c := String k EmptyString in
  (String.eqb c "*" = is_star c) /\
  (String.eqb c "+" = is_plus c) /\
  (is_star c = true -> cell_bad c = false /\ is_plus c = false /\ String.eqb c "$" = false) /\
  (is_plus c = true -> cell_bad c = false /\ String.eqb c "$" = false) /\
  (String.eqb c "!" = true -> cell_bad c = true) /\
  (String.eqb c "$" = true -> cell_bad c = false) /\
  (is_star c = false -> is_plus c = false -> String.eqb c "!" = false ->
   String.eqb c "$" = false -> cell_bad c = negb (permitted k)).
Proof. destruct k as [[] [] [] [] [] [] [] []]; cbv; intuition congruence. Qed.

(** A cell of two characters or more. *)
#[local] Opaque in_permitted_set.
Lemma multi_char k k2 r :
  let c := String k (String k2 r) in
  is_star c = false /\ is_plus c = false /\ String.eqb c "$" = false /\
  bang_led c = is_bang k /\
  (if is_bang k then all_permitted (String k2 r) else all_permitted c)
  = negb (cell_bad c).
Proof.
  cbn zeta. unfold is_star, is_plus, cell_bad, is_empty, bang_misplaced,
    foreign_char, is_special.
  cbn [String.eqb bang_led].
  assert (forall b : bool, (if b then false else false) = false) as Hif
    by (intros []; reflexivity).
  rewrite !Hif. cbn [orb negb andb].
  repeat split.
  destruct (is_bang k) eqn:E.
  - rewrite all_permitted_spec. cbn [any_char]. rewrite E.
    rewrite andb_false_r. reflexivity.
  - rewrite all_permitted_spec. cbn [any_char]. rewrite E.
    cbn [orb]. reflexivity.
Qed.

Lemma count_cons p c cells :
  count p (c :: cells) = (Nat.b2n (p c) + count p cells)%nat.
Proof. unfold count. cbn. destruct (p c); reflexivity. Qed.

(** The loop goes on to the next cell. *)
Ltac continue_with IH st pl dl bg :=
  let IH1 := fresh "IH1" in
  let Hv := fresh "Hv" in
  specialize (IH st pl dl bg); cbn zeta in IH; destruct IH as [IH1 IH2];
  split; [rewrite IH1 | intros Hv; specialize (IH2 Hv)].

Lemma analyze_cells_spec cells : forall st pl dl bg,
  let r := analyze_cells cells st pl dl bg in
  valid r = negb (existsb cell_bad cells)
            && (count is_star cells + Nat.b2n st <=? 1)%nat
            && (count bang_led cells + Nat.b2n bg <=? 1)%nat /\
  (valid r = true ->
   hasStar r = st || existsb is_star cells /\
   hasPlus r = pl || existsb is_plus cells /\
   hasDollar r = dl || existsb is_dollar cells /\
   hasBang r = bg || existsb bang_led cells).
Proof.
  induction cells as [|c cells IH]; intros st pl dl bg.
  - cbn. unfold count. cbn. destruct st, bg; cbn; rewrite ?orb_false_r; auto.
  - cbn zeta. rewrite !count_cons. cbn [existsb].
    destruct c as [|k [|k2 r]].
    + (* the empty cell *) cbn. split; [reflexivity|discriminate].
    + (* one character *)
      destruct (single_char k) as (Es & Ep & Hs & Hp & Hb & Hd & Ho).
      cbn zeta in *. cbn [analyze_cells]. rewrite Es, Ep.
      destruct (is_star (String k EmptyString)) eqn:E1.
      { destruct (Hs eq_refl) as (-> & E2 & E3). unfold is_dollar at 1.
        rewrite E2, E3.
        cbn [bang_led Nat.b2n negb orb andb Nat.add].
        destruct st.
        - cbn. split; [|discriminate].
          replace (count is_star cells + 1 <=? 0)%nat with false
            by (symmetry; apply Nat.leb_gt; lia).
          now rewrite andb_false_r.
        - continue_with IH true pl dl bg.
          + cbn [Nat.b2n]. repeat (f_equal; try lia).
          + cbn [orb] in *. exact IH2. }
      destruct (is_plus (String k EmptyString)) eqn:E2.
      { destruct (Hp eq_refl) as (-> & E3). unfold is_dollar at 1. rewrite E3.
        cbn [bang_led Nat.b2n negb orb andb Nat.add].
        continue_with IH st true dl bg; [reflexivity|].
        rewrite orb_true_r. exact IH2. }
      destruct (String.eqb (String k EmptyString) "!") eqn:E3.
      { rewrite (Hb eq_refl). cbn. split; [reflexivity|discriminate]. }
      unfold is_dollar at 1.
      destruct (String.eqb (String k EmptyString) "$") eqn:E4.
      { rewrite (Hd eq_refl).
        cbn [bang_led Nat.b2n negb orb andb Nat.add].
        continue_with IH st pl true bg; [reflexivity|].
        rewrite orb_true_r. exact IH2. }
      rewrite (Ho eq_refl eq_refl eq_refl eq_refl).
      cbn [bang_led Nat.b2n negb orb andb Nat.add].
      destruct (permitted k); cbn [negb orb andb].
      * continue_with IH st pl dl bg; [reflexivity|exact IH2].
      * cbn. split; [reflexivity|discriminate].
    + (* two characters or more *)
      destruct (multi_char k k2 r) as (E1 & E2 & E3 & E4 & E5).
      cbn zeta in *. unfold is_dollar at 1. rewrite E1, E2, E3, E4.
      cbn [analyze_cells Nat.b2n orb Nat.add].
      change (Ascii.eqb k "!") with (is_bang k).
      destruct (is_bang k) eqn:Eb.
      * destruct bg.
        { cbn. split; [|discriminate].
          replace (count bang_led cells + 1 <=? 0)%nat with false
            by (symmetry; apply Nat.leb_gt; lia).
          now rewrite !andb_false_r. }
        rewrite E5.
        destruct (cell_bad (String k (String k2 r))); cbn [negb orb andb].
        { cbn. split; [reflexivity|discriminate]. }
        continue_with IH st pl dl true.
        -- cbn [Nat.b2n]. repeat (f_equal; try lia).
        -- cbn [orb] in *. exact IH2.
      * rewrite E5. cbn [Nat.b2n Nat.add].
        destruct (cell_bad (String k (String k2 r))); cbn [negb orb andb].
        { cbn. split; [reflexivity|discriminate]. }
        continue_with IH st pl dl bg; [reflexivity|exact IH2].
Qed.

Lemma existsb_split_or (cells : list string) :
  existsb cell_bad cells
  = existsb is_empty cells || existsb bang_misplaced cells || existsb foreign_char cells.
Proof.
  induction cells as [|c cells IH]; [reflexivity|].
  cbn [existsb]. rewrite IH. unfold cell_bad.
  destruct (is_empty c), (bang_misplaced c), (foreign_char c),
    (existsb is_empty cells), (existsb bang_misplaced cells); reflexivity.
Qed.

(** [AnalyzeSuffix] rejects the suffixes of [rejected] and no other, and
    reports the features of the ones it accepts. *)
Lemma AnalyzeSuffix_spec s :
  valid (AnalyzeSuffix s) = negb (rejected s) /\
  (valid (AnalyzeSuffix s) = true ->
   hasStar (AnalyzeSuffix s) = existsb is_star (Split s) /\
   hasPlus (AnalyzeSuffix s) = existsb is_plus (Split s) /\
   hasDollar (AnalyzeSuffix s) = existsb is_dollar (Split s) /\
   hasBang (AnalyzeSuffix s) = existsb bang_led (Split s)).
Proof.
  unfold AnalyzeSuffix.
  destruct (analyze_cells_spec (Split s) false false false false) as [H1 H2].
  cbn zeta in *. split; [|exact H2].
  rewrite H1. unfold rejected, rejected_as_claimed. cbn zeta.
  rewrite existsb_split_or. cbn [Nat.b2n]. rewrite !Nat.add_0_r.
  rewrite !Nat.ltb_antisym, !negb_orb, !negb_involutive.
  destruct (existsb is_empty (Split s)), (existsb bang_misplaced (Split s)),
    (existsb foreign_char (Split s)), (count is_star (Split s) <=? 1)%nat,
    (count bang_led (Split s) <=? 1)%nat; reflexivity.
Qed.

(** C7, as stated, fails: !a/!b has no empty cell, no "*", each "!" leads a
    cell of its own and every other character is permitted, and
    [AnalyzeSuffix] rejects it. *)
Lemma C7_counterexample :
  valid (AnalyzeSuffix "!a/!b") = false /\ rejected_as_claimed "!a/!b" = false.
Proof. split; reflexivity. Qed.

(** C7, amended.  [AnalyzeSuffix] returns valid = false exactly when the
    suffix has an empty cell, more than one "*" cell, more than one cell led
    by "!", a "!" that is a standalone cell or stands elsewhere than first in
    its cell, or, outside the cells "+", "$" and "*", a character that is not
    of [A-Za-z0-9._,()-]; for an accepted suffix the four flags say whether a
    "*" cell, a "+" cell, a "$" cell and a cell led by "!" occur. *)
Theorem C7_analyze_suffix (s : string) :
  (valid (AnalyzeSuffix s) = false <-> rejected s = true) /\
  (valid (AnalyzeSuffix s) = true ->
   hasStar (AnalyzeSuffix s) = existsb is_star (Split s) /\
   hasPlus (AnalyzeSuffix s) = existsb is_plus (Split s) /\
   hasDollar (AnalyzeSuffix s) = existsb is_dollar (Split s) /\
   hasBang (AnalyzeSuffix s) = existsb bang_led (Split s)).
Proof.
  destruct (AnalyzeSuffix_spec s) as [H1 H2]. split; [|exact H2].
  rewrite H1. destruct (rejected s); cbn; split; congruence.
Qed.

End SuffixProofs.

(** ** Chain analysis *)

Module ChainProofs.
Import Objects Core ChainSpec.
#[local] Open Scope string_scope.

#[local] Arguments Util.RestrictBy : simpl never.
#[local] Arguments Util.AnalyzeSuffix : simpl never.

Lemma bytes_Equal_true a b : bytes_Equal a b = true <-> a = b.
Proof. unfold bytes_Equal. apply bool_decide_eq_true. Qed.

Lemma bytes_Equal_false a b : bytes_Equal a b = false <-> a <> b.
Proof. unfold bytes_Equal. apply bool_decide_eq_false. Qed.

(** *** One link *)

Lemma link_step_TTLExpired mvk w d :
  (exists ps, link_step mvk w d = inl (TTLExpired, ps)) <-> w_ttl w = 0.
Proof.
  unfold link_step. split.
  - intros [ps H]. destruct (Z.eqb_spec (w_ttl w) 0) as [|_]; [assumption|].
    destruct (_ || _); [discriminate|].
    destruct (Util.RestrictBy _ _) as [u []]; discriminate.
  - intros ->. eauto.
Qed.

Lemma link_step_BadLink mvk w d :
  (exists ps, link_step mvk w d = inl (BadLink, ps)) <->
  w_ttl w <> 0 /\ (w_tail w <> GetGiverVK d \/ mvk <> GetAccessURIMVK d).
Proof.
  unfold link_step. destruct (Z.eqb_spec (w_ttl w) 0) as [E|E].
  - split; [intros [ps H]; discriminate|intros [H _]; contradiction].
  - destruct (bytes_Equal (w_tail w) (GetGiverVK d)) eqn:E1;
    destruct (bytes_Equal mvk (GetAccessURIMVK d)) eqn:E2; cbn [negb orb];
      rewrite ?bytes_Equal_true, ?bytes_Equal_false in *.
    + split.
      * intros [ps H]. destruct (Util.RestrictBy _ _) as [u []]; discriminate.
      * intros [_ [H|H]]; contradiction.
    + split; eauto.
    + split; eauto.
    + split; eauto.
Qed.

Lemma link_step_inr mvk w d w' :
  link_step mvk w d = inr w' ->
  w_ttl w <> 0 /\ w_tail w = GetGiverVK d /\ mvk = GetAccessURIMVK d /\
  Util.RestrictBy (w_uri w) (GetAccessURISuffix d) = (w_uri w', true) /\
  w_tail w' = GetReceiverVK d /\
  w_ps w' = ReduceBy (w_ps w) (GetPermissionSet d) /\
  w_ttl w' = Z.min (GetTTL d) (w_ttl w - 1).
Proof.
  unfold link_step. destruct (Z.eqb_spec (w_ttl w) 0) as [E|E]; [discriminate|].
  destruct (bytes_Equal (w_tail w) (GetGiverVK d)) eqn:E1; [|discriminate].
  destruct (bytes_Equal mvk (GetAccessURIMVK d)) eqn:E2; [|discriminate].
  cbn [negb orb]. destruct (Util.RestrictBy _ _) as [u []]; [|discriminate].
  cbn [negb]. intros [= <-]. cbn.
  rewrite bytes_Equal_true in *. repeat split; try assumption.
  destruct (Z.ltb_spec (GetTTL d) (w_ttl w - 1)); lia.
Qed.

(** *** The walk *)

(** An error of the walk is the error of one link, reached through the
    links before it. *)
Lemma walk_links_inl mvk links : forall w e,
  walk_links mvk w links = inl e <->
  exists i d w', links !! i = Some d /\
                 walk_links mvk w (take i links) = inr w' /\
                 link_step mvk w' d = inl e.
Proof.
  induction links as [|d links IH]; intros w e.
  - cbn. split; [discriminate|]. intros (i & d & w' & H & _). now destruct i.
  - cbn [walk_links]. destruct (link_step mvk w d) as [e'|w1] eqn:E.
    + split.
      * intros [= ->]. exists 0%nat, d, w. auto.
      * intros ([|i] & d' & w' & Hl & Hw & Hs).
        -- cbn in *. injection Hl as <-. injection Hw as <-. congruence.
        -- cbn in Hw. rewrite E in Hw. discriminate.
    + rewrite IH. split.
      * intros (i & d' & w' & Hl & Hw & Hs). exists (S i), d', w'.
        cbn. rewrite E. auto.
      * intros ([|i] & d' & w' & Hl & Hw & Hs).
        -- cbn in *. injection Hl as <-. injection Hw as <-. congruence.
        -- cbn in *. rewrite E in Hw. exists i, d', w'. auto.
Qed.

(** The walk hands on the receiver of the DOT it has come to. *)
Lemma walk_links_tail mvk links : forall firstdot w w' (i : nat) prev,
  w_tail w = GetReceiverVK firstdot ->
  walk_links mvk w (take i links) = inr w' ->
  (firstdot :: links) !! i = Some prev ->
  w_tail w' = GetReceiverVK prev.
Proof.
  induction links as [|d links IH]; intros firstdot w w' i prev Ht Hw Hp.
  - destruct i; cbn in *; [|discriminate].
    injection Hp as <-. injection Hw as <-. exact Ht.
  - destruct i as [|i]; cbn in *.
    + injection Hp as <-. congruence.
    + destruct (link_step mvk w d) as [|w1] eqn:E; [discriminate|].
      apply link_step_inr in E as (_ & _ & _ & _ & Ht1 & _).
      eapply (IH d w1); eauto.
Qed.

(** Links in order, each with the TTL [t]: the walk gets through as many
    links as the TTL it starts with, and raises [TTLExpired] at the next. *)
Lemma walk_links_ttl mvk t links : forall w,
  linked mvk (w_tail w) (w_uri w) links ->
  (forall d, d ∈ links -> GetTTL d = t) ->
  0 <= w_ttl w <= t ->
  if decide (Z.of_nat (length links) <= w_ttl w)
  then exists w', walk_links mvk w links = inr w' /\
                  w_ttl w' = w_ttl w - Z.of_nat (length links)
  else exists ps, walk_links mvk w links = inl (TTLExpired, ps).
Proof.
  induction links as [|d links IH]; intros w Hl Ht Hw.
  - cbn. destruct (decide _); [|lia]. exists w. split; [reflexivity|lia].
  - cbn in Hl. destruct Hl as (Hg & Hm & u & Hr & Hl).
    cbn [walk_links length].
    destruct (Z.eq_dec (w_ttl w) 0) as [E0|E0].
    + destruct (decide _); [lia|].
      destruct (proj2 (link_step_TTLExpired mvk w d) E0) as [ps ->]. eauto.
    + assert (link_step mvk w d =
              inr (mkWalk (w_ttl w - 1) (ReduceBy (w_ps w) (GetPermissionSet d))
                          (GetReceiverVK d) u)) as ->.
      { unfold link_step. destruct (Z.eqb_spec (w_ttl w) 0); [contradiction|].
        rewrite (proj2 (bytes_Equal_true _ _) Hg), (proj2 (bytes_Equal_true _ _) Hm).
        cbn [negb orb]. rewrite Hr. cbn [negb].
        rewrite (Ht d) by (apply list_elem_of_here).
        destruct (Z.ltb_spec t (w_ttl w - 1)); [lia|reflexivity]. }
      specialize (IH (mkWalk (w_ttl w - 1) (ReduceBy (w_ps w) (GetPermissionSet d))
                             (GetReceiverVK d) u)).
      cbn [w_ttl w_tail w_uri] in IH.
      specialize (IH Hl (fun d' H => Ht d' (list_elem_of_further _ _ _ H))).
      specialize (IH ltac:(lia)).
      destruct (decide (Z.of_nat (length links) <= w_ttl w - 1));
        destruct (decide (Z.of_nat (S (length links)) <= w_ttl w)); try lia.
      * destruct IH as (w' & -> & E). exists w'. split; [reflexivity|lia].
      * exact IH.
Qed.

Lemma check_permissions_codes mtype star plus ps e :
  check_permissions mtype star plus ps = Some e ->
  e = BadPermissions \/ e = BadOperation.
Proof.
  unfold check_permissions.
  repeat match goal with
         | |- context [if ?b then _ else _] => destruct b
         end; intros [= <-]; auto.
Qed.

(** What [analyze] comes to once the checks on the first DOT have passed. *)
Lemma analyze_walk mtype U firstdot links u0 :
  Util.RestrictBy U (GetAccessURISuffix firstdot) = (u0, true) ->
  GetGiverVK firstdot = GetAccessURIMVK firstdot ->
  match walk_links (GetAccessURIMVK firstdot) (start firstdot u0) links with
  | inl (e, _) => err (analyze mtype U firstdot links) = Some e
  | inr w =>
      err (analyze mtype U firstdot links) = Some OverconstrainedURI \/
      err (analyze mtype U firstdot links) = Some BadPermissions \/
      err (analyze mtype U firstdot links) = Some BadOperation \/
      err (analyze mtype U firstdot links) = None
  end.
Proof.
  intros Hr Hg. unfold analyze. rewrite Hr. cbn [negb].
  rewrite (proj2 (bytes_Equal_true _ _) Hg). cbn [negb].
  fold (start firstdot u0).
  destruct (walk_links _ _ _) as [[e ps]|w]; [reflexivity|].
  destruct (Util.valid _); cbn [negb err]; [|auto].
  destruct (check_permissions _ _ _ _) as [e|] eqn:E; [|auto].
  apply check_permissions_codes in E as [->| ->]; auto.
Qed.

Lemma analyze_first_checks mtype U firstdot links e :
  err (analyze mtype U firstdot links) = Some e ->
  e <> BadURI -> e <> ChainOriginNotMVK ->
  exists u0, Util.RestrictBy U (GetAccessURISuffix firstdot) = (u0, true) /\
             GetGiverVK firstdot = GetAccessURIMVK firstdot.
Proof.
  unfold analyze. destruct (Util.RestrictBy _ _) as [u0 []]; cbn [negb].
  - destruct (bytes_Equal _ _) eqn:E; cbn [negb].
    + intros _ _ _. exists u0. split; [reflexivity|]. now apply bytes_Equal_true.
    + cbn. intros [= <-]. congruence.
  - cbn. intros [= <-]. congruence.
Qed.

(** *** Chain reduction *)

Lemma restrict_target_first : Util.RestrictBy "a/b/x" "a/*" = ("a/b/x", true).
Proof. vm_compute. reflexivity. Qed.
Lemma restrict_target_second : Util.RestrictBy "a/b/x" "a/b/+" = ("a/b/x", true).
Proof. vm_compute. reflexivity. Qed.
Lemma restrict_any_first : Util.RestrictBy "*" "a/*" = ("a/*", true).
Proof. vm_compute. reflexivity. Qed.
Lemma restrict_grants : Util.RestrictBy "a/*" "a/b/+" = ("a/b/+", true).
Proof. vm_compute. reflexivity. Qed.

(** C1, as stated, fails twice.  With the TTL 0 in the first DOT, the TTL
    that [CreateDOT] leaves, the analysis of a Subscribe on a/b/x fails with
    TTLExpired.  And the merged URI that the analysis of a Subscribe on a/b/x
    returns is the target a/b/x, not a/b/+; for the targets "*" and a/b/+, to
    which it returns a/b/+, a Subscribe fails with BadPermissions. *)
Lemma C1_counterexample :
  (let chain := [access_dot [x01] [x02] [x01] 0 "a/*" perm_CstarT;
                 access_dot [x02] [x03] [x01] 0 "a/b/+" perm_C] in
   err <$> AnalyzeAccessDOTChain TypeSubscribe "a/b/x" chain
   = Some (Some TTLExpired)) /\
  (let chain := [access_dot [x01] [x02] [x01] 3 "a/*" perm_CstarT;
                 access_dot [x02] [x03] [x01] 3 "a/b/+" perm_C] in
   (fun r => (err r, mergeduri r))
     <$> AnalyzeAccessDOTChain TypeSubscribe "a/b/x" chain
   = Some (None, Some "a/b/x") /\
   (fun r => (err r, mergeduri r))
     <$> AnalyzeAccessDOTChain TypeSubscribe "*" chain
   = Some (Some BadPermissions, Some "a/b/+") /\
   (fun r => (err r, mergeduri r))
     <$> AnalyzeAccessDOTChain TypeSubscribe "a/b/+" chain
   = Some (Some BadPermissions, Some "a/b/+")).
Proof.
  cbn zeta. repeat split; vm_compute; reflexivity.
Qed.

(** C1, amended.  M grants A the permissions C*T on a/* with a TTL of 1 at
    least, and A grants B the permission C on a/b/+ with a TTL that is not
    negative.  The two grants merge to the permission C, and their suffixes
    restrict to a/b/+: that is the suffix of the scenario the chain builder
    makes of the two DOTs, and the merged URI that the analysis returns for
    the target "*", for which it fails whatever the message type, with
    BadPermissions or BadOperation.  For the target a/b/x the analysis of a
    Subscribe returns no error, with the target as its merged URI and the
    permission C, and the analysis of a Publish fails with BadPermissions. *)
Theorem C1_chain_reduction (M A B : list byte) (ttl1 ttl2 : Z) :
  0 < ttl1 -> 0 <= ttl2 ->
  let d1 := access_dot M A M ttl1 "a/*" perm_CstarT in
  let d2 := access_dot A B M ttl2 "a/b/+" perm_C in
  let chain := [d1; d2] in
  ReduceBy (GetPermissionSet d1) (GetPermissionSet d2) = perm_C /\
  Util.RestrictBy "a/*" "a/b/+" = ("a/b/+", true) /\
  Api.AddAndClone (Api.NewScenario d1) d2 = Some (Api.mkScenario chain "a/b/+") /\
  (forall mtype, exists r,
      AnalyzeAccessDOTChain mtype "*" chain = Some r /\
      (err r = Some BadPermissions \/ err r = Some BadOperation) /\
      ps r = Some perm_C /\ mergeduri r = Some "a/b/+" /\ originVK r = Some B) /\
  (exists r,
      AnalyzeAccessDOTChain TypeSubscribe "a/b/x" chain = Some r /\
      err r = None /\ ps r = Some perm_C /\ mergeduri r = Some "a/b/x") /\
  (exists r,
      AnalyzeAccessDOTChain TypePublish "a/b/x" chain = Some r /\
      err r = Some BadPermissions).
Proof.
  intros Httl1 Httl2 d1 d2 chain. split; [reflexivity|].
  split; [exact restrict_grants|]. split.
  { unfold Api.AddAndClone, Api.NewScenario. cbn [Api.suffix Api.chain].
    cbn [d1 d2 GetAccessURISuffix access_dot uriSuffix].
    rewrite restrict_grants. cbn [negb app].
    unfold Api.TTL, chain, d1, d2. cbn [foldl Api.chain GetTTL access_dot ttl].
    replace (256 - 1) with 255 by reflexivity.
    destruct (Z.ltb_spec ttl1 255);
      [destruct (Z.ltb_spec ttl2 (ttl1 - 1))|destruct (Z.ltb_spec ttl2 (255 - 1))];
      match goal with
      | |- context [if (?a <? 0)%Z then _ else _] => destruct (Z.ltb_spec a 0)
      end; try lia; reflexivity. }
  assert (forall U u1 u2,
    Util.RestrictBy U "a/*" = (u1, true) ->
    Util.RestrictBy u1 "a/b/+" = (u2, true) ->
    walk_links M (start d1 u1) [d2]
    = inr (mkWalk (if (ttl2 <? ttl1 - 1)%Z then ttl2 else ttl1 - 1) perm_C B u2)) as Hwalk.
  { intros U u1 u2 H1 H2. cbn [walk_links]. unfold link_step, start.
    cbn [d1 d2 w_ttl w_ps w_tail w_uri GetTTL GetGiverVK GetReceiverVK
         GetAccessURIMVK GetAccessURISuffix access_dot ttl giverVK receiverVK
         mVK uriSuffix].
    destruct (Z.eqb_spec ttl1 0); [lia|].
    rewrite !(proj2 (bytes_Equal_true _ _) eq_refl). cbn [negb orb].
    rewrite H2. reflexivity. }
  assert (forall mtype U u1 u2,
    Util.RestrictBy U "a/*" = (u1, true) ->
    Util.RestrictBy u1 "a/b/+" = (u2, true) ->
    Util.valid (Util.AnalyzeSuffix u2) = true ->
    analyze mtype U d1 [d2]
    = mkAnalysis
        (check_permissions mtype (Util.hasStar (Util.AnalyzeSuffix u2))
           (Util.hasPlus (Util.AnalyzeSuffix u2)) perm_C)
        (Some M) (Some u2) (Util.hasStar (Util.AnalyzeSuffix u2))
        (Util.hasPlus (Util.AnalyzeSuffix u2)) (Some perm_C) (Some B)) as Han.
  { intros mtype U u1 u2 H1 H2 Hv. unfold analyze.
    cbn [d1 GetTTL GetGiverVK GetReceiverVK GetAccessURIMVK GetAccessURISuffix
         access_dot ttl giverVK receiverVK mVK uriSuffix].
    rewrite H1. cbn [negb].
    rewrite (proj2 (bytes_Equal_true _ _) eq_refl). cbn [negb].
    pose proof (Hwalk U u1 u2 H1 H2) as Hw. unfold start in Hw.
    cbn [d1 GetTTL GetReceiverVK access_dot ttl receiverVK] in Hw.
    rewrite Hw. cbn [w_uri w_ps w_tail]. rewrite Hv. reflexivity. }
  split; [|split].
  - intros mtype. eexists. split; [reflexivity|].
    cbn [AnalyzeAccessDOTChain chain].
    rewrite (Han mtype "*" "a/*" "a/b/+" restrict_any_first restrict_grants)
      by (vm_compute; reflexivity).
    cbn [err ps mergeduri originVK]. split; [|auto].
    replace (Util.hasStar (Util.AnalyzeSuffix "a/b/+")) with false
      by (vm_compute; reflexivity).
    replace (Util.hasPlus (Util.AnalyzeSuffix "a/b/+")) with true
      by (vm_compute; reflexivity).
    unfold check_permissions, perm_C.
    cbn [CanPublish CanConsume CanConsumePlus CanConsumeStar CanTap CanTapPlus
         CanTapStar CanList negb andb orb].
    repeat match goal with
           | |- context [if ?b then _ else _] => destruct b
           end; auto.
  - eexists. split; [reflexivity|].
    rewrite (Han TypeSubscribe "a/b/x" "a/b/x" "a/b/x" restrict_target_first
               restrict_target_second) by (vm_compute; reflexivity).
    cbn [err ps mergeduri]. split; [vm_compute; reflexivity|auto].
  - eexists. split; [reflexivity|].
    rewrite (Han TypePublish "a/b/x" "a/b/x" "a/b/x" restrict_target_first
               restrict_target_second) by (vm_compute; reflexivity).
    cbn [err]. vm_compute. reflexivity.
Qed.

Lemma C1_chain_reduction_witness :
  0 < 3 /\ 0 <= 3 /\
  let chain := [access_dot [x01] [x02] [x01] 3 "a/*" perm_CstarT;
                access_dot [x02] [x03] [x01] 3 "a/b/+" perm_C] in
  exists r, AnalyzeAccessDOTChain TypeSubscribe "a/b/x" chain = Some r /\
            err r = None /\ ps r = Some perm_C /\ mergeduri r = Some "a/b/x".
Proof.
  split; [lia|]. split; [lia|].
  exact (proj1 (proj2 (proj2 (proj2 (proj2
    (C1_chain_reduction [x01] [x02] [x03] 3 3 ltac:(lia) ltac:(lia))))))).
Defined.

(** *** TTL *)

(** C2, as stated, fails: the analysis of a chain of four DOTs with the TTL
    3, with valid links and URIs, raises no error at all. *)
Lemma C2_counterexample :
  Forall (fun d => GetTTL d = 3) ttl3_chain /\
  length ttl3_chain = 4%nat /\
  err <$> AnalyzeAccessDOTChain TypeSubscribe "a/b" ttl3_chain = Some None.
Proof.
  split; [repeat constructor|]. split; [reflexivity|].
  vm_compute. reflexivity.
Qed.

(** C2, amended.  In a chain whose DOTs all have the TTL [t] and whose links
    and URIs are valid, analysis fails with TTLExpired exactly when more than
    [t] links follow the first DOT: with the TTL 3 a chain of four DOTs
    passes and a chain of five fails at the fifth.  At each link the running
    TTL is tested before it is decremented, and TTLExpired is raised exactly
    when decrementing would make it negative. *)
Theorem C2_ttl_expired (t : Z) (mtype : Z) (U : string) (firstdot : DOT)
    (links : list DOT) (u0 : string) :
  0 <= t ->
  Util.RestrictBy U (GetAccessURISuffix firstdot) = (u0, true) ->
  GetGiverVK firstdot = GetAccessURIMVK firstdot ->
  linked (GetAccessURIMVK firstdot) (GetReceiverVK firstdot) u0 links ->
  Forall (fun d => GetTTL d = t) (firstdot :: links) ->
  (exists r, AnalyzeAccessDOTChain mtype U (firstdot :: links) = Some r /\
             (err r = Some TTLExpired <-> t < Z.of_nat (length links))) /\
  (forall mvk w d, 0 <= w_ttl w ->
     ((exists ps, link_step mvk w d = inl (TTLExpired, ps)) <-> w_ttl w - 1 < 0)).
Proof.
  intros Ht Hr Hg Hl Hall. split.
  - eexists. split; [reflexivity|].
    pose proof (analyze_walk mtype U firstdot links u0 Hr Hg) as Ha.
    apply Forall_cons in Hall as [Hf Hall].
    pose proof (walk_links_ttl (GetAccessURIMVK firstdot) t links
                  (start firstdot u0) Hl) as Hw.
    cbn [start w_ttl] in Hw. rewrite Hf in Hw.
    specialize (Hw (fun d H => proj1 (Forall_forall _ _) Hall d H) ltac:(lia)).
    destruct (decide (Z.of_nat (length links) <= t)) as [Hle|Hgt].
    + destruct Hw as (w' & Hw & _). rewrite Hw in Ha.
      split; [|lia]. intros E.
      destruct Ha as [Ha|[Ha|[Ha|Ha]]]; rewrite Ha in E; discriminate.
    + destruct Hw as (ps & Hw). rewrite Hw in Ha.
      split; [lia|]. intros _. exact Ha.
  - intros mvk w d Hw. rewrite link_step_TTLExpired. lia.
Qed.

Lemma C2_ttl_expired_witness :
  let firstdot := access_dot [x00] [x01] [x00] 3 "a/*" perm_CstarT in
  let links := [access_dot [x01] [x02] [x00] 3 "a/*" perm_CstarT;
                access_dot [x02] [x03] [x00] 3 "a/*" perm_CstarT;
                access_dot [x03] [x04] [x00] 3 "a/*" perm_CstarT;
                access_dot [x04] [x05] [x00] 3 "a/*" perm_CstarT] in
  exists r, AnalyzeAccessDOTChain TypeSubscribe "a/b" (firstdot :: links) = Some r /\
            (err r = Some TTLExpired <-> 3 < Z.of_nat (length links)).
Proof.
  intros firstdot links.
  refine (proj1 (C2_ttl_expired 3 TypeSubscribe "a/b" firstdot links "a/b"
                   _ _ _ _ _)).
  - lia.
  - vm_compute. reflexivity.
  - reflexivity.
  - cbn [linked links]. repeat (split; [reflexivity|]).
    exists "a/b". split; [vm_compute; reflexivity|].
    repeat (split; [reflexivity|]).
    exists "a/b". split; [vm_compute; reflexivity|].
    repeat (split; [reflexivity|]).
    exists "a/b". split; [vm_compute; reflexivity|].
    repeat (split; [reflexivity|]).
    exists "a/b". split; [vm_compute; reflexivity|]. exact I.
  - repeat constructor.
Defined.

(** *** Links *)

(** C3, as stated, fails twice.  A first DOT whose giver is not its MVK
    gives BadURI when its suffix does not admit the target; and a link that
    is not in order gives TTLExpired, with no error before it, when the
    running TTL is 0 there. *)
Lemma C3_counterexample :
  (let d0 := access_dot [x01] [x02] [x00] 3 "b" perm_C in
   GetGiverVK d0 <> GetAccessURIMVK d0 /\
   err <$> AnalyzeAccessDOTChain TypeSubscribe "a" [d0] = Some (Some BadURI)) /\
  (let d0 := access_dot [x00] [x01] [x00] 0 "a" perm_C in
   let d1 := access_dot [x07] [x02] [x00] 3 "a" perm_C in
   GetReceiverVK d0 <> GetGiverVK d1 /\
   err <$> AnalyzeAccessDOTChain TypeSubscribe "a" [d0; d1] = Some (Some TTLExpired)).
Proof.
  split; cbn zeta; (split; [discriminate|vm_compute; reflexivity]).
Qed.

(** The errors that a link raises. *)
Lemma link_step_codes mvk w d e ps :
  link_step mvk w d = inl (e, ps) ->
  e = TTLExpired \/ e = BadLink \/ e = OverconstrainedURI.
Proof.
  unfold link_step. destruct (w_ttl w =? 0)%Z; [intros [= <- _]; auto|].
  destruct (_ || _); [intros [= <- _]; auto|].
  destruct (Util.RestrictBy _ _) as [u []]; cbn [negb]; [discriminate|].
  intros [= <- _]. auto.
Qed.

(** C3, amended.  The analysis fails with BadURI exactly when the suffix of
    the first DOT does not admit the target; once it has been found to admit
    the target, a first DOT whose giver is not its MVK gives
    ChainOriginNotMVK.  Analysis returns BadLink if and only if there is a
    link [i >= 1] that is reached without an error at the links before it,
    at which the running TTL is not 0, and at which [C[i-1].receiver] differs
    from [C[i].giver] or the MVK of [C[i]] differs from that of [C[0]]. *)
Theorem C3_bad_link (mtype : Z) (U : string) (firstdot : DOT) (links : list DOT) :
  let C := firstdot :: links in
  let mvk := GetAccessURIMVK firstdot in
  exists r, AnalyzeAccessDOTChain mtype U C = Some r /\
  (err r = Some BadURI <->
   (Util.RestrictBy U (GetAccessURISuffix firstdot)).2 = false) /\
  (forall u0, Util.RestrictBy U (GetAccessURISuffix firstdot) = (u0, true) ->
              GetGiverVK firstdot <> mvk ->
              err r = Some ChainOriginNotMVK) /\
  (err r = Some BadLink <->
   exists (i : nat) (prev d : DOT) (u0 : string) (w : Walk),
     (1 <= i)%nat /\ C !! (i - 1)%nat = Some prev /\ C !! i = Some d /\
     Util.RestrictBy U (GetAccessURISuffix firstdot) = (u0, true) /\
     GetGiverVK firstdot = mvk /\
     walk_links mvk (start firstdot u0) (take (i - 1) links) = inr w /\
     w_ttl w <> 0 /\
     (GetReceiverVK prev <> GetGiverVK d \/ GetAccessURIMVK d <> mvk)).
Proof.
  cbn zeta. eexists. split; [reflexivity|]. split; [|split].
  - unfold analyze.
    destruct (Util.RestrictBy U (GetAccessURISuffix firstdot)) as [u0 ok].
    cbn [snd]. destruct ok; cbn [negb]; [|split; reflexivity].
    split; [|discriminate]. intros E. exfalso.
    destruct (bytes_Equal _ _); cbn [negb] in E; [|discriminate].
    destruct (walk_links _ _ _) as [[e ps]|w] eqn:Ew.
    + cbn [err] in E. injection E as ->.
      apply walk_links_inl in Ew as (i & d & w & _ & _ & Hs).
      apply link_step_codes in Hs as [Hs|[Hs|Hs]]; discriminate.
    + destruct (Util.valid _); cbn [negb err] in E; [|discriminate].
      destruct (check_permissions _ _ _ _) as [e|] eqn:Ec; [|discriminate].
      injection E as ->.
      apply check_permissions_codes in Ec as [Ec|Ec]; discriminate.
  - intros u0 Hr Hg. unfold analyze. rewrite Hr. cbn [negb].
    rewrite (proj2 (bytes_Equal_false _ _) Hg). reflexivity.
  - split.
    + intros E.
      destruct (analyze_first_checks _ _ _ _ _ E) as (u0 & Hr & Hg);
        [discriminate..|].
      pose proof (analyze_walk mtype U firstdot links u0 Hr Hg) as Ha.
      destruct (walk_links _ _ _) as [[e ps]|w] eqn:Ew.
      * rewrite E in Ha. injection Ha as <-.
        apply walk_links_inl in Ew as (i & d & w & Hl & Hw & Hs).
        assert (exists prev, (firstdot :: links) !! i = Some prev) as [prev Hp].
        { apply lookup_lt_is_Some. apply lookup_lt_Some in Hl. cbn. lia. }
        destruct (proj1 (link_step_BadLink (GetAccessURIMVK firstdot) w d)
                    (ex_intro _ ps Hs)) as [Ht Hd].
        rewrite (walk_links_tail _ links firstdot (start firstdot u0) w i prev eq_refl Hw Hp) in Hd.
        exists (S i), prev, d, u0, w. cbn [lookup list_lookup].
        replace (S i - 1)%nat with i by lia.
        repeat split; try assumption; try lia.
        destruct Hd as [Hd|Hd]; [left; exact Hd|right; congruence].
      * rewrite E in Ha. destruct Ha as [Ha|[Ha|[Ha|Ha]]]; discriminate.
    + intros (i & prev & d & u0 & w & Hi & Hp & Hd & Hr & Hg & Hw & Ht & Hbad).
      destruct i as [|i]; [lia|]. replace (S i - 1)%nat with i in * by lia.
      cbn [lookup list_lookup] in Hd.
      pose proof (analyze_walk mtype U firstdot links u0 Hr Hg) as Ha.
      assert (exists ps, link_step (GetAccessURIMVK firstdot) w d = inl (BadLink, ps))
        as [ps Hs].
      { apply link_step_BadLink. split; [assumption|].
        rewrite (walk_links_tail _ links firstdot (start firstdot u0) w i prev eq_refl Hw Hp).
        destruct Hbad as [Hb|Hb]; [left; exact Hb|right; congruence]. }
      assert (walk_links (GetAccessURIMVK firstdot) (start firstdot u0) links
              = inl (BadLink, ps)) as Hwl.
      { apply walk_links_inl. exists i, d, w. auto. }
      rewrite Hwl in Ha. exact Ha.
Qed.

End ChainProofs.

(** ** The terminus *)

Module TerminusProofs.
Import Core TerminusSpec.

(** *** The walker, in the shape of the source *)

Lemma rmatchSubs_nil s : rmatchSubs s [] = (map_to_list (subs s)).*2.
Proof. destruct s. reflexivity. Qed.

Lemma rmatchSubs_cons s p rest :
  rmatchSubs s (p :: rest) =
  (match children s !! p with Some v1 => rmatchSubs v1 rest | None => [] end) ++
  (match children s !! "+"%string with Some v2 => rmatchSubs v2 rest | None => [] end) ++
  (match children s !! "*"%string with
   | Some v3 =>
       (fix star (ps : list string) : list subscription :=
          match ps with
          | [] => []
          | _ :: ps' => rmatchSubs v3 ps ++ star ps'
          end) (p :: rest)
   | None => []
   end).
Proof.
  destruct s as [ch sb]. cbn [rmatchSubs children]. rewrite !lookup_fmap.
  destruct (ch !! p), (ch !! "+"%string), (ch !! "*"%string); reflexivity.
Qed.

(** A node without children shows its subscriptions to no topic that has a
    cell left: the calls that the loop for "*" makes on such a node, all with
    a cell left, visit nothing. *)
Lemma rmatchSubs_leaf s p rest :
  children s = ∅ -> rmatchSubs s (p :: rest) = [].
Proof.
  intros H. rewrite rmatchSubs_cons, H, !lookup_empty. reflexivity.
Qed.

(** Under a "*" child without children the loop for "*" visits nothing,
    whatever the topic: the subscriptions of that child are out of reach. *)
Lemma rmatchSubs_star_leaf s v3 p rest :
  children s !! "*"%string = Some v3 ->
  children v3 = ∅ ->
  rmatchSubs s (p :: rest) =
  (match children s !! p with Some v1 => rmatchSubs v1 rest | None => [] end) ++
  (match children s !! "+"%string with Some v2 => rmatchSubs v2 rest | None => [] end).
Proof.
  intros Hs Hv. rewrite rmatchSubs_cons, Hs.
  assert (forall ps,
    (fix star (ps : list string) : list subscription :=
       match ps with
       | [] => []
       | _ :: ps' => rmatchSubs v3 ps ++ star ps'
       end) ps = []) as ->.
  { intros ps. induction ps as [|q ps IH]; [reflexivity|].
    rewrite (rmatchSubs_leaf v3 q ps Hv), IH. reflexivity. }
  rewrite ?(rmatchSubs_leaf v3 p rest Hv), ?app_nil_r. reflexivity.
Qed.

(** *** The shuffle *)

Lemma swap_Permutation l i j : swap l i j ≡ₚ l.
Proof.
  unfold swap. destruct (l !! i) as [a|] eqn:Hi; [|reflexivity].
  destruct (l !! j) as [b|] eqn:Hj; [|reflexivity].
  exact (Permutation_insert_swap l j i b a Hj Hi).
Qed.

Lemma shuffle_Permutation draws l : shuffle draws l ≡ₚ l.
Proof.
  unfold shuffle. generalize (seq 0 (length l)) as ixs. intros ixs.
  revert l. induction ixs as [|i ixs IH]; intros l; [reflexivity|].
  cbn [foldl]. rewrite IH. apply swap_Permutation.
Qed.

(** *** The delivery loop *)

(** With a limit [k > 0] the loop delivers to the subscriptions it meets
    until [count] reaches [k], and from then on to taps only. *)
Lemma deliver_limit k l : forall count,
  0 < k -> 0 <= count ->
  fst (deliver k l count)
  = take (Z.to_nat (k - count)) l ++ filter is_tap (drop (Z.to_nat (k - count)) l).
Proof.
  induction l as [|s l IH]; intros count Hk Hc.
  - cbn. now rewrite take_nil, drop_nil.
  - cbn [deliver]. destruct (Z.eqb_spec k 0) as [|_]; [lia|]. cbn [negb andb].
    rewrite andb_true_r.
    destruct (Z.geb_spec count k) as [Hge|Hlt].
    + replace (Z.to_nat (k - count)) with 0%nat by lia. cbn [take drop app].
      destruct (tap s) eqn:Et; cbn [negb andb].
      * destruct (deliver k l (count + 1)) as [ds n] eqn:E. cbn [fst].
        rewrite filter_cons_True by exact Et.
        f_equal. pose proof (IH (count + 1) Hk ltac:(lia)) as H.
        rewrite E in H. cbn [fst] in H. rewrite H.
        replace (Z.to_nat (k - (count + 1))) with 0%nat by lia. reflexivity.
      * rewrite filter_cons_False by (unfold is_tap; rewrite Et; discriminate).
        rewrite (IH count Hk Hc).
        replace (Z.to_nat (k - count)) with 0%nat by lia. reflexivity.
    + rewrite andb_false_r.
      destruct (deliver k l (count + 1)) as [ds n] eqn:E. cbn [fst].
      replace (Z.to_nat (k - count)) with (S (Z.to_nat (k - (count + 1)))) by lia.
      cbn [take drop app]. f_equal.
      pose proof (IH (count + 1) Hk ltac:(lia)) as H.
      rewrite E in H. exact H.
Qed.

Lemma filter_non_tap_taps (l : list subscription) :
  filter non_tap (filter is_tap l) = [].
Proof.
  induction l as [|s l IH]; [reflexivity|].
  destruct (tap s) eqn:E.
  - rewrite (filter_cons_True is_tap) by exact E.
    rewrite filter_cons_False by (unfold non_tap; rewrite E; discriminate).
    exact IH.
  - rewrite (filter_cons_False is_tap) by (unfold is_tap; rewrite E; discriminate).
    exact IH.
Qed.

Lemma length_filter_split (l : list subscription) :
  (length (filter non_tap l) + length (filter is_tap l) = length l)%nat.
Proof.
  induction l as [|s l IH]; [reflexivity|].
  destruct (tap s) eqn:E.
  - rewrite (filter_cons_True is_tap) by exact E.
    rewrite filter_cons_False by (unfold non_tap; rewrite E; discriminate).
    cbn. lia.
  - rewrite (filter_cons_False is_tap) by (unfold is_tap; rewrite E; discriminate).
    rewrite filter_cons_True by exact E. cbn. lia.
Qed.

Lemma length_filter_take (P : subscription -> Prop) `{!forall s, Decision (P s)}
    (n : nat) (l : list subscription) :
  (length (filter P (take n l)) <= length (filter P l))%nat.
Proof.
  rewrite <- (take_drop n l) at 2. rewrite filter_app, length_app. lia.
Qed.

(** *** Publish *)

(** C4, as stated, fails: with the limit 2, three subscribers and one tap, a
    shuffle that puts the tap first leaves one subscriber with the message,
    not two. *)
Lemma C4_counterexample :
  exists tm, fanout = Some tm /\
    let matched := RMatchSubs (Topic publish2) tm in
    let delivered := Publish publish2 [0; 1; 2; 0]%nat tm in
    Consumers publish2 = 2 /\
    length (filter non_tap matched) = 3%nat /\
    length (filter is_tap matched) = 1%nat /\
    length (filter is_tap delivered) = 1%nat /\
    length (filter non_tap delivered) = 1%nat.
Proof.
  eexists. split; [vm_compute; reflexivity|].
  vm_compute. repeat split.
Qed.

(** C4, amended.  For a publish with a consumer limit [k > 0], every matching
    tap subscription receives the message; the subscriptions that receive it
    are the first [k] of the shuffled list of matches and the taps after
    them, a delivery to a tap counting towards [k] like any other.  So the
    non-tap subscriptions that receive it are those among the first [k] of
    the shuffled list: at most min(k, number of matching non-taps), and no
    fewer than min(k, number of matches) less the number of matching taps.
    With k = 2, three non-taps and one tap that is the tap and one or two of
    the non-taps. *)
Theorem C4_consumer_limit (m : Message) (draws : list nat) (tm : Terminus) :
  0 < Consumers m ->
  let matched := RMatchSubs (Topic m) tm in
  let shuffled := shuffle draws matched in
  let k := Z.to_nat (Consumers m) in
  let delivered := Publish m draws tm in
  shuffled ≡ₚ matched /\
  delivered = take k shuffled ++ filter is_tap (drop k shuffled) /\
  (forall s, s ∈ matched -> is_tap s -> s ∈ delivered) /\
  filter non_tap delivered = filter non_tap (take k shuffled) /\
  (Nat.min k (length matched) - length (filter is_tap matched)
   <= length (filter non_tap delivered)
   <= Nat.min k (length (filter non_tap matched)))%nat.
Proof.
  intros Hk matched shuffled k delivered.
  pose proof (shuffle_Permutation draws matched) as Hperm.
  fold shuffled in Hperm.
  assert (delivered = take k shuffled ++ filter is_tap (drop k shuffled)) as Hd.
  { unfold delivered, Publish. fold matched.
    destruct (Z.eqb_spec (Consumers m) 0) as [|_]; [lia|]. cbn [negb].
    fold shuffled. rewrite deliver_limit by lia.
    now replace (Z.to_nat (Consumers m - 0)) with k by (unfold k; lia). }
  assert (filter non_tap delivered = filter non_tap (take k shuffled)) as Hn.
  { rewrite Hd, filter_app, filter_non_tap_taps. apply app_nil_r. }
  split; [exact Hperm|]. split; [exact Hd|]. split; [|split; [exact Hn|]].
  - intros s Hs Ht. rewrite <- Hperm in Hs. rewrite Hd.
    rewrite <- (take_drop k shuffled) in Hs.
    apply elem_of_app in Hs as [Hs|Hs]; apply elem_of_app; [left; exact Hs|].
    right. apply list_elem_of_filter. auto.
  - rewrite Hn.
    pose proof (length_filter_split (take k shuffled)) as H1.
    pose proof (length_filter_take is_tap k shuffled) as H2.
    pose proof (length_filter_take non_tap k shuffled) as H3.
    pose proof (length_take shuffled k) as H4.
    rewrite <- Hperm. lia.
Qed.

Lemma C4_consumer_limit_witness :
  exists tm, fanout = Some tm /\
    0 < Consumers publish2 /\
    (Nat.min 2 (length (RMatchSubs (Topic publish2) tm))
       - length (filter is_tap (RMatchSubs (Topic publish2) tm))
     <= length (filter non_tap (Publish publish2 [0; 1; 2; 0]%nat tm))
     <= Nat.min 2 (length (filter non_tap (RMatchSubs (Topic publish2) tm))))%nat.
Proof.
  destruct fanout as [tm|] eqn:E; [|vm_compute in E; discriminate].
  exists tm. split; [reflexivity|]. split; [reflexivity|].
  exact (proj2 (proj2 (proj2 (proj2
    (C4_consumer_limit publish2 [0; 1; 2; 0]%nat tm ltac:(reflexivity)))))).
Defined.

(** The loop of internal/core/types.go tests the limit with [==]: a tap
    that is delivered to when [count] is at the limit takes [count] past it,
    and every later subscriber receives the message. *)
Lemma queue_limit_passed :
  exists tm, fanout = Some tm /\
    let m := mkMessage TypePublish 1 (in_ns "a/b/c") (9, 9) in
    length (filter non_tap (fst (CoreQueue.Publish m [0; 1; 2; 1]%nat tm))) = 3%nat.
Proof.
  eexists. split; [vm_compute; reflexivity|]. vm_compute. reflexivity.
Qed.

(** *** Matching a/b/c *)

(** C5: the walker lets "*" stand for cells only while a cell is left for
    the node under it, so a subscription under a pattern that ends in "*" is
    not visited.  Matching a/b/c visits the subscriptions under a/+/c, a/b/+
    and */c, and visits neither the ones under a/* and *, nor the ones under
    a/b and a/b/c/d. *)
Theorem C5_match_abc :
  let visited := RMatchSubs "a/b/c" patterns in
  (sub_of 1 ∈ visited /\ sub_of 2 ∈ visited /\ sub_of 3 ∈ visited) /\
  ((sub_of 4 ∉ visited) /\ (sub_of 5 ∉ visited)) /\
  ((sub_of 6 ∉ visited) /\ (sub_of 7 ∉ visited)).
Proof.
  intros visited.
  assert (visited = [sub_of 2; sub_of 1; sub_of 3]) as ->
    by (vm_compute; reflexivity).
  repeat split;
    try (apply list_elem_of_In; cbn; tauto);
    intros H; apply list_elem_of_In in H; cbn in H;
    repeat (destruct H as [H|H]; [discriminate|]); exact H.
Qed.

End TerminusProofs.

(** ** The resolution cache *)

Module ResolutionProofs.
Import Objects Resolution CacheSpec.

Lemma flush_all_fields hashes rd :
  entityCache (flush_all hashes rd) = entityCache rd /\
  dotFromInvCache (flush_all hashes rd) = dotFromInvCache rd /\
  dotFromCompleteCache (flush_all hashes rd) = dotFromCompleteCache rd /\
  dotToInvCache (flush_all hashes rd) = dotToInvCache rd.
Proof.
  revert rd. induction hashes as [|h hashes IH]; intros rd; [auto|].
  change (flush_all (h :: hashes) rd) with (flush_all hashes (flushDOT h rd)).
  destruct (IH (flushDOT h rd)) as (-> & -> & -> & ->). auto.
Qed.

Lemma flush_all_lookup hashes : forall rd k,
  dotHashCache (flush_all hashes rd) !! k
  = if decide (k ∈ hashes) then None else dotHashCache rd !! k.
Proof.
  induction hashes as [|h hashes IH]; intros rd k.
  - cbn. destruct (decide _) as [H|_]; [|reflexivity]. now apply elem_of_nil in H.
  - change (flush_all (h :: hashes) rd) with (flush_all hashes (flushDOT h rd)).
    rewrite IH. cbn [flushDOT dotHashCache].
    destruct (decide (k ∈ hashes)) as [H|H].
    + rewrite decide_True by (now apply list_elem_of_further). reflexivity.
    + destruct (decide (k = h)) as [->|Hne].
      * rewrite decide_True by apply list_elem_of_here. apply lookup_delete_eq.
      * rewrite decide_False by (rewrite elem_of_cons; tauto).
        now apply lookup_delete_ne.
Qed.

(** What [FlushEntity] leaves in the DOT cache: the DOTs listed under the
    entity in neither index. *)
Lemma FlushEntity_lookup vk rd k :
  dotHashCache (FlushEntity vk rd) !! k
  = if decide (k ∈ default [] (dotToInvCache rd !! SliceToBytes32 vk) \/
               k ∈ default [] (dotFromInvCache rd !! SliceToBytes32 vk))
    then None else dotHashCache rd !! k.
Proof.
  unfold FlushEntity. cbn [dotHashCache dotToInvCache dotFromInvCache entityCache
                           dotFromCompleteCache].
  set (rd0 := mkResolutionData _ _ _ _ _).
  set (dTo := default [] (dotToInvCache rd !! SliceToBytes32 vk)).
  set (dFrom := default [] (dotFromInvCache rd !! SliceToBytes32 vk)).
  destruct (flush_all_fields dTo rd0) as (_ & Hf & _ & _).
  rewrite Hf. cbn [rd0 dotFromInvCache]. fold dFrom.
  rewrite flush_all_lookup. cbn [dotHashCache].
  rewrite flush_all_lookup. cbn [rd0 dotHashCache].
  destruct (decide (k ∈ dFrom)), (decide (k ∈ dTo)), (decide (_ \/ _));
    try reflexivity; tauto.
Qed.

(** Under the invariant, flushing an entity flushes the DOTs it gave or
    received. *)
Lemma FlushEntity_flushes vk rd khash entry :
  indexed rd ->
  dotHashCache rd !! khash = Some entry ->
  SliceToBytes32 (GetGiverVK (dr_ro entry)) = SliceToBytes32 vk \/
  SliceToBytes32 (GetReceiverVK (dr_ro entry)) = SliceToBytes32 vk ->
  dotHashCache (FlushEntity vk rd) !! khash = None.
Proof.
  intros Hinv He Hvk. destruct (Hinv khash entry He) as [Hfrom Hto].
  rewrite FlushEntity_lookup. rewrite decide_True; [reflexivity|].
  destruct Hvk as [E|E]; rewrite E in *; auto.
Qed.

Lemma indexed_new : indexed newResolutionData.
Proof. intros k e H. cbn in H. now rewrite lookup_empty in H. Qed.

Lemma FlushEntity_from vk rd :
  dotFromInvCache (FlushEntity vk rd)
  = delete (SliceToBytes32 vk) (dotFromInvCache rd).
Proof.
  unfold FlushEntity. cbn [dotFromInvCache].
  repeat match goal with
         | |- context [dotFromInvCache (flush_all ?l ?r)] =>
             rewrite (proj1 (proj2 (flush_all_fields l r))); cbn [dotFromInvCache]
         end.
  reflexivity.
Qed.

Lemma FlushEntity_to vk rd :
  dotToInvCache (FlushEntity vk rd)
  = delete (SliceToBytes32 vk) (dotToInvCache rd).
Proof.
  unfold FlushEntity. cbn [dotToInvCache].
  repeat match goal with
         | |- context [dotToInvCache (flush_all ?l ?r)] =>
             rewrite (proj2 (proj2 (proj2 (flush_all_fields l r))));
             cbn [dotToInvCache]
         end.
  reflexivity.
Qed.

Lemma existing_in_spec k l : existing_in k l = true <-> k ∈ l.
Proof.
  unfold existing_in. rewrite existsb_exists. split.
  - intros (x & Hx & E). apply bool_decide_eq_true in E as <-.
    now apply list_elem_of_In.
  - intros H. exists k. split; [now apply list_elem_of_In|].
    now apply bool_decide_eq_true.
Qed.

Lemma cacheDOT_hash ro s rd :
  dotHashCache (cacheDOT ro s rd) !! SliceToBytes32 (GetHash ro)
  = Some (mkDOTResult ro s).
Proof.
  unfold cacheDOT. destruct (existing_in _ _); cbn [dotHashCache];
    apply lookup_insert_eq.
Qed.

(** A hash found under the giver: [cacheDOT] leaves both indexes alone. *)
Lemma cacheDOT_existing ro s rd :
  SliceToBytes32 (GetHash ro)
    ∈ default [] (dotFromInvCache rd !! SliceToBytes32 (GetGiverVK ro)) ->
  dotFromInvCache (cacheDOT ro s rd) = dotFromInvCache rd /\
  dotToInvCache (cacheDOT ro s rd) = dotToInvCache rd.
Proof.
  intros H. apply existing_in_spec in H. unfold cacheDOT. rewrite H. auto.
Qed.

(** A hash not found under the giver: [cacheDOT] lists it in both indexes. *)
Lemma cacheDOT_fresh ro s rd :
  SliceToBytes32 (GetHash ro)
    ∉ default [] (dotFromInvCache rd !! SliceToBytes32 (GetGiverVK ro)) ->
  dotFromInvCache (cacheDOT ro s rd)
  = <[SliceToBytes32 (GetGiverVK ro) :=
        default [] (dotFromInvCache rd !! SliceToBytes32 (GetGiverVK ro))
        ++ [SliceToBytes32 (GetHash ro)]]> (dotFromInvCache rd) /\
  dotToInvCache (cacheDOT ro s rd)
  = <[SliceToBytes32 (GetReceiverVK ro) :=
        default [] (dotToInvCache rd !! SliceToBytes32 (GetReceiverVK ro))
        ++ [SliceToBytes32 (GetHash ro)]]> (dotToInvCache rd).
Proof.
  intros H. unfold cacheDOT.
  destruct (existing_in _ _) eqn:E; [apply existing_in_spec in E; contradiction|].
  auto.
Qed.

(** *** Where the invariant holds *)

Lemma flushDOT_indexed hash rd : indexed rd -> indexed (flushDOT hash rd).
Proof.
  intros Hinv k e He. cbn [flushDOT dotHashCache] in He.
  apply lookup_delete_Some in He as [_ He]. exact (Hinv k e He).
Qed.

Lemma FlushEntity_indexed vk rd : indexed rd -> indexed (FlushEntity vk rd).
Proof.
  intros Hinv k e He. rewrite FlushEntity_lookup in He.
  destruct (decide _) as [|Hnot]; [discriminate|].
  destruct (Hinv k e He) as [Hf Ht].
  rewrite FlushEntity_from, FlushEntity_to.
  assert (SliceToBytes32 (GetGiverVK (dr_ro e)) <> SliceToBytes32 vk) as Hg.
  { intros E. rewrite E in Hf. tauto. }
  assert (SliceToBytes32 (GetReceiverVK (dr_ro e)) <> SliceToBytes32 vk) as Hr.
  { intros E. rewrite E in Ht. tauto. }
  rewrite !lookup_delete_ne by congruence. auto.
Qed.

(** [cacheDOT] keeps the invariant as long as a hash listed under the giver
    is listed under the receiver too, which is what its comment takes for
    granted. *)
Lemma cacheDOT_indexed ro s rd :
  indexed rd ->
  (SliceToBytes32 (GetHash ro)
     ∈ default [] (dotFromInvCache rd !! SliceToBytes32 (GetGiverVK ro)) ->
   SliceToBytes32 (GetHash ro)
     ∈ default [] (dotToInvCache rd !! SliceToBytes32 (GetReceiverVK ro))) ->
  indexed (cacheDOT ro s rd).
Proof.
  intros Hinv Hboth.
  set (kh := SliceToBytes32 (GetHash ro)) in *.
  set (kg := SliceToBytes32 (GetGiverVK ro)) in *.
  set (kw := SliceToBytes32 (GetReceiverVK ro)) in *.
  assert (forall k e, dotHashCache (cacheDOT ro s rd) !! k = Some e ->
            (k = kh /\ e = mkDOTResult ro s) \/
            (k <> kh /\ dotHashCache rd !! k = Some e)) as Hcases.
  { intros k e. unfold cacheDOT. fold kh kg kw.
    destruct (existing_in _ _); cbn [dotHashCache];
      (destruct (decide (k = kh)) as [->|Hne];
       [rewrite lookup_insert_eq; intros [= <-]; auto
       |rewrite lookup_insert_ne by congruence; auto]). }
  destruct (decide (kh ∈ default [] (dotFromInvCache rd !! kg))) as [Hin|Hout].
  - destruct (cacheDOT_existing ro s rd Hin) as [Hf Ht].
    intros k e He. rewrite Hf, Ht.
    destruct (Hcases k e He) as [[-> ->]|[_ Hold]]; [|exact (Hinv k e Hold)].
    cbn [dr_ro]. fold kg kw. auto.
  - destruct (cacheDOT_fresh ro s rd Hout) as [Hf Ht]. fold kh kg kw in Hf, Ht.
    intros k e He. rewrite Hf, Ht.
    destruct (Hcases k e He) as [[-> ->]|[_ Hold]].
    + cbn [dr_ro]. fold kg kw. rewrite !lookup_insert_eq. cbn [default].
      split; apply elem_of_app; right; apply list_elem_of_here.
    + destruct (Hinv k e Hold) as [H1 H2]. split.
      * destruct (decide (kg = SliceToBytes32 (GetGiverVK (dr_ro e)))) as [E|E].
        -- rewrite <- E in *. rewrite lookup_insert_eq. cbn [default].
           apply elem_of_app. auto.
        -- rewrite lookup_insert_ne by exact E. exact H1.
      * destruct (decide (kw = SliceToBytes32 (GetReceiverVK (dr_ro e)))) as [E|E].
        -- rewrite <- E in *. rewrite lookup_insert_eq. cbn [default].
           apply elem_of_app. auto.
        -- rewrite lookup_insert_ne by exact E. exact H2.
Qed.

(** C10: the invariant does not survive a DOT that is cached again after
    its receiver was flushed.  [cacheDOT] finds the hash under the giver and
    takes it to be under the receiver as well, whose list [FlushEntity] has
    deleted; the DOT is then in the cache and not in the to-index, and
    flushing the receiver once more leaves it where a lookup finds it. *)
Theorem C10_cached_again_not_flushed (d : DOT) (s : Z) :
  SliceToBytes32 (GetGiverVK d) <> SliceToBytes32 (GetReceiverVK d) ->
  let vk := GetReceiverVK d in
  let rd := run_ops [OpCacheDOT d s; OpFlushEntity vk; OpCacheDOT d s]
                    newResolutionData in
  ~ indexed rd /\
  resolveDOTFromCache (GetHash d) (FlushEntity vk rd) = (true, Some d, s).
Proof.
  intros Hne. cbv zeta. unfold run_ops. cbn [foldl run_op].
  set (kh := SliceToBytes32 (GetHash d)).
  set (kg := SliceToBytes32 (GetGiverVK d)) in *.
  set (kw := SliceToBytes32 (GetReceiverVK d)) in *.
  set (rd1 := cacheDOT d s newResolutionData).
  set (rd2 := FlushEntity (GetReceiverVK d) rd1).
  set (rd3 := cacheDOT d s rd2).
  (* the first call lists the hash under the giver and the receiver *)
  destruct (cacheDOT_fresh d s newResolutionData) as [Hf1 Ht1].
  { cbn. rewrite lookup_empty. apply not_elem_of_nil. }
  fold rd1 kh kg kw in Hf1, Ht1. cbn in Hf1, Ht1.
  rewrite lookup_empty in Hf1, Ht1. cbn in Hf1, Ht1.
  (* the flush deletes the list of the receiver only *)
  assert (dotFromInvCache rd2 !! kg = Some [kh]) as Hf2.
  { unfold rd2. rewrite FlushEntity_from, Hf1. fold kw.
    rewrite lookup_delete_ne by (intros E; apply Hne; symmetry; exact E).
    apply lookup_insert_eq. }
  assert (dotFromInvCache rd2 !! kw = None) as Hf2w.
  { unfold rd2. rewrite FlushEntity_from. fold kw. apply lookup_delete_eq. }
  assert (dotToInvCache rd2 !! kw = None) as Ht2.
  { unfold rd2. rewrite FlushEntity_to. fold kw. apply lookup_delete_eq. }
  (* the second call finds the hash under the giver *)
  destruct (cacheDOT_existing d s rd2) as [Hf3 Ht3].
  { fold kh kg. rewrite Hf2. apply list_elem_of_here. }
  fold rd3 in Hf3, Ht3.
  pose proof (cacheDOT_hash d s rd2) as Hh3. fold rd3 kh in Hh3.
  split.
  - intros Hinv. destruct (Hinv kh _ Hh3) as [_ Hin].
    cbn [dr_ro] in Hin. fold kw in Hin. rewrite Ht3, Ht2 in Hin.
    now apply elem_of_nil in Hin.
  - unfold resolveDOTFromCache. fold kh. rewrite FlushEntity_lookup.
    fold kw. rewrite Ht3, Hf3, Ht2, Hf2w. cbn [default].
    rewrite decide_False by (intros [H|H]; now apply elem_of_nil in H).
    rewrite Hh3. reflexivity.
Qed.

Lemma C10_cached_again_not_flushed_witness :
  let vk := GetReceiverVK cached_dot in
  let rd := run_ops [OpCacheDOT cached_dot StateValid; OpFlushEntity vk;
                     OpCacheDOT cached_dot StateValid] newResolutionData in
  SliceToBytes32 (GetGiverVK cached_dot) <> SliceToBytes32 (GetReceiverVK cached_dot) /\
  resolveDOTFromCache (GetHash cached_dot) (FlushEntity vk rd)
  = (true, Some cached_dot, StateValid).
Proof.
  intros vk rd.
  assert (SliceToBytes32 (GetGiverVK cached_dot)
          <> SliceToBytes32 (GetReceiverVK cached_dot)) as Hne
    by (vm_compute; discriminate).
  split; [exact Hne|].
  exact (proj2 (C10_cached_again_not_flushed cached_dot StateValid Hne)).
Defined.

End ResolutionProofs.

(** ** The chain builder *)

Module BuilderProofs.
Import Objects Api ChainSpec BuilderSpec.

Section Collect.
Variable sha256 : list byte -> list byte.

(** The last loop of [Build] never finds a hash in [seen]: it returns the
    chain of every valid scenario, in order. *)
Lemma collect_all validscenarios : forall rv,
  collect sha256 ∅ validscenarios rv = rv ++ (ToChain sha256 <$> validscenarios).
Proof.
  induction validscenarios as [|e rest IH]; intros rv.
  - cbn. now rewrite app_nil_r.
  - cbn [collect]. rewrite lookup_empty, IH, <- app_assoc. reflexivity.
Qed.

(** On a cache miss [Build] returns the chain of every valid scenario that
    the graph walk ends with, once for each time the scenario was found. *)
Lemma Build_every_scenario GetDOTsFrom ResolveKey LookupChain fuel b p0 p1 mvk all :
  LookupChain (mkCacheKey (cb_uri b) (cb_perms b) (copy32 (cb_target b))
                 (copy32 (cb_nsvk b))) = None ->
  SplitN2 (cb_uri b) = [p0; p1] ->
  Util.valid (Util.AnalyzeSuffix p1) = true ->
  ResolveKey p0 = Some mvk ->
  (let starts := NewScenario <$> getOptions GetDOTsFrom b mvk in
   graph_walk GetDOTsFrom fuel b
     (filter (fun s => reaches_target b s <> true) starts)
     (filter (fun s => reaches_target b s = true) starts) = Ok all) ->
  Build sha256 GetDOTsFrom ResolveKey LookupChain fuel b
  = Ok (ToChain sha256 <$> all).
Proof.
  intros Hc Hs Hv Hk Hw. unfold Build. rewrite Hc, Hs, Hv, Hk. cbn [negb].
  cbn zeta in Hw. rewrite Hw. cbn [mbind outcome_bind].
  now rewrite collect_all.
Qed.

(** C8: [Build] does not deduplicate.  On a router that lists one DOT
    twice among the DOTs from the namespace key, both scenarios are valid
    and both chains are returned, with one and the same chain hash. *)
Theorem C8_duplicate_chains_returned :
  exists c1 c2,
    Build sha256 listed_twice resolve_M no_cache 1 builder_MT = Ok [c1; c2] /\
    GetChainHash c1 = GetChainHash c2.
Proof.
  eexists _, _. split; [vm_compute; reflexivity|reflexivity].
Qed.
End Collect.

End BuilderProofs.

(** ** The wire codec *)

Module CodecProofs.
Import Objects CodecSpec.

Lemma halts_bind {A B} (m : outcome A) (f : A -> outcome B) :
  halts m -> (forall a, m = Ok a -> halts (f a)) -> halts (m ≫= f).
Proof.
  unfold halts. destruct m; cbn; intros Hm Hf; try discriminate; auto.
Qed.

Lemma halts_index content i : halts (index content i).
Proof. unfold halts, index. destruct (content !! i); discriminate. Qed.

Lemma halts_slice content a b : halts (slice content a b).
Proof. unfold halts, slice. destruct (_ && _); discriminate. Qed.

Lemma halts_slice_from content a : halts (slice_from content a).
Proof. apply halts_slice. Qed.

Lemma halts_le_value n : forall b, halts (le_value n b).
Proof.
  induction n as [|n IH]; intros b; cbn; [discriminate|].
  destruct b as [|x b]; [discriminate|].
  apply halts_bind; [apply IH|]. discriminate.
Qed.

Lemma halts_unix_ms b : halts (unix_ms b).
Proof. apply halts_bind; [apply halts_le_value|]. discriminate. Qed.

Lemma halts_recover {A} oid msg (m : outcome A) : halts m -> returns (recover oid msg m).
Proof. unfold halts. destruct m; cbn; auto. Qed.

Ltac halts_step :=
  first
    [ apply halts_index | apply halts_slice | apply halts_slice_from
    | apply halts_le_value | apply halts_unix_ms
    | apply halts_bind; [|intros ? ?]
    | match goal with
      | |- halts (Ok _) => discriminate
      | |- halts (Err _) => discriminate
      | |- halts Panic => discriminate
      | |- halts (NewObjectError _ _) => discriminate
      | |- halts (if ?b then _ else _) => destruct b
      | |- halts (match ?x with _ => _ end) => destruct x
      end ].

Lemma halts_header_field ronum content idx h :
  halts (header_field ronum content idx h).
Proof. unfold header_field, Uint64. repeat halts_step. Qed.

Lemma halts_kv_pair content idx kv : halts (kv_pair content idx kv).
Proof. unfold kv_pair, Uint16. repeat halts_step. Qed.

Lemma index_Ok content i b : index content i = Ok b -> (i < length content)%nat.
Proof.
  unfold index. destruct (content !! i) eqn:E; [|discriminate].
  intros _. now apply lookup_lt_Some in E.
Qed.

Lemma bind_Ok {A B} (m : outcome A) (f : A -> outcome B) b :
  m ≫= f = Ok b -> exists a, m = Ok a /\ f a = Ok b.
Proof. destruct m; cbn; try discriminate. eauto. Qed.

(** A header field that does not end the loop moves the index on. *)
Lemma header_field_progress ronum content idx h idx' h' :
  header_field ronum content idx h = Ok (false, idx', h') ->
  (idx < idx')%nat /\ (idx < length content)%nat.
Proof.
  unfold header_field. intros H.
  apply bind_Ok in H as (tag & Ht & H). apply index_Ok in Ht.
  split; [|exact Ht].
  repeat match type of H with
         | match ?x with _ => _ end = _ => destruct x
         end;
  repeat match type of H with
         | (_ ≫= _) = Ok _ => apply bind_Ok in H as (? & _ & H)
         | (if ?b then _ else _) = Ok _ => destruct b
         | NewObjectError _ _ = Ok _ => discriminate H
         | Ok _ = Ok _ => injection H as ? ?; subst
         end;
  try discriminate; lia.
Qed.

Lemma kv_pair_progress content idx kv idx' kv' :
  kv_pair content idx kv = Ok (false, idx', kv') ->
  (idx < idx')%nat /\ (idx < length content)%nat.
Proof.
  unfold kv_pair. intros H.
  apply bind_Ok in H as (tag & Ht & H). apply index_Ok in Ht.
  split; [|exact Ht].
  repeat match type of H with
         | (_ ≫= _) = Ok _ => apply bind_Ok in H as (? & _ & H)
         | (if ?b then _ else _) = Ok _ => destruct b
         | Ok _ = Ok _ => injection H as ? ?; subst
         end;
  try discriminate; lia.
Qed.

(** Neither loop of [NewDOT] goes on for more turns than the content has
    bytes. *)
Lemma halts_header_loop ronum content fuel : forall idx h,
  (length content - idx < fuel)%nat -> halts (header_loop fuel ronum content idx h).
Proof.
  induction fuel as [|k IH]; intros idx h Hf; [lia|].
  cbn [header_loop]. apply halts_bind; [apply halts_header_field|].
  intros [[done idx'] h'] E. destruct done; [discriminate|].
  apply header_field_progress in E as [H1 H2]. apply IH. lia.
Qed.

Lemma halts_kv_loop content fuel : forall idx kv,
  (length content - idx < fuel)%nat -> halts (kv_loop fuel content idx kv).
Proof.
  induction fuel as [|k IH]; intros idx kv Hf; [lia|].
  cbn [kv_loop]. apply halts_bind; [apply halts_kv_pair|].
  intros [[done idx'] kv'] E. destruct done; [discriminate|].
  apply kv_pair_progress in E as [H1 H2]. apply IH. lia.
Qed.

Section Returns.
Variable sha256 : list byte -> list byte.
Variable base64url : list byte -> string.

Lemma NewDOT_returns ronum content : returns (NewDOT sha256 base64url ronum content).
Proof.
  unfold NewDOT. apply halts_recover. unfold NewDOT_body.
  repeat (apply halts_bind; [first [apply halts_slice|apply halts_index]|intros ? _]).
  apply halts_bind; [apply halts_header_loop; lia|].
  intros [idx h] _. unfold NewDOT_tail, Uint16.
  destruct (ronum =? ROAccessDOT); [repeat halts_step|].
  destruct (ronum =? ROPermissionDOT); [|discriminate].
  apply halts_bind; [apply halts_kv_loop; lia|].
  intros [idx' kv] _. repeat halts_step.
Qed.

Lemma NewDChain_returns ronum content : returns (NewDChain sha256 ronum content).
Proof.
  unfold NewDChain. apply halts_recover. unfold NewDChain_body.
  repeat match goal with |- halts (if ?b then _ else _) => destruct b end;
    discriminate.
Qed.

(** A full DChain is accepted exactly when its body is a non-zero multiple
    of 32 bytes long. *)
Lemma NewDChain_full ronum content :
  ronum = ROAccessDChain \/ ronum = ROPermissionDChain ->
  (exists ro, NewDChain sha256 ronum content = Ok ro) <->
  (length content mod 32 = 0 /\ length content <> 0)%nat.
Proof.
  intros Hr. unfold NewDChain, NewDChain_body.
  replace ((ronum =? ROAccessDChain) || (ronum =? ROPermissionDChain)) with true
    by (destruct Hr as [-> | ->]; reflexivity).
  destruct (Nat.eqb_spec (length content mod 32) 0) as [E1|E1];
  destruct (Nat.eqb_spec (length content) 0) as [E2|E2]; cbn.
  - split; [intros [? ?]; discriminate|tauto].
  - split; [tauto|eauto].
  - split; [intros [? ?]; discriminate|tauto].
  - split; [intros [? ?]; discriminate|tauto].
Qed.

(** A read of a byte string hands out a byte or more, or ends the loop
    with the error of the reader. *)
Lemma read_loop_returns fuel : forall s ln buf,
  (ln - length buf < fuel)%nat ->
  match read_loop fuel s ln buf with
  | Ok (b, _) => (ln <= length b)%nat
  | Err _ => True
  | Panic | OutOfFuel => False
  end.
Proof.
  induction fuel as [|k IH]; intros s ln buf Hf; [lia|].
  cbn [read_loop]. destruct (Nat.ltb_spec (length buf) ln) as [Hlt|Hge]; [|lia].
  unfold Read. destruct s as [|x s]; [exact I|].
  apply IH. rewrite length_app, length_take. cbn [length]. lia.
Qed.

Lemma LoadBosswaveObject_returns s :
  returns (LoadBosswaveObject sha256 base64url s).
Proof.
  unfold LoadBosswaveObject.
  pose proof (read_loop_returns 9 s 8 [] ltac:(cbn; lia)) as H.
  destruct (read_loop 9 s 8 []) as [[hdr s']| | |]; try contradiction; [|exact I].
  cbn [mbind outcome_bind].
  unfold slice. replace (4 <=? length hdr)%nat with true
    by (symmetry; apply Nat.leb_le; lia).
  replace (8 <=? length hdr)%nat with true
    by (symmetry; apply Nat.leb_le; lia).
  cbn [Nat.leb andb mbind outcome_bind].
  assert (forall b, (4 <= length b)%nat -> exists v, Uint32 b = Ok v) as Hu.
  { intros b Hb. do 4 (destruct b as [|? b]; [cbn in Hb; lia|]).
    cbn. eauto. }
  destruct (Hu (take (4 - 0) (drop 0 hdr))) as [onum ->].
  { rewrite length_take, length_drop. lia. }
  destruct (Hu (take (8 - 4) (drop 4 hdr))) as [ln ->].
  { rewrite length_take, length_drop. lia. }
  cbn [mbind outcome_bind].
  destruct (ln >? SaneObjectSize); [exact I|].
  pose proof (read_loop_returns (S (Z.to_nat ln)) s' (Z.to_nat ln) []
                ltac:(cbn; lia)) as H2.
  destruct (read_loop _ s' _ []) as [[buf s'']| | |]; try contradiction;
    [|exact I].
  cbn [mbind outcome_bind].
  destruct (Z.land onum _ =? 0); [|exact I].
  unfold RoutingObjectConstructor.
  destruct (_ || _); [apply NewDChain_returns|].
  destruct (onum =? 32); [apply NewDOT_returns|exact I].
Qed.

(** C9: the parsers return on every byte string.  [NewDOT], [NewDChain]
    and [LoadBosswaveObject] (on a reader over a byte string) come to a
    value or to an error value, never to a panic that is not recovered
    and never to a loop that does not end; and [NewDChain] accepts a full
    DChain, access or permission, exactly when the body is a non-zero
    multiple of 32 bytes long. *)
Theorem C9_parsers_return :
  (forall ronum content, returns (NewDOT sha256 base64url ronum content)) /\
  (forall ronum content, returns (NewDChain sha256 ronum content)) /\
  (forall s, returns (LoadBosswaveObject sha256 base64url s)) /\
  (forall content,
     (exists ro, NewDChain sha256 ROAccessDChain content = Ok ro) <->
     (length content mod 32 = 0 /\ length content <> 0)%nat) /\
  (forall content,
     (exists ro, NewDChain sha256 ROPermissionDChain content = Ok ro) <->
     (length content mod 32 = 0 /\ length content <> 0)%nat).
Proof.
  split; [exact NewDOT_returns|]. split; [exact NewDChain_returns|].
  split; [exact LoadBosswaveObject_returns|].
  split; intros content; apply NewDChain_full; auto.
Qed.
End Returns.

End CodecProofs.

(** ** Packing and unpacking DOTs *)

Module DOTProofs.
Import Objects DOTs DOTSpec CodecSpec.

(** *** Bytes and numbers *)

Lemma byte_val_range b : 0 <= byte_val b < 256.
Proof.
  unfold byte_val. pose proof (Byte.to_N_bounded b). lia.
Qed.

Lemma byte_val_to_byte v : byte_val (to_byte v) = v mod 256.
Proof.
  unfold to_byte, byte_val.
  pose proof (Z.mod_pos_bound v 256 eq_refl) as Hb.
  destruct (Byte.of_N (Z.to_N (v mod 256))) as [b|] eqn:E.
  - apply Byte.to_of_N in E. cbn. rewrite E. lia.
  - apply Byte.of_N_None_iff in E. lia.
Qed.

Lemma to_byte_byte_val b : to_byte (byte_val b) = b.
Proof.
  unfold to_byte, byte_val.
  pose proof (Byte.to_N_bounded b).
  rewrite Z.mod_small by lia. rewrite N2Z.id, Byte.of_to_N. reflexivity.
Qed.

Lemma length_le_bytes n v : length (le_bytes n v) = n.
Proof. revert v. induction n as [|n IH]; intros v; cbn; [|rewrite IH]; reflexivity. Qed.

Lemma le_value_le_bytes n v rest :
  le_value n (le_bytes n v ++ rest) = Ok (v mod 256 ^ Z.of_nat n).
Proof.
  revert v. induction n as [|n IH]; intros v.
  - cbn. now rewrite Z.mod_1_r.
  - cbn [le_bytes le_value app]. rewrite IH. cbn [mbind outcome_bind].
    f_equal. rewrite byte_val_to_byte.
    rewrite Nat2Z.inj_succ, Z.pow_succ_r by lia.
    rewrite (Z.rem_mul_r v 256 (256 ^ Z.of_nat n)) by lia. reflexivity.
Qed.

Lemma copy_fresh n l : length l = n -> copy (replicate n x00) l = l.
Proof.
  intros H. unfold copy. rewrite length_replicate, <- H, firstn_all.
  rewrite drop_ge by (rewrite length_replicate; lia). apply app_nil_r.
Qed.

Lemma PutUint64_fresh v : PutUint64 (replicate 8 x00) v = le_bytes 8 v.
Proof. apply copy_fresh, length_le_bytes. Qed.

Lemma PutUint16_fresh v : PutUint16 (replicate 2 x00) v = le_bytes 2 v.
Proof. apply copy_fresh, length_le_bytes. Qed.

(** *** Reading at an index *)

Lemma index_drop (l : list byte) i x r : drop i l = x :: r -> index l i = Ok x.
Proof.
  intros H. unfold index.
  assert (l !! i = Some x) as ->; [|reflexivity].
  rewrite <- (Nat.add_0_r i), <- lookup_drop, H. reflexivity.
Qed.

Lemma drop_add (l : list byte) i n r1 r2 :
  drop i l = r1 ++ r2 -> length r1 = n -> drop (i + n) l = r2.
Proof.
  intros H Hn. rewrite <- drop_drop, H, <- Hn.
  now rewrite drop_app_length.
Qed.

Lemma drop_length_le (l : list byte) i r : drop i l = r -> r <> [] -> (i + length r <= length l)%nat.
Proof.
  intros H Hr. assert (length (drop i l) = length r) as E by now rewrite H.
  rewrite length_drop in E. destruct r; [contradiction|]. cbn in *. lia.
Qed.

Lemma slice_drop (l : list byte) i m r j :
  drop i l = m ++ r -> (i <= length l)%nat -> j = (i + length m)%nat ->
  slice l i j = Ok m.
Proof.
  intros H Hi ->. unfold slice.
  assert (length (drop i l) = length (m ++ r)) as E by now rewrite H.
  rewrite length_drop, length_app in E.
  replace (i <=? i + length m)%nat with true by (symmetry; apply Nat.leb_le; lia).
  replace (i + length m <=? length l)%nat with true
    by (symmetry; apply Nat.leb_le; lia).
  cbn [andb]. f_equal.
  replace (i + length m - i)%nat with (length m) by lia.
  rewrite H. now rewrite take_app_length.
Qed.

Lemma slice_from_drop (l : list byte) i : (i <= length l)%nat -> slice_from l i = Ok (drop i l).
Proof.
  intros Hi. unfold slice_from, slice.
  replace (i <=? length l)%nat with true by (symmetry; apply Nat.leb_le; lia).
  rewrite Nat.leb_refl. cbn [andb]. f_equal.
  rewrite take_ge; [reflexivity|]. rewrite length_drop. lia.
Qed.

Lemma drop_le (l : list byte) i x r : drop i l = x :: r -> (i <= length l)%nat.
Proof.
  intros H. destruct (decide (i <= length l)%nat); [assumption|].
  rewrite drop_ge in H by lia. discriminate.
Qed.

(** *** The header fields, one at a time *)

Lemma header_field_in_range ronum content idx h r :
  header_field ronum content idx h = r -> r <> Panic -> (idx < length content)%nat.
Proof.
  unfold header_field, index. intros <- Hr.
  destruct (content !! idx) eqn:E; [|now contradiction Hr].
  now apply lookup_lt_Some in E.
Qed.

Lemma runs_header_loop ronum content idx h r :
  runs ronum content idx h r ->
  forall fuel, (length content - idx < fuel)%nat ->
  header_loop fuel ronum content idx h = r.
Proof.
  induction 1 as [idx h idx' h' E|idx h e E|idx h idx1 h1 r E _ IH];
    intros fuel Hf; (destruct fuel as [|fuel]; [lia|]); cbn [header_loop].
  - rewrite E. reflexivity.
  - rewrite E. reflexivity.
  - rewrite E. cbn [mbind outcome_bind].
    apply CodecProofs.header_field_progress in E as [E1 E2].
    apply IH. lia.
Qed.

Lemma wire_time t :
  whole_ms (Some t) ->
  int64 (uint64 (Z.quot t 1000000) mod 256 ^ Z.of_nat 8 * 1000000 mod 2 ^ 64) = t.
Proof.
  intros [Hr Hb]. unfold int64, uint64.
  change (256 ^ Z.of_nat 8) with (2 ^ 64).
  rewrite Z.mod_mod by lia. rewrite Z.mod_mod by lia.
  rewrite Z.mul_mod_idemp_l by lia.
  assert (Z.quot t 1000000 * 1000000 = t) as ->.
  { pose proof (Z.quot_rem' t 1000000). lia. }
  destruct (Z.ltb_spec (t mod 2 ^ 64) (2 ^ 63)) as [Hlt|Hge].
  - destruct (Z.le_gt_cases 0 t); [apply Z.mod_small; lia|].
    exfalso. rewrite <- (Z.mod_add t 1 (2 ^ 64)) in Hlt by lia.
    rewrite Z.mod_small in Hlt; lia.
  - destruct (Z.le_gt_cases 0 t).
    + rewrite Z.mod_small in Hge; lia.
    + rewrite <- (Z.mod_add t 1 (2 ^ 64)) by lia.
      rewrite Z.mod_small; lia.
Qed.

Lemma drop_1 (l : list byte) i x r : drop i l = x :: r -> drop (i + 1) l = r.
Proof. intros H. now apply (drop_add l i 1 [x] r). Qed.

Lemma drop_2 (l : list byte) i x y r : drop i l = x :: y :: r -> drop (i + 2) l = r.
Proof. intros H. now apply (drop_add l i 2 [x; y] r). Qed.

Lemma field_created ronum content idx h v rest :
  drop idx content = x02 :: x08 :: le_bytes 8 v ++ rest ->
  header_field ronum content idx h =
    Ok (false, (idx + 2 + 8)%nat,
        mkHeader (h_pubLim h)
          (Some (int64 (v mod 256 ^ Z.of_nat 8 * 1000000 mod 2 ^ 64)))
          (h_expires h) (h_revokers h) (h_contact h) (h_comment h)).
Proof.
  intros H. unfold header_field.
  rewrite (index_drop _ _ _ _ H). cbn [mbind outcome_bind].
  change (byte_val x02) with 2. cbv iota.
  rewrite (index_drop _ _ _ _ (drop_1 _ _ _ _ H)). cbn [mbind outcome_bind].
  change (byte_val x08 =? 8) with true. cbn [negb].
  pose proof (drop_2 _ _ _ _ _ H) as H2.
  rewrite slice_from_drop, H2.
  2:{ destruct (decide (idx + 2 <= length content)%nat); [assumption|].
      rewrite drop_ge in H2 by lia. destruct (le_bytes 8 v) eqn:E; [|discriminate].
      pose proof (length_le_bytes 8 v) as L. rewrite E in L. discriminate. }
  cbn [mbind outcome_bind]. unfold unix_ms, Uint64.
  rewrite le_value_le_bytes. reflexivity.
Qed.

Lemma field_expires ronum content idx h v rest :
  drop idx content = x03 :: x08 :: le_bytes 8 v ++ rest ->
  header_field ronum content idx h =
    Ok (false, (idx + 2 + 8)%nat,
        mkHeader (h_pubLim h) (h_created h)
          (Some (int64 (v mod 256 ^ Z.of_nat 8 * 1000000 mod 2 ^ 64)))
          (h_revokers h) (h_contact h) (h_comment h)).
Proof.
  intros H. unfold header_field.
  rewrite (index_drop _ _ _ _ H). cbn [mbind outcome_bind].
  change (byte_val x03) with 3. cbv iota.
  rewrite (index_drop _ _ _ _ (drop_1 _ _ _ _ H)). cbn [mbind outcome_bind].
  change (byte_val x08 =? 8) with true. cbn [negb].
  pose proof (drop_2 _ _ _ _ _ H) as H2.
  rewrite slice_from_drop, H2.
  2:{ destruct (decide (idx + 2 <= length content)%nat); [assumption|].
      rewrite drop_ge in H2 by lia. destruct (le_bytes 8 v) eqn:E; [|discriminate].
      pose proof (length_le_bytes 8 v) as L. rewrite E in L. discriminate. }
  cbn [mbind outcome_bind]. unfold unix_ms, Uint64.
  rewrite le_value_le_bytes. reflexivity.
Qed.

(** A revoker is packed under the length 32, and refused for not being
    packed under the length 8. *)
Lemma field_revoker ronum content idx h rest :
  drop idx content = x04 :: x20 :: rest ->
  header_field ronum content idx h =
    NewObjectError ronum "Invalid delegated revoker in DoT".
Proof.
  intros H. unfold header_field.
  rewrite (index_drop _ _ _ _ H). cbn [mbind outcome_bind].
  change (byte_val x04) with 4. cbv iota.
  rewrite (index_drop _ _ _ _ (drop_1 _ _ _ _ H)). reflexivity.
Qed.

Lemma field_end ronum content idx h rest :
  drop idx content = x00 :: rest ->
  header_field ronum content idx h = Ok (true, (idx + 1)%nat, h).
Proof.
  intros H. unfold header_field.
  rewrite (index_drop _ _ _ _ H). reflexivity.
Qed.

Lemma field_contact ronum content idx h (l : byte) text rest :
  drop idx content = x05 :: l :: text ++ rest ->
  length text = Z.to_nat (byte_val l) ->
  header_field ronum content idx h =
    Ok (false, (idx + (2 + length text))%nat,
        mkHeader (h_pubLim h) (h_created h) (h_expires h) (h_revokers h)
          (to_string text) (h_comment h)).
Proof.
  intros H L. unfold header_field.
  rewrite (index_drop _ _ _ _ H). cbn [mbind outcome_bind].
  change (byte_val x05) with 5. cbv iota.
  rewrite (index_drop _ _ _ _ (drop_1 _ _ _ _ H)). cbn [mbind outcome_bind].
  pose proof (drop_2 _ _ _ _ _ H) as H2.
  rewrite (slice_drop _ _ _ _ _ H2); [rewrite <- L; reflexivity| |lia].
  pose proof (drop_le _ _ _ _ H). pose proof (drop_le _ _ _ _ (drop_1 _ _ _ _ H)).
  assert (length (drop idx content) = S (S (length (text ++ rest)))) as E
    by now rewrite H.
  rewrite length_drop in E. lia.
Qed.

Lemma field_comment ronum content idx h (l : byte) text rest :
  drop idx content = x06 :: l :: text ++ rest ->
  length text = Z.to_nat (byte_val l) ->
  header_field ronum content idx h =
    Ok (false, (idx + (2 + length text))%nat,
        mkHeader (h_pubLim h) (h_created h) (h_expires h) (h_revokers h)
          (h_contact h) (to_string text)).
Proof.
  intros H L. unfold header_field.
  rewrite (index_drop _ _ _ _ H). cbn [mbind outcome_bind].
  change (byte_val x06) with 6. cbv iota.
  rewrite (index_drop _ _ _ _ (drop_1 _ _ _ _ H)). cbn [mbind outcome_bind].
  pose proof (drop_2 _ _ _ _ _ H) as H2.
  rewrite (slice_drop _ _ _ _ _ H2); [rewrite <- L; reflexivity| |lia].
  assert (length (drop idx content) = S (S (length (text ++ rest)))) as E
    by now rewrite H.
  rewrite length_drop in E. lia.
Qed.

(** *** What [Encode] packs *)

Lemma copy_le8 (rv : list byte) v :
  (8 <= length rv)%nat -> copy rv (le_bytes 8 v) = le_bytes 8 v ++ drop 8 rv.
Proof.
  intros H. unfold copy. rewrite length_le_bytes.
  rewrite take_ge by (rewrite length_le_bytes; lia). reflexivity.
Qed.

Lemma toBytes_eq p :
  toBytes p = le_bytes 8 (uint64 (StoreLimit p)) ++ replicate 8 x00
                ++ [to_byte (Retain p)].
Proof.
  unfold toBytes, PutUint64.
  rewrite (copy_le8 (replicate 17 x00)) by (rewrite length_replicate; lia).
  rewrite copy_le8 by (rewrite length_app, length_le_bytes; lia).
  rewrite drop_app_length' by (symmetry; apply length_le_bytes).
  change (drop 8 (replicate 17 x00)) with (replicate 8 x00 ++ [x00]).
  rewrite insert_app_r_alt; rewrite length_le_bytes; [|lia].
  rewrite insert_app_r_alt; rewrite length_replicate; [|lia].
  reflexivity.
Qed.

Lemma cut_empty : cut EmptyString = EmptyString.
Proof. reflexivity. Qed.

Lemma put_text_eq tag buf s :
  put_text tag buf s = (buf ++ enc_text tag s, cut s).
Proof.
  unfold put_text, enc_text. destruct (String.eqb_spec s EmptyString) as [->|_].
  - now rewrite app_nil_r.
  - reflexivity.
Qed.

Lemma foldl_revokers buf rs :
  foldl (fun buf dr => buf ++ [x04; x20] ++ dr) buf rs = buf ++ enc_revokers rs.
Proof.
  revert buf. induction rs as [|dr rs IH]; intros buf; cbn [foldl].
  - unfold enc_revokers. cbn. now rewrite app_nil_r.
  - rewrite IH. unfold enc_revokers. cbn [fmap list_fmap concat].
    now rewrite <- !app_assoc.
Qed.

Lemma foldl_kv buf (l : list (string * string)) :
  foldl (fun buf '(key, value) =>
           let buf := buf ++ [to_byte (Z.of_nat (String.length key))] in
           let buf := buf ++ list_byte_of_string key in
           let buf := buf ++ PutUint16 (replicate 2 x00)
                               (uint16 (Z.of_nat (String.length value))) in
           buf ++ list_byte_of_string value) buf l
  = buf ++ concat (enc_kv <$> l).
Proof.
  revert buf. induction l as [|[k v] l IH]; intros buf; cbn [foldl].
  - cbn. now rewrite app_nil_r.
  - rewrite IH. cbn [fmap list_fmap concat]. unfold enc_kv at 2. cbn [fst snd].
    rewrite PutUint16_fresh. cbn [app]. rewrite <- !app_assoc. reflexivity.
Qed.

Lemma head65_eq ro :
  length (giverVK ro) = 32%nat -> length (receiverVK ro) = 32%nat ->
  <[64%nat := to_byte (ttl ro)]>
    (take 32 (copy (replicate 65 x00) (giverVK ro))
       ++ copy (drop 32 (copy (replicate 65 x00) (giverVK ro))) (receiverVK ro))
  = head65 ro.
Proof.
  intros Hg Hr. unfold copy, head65.
  rewrite length_replicate.
  rewrite (take_ge (giverVK ro)) by lia. rewrite Hg.
  change (drop 32 (replicate 65 x00)) with (replicate 33 x00).
  rewrite take_app_length' by (symmetry; assumption).
  rewrite drop_app_length' by (symmetry; assumption).
  rewrite length_replicate. rewrite (take_ge (receiverVK ro)) by lia. rewrite Hr.
  change (drop 32 (replicate 33 x00)) with [x00].
  rewrite insert_app_r_alt by lia. rewrite Hg.
  rewrite insert_app_r_alt by lia. rewrite Hr. reflexivity.
Qed.

Section Packed.
Variable sha256 : list byte -> list byte.
Variable SignBlob : list byte -> list byte -> list byte -> list byte.

Lemma Encode_eq sk ro :
  length (giverVK ro) = 32%nat -> length (receiverVK ro) = 32%nat ->
  Encode sha256 SignBlob sk ro =
    let sig := copy (replicate 64 x00) (SignBlob sk (giverVK ro) (packed ro)) in
    mkDOT (packed ro ++ sig) (sha256 (packed ro)) (giverVK ro) (receiverVK ro)
      (expires ro) (created ro) (revokers ro) (cut (contact ro))
      (cut (comment ro)) sig (isAccess ro) (ttl ro) (mVK ro) (uriSuffix ro)
      (uri ro) (pubLim ro)
      (canPublish ro) (canConsume ro) (canConsumePlus ro) (canConsumeStar ro)
      (canTap ro) (canTapPlus ro) (canTapStar ro) (canList ro) (kv ro).
Proof.
  intros Hg Hr. unfold Encode, EncodeWalk. rewrite (head65_eq ro Hg Hr).
  rewrite foldl_revokers, !put_text_eq.
  assert (forall buf, match pubLim ro with
                      | Some p => buf ++ [x01; x11] ++ toBytes p
                      | None => buf
                      end = buf ++ enc_publim (pubLim ro)) as ->.
  { intros buf. destruct (pubLim ro); cbn; [reflexivity|now rewrite app_nil_r]. }
  assert (forall tag t buf,
             match t with
             | Some t => buf ++ [tag; x08]
                           ++ PutUint64 (replicate 8 x00) (uint64 (Z.quot t 1000000))
             | None => buf
             end = buf ++ enc_time tag t) as Ht.
  { intros tag t buf. destruct t; cbn [enc_time];
      [now rewrite PutUint64_fresh|now rewrite app_nil_r]. }
  rewrite !Ht. clear Ht. cbv zeta.
  match goal with
  | |- context [if isAccess ro then ?a else ?b] =>
      assert ((if isAccess ro then a else b) = packed ro) as E
  end.
  { unfold packed, fields, enc_body. destruct (isAccess ro).
    - rewrite PutUint16_fresh. rewrite <- !app_assoc. reflexivity.
    - etransitivity; [apply (f_equal (fun x => x ++ [x00])); apply foldl_kv|].
      rewrite <- !app_assoc. reflexivity. }
  rewrite !E. reflexivity.
Qed.

(** The same in whatever order the table is walked. *)
Lemma EncodeWalk_eq order sk ro :
  length (giverVK ro) = 32%nat -> length (receiverVK ro) = 32%nat ->
  EncodeWalk sha256 SignBlob order sk ro =
    let sig := copy (replicate 64 x00)
                 (SignBlob sk (giverVK ro) (packed_in order ro)) in
    mkDOT (packed_in order ro ++ sig) (sha256 (packed_in order ro)) (giverVK ro)
      (receiverVK ro) (expires ro) (created ro) (revokers ro) (cut (contact ro))
      (cut (comment ro)) sig (isAccess ro) (ttl ro) (mVK ro) (uriSuffix ro)
      (uri ro) (pubLim ro)
      (canPublish ro) (canConsume ro) (canConsumePlus ro) (canConsumeStar ro)
      (canTap ro) (canTapPlus ro) (canTapStar ro) (canList ro) (kv ro).
Proof.
  intros Hg Hr. unfold EncodeWalk. rewrite (head65_eq ro Hg Hr).
  rewrite foldl_revokers, !put_text_eq.
  assert (forall buf, match pubLim ro with
                      | Some p => buf ++ [x01; x11] ++ toBytes p
                      | None => buf
                      end = buf ++ enc_publim (pubLim ro)) as ->.
  { intros buf. destruct (pubLim ro); cbn; [reflexivity|now rewrite app_nil_r]. }
  assert (forall tag t buf,
             match t with
             | Some t => buf ++ [tag; x08]
                           ++ PutUint64 (replicate 8 x00) (uint64 (Z.quot t 1000000))
             | None => buf
             end = buf ++ enc_time tag t) as Ht.
  { intros tag t buf. destruct t; cbn [enc_time];
      [now rewrite PutUint64_fresh|now rewrite app_nil_r]. }
  rewrite !Ht. clear Ht. cbv zeta.
  match goal with
  | |- context [if isAccess ro then ?a else ?b] =>
      assert ((if isAccess ro then a else b) = packed_in order ro) as E
  end.
  { unfold packed_in, fields, enc_body_in. destruct (isAccess ro).
    - rewrite PutUint16_fresh. rewrite <- !app_assoc. reflexivity.
    - etransitivity; [apply (f_equal (fun x => x ++ [x00])); apply foldl_kv|].
      rewrite <- !app_assoc. reflexivity. }
  rewrite !E. reflexivity.
Qed.

(** The table of an access DOT is not walked. *)
Lemma EncodeWalk_access order sk ro :
  isAccess ro = true ->
  EncodeWalk sha256 SignBlob order sk ro = Encode sha256 SignBlob sk ro.
Proof. intros Ha. unfold Encode, EncodeWalk. now rewrite Ha. Qed.
End Packed.

(** *** Reading the packed fields back *)

Lemma length_list_byte_of_string s :
  length (list_byte_of_string s) = String.length s.
Proof.
  induction s as [|c s IH]; [reflexivity|].
  cbn. now rewrite <- IH.
Qed.

Lemma length_substring_0 n s :
  String.length (substring 0 n s) = Nat.min n (String.length s).
Proof.
  revert s. induction n as [|n IH]; intros s; destruct s as [|c s]; cbn;
    try reflexivity. now rewrite IH.
Qed.

Lemma length_cut s : (String.length (cut s) <= 255)%nat.
Proof.
  unfold cut. destruct (Nat.ltb_spec 255 (String.length s)) as [H|H]; [|assumption].
  rewrite length_substring_0. lia.
Qed.

Lemma drop_app_pre (pre rest : list byte) : drop (length pre) (pre ++ rest) = rest.
Proof. now rewrite drop_app_length. Qed.

Section Skips.
Variable ronum : Z.

Lemma field_publim content idx h s rb rest :
  drop idx content = x01 :: x11 :: le_bytes 8 s ++ le_bytes 8 0 ++ rb :: rest ->
  header_field ronum content idx h =
    Ok (false, (idx + 2 + 17)%nat,
        mkHeader (Some (mkPublishLimits (int64 (s mod 256 ^ Z.of_nat 8)) 0 (byte_val rb)))
          (h_created h) (h_expires h) (h_revokers h) (h_contact h) (h_comment h)).
Proof.
  intros D. unfold header_field.
  rewrite (index_drop _ _ _ _ D). cbn [mbind outcome_bind].
  change (byte_val x01) with 1. cbv iota.
  rewrite (index_drop _ _ _ _ (drop_1 _ _ _ _ D)). cbn [mbind outcome_bind].
  change (byte_val x11 =? 17) with true. cbn [negb].
  pose proof (drop_2 _ _ _ _ _ D) as D2.
  pose proof (drop_add _ _ 8 _ _ D2 (length_le_bytes 8 _)) as D3.
  pose proof (drop_add _ _ 8 _ _ D3 (length_le_bytes 8 _)) as D4.
  pose proof (drop_le _ _ _ _ D4) as L4.
  rewrite (slice_from_drop content (idx + 2)), D2 by lia.
  cbn [mbind outcome_bind]. unfold Uint64. rewrite le_value_le_bytes.
  cbn [mbind outcome_bind].
  rewrite (slice_from_drop content (idx + 2 + 8)), D3 by lia.
  cbn [mbind outcome_bind]. rewrite le_value_le_bytes. cbn [mbind outcome_bind].
  replace (idx + 2 + 16)%nat with (idx + 2 + 8 + 8)%nat by lia.
  rewrite (index_drop _ _ _ _ D4). reflexivity.
Qed.

Lemma runs_skip_publim pre p rest h r :
  runs ronum ((pre ++ enc_publim p) ++ rest) (length (pre ++ enc_publim p))
       (read_publim p h) r ->
  runs ronum (pre ++ enc_publim p ++ rest) (length pre) h r.
Proof.
  destruct p as [p|]; cbn [enc_publim read_publim].
  - intros H. rewrite <- app_assoc in H.
    eapply runs_step.
    + apply field_publim with (s := uint64 (StoreLimit p))
        (rb := to_byte (Retain p)) (rest := rest).
      rewrite drop_app_pre, toBytes_eq. cbn [app]. rewrite <- !app_assoc.
      reflexivity.
    + rewrite byte_val_to_byte. change (256 ^ Z.of_nat 8) with (2 ^ 64).
      unfold uint64 at 1. rewrite Z.mod_mod by lia.
      rewrite length_app in H. cbn [length] in H. rewrite toBytes_eq in H.
      rewrite !length_app, length_le_bytes, length_replicate in H.
      cbn [length] in H.
      replace (length pre + 2 + 17)%nat
        with (length pre + S (S (8 + (8 + 1))))%nat by lia.
      exact H.
  - rewrite !app_nil_r. cbn [app]. auto.
Qed.

Lemma runs_skip_created pre t rest h r :
  whole_ms t ->
  runs ronum ((pre ++ enc_time x02 t) ++ rest) (length (pre ++ enc_time x02 t))
       (read_created t h) r ->
  runs ronum (pre ++ enc_time x02 t ++ rest) (length pre) h r.
Proof.
  destruct t as [t|]; cbn [enc_time read_created]; intros Ht.
  - intros H. rewrite <- app_assoc in H.
    eapply runs_step;
      [apply field_created with (v := uint64 (Z.quot t 1000000)) (rest := rest);
       cbn [app] in *; apply drop_app_pre|].
    rewrite (wire_time t Ht).
    rewrite length_app in H. cbn [length] in H. rewrite length_le_bytes in H.
    replace (length pre + 2 + 8)%nat with (length pre + 10)%nat by lia.
    exact H.
  - rewrite !app_nil_r. cbn [app]. auto.
Qed.

Lemma runs_skip_expires pre t rest h r :
  whole_ms t ->
  runs ronum ((pre ++ enc_time x03 t) ++ rest) (length (pre ++ enc_time x03 t))
       (read_expires t h) r ->
  runs ronum (pre ++ enc_time x03 t ++ rest) (length pre) h r.
Proof.
  destruct t as [t|]; cbn [enc_time read_expires]; intros Ht.
  - intros H. rewrite <- app_assoc in H.
    eapply runs_step;
      [apply field_expires with (v := uint64 (Z.quot t 1000000)) (rest := rest);
       cbn [app] in *; apply drop_app_pre|].
    rewrite (wire_time t Ht).
    rewrite length_app in H. cbn [length] in H. rewrite length_le_bytes in H.
    replace (length pre + 2 + 8)%nat with (length pre + 10)%nat by lia.
    exact H.
  - rewrite !app_nil_r. cbn [app]. auto.
Qed.

Lemma text_length_byte s :
  length (list_byte_of_string (cut s))
  = Z.to_nat (byte_val (to_byte (Z.of_nat (String.length (cut s))))).
Proof.
  rewrite byte_val_to_byte, length_list_byte_of_string.
  pose proof (length_cut s). rewrite Z.mod_small by lia. lia.
Qed.

Lemma runs_skip_contact pre s rest h r :
  runs ronum ((pre ++ enc_text x05 s) ++ rest) (length (pre ++ enc_text x05 s))
       (read_contact s h) r ->
  runs ronum (pre ++ enc_text x05 s ++ rest) (length pre) h r.
Proof.
  unfold enc_text, read_contact. destruct (String.eqb s EmptyString).
  - rewrite !app_nil_r. cbn [app]. auto.
  - intros H. rewrite <- app_assoc in H.
    eapply runs_step;
      [apply field_contact with (l := to_byte (Z.of_nat (String.length (cut s))))
                               (text := list_byte_of_string (cut s)) (rest := rest);
         [cbn [app]; apply drop_app_pre|apply text_length_byte]|].
    unfold to_string. rewrite string_of_list_byte_of_string.
    rewrite length_app in H. cbn [length] in H.
    replace (length pre + (2 + length (list_byte_of_string (cut s))))%nat
      with (length pre + S (S (length (list_byte_of_string (cut s)))))%nat by lia.
    exact H.
Qed.

Lemma runs_skip_comment pre s rest h r :
  runs ronum ((pre ++ enc_text x06 s) ++ rest) (length (pre ++ enc_text x06 s))
       (read_comment s h) r ->
  runs ronum (pre ++ enc_text x06 s ++ rest) (length pre) h r.
Proof.
  unfold enc_text, read_comment. destruct (String.eqb s EmptyString).
  - rewrite !app_nil_r. cbn [app]. auto.
  - intros H. rewrite <- app_assoc in H.
    eapply runs_step;
      [apply field_comment with (l := to_byte (Z.of_nat (String.length (cut s))))
                               (text := list_byte_of_string (cut s)) (rest := rest);
         [cbn [app]; apply drop_app_pre|apply text_length_byte]|].
    unfold to_string. rewrite string_of_list_byte_of_string.
    rewrite length_app in H. cbn [length] in H.
    replace (length pre + (2 + length (list_byte_of_string (cut s))))%nat
      with (length pre + S (S (length (list_byte_of_string (cut s)))))%nat by lia.
    exact H.
Qed.

Lemma runs_end pre rest h :
  runs ronum (pre ++ x00 :: rest) (length pre) h (Ok ((length pre + 1)%nat, h)).
Proof. apply runs_done, field_end with (rest := rest), drop_app_pre. Qed.

Lemma runs_revoker pre dr rs rest h :
  runs ronum (pre ++ enc_revokers (dr :: rs) ++ rest) (length pre) h
       (NewObjectError ronum "Invalid delegated revoker in DoT").
Proof.
  apply runs_err. unfold enc_revokers. cbn [fmap list_fmap concat app].
  rewrite <- !app_assoc. cbn [app].
  eapply field_revoker, drop_app_pre.
Qed.
End Skips.

Lemma length_head65 ro :
  length (giverVK ro) = 32%nat -> length (receiverVK ro) = 32%nat ->
  length (head65 ro) = 65%nat.
Proof.
  intros Hg Hr. unfold head65. rewrite !length_app, Hg, Hr. reflexivity.
Qed.

(** The header fields of a packed DOT without revokers are read back to the
    tag 0 that ends them. *)
Lemma runs_fields ronum ro rest :
  whole_ms (created ro) -> whole_ms (expires ro) -> revokers ro = [] ->
  runs ronum (head65 ro ++ fields ro ++ x00 :: rest) (length (head65 ro))
       no_header
       (Ok ((length (head65 ro ++ fields ro) + 1)%nat, read_fields ro)).
Proof.
  intros Hc He Hrev. unfold fields, read_fields. rewrite Hrev.
  change (enc_revokers []) with (@nil byte). cbn [app].
  set (n := length (head65 ro ++ enc_publim (pubLim ro) ++ enc_time x02 (created ro)
                      ++ enc_time x03 (expires ro) ++ enc_text x05 (contact ro)
                      ++ enc_text x06 (comment ro))).
  rewrite <- !app_assoc.
  apply runs_skip_publim, runs_skip_created; [assumption|].
  apply runs_skip_expires; [assumption|].
  apply runs_skip_contact, runs_skip_comment.
  match goal with
  | |- runs _ _ (length ?pre) _ _ =>
      replace n with (length pre)
        by (subst n; rewrite <- !app_assoc; reflexivity)
  end.
  apply runs_end.
Qed.

(** With a revoker, they are read up to the revoker. *)
Lemma runs_fields_revoker ronum ro rest :
  whole_ms (created ro) -> whole_ms (expires ro) -> revokers ro <> [] ->
  runs ronum (head65 ro ++ fields ro ++ x00 :: rest) (length (head65 ro))
       no_header
       (NewObjectError ronum "Invalid delegated revoker in DoT").
Proof.
  intros Hc He Hrev. unfold fields.
  destruct (revokers ro) as [|dr rs]; [contradiction|].
  rewrite <- !app_assoc.
  apply runs_skip_publim, runs_skip_created; [assumption|].
  apply runs_skip_expires; [assumption|].
  apply runs_revoker.
Qed.

Lemma Uint16_two x y rest : Uint16 (x :: y :: rest) = Ok (byte_val x + 256 * byte_val y).
Proof. unfold Uint16. cbn. f_equal. lia. Qed.

Lemma Uint16_le2 v rest : Uint16 (le_bytes 2 v ++ rest) = Ok (v mod 65536).
Proof. unfold Uint16. now rewrite le_value_le_bytes. Qed.

Section Tail.
Variable sha256 : list byte -> list byte.
Variable base64url : list byte -> string.

Lemma tail_access fuel pre g r t h sig ro :
  isAccess ro = true -> length (mVK ro) = 32%nat ->
  Z.of_nat (String.length (uriSuffix ro)) < 65536 ->
  length sig = 64%nat ->
  let C := pre ++ enc_body ro ++ sig in
  let perm := byte_val (to_byte (perm_word ro)) in
  NewDOT_tail sha256 base64url fuel ROAccessDOT C g r t (length pre) h =
    Ok (RODOT (mkDOT C (sha256 (pre ++ enc_body ro)) g r (h_expires h) (h_created h)
                 (h_revokers h) (h_contact h) (h_comment h) sig true
                 (byte_val t) (mVK ro) (uriSuffix ro)
                 (String.append (base64url (mVK ro)) (String "/" (uriSuffix ro)))
                 (h_pubLim h)
                 (bit perm 0x0040)
                 (bit perm 0x0001 || bit perm 0x0002 || bit perm 0x0004)
                 (bit perm 0x0002 || bit perm 0x0004)
                 (bit perm 0x0004)
                 (bit perm 0x0008 || bit perm 0x0010 || bit perm 0x0020)
                 (bit perm 0x0010 || bit perm 0x0020)
                 (bit perm 0x0020)
                 (bit perm 0x0080)
                 ∅)).
Proof.
  intros Ha Hm Hs Hsig C perm. unfold NewDOT_tail.
  change (ROAccessDOT =? ROAccessDOT) with true. cbv iota.
  assert (drop (length pre) C = enc_body ro ++ sig) as D by apply drop_app_pre.
  assert (length C = (length pre + (2 + 32 + 2 + String.length (uriSuffix ro)) + 64)%nat) as LC.
  { subst C. unfold enc_body. rewrite Ha. rewrite !length_app. cbn [length].
    rewrite !length_app, Hm, length_le_bytes, length_list_byte_of_string, Hsig. lia. }
  unfold enc_body in D. rewrite Ha in D. cbn [app] in D. rewrite <- !app_assoc in D.
  rewrite (slice_from_drop C (length pre)), D by lia.
  cbn [mbind outcome_bind]. rewrite Uint16_two. cbn [mbind outcome_bind].
  change (byte_val x00) with 0. rewrite Z.mul_0_r, Z.add_0_r. fold perm.
  pose proof (drop_2 _ _ _ _ _ D) as D2.
  rewrite (slice_drop _ _ _ _ _ D2) by lia. cbn [mbind outcome_bind].
  pose proof (drop_add _ _ 32 _ _ D2 Hm) as D3.
  rewrite (slice_from_drop C (length pre + 2 + 32)), D3 by lia.
  cbn [mbind outcome_bind]. rewrite Uint16_le2. cbn [mbind outcome_bind].
  unfold uint16. change (2 ^ 16) with 65536. rewrite Z.mod_mod by lia.
  rewrite Z.mod_small by lia. rewrite Nat2Z.id.
  pose proof (drop_add _ _ 2 _ _ D3 (length_le_bytes 2 _)) as D4.
  rewrite (slice_drop _ _ _ _ _ D4)
    by (rewrite ?length_list_byte_of_string; lia).
  cbn [mbind outcome_bind].
  pose proof (drop_add _ _ _ _ _ D4 (length_list_byte_of_string _)) as D5.
  assert (drop 0 C = (pre ++ enc_body ro) ++ sig) as D0
    by (subst C; cbn; now rewrite <- app_assoc).
  rewrite (slice_drop _ _ _ _ _ D0)
    by (rewrite ?length_app; unfold enc_body; rewrite ?Ha; cbn [length];
        rewrite ?length_app, ?Hm, ?length_le_bytes, ?length_list_byte_of_string; lia).
  cbn [mbind outcome_bind].
  rewrite (slice_drop C _ sig [] _) by (rewrite ?app_nil_r; first [exact D5|lia]).
  cbn [mbind outcome_bind]. unfold to_string.
  rewrite string_of_list_byte_of_string. reflexivity.
Qed.
End Tail.

Lemma perm_flags ro :
  closed_flags ro ->
  let perm := byte_val (to_byte (perm_word ro)) in
  bit perm 0x0040 = canPublish ro /\
  bit perm 0x0001 || bit perm 0x0002 || bit perm 0x0004 = canConsume ro /\
  bit perm 0x0002 || bit perm 0x0004 = canConsumePlus ro /\
  bit perm 0x0004 = canConsumeStar ro /\
  bit perm 0x0008 || bit perm 0x0010 || bit perm 0x0020 = canTap ro /\
  bit perm 0x0010 || bit perm 0x0020 = canTapPlus ro /\
  bit perm 0x0020 = canTapStar ro /\
  bit perm 0x0080 = canList ro.
Proof.
  unfold closed_flags, perm_word.
  destruct (canPublish ro), (canConsume ro), (canConsumePlus ro),
    (canConsumeStar ro), (canTap ro), (canTapPlus ro), (canTapStar ro),
    (canList ro); intros (H1 & H2 & H3 & H4);
    try (specialize (H1 eq_refl); discriminate);
    try (specialize (H2 eq_refl); discriminate);
    try (specialize (H3 eq_refl); discriminate);
    try (specialize (H4 eq_refl); discriminate);
    vm_compute; repeat split.
Qed.

(** *** The table of a permission DOT *)

Lemma length_enc_kv e : (0 < length (enc_kv e))%nat.
Proof. unfold enc_kv. cbn [length]. lia. Qed.

Lemma kv_pair_packed C pre (e : string * string) rest acc :
  C = pre ++ enc_kv e ++ rest ->
  0 < Z.of_nat (String.length e.1) <= 255 ->
  Z.of_nat (String.length e.2) <= 65535 ->
  kv_pair C (length pre) acc =
    Ok (false, length (pre ++ enc_kv e), <[e.1 := e.2]> acc).
Proof.
  intros -> Hk Hv. destruct e as [k v]. cbn [fst snd] in *.
  set (C := pre ++ enc_kv (k, v) ++ rest).
  assert (drop (length pre) C = enc_kv (k, v) ++ rest) as D by apply drop_app_pre.
  unfold enc_kv in D. cbn [fst snd app] in D. rewrite <- !app_assoc in D.
  assert (length C = (length pre + (1 + String.length k + 2 + String.length v)
                      + length rest)%nat) as LC.
  { subst C. unfold enc_kv. cbn [fst snd]. rewrite !length_app. cbn [length].
    rewrite !length_app, length_le_bytes, !length_list_byte_of_string. lia. }
  unfold kv_pair. rewrite (index_drop _ _ _ _ D). cbn [mbind outcome_bind].
  rewrite byte_val_to_byte, Z.mod_small by lia. rewrite Nat2Z.id.
  destruct (Nat.eqb_spec (String.length k) 0) as [E|_]; [lia|].
  pose proof (drop_1 _ _ _ _ D) as D1.
  rewrite (slice_drop _ _ _ _ _ D1)
    by (rewrite ?length_list_byte_of_string; lia).
  cbn [mbind outcome_bind].
  pose proof (drop_add _ _ _ _ _ D1 (length_list_byte_of_string k)) as D2.
  replace (length pre + (1 + String.length k))%nat
    with (length pre + 1 + String.length k)%nat by lia.
  rewrite (slice_from_drop C (length pre + 1 + String.length k)), D2 by lia.
  cbn [mbind outcome_bind]. rewrite Uint16_le2. cbn [mbind outcome_bind].
  unfold uint16. change (2 ^ 16) with 65536. rewrite Z.mod_mod by lia.
  rewrite Z.mod_small by lia. rewrite Nat2Z.id.
  pose proof (drop_add _ _ 2 _ _ D2 (length_le_bytes 2 _)) as D3.
  rewrite (slice_drop _ _ _ _ _ D3)
    by (rewrite ?length_list_byte_of_string; lia).
  cbn [mbind outcome_bind]. unfold to_string.
  rewrite !string_of_list_byte_of_string.
  do 3 f_equal. rewrite length_app. unfold enc_kv. cbn [fst snd length].
  rewrite !length_app, length_le_bytes, !length_list_byte_of_string. lia.
Qed.

Lemma kv_loop_packed (l : list (string * string)) :
  forall C pre rest acc fuel,
    C = pre ++ concat (enc_kv <$> l) ++ x00 :: rest ->
    (length l < fuel)%nat ->
    Forall (fun e => 0 < Z.of_nat (String.length e.1) <= 255 /\
                     Z.of_nat (String.length e.2) <= 65535) l ->
    kv_loop fuel C (length pre) acc =
      Ok ((length (pre ++ concat (enc_kv <$> l)) + 1)%nat,
          foldl (fun m e => <[e.1 := e.2]> m) acc l).
Proof.
  induction l as [|e l IH]; intros C pre rest acc fuel HC Hf Hl;
    (destruct fuel as [|fuel]; [cbn in Hf; lia|]); cbn [kv_loop].
  - cbn [fmap list_fmap concat app] in *. rewrite app_nil_r.
    unfold kv_pair. subst C.
    rewrite (index_drop _ _ _ _ (drop_app_pre pre (x00 :: rest))).
    reflexivity.
  - cbn [fmap list_fmap concat] in *. rewrite <- app_assoc in HC.
    apply Forall_cons in Hl as [[Hk Hv] Hl].
    rewrite (kv_pair_packed C pre e _ acc HC Hk Hv).
    cbn [mbind outcome_bind foldl].
    rewrite (IH C (pre ++ enc_kv e) rest (<[e.1 := e.2]> acc));
      [|rewrite HC, <- !app_assoc; reflexivity|cbn in Hf; lia|assumption].
    rewrite <- !app_assoc. reflexivity.
Qed.

Lemma foldl_insert_lookup (l : list (string * string)) (acc : gmap string string) k :
  NoDup l.*1 ->
  foldl (fun m e => <[e.1 := e.2]> m) acc l !! k
  = match (list_to_map l : gmap string string) !! k with
    | Some v => Some v
    | None => acc !! k
    end.
Proof.
  revert acc. induction l as [|[k0 v0] l IH]; intros acc Hnd; cbn [foldl].
  - cbn [list_to_map foldr]. now rewrite lookup_empty.
  - cbn [fmap list_fmap fst] in Hnd. apply NoDup_cons in Hnd as [Hk0 Hnd].
    rewrite (IH _ Hnd). cbn [list_to_map foldr fst snd uncurry].
    destruct (decide (k = k0)) as [->|Hne].
    + rewrite lookup_insert_eq.
      rewrite (not_elem_of_list_to_map_1 (M := gmap string)) by assumption.
      now rewrite lookup_insert_eq.
    + rewrite !lookup_insert_ne by congruence. reflexivity.
Qed.

Lemma foldl_insert_map_to_list (m : gmap string string) :
  foldl (fun m e => <[e.1 := e.2]> m) ∅ (map_to_list m) = m.
Proof.
  apply map_eq. intros k.
  rewrite foldl_insert_lookup by apply NoDup_fst_map_to_list.
  rewrite list_to_map_to_list. destruct (m !! k); [reflexivity|apply lookup_empty].
Qed.

(** The table is read back from its entries in whatever order. *)
Lemma foldl_insert_Permutation (m : gmap string string) order :
  order ≡ₚ map_to_list m ->
  foldl (fun m e => <[e.1 := e.2]> m) ∅ order = m.
Proof.
  intros Hp. assert (NoDup order.*1) as Hnd.
  { rewrite Hp. apply NoDup_fst_map_to_list. }
  apply map_eq. intros k. rewrite foldl_insert_lookup by assumption.
  rewrite (list_to_map_proper (M := gmap string) _ _ Hnd Hp).
  rewrite list_to_map_to_list. destruct (m !! k); [reflexivity|apply lookup_empty].
Qed.

Lemma length_concat_enc_kv (l : list (string * string)) :
  (length l <= length (concat (enc_kv <$> l)))%nat.
Proof.
  induction l as [|e l IH]; cbn [fmap list_fmap concat length]; [lia|].
  rewrite length_app. pose proof (length_enc_kv e). lia.
Qed.

Section PermissionTail.
Variable sha256 : list byte -> list byte.
Variable base64url : list byte -> string.

Lemma tail_permission fuel pre g r t h sig ro :
  isAccess ro = false ->
  (forall key value, kv ro !! key = Some value ->
     0 < Z.of_nat (String.length key) <= 255 /\
     Z.of_nat (String.length value) <= 65535) ->
  length sig = 64%nat ->
  let C := pre ++ enc_body ro ++ sig in
  (length C < fuel)%nat ->
  NewDOT_tail sha256 base64url fuel ROPermissionDOT C g r t (length pre) h =
    Ok (RODOT (mkDOT C (sha256 (pre ++ enc_body ro)) g r (h_expires h) (h_created h)
                 (h_revokers h) (h_contact h) (h_comment h) sig false
                 (byte_val t) [] EmptyString EmptyString (h_pubLim h)
                 false false false false false false false false (kv ro))).
Proof.
  intros Ha Hkv Hsig C Hfuel. unfold NewDOT_tail.
  change (ROPermissionDOT =? ROAccessDOT) with false.
  change (ROPermissionDOT =? ROPermissionDOT) with true. cbv iota.
  assert (C = pre ++ concat (enc_kv <$> map_to_list (kv ro)) ++ x00 :: sig) as HC.
  { subst C. unfold enc_body. rewrite Ha. now rewrite <- !app_assoc. }
  rewrite (kv_loop_packed (map_to_list (kv ro)) C pre sig ∅ fuel HC).
  - cbn [mbind outcome_bind]. rewrite foldl_insert_map_to_list.
    assert (pre ++ enc_body ro = pre ++ concat (enc_kv <$> map_to_list (kv ro)) ++ [x00]) as HB.
    { unfold enc_body. now rewrite Ha. }
    assert (drop 0 C = (pre ++ enc_body ro) ++ sig) as D0
      by (subst C; cbn; now rewrite <- app_assoc).
    assert ((length (pre ++ concat (enc_kv <$> map_to_list (kv ro))) + 1)%nat
            = length (pre ++ enc_body ro)) as ->.
    { rewrite HB, !length_app. cbn [length]. lia. }
    rewrite (slice_drop _ _ _ _ _ D0) by lia. cbn [mbind outcome_bind].
    assert (drop (length (pre ++ enc_body ro)) C = sig ++ []) as D1.
    { rewrite app_nil_r. subst C. rewrite app_assoc. apply drop_app_pre. }
    rewrite (slice_drop _ _ _ _ _ D1)
      by (subst C; rewrite ?length_app in *; lia).
    reflexivity.
  - pose proof (length_concat_enc_kv (map_to_list (kv ro))).
    rewrite HC, !length_app in Hfuel. lia.
  - apply Forall_forall. intros [k v] Hin. cbn [fst snd].
    apply elem_of_map_to_list in Hin. eauto.
Qed.
(** The same for a table that was packed in [order]. *)
Lemma tail_permission_in order fuel pre g r t h sig ro :
  isAccess ro = false ->
  order ≡ₚ map_to_list (kv ro) ->
  (forall key value, kv ro !! key = Some value ->
     0 < Z.of_nat (String.length key) <= 255 /\
     Z.of_nat (String.length value) <= 65535) ->
  length sig = 64%nat ->
  let C := pre ++ enc_body_in order ro ++ sig in
  (length C < fuel)%nat ->
  NewDOT_tail sha256 base64url fuel ROPermissionDOT C g r t (length pre) h =
    Ok (RODOT (mkDOT C (sha256 (pre ++ enc_body_in order ro)) g r (h_expires h)
                 (h_created h) (h_revokers h) (h_contact h) (h_comment h) sig
                 false (byte_val t) [] EmptyString EmptyString (h_pubLim h)
                 false false false false false false false false (kv ro))).
Proof.
  intros Ha Hperm Hkv Hsig C Hfuel. unfold NewDOT_tail.
  change (ROPermissionDOT =? ROAccessDOT) with false.
  change (ROPermissionDOT =? ROPermissionDOT) with true. cbv iota.
  assert (C = pre ++ concat (enc_kv <$> order) ++ x00 :: sig) as HC.
  { subst C. unfold enc_body_in. rewrite Ha. now rewrite <- !app_assoc. }
  rewrite (kv_loop_packed order C pre sig ∅ fuel HC).
  - cbn [mbind outcome_bind]. rewrite (foldl_insert_Permutation _ _ Hperm).
    assert (pre ++ enc_body_in order ro
            = pre ++ concat (enc_kv <$> order) ++ [x00]) as HB.
    { unfold enc_body_in. now rewrite Ha. }
    assert (drop 0 C = (pre ++ enc_body_in order ro) ++ sig) as D0
      by (subst C; cbn; now rewrite <- app_assoc).
    assert ((length (pre ++ concat (enc_kv <$> order)) + 1)%nat
            = length (pre ++ enc_body_in order ro)) as ->.
    { rewrite HB, !length_app. cbn [length]. lia. }
    rewrite (slice_drop _ _ _ _ _ D0) by lia. cbn [mbind outcome_bind].
    assert (drop (length (pre ++ enc_body_in order ro)) C = sig ++ []) as D1.
    { rewrite app_nil_r. subst C. rewrite app_assoc. apply drop_app_pre. }
    rewrite (slice_drop _ _ _ _ _ D1)
      by (subst C; rewrite ?length_app in *; lia).
    reflexivity.
  - pose proof (length_concat_enc_kv order).
    rewrite HC, !length_app in Hfuel. lia.
  - apply Forall_forall. intros [k v] Hin. cbn [fst snd].
    rewrite Hperm in Hin. apply elem_of_map_to_list in Hin. eauto.
Qed.
End PermissionTail.

Section RoundTrip.
Variable sha256 : list byte -> list byte.
Variable base64url : list byte -> string.
Variable SignBlob : list byte -> list byte -> list byte -> list byte.

Lemma length_copy_fresh n l : length (copy (replicate n x00) l) = n.
Proof.
  unfold copy. rewrite length_app, length_take, length_drop, !length_replicate. lia.
Qed.

(** The head of the packed form is read back, whatever follows. *)
Lemma NewDOT_body_head fuel ronum ro rest :
  length (giverVK ro) = 32%nat -> length (receiverVK ro) = 32%nat ->
  0 <= ttl ro <= 255 ->
  NewDOT_body sha256 base64url fuel ronum (head65 ro ++ rest) =
    '(idx, h) ← header_loop fuel ronum (head65 ro ++ rest) 65 no_header;
    NewDOT_tail sha256 base64url fuel ronum (head65 ro ++ rest)
      (giverVK ro) (receiverVK ro) (to_byte (ttl ro)) idx h.
Proof.
  intros Hg Hr Ht. unfold NewDOT_body.
  assert (drop 0 (head65 ro ++ rest)
          = giverVK ro ++ receiverVK ro ++ to_byte (ttl ro) :: rest) as D0.
  { unfold head65. cbn [drop]. rewrite <- !app_assoc. reflexivity. }
  rewrite (slice_drop _ _ _ _ _ D0) by (rewrite ?Hg; lia).
  cbn [mbind outcome_bind].
  pose proof (drop_add _ _ 32 _ _ D0 Hg) as D1. cbn [Nat.add] in D1.
  rewrite (slice_drop _ _ _ _ _ D1)
    by (rewrite ?Hr, ?length_app, ?length_head65; lia).
  cbn [mbind outcome_bind].
  pose proof (drop_add _ _ 32 _ _ D1 Hr) as D2. cbn [Nat.add] in D2.
  rewrite (index_drop _ _ _ _ D2). reflexivity.
Qed.

Lemma with_pubLim_id ro : with_pubLim (pubLim ro) ro = ro.
Proof. now destruct ro. Qed.

(** An access DOT without revokers is read back from its packed form, but
    for the publish limits. *)
Lemma NewDOT_Encode_access sk ro :
  access_packable base64url ro -> revokers ro = [] ->
  NewDOT sha256 base64url ROAccessDOT (GetContent (Encode sha256 SignBlob sk ro))
  = Ok (RODOT (with_pubLim (packed_limits <$> pubLim ro)
                 (Encode sha256 SignBlob sk ro))).
Proof.
  intros [[Hg Hr Ht Hc He] Ha Hm Hs Hu Hf Hk] Hrev.
  rewrite (Encode_eq sha256 SignBlob sk ro Hg Hr). cbv zeta.
  unfold GetContent, with_pubLim. cbn [content hash giverVK receiverVK expires
    created revokers contact comment signature isAccess ttl mVK uriSuffix uri
    pubLim canPublish canConsume canConsumePlus canConsumeStar canTap
    canTapPlus canTapStar canList kv].
  set (sig := copy (replicate 64 x00) (SignBlob sk (giverVK ro) (packed ro))).
  assert (length sig = 64%nat) as Hsig by apply length_copy_fresh.
  unfold NewDOT. unfold packed at 1 2. rewrite <- !app_assoc.
  rewrite (NewDOT_body_head _ _ ro _ Hg Hr Ht).
  pose proof (runs_fields ROAccessDOT ro (enc_body ro ++ sig) Hc He Hrev) as R.
  rewrite (length_head65 ro Hg Hr) in R. cbn [app] in R |- *.
  rewrite (runs_header_loop _ _ _ _ _ R) by lia.
  cbn [mbind outcome_bind].
  replace (length (head65 ro ++ fields ro) + 1)%nat
    with (length ((head65 ro ++ fields ro) ++ [x00]))
    by (rewrite (length_app _ [x00]); reflexivity).
  replace (head65 ro ++ fields ro ++ x00 :: enc_body ro ++ sig)
    with (((head65 ro ++ fields ro) ++ [x00]) ++ enc_body ro ++ sig)
    by (rewrite <- !app_assoc; reflexivity).
  rewrite (tail_access sha256 base64url _ _ _ _ _ _ sig ro Ha Hm Hs Hsig).
  cbv zeta. cbn [recover].
  destruct (perm_flags ro Hf) as (F1 & F2 & F3 & F4 & F5 & F6 & F7 & F8).
  rewrite F1, F2, F3, F4, F5, F6, F7, F8, byte_val_to_byte.
  rewrite Z.mod_small by lia. rewrite <- Hu, Hk, Ha.
  replace ((head65 ro ++ fields ro) ++ [x00]) with (head65 ro ++ fields ro ++ [x00])
    by now rewrite <- app_assoc.
  unfold packed. rewrite <- !app_assoc. cbn [app].
  unfold read_fields, read_comment, read_contact, read_expires, read_created,
    read_publim, no_header.
  rewrite Hrev.
  destruct (pubLim ro), (created ro), (expires ro),
    (String.eqb_spec (contact ro) EmptyString) as [->|?],
    (String.eqb_spec (comment ro) EmptyString) as [->|?]; reflexivity.
Qed.

(** A permission DOT without revokers is read back from its packed form, but
    for the publish limits. *)
Lemma NewDOT_Encode_permission sk ro :
  permission_packable ro -> revokers ro = [] ->
  NewDOT sha256 base64url ROPermissionDOT
    (GetContent (Encode sha256 SignBlob sk ro))
  = Ok (RODOT (with_pubLim (packed_limits <$> pubLim ro)
                 (Encode sha256 SignBlob sk ro))).
Proof.
  intros [[Hg Hr Ht Hc He] Ha Hm Hs Hu Hf Hk] Hrev.
  rewrite (Encode_eq sha256 SignBlob sk ro Hg Hr). cbv zeta.
  unfold GetContent, with_pubLim. cbn [content hash giverVK receiverVK expires
    created revokers contact comment signature isAccess ttl mVK uriSuffix uri
    pubLim canPublish canConsume canConsumePlus canConsumeStar canTap
    canTapPlus canTapStar canList kv].
  set (sig := copy (replicate 64 x00) (SignBlob sk (giverVK ro) (packed ro))).
  assert (length sig = 64%nat) as Hsig by apply length_copy_fresh.
  unfold NewDOT. unfold packed at 1 2. rewrite <- !app_assoc.
  rewrite (NewDOT_body_head _ _ ro _ Hg Hr Ht).
  pose proof (runs_fields ROPermissionDOT ro (enc_body ro ++ sig) Hc He Hrev) as R.
  rewrite (length_head65 ro Hg Hr) in R. cbn [app] in R |- *.
  rewrite (runs_header_loop _ _ _ _ _ R) by lia.
  cbn [mbind outcome_bind].
  replace (length (head65 ro ++ fields ro) + 1)%nat
    with (length ((head65 ro ++ fields ro) ++ [x00]))
    by (rewrite (length_app _ [x00]); reflexivity).
  replace (head65 ro ++ fields ro ++ x00 :: enc_body ro ++ sig)
    with (((head65 ro ++ fields ro) ++ [x00]) ++ enc_body ro ++ sig)
    by (rewrite <- !app_assoc; reflexivity).
  rewrite (tail_permission sha256 base64url _ _ _ _ _ _ sig ro Ha Hk Hsig) by lia.
  cbn [recover].
  unfold GetPermissionSet in Hf. injection Hf as -> -> -> -> -> -> -> ->.
  rewrite byte_val_to_byte, Z.mod_small by lia. rewrite Hm, Hs, Hu, Ha.
  replace ((head65 ro ++ fields ro) ++ [x00]) with (head65 ro ++ fields ro ++ [x00])
    by now rewrite <- app_assoc.
  unfold packed. rewrite <- !app_assoc. cbn [app].
  unfold read_fields, read_comment, read_contact, read_expires, read_created,
    read_publim, no_header.
  rewrite Hrev.
  destruct (pubLim ro), (created ro), (expires ro),
    (String.eqb_spec (contact ro) EmptyString) as [->|?],
    (String.eqb_spec (comment ro) EmptyString) as [->|?]; reflexivity.
Qed.

(** A permission DOT without revokers is read back from its packed form,
    but for the publish limits, in whatever order its table was packed. *)
Lemma NewDOT_EncodeWalk_permission order sk ro :
  permission_packable ro -> revokers ro = [] ->
  order ≡ₚ map_to_list (kv ro) ->
  NewDOT sha256 base64url ROPermissionDOT
    (GetContent (EncodeWalk sha256 SignBlob order sk ro))
  = Ok (RODOT (with_pubLim (packed_limits <$> pubLim ro)
                 (EncodeWalk sha256 SignBlob order sk ro))).
Proof.
  intros [[Hg Hr Ht Hc He] Ha Hm Hs Hu Hf Hk] Hrev Hperm.
  rewrite (EncodeWalk_eq sha256 SignBlob order sk ro Hg Hr). cbv zeta.
  unfold GetContent, with_pubLim. cbn [content hash giverVK receiverVK expires
    created revokers contact comment signature isAccess ttl mVK uriSuffix uri
    pubLim canPublish canConsume canConsumePlus canConsumeStar canTap
    canTapPlus canTapStar canList kv].
  set (sig := copy (replicate 64 x00)
                (SignBlob sk (giverVK ro) (packed_in order ro))).
  assert (length sig = 64%nat) as Hsig by apply length_copy_fresh.
  unfold NewDOT. unfold packed_in at 1 2. rewrite <- !app_assoc.
  rewrite (NewDOT_body_head _ _ ro _ Hg Hr Ht).
  pose proof (runs_fields ROPermissionDOT ro (enc_body_in order ro ++ sig)
                Hc He Hrev) as R.
  rewrite (length_head65 ro Hg Hr) in R. cbn [app] in R |- *.
  rewrite (runs_header_loop _ _ _ _ _ R) by lia.
  cbn [mbind outcome_bind].
  replace (length (head65 ro ++ fields ro) + 1)%nat
    with (length ((head65 ro ++ fields ro) ++ [x00]))
    by (rewrite (length_app _ [x00]); reflexivity).
  replace (head65 ro ++ fields ro ++ x00 :: enc_body_in order ro ++ sig)
    with (((head65 ro ++ fields ro) ++ [x00]) ++ enc_body_in order ro ++ sig)
    by (rewrite <- !app_assoc; reflexivity).
  rewrite (tail_permission_in sha256 base64url order _ _ _ _ _ _ sig ro
             Ha Hperm Hk Hsig) by lia.
  cbn [recover].
  unfold GetPermissionSet in Hf. injection Hf as -> -> -> -> -> -> -> ->.
  rewrite byte_val_to_byte, Z.mod_small by lia. rewrite Hm, Hs, Hu, Ha.
  replace ((head65 ro ++ fields ro) ++ [x00]) with (head65 ro ++ fields ro ++ [x00])
    by now rewrite <- app_assoc.
  unfold packed_in. rewrite <- !app_assoc. cbn [app].
  unfold read_fields, read_comment, read_contact, read_expires, read_created,
    read_publim, no_header.
  rewrite Hrev.
  destruct (pubLim ro), (created ro), (expires ro),
    (String.eqb_spec (contact ro) EmptyString) as [->|?],
    (String.eqb_spec (comment ro) EmptyString) as [->|?]; reflexivity.
Qed.

(** A DOT with a revoker is refused when its packed form is read. *)
Lemma NewDOT_Encode_revoker sk ro ronum :
  packable ro -> revokers ro <> [] ->
  NewDOT sha256 base64url ronum (GetContent (Encode sha256 SignBlob sk ro))
  = NewObjectError ronum "Invalid delegated revoker in DoT".
Proof.
  intros [Hg Hr Ht Hc He] Hrev.
  rewrite (Encode_eq sha256 SignBlob sk ro Hg Hr). cbv zeta.
  unfold GetContent. cbn [content].
  set (sig := copy (replicate 64 x00) (SignBlob sk (giverVK ro) (packed ro))).
  unfold NewDOT. unfold packed at 1 2. rewrite <- !app_assoc.
  rewrite (NewDOT_body_head _ _ ro _ Hg Hr Ht).
  pose proof (runs_fields_revoker ronum ro (enc_body ro ++ sig) Hc He Hrev) as R.
  rewrite (length_head65 ro Hg Hr) in R. cbn [app] in R |- *.
  rewrite (runs_header_loop _ _ _ _ _ R) by lia.
  reflexivity.
Qed.

(** X1.  An access DOT with keys of 32 bytes, a TTL that [SetTTL] accepts,
    times in whole milliseconds, a suffix shorter than 65536 bytes, no
    publish limits and no revoker is read back by [NewDOT] from the content
    that [Encode] packs: the result is the DOT that [Encode] leaves, hash and
    signature included. *)
Theorem DOT_access_round_trip sk ro :
  access_packable base64url ro -> pubLim ro = None -> revokers ro = [] ->
  NewDOT sha256 base64url ROAccessDOT (GetContent (Encode sha256 SignBlob sk ro))
  = Ok (RODOT (Encode sha256 SignBlob sk ro)).
Proof.
  intros Hp Hl Hr. rewrite (NewDOT_Encode_access sk ro Hp Hr).
  replace (packed_limits <$> pubLim ro) with (pubLim (Encode sha256 SignBlob sk ro)).
  - now rewrite with_pubLim_id.
  - destruct Hp as [[Hg Hr' _ _ _] _ _ _ _ _ _].
    rewrite (Encode_eq sha256 SignBlob sk ro Hg Hr'). cbn [pubLim].
    now rewrite Hl.
Qed.

(** X2.  A permission DOT whose table has no empty key, no key longer than
    255 bytes and no value longer than 65535 bytes, with no publish limits
    and no revoker, is read back by [NewDOT] from the content that [Encode]
    packs, in whatever order [Encode] walks the table: for every order of the
    entries of the table the DOT read is the DOT that [Encode] leaves, whose
    content and hash are those of that order. *)
Theorem DOT_permission_round_trip sk ro order :
  permission_packable ro -> pubLim ro = None -> revokers ro = [] ->
  order ≡ₚ map_to_list (kv ro) ->
  NewDOT sha256 base64url ROPermissionDOT
    (GetContent (EncodeWalk sha256 SignBlob order sk ro))
  = Ok (RODOT (EncodeWalk sha256 SignBlob order sk ro)).
Proof.
  intros Hp Hl Hr Hperm.
  rewrite (NewDOT_EncodeWalk_permission order sk ro Hp Hr Hperm).
  replace (packed_limits <$> pubLim ro)
    with (pubLim (EncodeWalk sha256 SignBlob order sk ro)).
  - now rewrite with_pubLim_id.
  - destruct Hp as [[Hg Hr' _ _ _] _ _ _ _ _ _].
    rewrite (EncodeWalk_eq sha256 SignBlob order sk ro Hg Hr'). cbn [pubLim].
    now rewrite Hl.
Qed.

(** X3.  [Encode] packs a delegated revoker under the length 32 and [NewDOT]
    accepts one under the length 8 only: the content that [Encode] packs for
    a DOT with a revoker is refused by [NewDOT] with the error "Invalid
    delegated revoker in DoT", under every routing object number. *)
Theorem DOT_revoker_refused sk ro ronum :
  packable ro -> revokers ro <> [] ->
  NewDOT sha256 base64url ronum (GetContent (Encode sha256 SignBlob sk ro))
  = Err (ObjectError ronum "Invalid delegated revoker in DoT").
Proof. apply NewDOT_Encode_revoker. Qed.

(** X4.  [toBytes] writes both limits at the start of its buffer, so the
    publish limits do not come back: from the content that [Encode] packs
    for an access DOT with the limits [p], [NewDOT] reads the store limit of
    [p] as the transmit limit, 0 as the store limit, and the low byte of
    [Retain]; all else is read back as packed. *)
Theorem DOT_publish_limits_not_kept sk ro p :
  access_packable base64url ro -> revokers ro = [] -> pubLim ro = Some p ->
  NewDOT sha256 base64url ROAccessDOT (GetContent (Encode sha256 SignBlob sk ro))
  = Ok (RODOT (with_pubLim
                 (Some (mkPublishLimits (int64 (uint64 (StoreLimit p))) 0
                          (Retain p mod 256)))
                 (Encode sha256 SignBlob sk ro))).
Proof.
  intros Hp Hr Hl. rewrite (NewDOT_Encode_access sk ro Hp Hr).
  now rewrite Hl.
Qed.

End RoundTrip.

Lemma DOT_access_round_trip_witness :
  NewDOT no_hash ns_name ROAccessDOT
    (GetContent (Encode no_hash no_signature [] sample_access))
  = Ok (RODOT (Encode no_hash no_signature [] sample_access)).
Proof.
  apply DOT_access_round_trip; [|reflexivity|reflexivity].
  repeat split; cbn; try reflexivity; try lia; try discriminate; auto.
Defined.

Lemma DOT_permission_round_trip_witness :
  reverse (map_to_list (kv sample_table)) <> map_to_list (kv sample_table) /\
  NewDOT no_hash ns_name ROPermissionDOT
    (GetContent (EncodeWalk no_hash no_signature
                   (reverse (map_to_list (kv sample_table))) [] sample_table))
  = Ok (RODOT (EncodeWalk no_hash no_signature
                 (reverse (map_to_list (kv sample_table))) [] sample_table)).
Proof.
  split; [vm_compute; discriminate|].
  apply DOT_permission_round_trip;
    [|reflexivity|reflexivity|apply reverse_Permutation].
  split; try reflexivity.
  - repeat split; cbn; try reflexivity; lia.
  - intros key value H. cbn [kv sample_table] in H.
    apply lookup_insert_Some in H as [[<- <-]|[_ H]]; [cbn; lia|].
    apply lookup_singleton_Some in H as [<- <-]. cbn. lia.
Defined.

Lemma DOT_revoker_refused_witness :
  NewDOT no_hash ns_name ROAccessDOT
    (GetContent (Encode no_hash no_signature [] sample_revocable))
  = Err (ObjectError ROAccessDOT "Invalid delegated revoker in DoT").
Proof.
  apply DOT_revoker_refused; [|discriminate].
  repeat split; cbn; try reflexivity; lia.
Defined.

Lemma DOT_publish_limits_not_kept_witness :
  NewDOT no_hash ns_name ROAccessDOT
    (GetContent (Encode no_hash no_signature [] sample_limited))
  = Ok (RODOT (with_pubLim (Some (mkPublishLimits 7 0 1))
                 (Encode no_hash no_signature [] sample_limited))).
Proof.
  apply (DOT_publish_limits_not_kept no_hash ns_name no_signature []
           sample_limited (mkPublishLimits 5 7 1)); [|reflexivity|reflexivity].
  repeat split; cbn; try reflexivity; try lia; try discriminate; auto.
Defined.

End DOTProofs.

(** ** A URI restricted by a pattern *)

Module GlobProofs.
Import Util CursorSpec GlobSpec.

(** A loop whose body never breaks ends where its condition fails. *)
Lemma for_loop_while {S : Type} (I : S -> Prop) (mu : S -> nat)
    (cond : S -> bool) (body : S -> option S) (post : S -> S) :
  (forall s, I s -> cond s = true ->
     exists s', body s = Some s' /\ I (post s') /\ (mu (post s') < mu s)%nat) ->
  forall fuel s, I s -> (mu s < fuel)%nat ->
    exists s', for_loop fuel cond body post s = Some s' /\ I s' /\ cond s' = false.
Proof.
  intros step fuel. induction fuel as [|k IH]; intros s Hs Hmu; [lia|].
  cbn [for_loop]. destruct (cond s) eqn:Hc; [|eauto].
  destruct (step s Hs Hc) as (s' & -> & Hi & Hlt).
  apply IH; [assumption|lia].
Qed.

Lemma cell_nat (p : list string) (i : nat) :
  cell p (Z.of_nat i) = nth i p EmptyString.
Proof. unfold cell. now rewrite Nat2Z.id. Qed.

Lemma concrete_nth fp i :
  concrete fp = true ->
  is_star (nth i fp EmptyString) = false /\ is_plus (nth i fp EmptyString) = false.
Proof.
  revert i. induction fp as [|c fp IH]; intros i H.
  - destruct i; split; reflexivity.
  - cbn [concrete forallb] in H. apply andb_prop in H as [Hc H].
    apply andb_prop in Hc as [H1 H2].
    destruct i as [|i]; cbn [nth]; [|now apply IH].
    split; [now apply negb_true_iff in H1|now apply negb_true_iff in H2].
Qed.

Lemma concrete_cell fp z :
  concrete fp = true ->
  is_star (cell fp z) = false /\ is_plus (cell fp z) = false.
Proof. intros H. unfold cell. now apply concrete_nth. Qed.

Lemma meet_concrete f b :
  is_star f = false -> is_plus f = false ->
  meet f b = if cell_matches b f then Some f else None.
Proof.
  intros Hs Hp. unfold meet, cell_matches. rewrite Hs, Hp. cbn [negb andb].
  rewrite andb_true_r. reflexivity.
Qed.

Lemma cell_matches_not_star b f :
  is_star f = false -> cell_matches b f = true -> is_star b = false.
Proof.
  unfold cell_matches, is_star, is_plus. intros Hf H.
  destruct (String.eqb_spec b "*") as [->|_]; [|reflexivity].
  rewrite Hf in H. discriminate.
Qed.

Lemma take_S_nth (l : list string) i :
  (i < length l)%nat -> take (S i) l = take i l ++ [nth i l EmptyString].
Proof.
  intros H. destruct (lookup_lt_is_Some_2 l i H) as [x Hx].
  rewrite (take_S_r _ _ _ Hx). f_equal. f_equal.
  symmetry. now apply nth_lookup_Some.
Qed.

Lemma drop_nth (l : list string) i :
  (i < length l)%nat -> drop i l = nth i l EmptyString :: drop (S i) l.
Proof.
  intros H. destruct (lookup_lt_is_Some_2 l i H) as [x Hx].
  rewrite (drop_S _ _ _ Hx). f_equal.
  symmetry. now apply nth_lookup_Some.
Qed.

Section Concrete.
Variables fp bp : list string.
Hypothesis Hc : concrete fp = true.

#[local] Abbreviation F := (length fp).
#[local] Abbreviation B := (length bp).
#[local] Abbreviation f i := (nth i fp EmptyString).
#[local] Abbreviation b i := (nth i bp EmptyString).

(** Phase 1 stops at the first pair of cells that do not match. *)
Lemma phase1_concrete a b' bo :
  forall fuel i, (i <= F)%nat -> (i <= B)%nat -> (F - i < fuel)%nat ->
    exists n, (i <= n <= F)%nat /\ (n <= B)%nat /\
      phase1 fp bp fuel (mkCursor (Z.of_nat i) (Z.of_nat i) a b' (take i fp) bo)
      = Some (mkCursor (Z.of_nat n) (Z.of_nat n) a b' (take n fp) bo) /\
      (forall t, (i <= t < n)%nat -> cell_matches (b t) (f t) = true) /\
      ((n < F)%nat -> (n < B)%nat -> cell_matches (b n) (f n) = false).
Proof.
  induction fuel as [|fuel IH]; intros i HiF HiB Hfuel; [lia|].
  unfold phase1. cbn [for_loop fi bi].
  destruct (decide (i < F /\ i < B)%nat) as [[H1 H2]|Hno].
  - replace (Z.of_nat i <? len fp) with true
      by (symmetry; apply Z.ltb_lt; unfold len; lia).
    replace (Z.of_nat i <? len bp) with true
      by (symmetry; apply Z.ltb_lt; unfold len; lia).
    cbn [andb]. rewrite !cell_nat.
    destruct (concrete_nth fp i Hc) as [Hs Hp].
    rewrite (meet_concrete _ _ Hs Hp).
    destruct (cell_matches (b i) (f i)) eqn:Hm.
    + cbn [fi bi fni bni fout bout].
      rewrite <- take_S_nth by assumption.
      replace (Z.of_nat i + 1) with (Z.of_nat (S i)) by lia.
      destruct (IH (S i)) as (n & Hn1 & Hn2 & E & Hall & Hend); [lia..|].
      exists n. repeat split; [lia|lia|assumption|exact E| |assumption].
      intros t Ht. destruct (decide (t = i)) as [->|Hne]; [assumption|].
      apply Hall. lia.
    + exists i. repeat split; [lia|lia|assumption| |intros; assumption].
      intros t Ht. lia.
  - exists i. repeat split; [lia|lia|assumption| | |]; [|intros t Ht; lia|intros; lia].
    assert ((Z.of_nat i <? len fp) && (Z.of_nat i <? len bp) = false) as ->;
      [|reflexivity].
    apply andb_false_iff. unfold len.
    destruct (decide (i < F)%nat); [right|left]; apply Z.ltb_ge; lia.
Qed.

(** Phase 2 stops at the last pair of cells that do not match. *)
Lemma phase2_concrete n fo :
  (n <= F)%nat -> (n <= B)%nat ->
  forall fuel j bo, (n + j <= F)%nat -> (n + j <= B)%nat -> (F - j < fuel)%nat ->
    rev bo = drop (F - j) fp ->
    exists k bo', (j <= k)%nat /\ (n + k <= F)%nat /\ (n + k <= B)%nat /\
      phase2 fp bp fuel
        (mkCursor (Z.of_nat n) (Z.of_nat n) (Z.of_nat F - 1 - Z.of_nat j)
                  (Z.of_nat B - 1 - Z.of_nat j) fo bo)
      = Some (mkCursor (Z.of_nat n) (Z.of_nat n) (Z.of_nat F - 1 - Z.of_nat k)
                       (Z.of_nat B - 1 - Z.of_nat k) fo bo') /\
      rev bo' = drop (F - k) fp /\
      (forall t, (j <= t < k)%nat ->
                 cell_matches (b (B - 1 - t)) (f (F - 1 - t)) = true) /\
      ((n + k < F)%nat -> (n + k < B)%nat ->
       cell_matches (b (B - 1 - k)) (f (F - 1 - k)) = false).
Proof.
  intros HnF HnB.
  induction fuel as [|fuel IH]; intros j bo HjF HjB Hfuel Hbo; [lia|].
  unfold phase2. cbn [for_loop fi bi fni bni].
  destruct (decide (n + j < F /\ n + j < B)%nat) as [[H1 H2]|Hno].
  - replace (Z.of_nat F - 1 - Z.of_nat j >=? Z.of_nat n) with true
      by (symmetry; rewrite Z.geb_leb; apply Z.leb_le; lia).
    replace (Z.of_nat B - 1 - Z.of_nat j >=? Z.of_nat n) with true
      by (symmetry; rewrite Z.geb_leb; apply Z.leb_le; lia).
    cbn [andb].
    replace (Z.of_nat F - 1 - Z.of_nat j) with (Z.of_nat (F - 1 - j)) by lia.
    replace (Z.of_nat B - 1 - Z.of_nat j) with (Z.of_nat (B - 1 - j)) by lia.
    rewrite !cell_nat.
    destruct (concrete_nth fp (F - 1 - j) Hc) as [Hs Hp].
    rewrite (meet_concrete _ _ Hs Hp).
    destruct (cell_matches (b (B - 1 - j)) (f (F - 1 - j))) eqn:Hm.
    + cbn [fi bi fni bni fout bout].
      replace (Z.of_nat (F - 1 - j) - 1) with (Z.of_nat F - 1 - Z.of_nat (S j)) by lia.
      replace (Z.of_nat (B - 1 - j) - 1) with (Z.of_nat B - 1 - Z.of_nat (S j)) by lia.
      destruct (IH (S j) (bo ++ [f (F - 1 - j)]))
        as (k & bo' & Hk1 & Hk2 & Hk3 & E & Hbo' & Hall & Hend); [lia|lia|lia| |].
      { rewrite rev_app_distr. cbn [rev app]. rewrite Hbo.
        replace (F - S j)%nat with (F - 1 - j)%nat by lia.
        rewrite (drop_nth fp (F - 1 - j)) by lia.
        do 2 f_equal. lia. }
      exists k, bo'. repeat split; [lia|lia|lia|exact E|assumption| |assumption].
      intros t Ht. destruct (decide (t = j)) as [->|Hne]; [assumption|].
      apply Hall. lia.
    + exists j, bo. repeat split; [lia|lia|lia| |assumption| |intros; assumption].
      * do 2 f_equal; lia.
      * intros t Ht. lia.
  - exists j, bo. repeat split; [lia|lia|lia| |assumption| |intros; lia].
    + assert ((Z.of_nat F - 1 - Z.of_nat j >=? Z.of_nat n)
              && (Z.of_nat B - 1 - Z.of_nat j >=? Z.of_nat n) = false) as ->;
        [|reflexivity].
      apply andb_false_iff. rewrite !Z.geb_leb.
      destruct (decide (n + j < F)%nat); [right|left]; apply Z.leb_gt; lia.
    + intros t Ht. lia.
Qed.

(** The loop of phase 3 that copies the cells of the URI up to [fni]. *)
Lemma copy_front k bi0 bni0 bo :
  (k <= F)%nat ->
  forall fuel i, (i <= F - k)%nat -> (F - i < fuel)%nat ->
    for_loop fuel
      (fun c => (fi c <? len fp) && negb (is_star (cell fp (fi c)))
                && (fi c <=? fni c))
      (fun c => Some (mkCursor (fi c) (bi c) (fni c) (bni c)
                        (fout c ++ [cell fp (fi c)]) (bout c)))
      (fun c => mkCursor (fi c + 1) (bi c) (fni c) (bni c) (fout c) (bout c))
      (mkCursor (Z.of_nat i) bi0 (Z.of_nat F - 1 - Z.of_nat k) bni0 (take i fp) bo)
    = Some (mkCursor (Z.of_nat (F - k)) bi0 (Z.of_nat F - 1 - Z.of_nat k) bni0
              (take (F - k) fp) bo).
Proof.
  intros Hk. induction fuel as [|fuel IH]; intros i Hi Hfuel; [lia|].
  cbn [for_loop fi bi fni bni fout bout].
  destruct (decide (i < F - k)%nat) as [Hlt|Hge].
  - replace (Z.of_nat i <? len fp) with true
      by (symmetry; apply Z.ltb_lt; unfold len; lia).
    rewrite cell_nat. destruct (concrete_nth fp i Hc) as [-> _].
    replace (Z.of_nat i <=? Z.of_nat F - 1 - Z.of_nat k) with true
      by (symmetry; apply Z.leb_le; lia).
    cbn [negb andb]. rewrite <- take_S_nth by lia.
    replace (Z.of_nat i + 1) with (Z.of_nat (S i)) by lia.
    apply IH; lia.
  - assert (i = F - k)%nat as -> by lia.
    replace (Z.of_nat (F - k) <=? Z.of_nat F - 1 - Z.of_nat k) with false
      by (symmetry; apply Z.leb_gt; lia).
    now rewrite andb_false_r.
Qed.

(** Phase 3 on a URI without wildcards: nothing happens unless the pattern
    stands at its "*", and then the URI is copied up to [fni]. *)
Lemma phase3_concrete n k bni0 bo fuel :
  (n + k <= F)%nat -> (F < fuel)%nat ->
  phase3 fp bp fuel
    (mkCursor (Z.of_nat n) (Z.of_nat n) (Z.of_nat F - 1 - Z.of_nat k) bni0
              (take n fp) bo)
  = Some (if (Z.of_nat n <? len bp) && is_star (b n)
          then mkCursor (Z.of_nat (F - k)) (Z.of_nat n)
                 (Z.of_nat F - 1 - Z.of_nat k) bni0 (take (F - k) fp) bo
          else mkCursor (Z.of_nat n) (Z.of_nat n)
                 (Z.of_nat F - 1 - Z.of_nat k) bni0 (take n fp) bo).
Proof.
  intros Hnk Hfuel. unfold phase3. cbn [fi bi].
  destruct (concrete_cell fp (Z.of_nat n) Hc) as [-> _].
  rewrite andb_false_r. rewrite cell_nat.
  destruct ((Z.of_nat n <? len bp) && is_star (b n)); [|reflexivity].
  apply copy_front; lia.
Qed.

(** Phase 4 on a URI without wildcards moves [fni] and [bout] only, and
    nothing once [fni] is below [fi]. *)
Lemma phase4_concrete c fuel :
  -1 <= fni c < len fp -> (F < fuel)%nat ->
  exists c', phase4 fp bp fuel c = Some c' /\
    fi c' = fi c /\ bi c' = bi c /\ bni c' = bni c /\ fout c' = fout c /\
    (fni c < fi c -> c' = c).
Proof.
  intros Hr Hfuel. unfold phase4.
  destruct (concrete_cell fp (fni c) Hc) as [-> _]. rewrite andb_false_r.
  destruct ((bni c >=? 0) && is_star (cell bp (bni c))).
  2:{ exists c. repeat split. }
  destruct (Z.ltb_spec (fni c) (fi c)) as [Hlt|Hge].
  - exists c. destruct fuel as [|fuel]; [lia|].
    rewrite for_loop_exit; [repeat split|].
    replace (fni c >=? fi c) with false
      by (symmetry; rewrite Z.geb_leb; apply Z.leb_gt; lia).
    now rewrite andb_false_r.
  - destruct (for_loop_while
                (fun s => fi s = fi c /\ bi s = bi c /\ bni s = bni c /\
                          fout s = fout c /\ -1 <= fni s < len fp)
                (fun s => Z.to_nat (fni s + 1))
                (fun c0 => (fni c0 >=? 0) && negb (is_star (cell fp (fni c0)))
                           && (fni c0 >=? fi c0))
                (fun c0 => Some (mkCursor (fi c0) (bi c0) (fni c0) (bni c0)
                                   (fout c0) (bout c0 ++ [cell fp (fni c0)])))
                (fun c0 => mkCursor (fi c0) (bi c0) (fni c0 - 1) (bni c0)
                             (fout c0) (bout c0))) with (fuel := fuel) (s := c)
      as (c' & E & (I1 & I2 & I3 & I4 & I5) & _).
    + intros s (I1 & I2 & I3 & I4 & I5) Hcond. eexists. split; [reflexivity|].
      cbn [fi bi fni bni fout bout].
      apply andb_prop in Hcond as [Hcond _]. apply andb_prop in Hcond as [Hcond _].
      rewrite Z.geb_leb in Hcond. apply Z.leb_le in Hcond.
      repeat split; try assumption; lia.
    + repeat split; lia.
    + unfold len in *. lia.
    + exists c'. repeat split; try assumption. lia.
Qed.

(** Phase 5 on a URI without wildcards. *)
Lemma phase5_concrete c :
  phase5 fp bp c =
    let bi' := if (bi c <? len bp) && is_star (cell bp (bi c))
               then bi c + 1 else bi c in
    if ((fi c =? fni c + 1) || (fi c =? len fp)) &&
       ((bi' =? bni c + 1) || (bi' =? len bp))
    then emit (fout c) (bout c)
    else (EmptyString, false).
Proof.
  unfold phase5. destruct (concrete_cell fp (fi c) Hc) as [-> _].
  rewrite !andb_false_r. cbn [andb]. reflexivity.
Qed.

End Concrete.

(** *** What a pattern with one "*" at most matches *)

Lemma glob_nostar bp : forall fp,
  (forall i, (i < length bp)%nat -> is_star (nth i bp EmptyString) = false) ->
  glob bp fp = true <->
  length fp = length bp /\
  forall i, (i < length bp)%nat ->
    cell_matches (nth i bp EmptyString) (nth i fp EmptyString) = true.
Proof.
  induction bp as [|p bp IH]; intros fp Hns.
  - destruct fp; cbn; split; try discriminate; try (intros [? _]; discriminate).
    + intros _. split; [reflexivity|intros; lia].
    + reflexivity.
  - cbn [glob]. pose proof (Hns 0%nat ltac:(cbn; lia)) as Hp.
    cbn [nth] in Hp. rewrite Hp.
    destruct fp as [|c fp].
    + split; [discriminate|intros [? _]; discriminate].
    + rewrite andb_true_iff, IH by (intros i Hi; apply (Hns (S i)); cbn; lia).
      cbn [length]. split.
      * intros (H0 & HL & Hall). split; [lia|].
        intros [|i] Hi; cbn [nth]; [assumption|apply Hall; lia].
      * intros (HL & Hall). split; [apply (Hall 0%nat); lia|].
        split; [lia|]. intros i Hi. apply (Hall (S i)). lia.
Qed.

Lemma nth_drop_add (l : list string) k i :
  nth i (drop k l) EmptyString = nth (k + i) l EmptyString.
Proof.
  revert l. induction k as [|k IH]; intros l; [reflexivity|].
  destruct l as [|x l]; [now destruct i|]. cbn [drop Nat.add nth]. apply IH.
Qed.

Lemma glob_star_front post fp :
  (forall i, (i < length post)%nat -> is_star (nth i post EmptyString) = false) ->
  glob ("*"%string :: post) fp = true <->
  (length post <= length fp)%nat /\
  forall t, (t < length post)%nat ->
    cell_matches (nth (length post - 1 - t) post EmptyString)
                 (nth (length fp - 1 - t) fp EmptyString) = true.
Proof.
  intros Hns. cbn [glob]. change (is_star "*") with true. cbv iota.
  rewrite existsb_exists. split.
  - intros (k & Hk & Hg). apply in_seq in Hk.
    apply (glob_nostar post _ Hns) in Hg as [HL Hall].
    rewrite length_drop in HL. split; [lia|].
    intros t Ht. specialize (Hall (length post - 1 - t)%nat ltac:(lia)).
    rewrite nth_drop_add in Hall.
    replace (k + (length post - 1 - t))%nat with (length fp - 1 - t)%nat in Hall by lia.
    exact Hall.
  - intros (HL & Hall). exists (length fp - length post)%nat. split.
    + apply in_seq. lia.
    + apply (glob_nostar post _ Hns). rewrite length_drop. split; [lia|].
      intros i Hi. specialize (Hall (length post - 1 - i)%nat ltac:(lia)).
      replace (length post - 1 - (length post - 1 - i))%nat with i in Hall by lia.
      rewrite nth_drop_add.
      replace (length fp - length post + i)%nat
        with (length fp - 1 - (length post - 1 - i))%nat by lia.
      exact Hall.
Qed.

Lemma glob_one_star s : forall bp fp,
  (s < length bp)%nat -> is_star (nth s bp EmptyString) = true ->
  (forall i, (i < length bp)%nat -> i <> s ->
             is_star (nth i bp EmptyString) = false) ->
  glob bp fp = true <->
  (s + (length bp - 1 - s) <= length fp)%nat /\
  (forall i, (i < s)%nat ->
     cell_matches (nth i bp EmptyString) (nth i fp EmptyString) = true) /\
  (forall t, (t < length bp - 1 - s)%nat ->
     cell_matches (nth (length bp - 1 - t) bp EmptyString)
                  (nth (length fp - 1 - t) fp EmptyString) = true).
Proof.
  induction s as [|s IH]; intros bp fp Hs Hstar Hothers.
  - destruct bp as [|p post]; [cbn in Hs; lia|]. cbn [nth] in Hstar.
    assert (p = "*"%string) as -> by now apply String.eqb_eq in Hstar.
    rewrite glob_star_front
      by (intros i Hi; apply (Hothers (S i)); cbn; lia).
    cbn [length]. split.
    + intros (HL & Hall). split; [lia|]. split; [intros; lia|].
      intros t Ht. specialize (Hall t ltac:(lia)).
      replace (S (length post) - 1 - t)%nat with (S (length post - 1 - t)) by lia.
      exact Hall.
    + intros (HL & _ & Hall). split; [lia|].
      intros t Ht. specialize (Hall t ltac:(lia)).
      replace (S (length post) - 1 - t)%nat with (S (length post - 1 - t)) in Hall by lia.
      exact Hall.
  - destruct bp as [|p bp]; [cbn in Hs; lia|]. cbn [glob].
    pose proof (Hothers 0%nat ltac:(cbn; lia) ltac:(lia)) as Hp.
    cbn [nth] in Hp. rewrite Hp.
    destruct fp as [|c fp].
    + split; [discriminate|]. cbn [length]. intros (HL & _). lia.
    + cbn [length nth] in *.
      rewrite andb_true_iff, (IH bp fp);
        [|lia|assumption|intros i Hi Hne; apply (Hothers (S i)); lia].
      split.
      * intros (H0 & HL & Hpre & Hpost). split; [lia|]. split.
        -- intros [|i] Hi; cbn [nth]; [assumption|apply Hpre; lia].
        -- intros t Ht. specialize (Hpost t ltac:(lia)).
           replace (S (length bp) - 1 - t)%nat with (S (length bp - 1 - t)) by lia.
           replace (S (length fp) - 1 - t)%nat with (S (length fp - 1 - t)) by lia.
           exact Hpost.
      * intros (HL & Hpre & Hpost). split; [apply (Hpre 0%nat); lia|].
        split; [lia|]. split.
        -- intros i Hi. apply (Hpre (S i)). lia.
        -- intros t Ht. specialize (Hpost t ltac:(lia)).
           replace (S (length bp) - 1 - t)%nat with (S (length bp - 1 - t)) in Hpost by lia.
           replace (S (length fp) - 1 - t)%nat with (S (length fp - 1 - t)) in Hpost by lia.
           exact Hpost.
Qed.

Lemma stars_none bp :
  stars bp = 0%nat ->
  forall i, (i < length bp)%nat -> is_star (nth i bp EmptyString) = false.
Proof.
  unfold stars. induction bp as [|p bp IH]; intros H i Hi; [cbn in Hi; lia|].
  cbn [List.filter] in H. destruct (is_star p) eqn:E; [discriminate|].
  destruct i as [|i]; cbn [nth]; [assumption|]. apply IH; [assumption|cbn in Hi; lia].
Qed.

Lemma stars_cases bp :
  (stars bp <= 1)%nat ->
  (forall i, (i < length bp)%nat -> is_star (nth i bp EmptyString) = false) \/
  exists s, (s < length bp)%nat /\ is_star (nth s bp EmptyString) = true /\
    forall i, (i < length bp)%nat -> i <> s ->
              is_star (nth i bp EmptyString) = false.
Proof.
  induction bp as [|p bp IH]; intros H.
  - left. intros i Hi. cbn in Hi. lia.
  - unfold stars in H. cbn [List.filter] in H. destruct (is_star p) eqn:E.
    + right. exists 0%nat. cbn [length nth]. split; [lia|]. split; [assumption|].
      intros [|i] Hi Hne; [contradiction|]. cbn [nth].
      apply stars_none; [unfold stars; cbn [length] in H; lia|lia].
    + destruct (IH H) as [Hn|(s & Hs & Hst & Ho)].
      * left. intros [|i] Hi; cbn [nth]; [assumption|apply Hn; cbn in Hi; lia].
      * right. exists (S s). cbn [length nth]. split; [lia|]. split; [assumption|].
        intros [|i] Hi Hne; cbn [nth]; [assumption|apply Ho; lia].
Qed.

Lemma phase4_nostar fp bp c fuel :
  concrete fp = true -> is_star (cell bp (bni c)) = false ->
  phase4 fp bp fuel c = Some c.
Proof.
  intros Hc H. unfold phase4.
  destruct (concrete_cell fp (fni c) Hc) as [-> _].
  rewrite H, !andb_false_r. reflexivity.
Qed.

(** The last test fails as soon as the pattern's cursors do not meet. *)
Lemma phase5_fails fp bp c :
  concrete fp = true ->
  (if (bi c <? len bp) && is_star (cell bp (bi c)) then bi c + 1 else bi c)
    <> bni c + 1 ->
  (if (bi c <? len bp) && is_star (cell bp (bi c)) then bi c + 1 else bi c)
    <> len bp ->
  phase5 fp bp c = (EmptyString, false).
Proof.
  intros Hc H1 H2. rewrite phase5_concrete by assumption. cbv zeta.
  apply Z.eqb_neq in H1, H2. rewrite H1, H2, andb_false_r. reflexivity.
Qed.

Lemma nostar_everywhere bp :
  (forall i, (i < length bp)%nat -> is_star (nth i bp EmptyString) = false) ->
  forall i, is_star (nth i bp EmptyString) = false.
Proof.
  intros H i. destruct (Nat.lt_ge_cases i (length bp)) as [Hi|Hi]; [now apply H|].
  now rewrite nth_overflow by lia.
Qed.

(** [RestrictBy] on the cells of a URI without wildcards and a pattern with
    one "*" at most: the URI if the pattern matches it, a failure if not. *)
Lemma restrict_cells_concrete fp bp :
  concrete fp = true -> (stars bp <= 1)%nat ->
  restrict_cells fp bp (restrict_fuel fp bp)
  = Some (if glob bp fp then (Join fp, true) else (EmptyString, false)).
Proof.
  intros Hc Hst. unfold restrict_cells, restrict_fuel.
  set (F := length fp). set (B := length bp).
  destruct (phase1_concrete fp bp Hc (len fp - 1) (len bp - 1) [] (S (F + B)) 0)
    as (n & Hn1 & Hn2 & E1 & M1 & X1); [lia..|].
  change (Z.of_nat 0) with 0 in E1. change (take 0 fp) with (@nil string) in E1.
  rewrite E1. cbn [mbind option_bind].
  destruct (phase2_concrete fp bp Hc n (take n fp) ltac:(lia) Hn2 (S (F + B)) 0 [])
    as (k & bo & _ & Hk1 & Hk2 & E2 & Hbo & M2 & X2); [lia..| |].
  { cbn [rev]. rewrite drop_ge; [reflexivity|lia]. }
  replace (Z.of_nat (length fp) - 1 - Z.of_nat 0) with (len fp - 1) in E2
    by (unfold len; lia).
  replace (Z.of_nat (length bp) - 1 - Z.of_nat 0) with (len bp - 1) in E2
    by (unfold len; lia).
  rewrite E2. cbn [mbind option_bind].
  rewrite (phase3_concrete fp bp Hc n k _ bo (S (F + B))) by lia.
  cbn [mbind option_bind].
  fold F B in Hk1, Hk2, Hbo, M2, X2, X1, Hn1, Hn2 |- *.
  destruct (stars_cases bp Hst) as [Hns|(s & Hs & Hss & Hso)].
  - (* no "*" in the pattern *)
    pose proof (nostar_everywhere bp Hns) as Hall.
    rewrite Hall, andb_false_r.
    rewrite phase4_nostar by (try assumption; unfold cell; apply Hall).
    cbn [mbind option_bind]. rewrite phase5_concrete by assumption.
    cbn [fi bi fni bni fout bout]. rewrite cell_nat, Hall, andb_false_r. cbv zeta.
    destruct (glob bp fp) eqn:G.
    + apply (glob_nostar bp fp Hns) in G as [GL GA]. fold F B in GL, GA.
      assert (n = F) as Hn.
      { destruct (decide (n < F)%nat) as [Hlt|]; [|lia].
        pose proof (GA n ltac:(lia)) as Q. rewrite X1 in Q by lia. discriminate. }
      replace (Z.of_nat n =? len fp) with true
        by (symmetry; apply Z.eqb_eq; unfold len; fold F; lia).
      replace (Z.of_nat n =? len bp) with true
        by (symmetry; apply Z.eqb_eq; unfold len; fold B; lia).
      rewrite !orb_true_r. cbn [andb]. unfold emit. rewrite Hbo.
      replace (F - k)%nat with n by lia. now rewrite take_drop.
    + match goal with |- Some (if ?C then _ else _) = _ => destruct C eqn:EC end;
        [exfalso|reflexivity].
      apply andb_prop in EC as [EC1 EC2].
      apply orb_prop in EC1, EC2. rewrite !Z.eqb_eq in EC1, EC2.
      unfold len in EC1, EC2. fold F B in EC1, EC2.
      assert (F = B /\ n + k = F)%nat as [HFB Hnk] by lia.
      enough (glob bp fp = true) by congruence.
      apply (glob_nostar bp fp Hns). fold F B. split; [assumption|].
      intros i Hi. destruct (decide (i < n)%nat) as [Hlt|Hge]; [apply M1; lia|].
      specialize (M2 (B - 1 - i)%nat ltac:(lia)).
      replace (B - 1 - (B - 1 - i))%nat with i in M2 by lia.
      replace (F - 1 - (B - 1 - i))%nat with i in M2 by lia.
      exact M2.
  - (* one "*", at [s] *)
    assert (n <= s)%nat as Hns.
    { destruct (Nat.le_gt_cases n s) as [|Hgt]; [assumption|exfalso].
      specialize (M1 s ltac:(lia)).
      apply cell_matches_not_star in M1; [congruence|now apply concrete_nth]. }
    assert (k <= B - 1 - s)%nat as Hkp.
    { destruct (Nat.le_gt_cases k (B - 1 - s)) as [|Hgt]; [assumption|exfalso].
      specialize (M2 (B - 1 - s)%nat ltac:(lia)).
      replace (B - 1 - (B - 1 - s))%nat with s in M2 by lia.
      apply cell_matches_not_star in M2; [congruence|now apply concrete_nth]. }
    destruct (glob bp fp) eqn:G.
    + apply (glob_one_star s bp fp Hs Hss Hso) in G as (GL & GP & GS).
      fold F B in GL, GP, GS.
      assert (n = s) as ->.
      { destruct (decide (n < s)%nat) as [Hlt|]; [|lia].
        pose proof (GP n Hlt) as Q. rewrite X1 in Q by lia. discriminate. }
      assert (k = B - 1 - s)%nat as Hk.
      { destruct (decide (k < B - 1 - s)%nat) as [Hlt|]; [|lia].
        pose proof (GS k Hlt) as Q. rewrite X2 in Q by lia. discriminate. }
      rewrite Hss.
      replace (Z.of_nat s <? len bp) with true
        by (symmetry; apply Z.ltb_lt; unfold len; lia).
      cbn [andb].
      destruct (phase4_concrete fp bp Hc
                  (mkCursor (Z.of_nat (F - k)) (Z.of_nat s)
                     (Z.of_nat F - 1 - Z.of_nat k) (Z.of_nat B - 1 - Z.of_nat k)
                     (take (F - k) fp) bo) (S (F + B)))
        as (c' & E4 & _ & _ & _ & _ & Hsame);
        [cbn [fni]; unfold len; lia|lia|].
      rewrite E4, Hsame by (cbn [fi fni]; lia).
      cbn [mbind option_bind]. rewrite phase5_concrete by assumption.
      cbn [fi bi fni bni fout bout]. rewrite cell_nat, Hss.
      replace (Z.of_nat s <? len bp) with true
        by (symmetry; apply Z.ltb_lt; unfold len; lia).
      cbn [andb]. cbv zeta.
      replace (Z.of_nat (F - k) =? Z.of_nat F - 1 - Z.of_nat k + 1) with true
        by (symmetry; apply Z.eqb_eq; lia).
      replace (Z.of_nat s + 1 =? Z.of_nat B - 1 - Z.of_nat k + 1) with true
        by (symmetry; apply Z.eqb_eq; lia).
      cbn [orb andb]. unfold emit. rewrite Hbo. now rewrite take_drop.
    + assert (~ (n = s /\ k = B - 1 - s)%nat) as Hnot.
      { intros [-> ->]. enough (glob bp fp = true) by congruence.
        apply (glob_one_star s bp fp Hs Hss Hso). fold F B.
        split; [lia|]. split; [intros i Hi; apply M1; lia|].
        intros t Ht. apply M2. lia. }
      match goal with |- context [phase4 _ _ _ ?c] => set (c3 := c) end.
      assert (bi c3 = Z.of_nat n /\ bni c3 = Z.of_nat B - 1 - Z.of_nat k /\
              -1 <= fni c3 < len fp) as (Hbi & Hbni & Hfni).
      { subst c3.
        destruct ((Z.of_nat n <? len bp) && is_star (nth n bp EmptyString));
          cbn [bi bni fni]; unfold len; fold F; lia. }
      destruct (phase4_concrete fp bp Hc c3 (S (F + B)))
        as (c' & E4 & _ & Hbi' & Hbni' & _ & _); [assumption|lia|].
      rewrite E4. cbn [mbind option_bind]. f_equal.
      apply phase5_fails; [assumption|..];
        rewrite ?Hbni', !Hbi', !Hbi, ?Hbni, cell_nat; unfold len; fold B;
        destruct (decide (n = s)) as [->|Hne].
      * rewrite Hss.
        replace (Z.of_nat s <? Z.of_nat B) with true by (symmetry; apply Z.ltb_lt; lia).
        cbn [andb]. lia.
      * rewrite (Hso n) by lia. rewrite andb_false_r. lia.
      * rewrite Hss.
        replace (Z.of_nat s <? Z.of_nat B) with true by (symmetry; apply Z.ltb_lt; lia).
        cbn [andb]. lia.
      * rewrite (Hso n) by lia. rewrite andb_false_r. lia.
Qed.

(** X5.  Restricting a URI that has no wildcard cell by a pattern with at
    most one "*" keeps the URI unchanged when the pattern matches it ("+"
    standing for exactly one cell and "*" for any number of cells, none
    included), and fails with an empty string when it does not. *)
Theorem RestrictBy_concrete (from by_ : string) :
  concrete (Split from) = true -> (stars (Split by_) <= 1)%nat ->
  RestrictBy from by_ =
    if glob (Split by_) (Split from) then (from, true) else (EmptyString, false).
Proof.
  intros Hc Hst. unfold RestrictBy, RestrictBy_opt. cbv zeta.
  rewrite restrict_cells_concrete by assumption.
  cbn [default]. now rewrite UtilProofs.Join_Split.
Qed.

Lemma RestrictBy_concrete_witness :
  concrete (Split "a/b/c") = true /\ (stars (Split "a/*") <= 1)%nat /\
  RestrictBy "a/b/c" "a/*" =
    if glob (Split "a/*") (Split "a/b/c") then ("a/b/c"%string, true)
    else (EmptyString, false).
Proof.
  split; [reflexivity|]. split; [vm_compute; lia|].
  apply (RestrictBy_concrete "a/b/c" "a/*"); [reflexivity|vm_compute; lia].
Defined.

End GlobProofs.

(** ** The rules of the chain analysis *)

Module ChainRulesProofs.
Import Objects Core ChainSpec ChainRules.
#[local] Open Scope string_scope.
Local Open Scope Z_scope.

#[local] Arguments Util.RestrictBy : simpl never.
#[local] Arguments Util.AnalyzeSuffix : simpl never.

(** A link of a chain in order passes unless the TTL has run out. *)
Lemma link_step_linked mvk w d u :
  w_ttl w <> 0 -> w_tail w = GetGiverVK d -> mvk = GetAccessURIMVK d ->
  Util.RestrictBy (w_uri w) (GetAccessURISuffix d) = (u, true) ->
  link_step mvk w d =
    inr (mkWalk (Z.min (GetTTL d) (w_ttl w - 1))
                (ReduceBy (w_ps w) (GetPermissionSet d)) (GetReceiverVK d) u).
Proof.
  intros Ht Hg Hm Hr. unfold link_step.
  destruct (Z.eqb_spec (w_ttl w) 0); [contradiction|].
  rewrite (proj2 (ChainProofs.bytes_Equal_true _ _) Hg),
          (proj2 (ChainProofs.bytes_Equal_true _ _) Hm).
  cbn [negb orb]. rewrite Hr. cbn [negb]. do 2 f_equal.
  destruct (Z.ltb_spec (GetTTL d) (w_ttl w - 1)); lia.
Qed.

(** The walk through links in order: it ends with TTLExpired unless the
    running TTL and the TTL of every link cover the links to come. *)
Lemma walk_links_ttl_rule mvk links : forall w,
  linked mvk (w_tail w) (w_uri w) links ->
  Forall (fun d => 0 <= GetTTL d) links -> 0 <= w_ttl w ->
  if (Z.of_nat (length links) <=? w_ttl w) && ttl_covers links
  then exists w', walk_links mvk w links = inr w'
  else exists ps, walk_links mvk w links = inl (TTLExpired, ps).
Proof.
  induction links as [|d links IH]; intros w Hl Hnn Hw.
  - cbn [walk_links length ttl_covers]. change (Z.of_nat 0) with 0.
    destruct (Z.leb_spec 0 (w_ttl w)); [cbn [andb]; eauto|lia].
  - cbn [linked] in Hl. destruct Hl as (Hg & Hm & u & Hr & Hl).
    apply Forall_cons in Hnn as [Hd Hnn].
    cbn [walk_links length ttl_covers].
    destruct (Z.eq_dec (w_ttl w) 0) as [E0|E0].
    + destruct (Z.leb_spec (Z.of_nat (S (length links))) (w_ttl w)); [lia|].
      cbn [andb].
      destruct (proj2 (ChainProofs.link_step_TTLExpired mvk w d) E0) as [ps ->].
      eauto.
    + rewrite (link_step_linked mvk w d u E0 Hg Hm Hr).
      specialize (IH (mkWalk (Z.min (GetTTL d) (w_ttl w - 1))
                        (ReduceBy (w_ps w) (GetPermissionSet d))
                        (GetReceiverVK d) u) Hl Hnn).
      cbn [w_ttl] in IH. specialize (IH ltac:(lia)).
      replace ((Z.of_nat (S (length links)) <=? w_ttl w) &&
               ((Z.of_nat (length links) <=? GetTTL d) && ttl_covers links))
        with ((Z.of_nat (length links) <=? Z.min (GetTTL d) (w_ttl w - 1)) &&
              ttl_covers links); [exact IH|].
      destruct (ttl_covers links); rewrite ?andb_true_r, ?andb_false_r;
        [|reflexivity].
      destruct (Z.leb_spec (Z.of_nat (length links)) (Z.min (GetTTL d) (w_ttl w - 1)));
        destruct (Z.leb_spec (Z.of_nat (S (length links))) (w_ttl w));
        destruct (Z.leb_spec (Z.of_nat (length links)) (GetTTL d));
        cbn [andb]; try reflexivity; lia.
Qed.

(** What a walk that raises no error has seen. *)
Lemma walk_links_passed mvk links : forall w w',
  walk_links mvk w links = inr w' ->
  linked mvk (w_tail w) (w_uri w) links /\
  merged (w_uri w) links = Some (w_uri w') /\
  w_tail w' = default (w_tail w) (GetReceiverVK <$> last links) /\
  (Forall (fun d => 0 <= GetTTL d) links -> 0 <= w_ttl w ->
   Z.of_nat (length links) <= w_ttl w /\ ttl_covers links = true /\
   0 <= w_ttl w').
Proof.
  induction links as [|d links IH]; intros w w' H.
  - cbn in H. injection H as <-. cbn. repeat split; try lia.
  - cbn [walk_links] in H.
    destruct (link_step mvk w d) as [|w1] eqn:E; [discriminate|].
    apply ChainProofs.link_step_inr in E as (Ht & Hg & Hm & Hr & Ht1 & _ & Httl).
    destruct (IH w1 w' H) as (Hl & Hmg & Htl & Hc).
    split; [|split; [|split]].
    + cbn [linked]. rewrite <- Ht1. eauto 6.
    + cbn [merged]. rewrite Hr. exact Hmg.
    + rewrite Htl, Ht1. destruct links as [|d' links]; [reflexivity|].
      cbn [last]. change (last (d :: d' :: links)) with (last (d' :: links)).
      destruct (last (d' :: links)) eqn:EL; [reflexivity|].
      apply last_None in EL. discriminate.
    + intros Hnn Hw. apply Forall_cons in Hnn as [Hd Hnn].
      destruct (Hc Hnn ltac:(lia)) as (H1 & H2 & H3).
      cbn [length ttl_covers]. rewrite H2.
      split; [lia|]. split; [|assumption].
      rewrite andb_true_r. apply Z.leb_le. lia.
Qed.

(** X6.  In a chain whose links and URIs are in order and whose TTLs are not
    negative, the analysis fails with TTLExpired exactly when some DOT has a
    TTL smaller than the number of DOTs that follow it. *)
Theorem ttl_expired_rule (mtype : Z) (U : string) (firstdot : DOT)
    (links : list DOT) (u0 : string) :
  Forall (fun d => 0 <= GetTTL d) (firstdot :: links) ->
  Util.RestrictBy U (GetAccessURISuffix firstdot) = (u0, true) ->
  GetGiverVK firstdot = GetAccessURIMVK firstdot ->
  linked (GetAccessURIMVK firstdot) (GetReceiverVK firstdot) u0 links ->
  exists r, AnalyzeAccessDOTChain mtype U (firstdot :: links) = Some r /\
            (err r = Some TTLExpired <-> ttl_covers (firstdot :: links) = false).
Proof.
  intros Hnn Hr Hg Hl. eexists. split; [reflexivity|].
  apply Forall_cons in Hnn as [Hf Hnn].
  pose proof (ChainProofs.analyze_walk mtype U firstdot links u0 Hr Hg) as Ha.
  pose proof (walk_links_ttl_rule (GetAccessURIMVK firstdot) links
                (start firstdot u0) Hl Hnn Hf) as Hw.
  cbn [start w_ttl] in Hw. cbn [ttl_covers].
  destruct ((Z.of_nat (length links) <=? GetTTL firstdot) && ttl_covers links).
  - destruct Hw as (w' & Hw). rewrite Hw in Ha.
    split; [|discriminate]. intros E.
    destruct Ha as [Ha|[Ha|[Ha|Ha]]]; rewrite Ha in E; discriminate.
  - destruct Hw as (ps & Hw). rewrite Hw in Ha. split; [reflexivity|].
    intros _. exact Ha.
Qed.

Lemma ttl_expired_rule_witness :
  exists r, AnalyzeAccessDOTChain TypeSubscribe "a/b/x" short_chain = Some r /\
            (err r = Some TTLExpired <-> ttl_covers short_chain = false).
Proof.
  apply (ttl_expired_rule TypeSubscribe "a/b/x"
           (access_dot [x00] [x01] [x00] 1 "a/*" perm_CstarT)
           [access_dot [x01] [x02] [x00] 0 "a/b/+" perm_C] "a/b/x").
  - repeat constructor; cbn; lia.
  - reflexivity.
  - reflexivity.
  - cbn. split; [reflexivity|]. split; [reflexivity|].
    exists "a/b/x". split; reflexivity.
Defined.

(** X7.  A chain that the analysis accepts is in order: the target URI lies
    under the suffix of the first DOT, the first DOT is granted by the
    namespace key, each DOT after it is granted by the receiver of the DOT
    before and lies in the same namespace, the suffixes restrict the target in
    turn to the merged URI reported, which is a valid suffix, and the origin
    reported is the receiver of the last DOT.  With TTLs that are not negative
    each DOT has a TTL of at least the number of DOTs after it. *)
Theorem accepted_chain_in_order (mtype : Z) (U : string) (firstdot : DOT)
    (links : list DOT) :
  err (analyze mtype U firstdot links) = None ->
  exists u0 u,
    Util.RestrictBy U (GetAccessURISuffix firstdot) = (u0, true) /\
    GetGiverVK firstdot = GetAccessURIMVK firstdot /\
    linked (GetAccessURIMVK firstdot) (GetReceiverVK firstdot) u0 links /\
    merged u0 links = Some u /\
    mergeduri (analyze mtype U firstdot links) = Some u /\
    Util.valid (Util.AnalyzeSuffix u) = true /\
    mvk (analyze mtype U firstdot links) = Some (GetAccessURIMVK firstdot) /\
    originVK (analyze mtype U firstdot links)
      = GetReceiverVK <$> last (firstdot :: links) /\
    (Forall (fun d => 0 <= GetTTL d) (firstdot :: links) ->
     ttl_covers (firstdot :: links) = true).
Proof.
  unfold analyze.
  destruct (Util.RestrictBy U (GetAccessURISuffix firstdot)) as [u0 []];
    cbn [negb]; [|discriminate].
  destruct (bytes_Equal _ _) eqn:Eg; cbn [negb]; [|discriminate].
  apply ChainProofs.bytes_Equal_true in Eg.
  fold (start firstdot u0).
  destruct (walk_links _ _ _) as [[e ps]|w] eqn:Ew; [discriminate|].
  apply walk_links_passed in Ew as (Hl & Hm & Ht & Hc).
  cbn [start w_tail w_uri w_ttl] in Hl, Hm, Ht, Hc.
  destruct (Util.valid (Util.AnalyzeSuffix (w_uri w))) eqn:Ev; cbn [negb];
    [|discriminate].
  intros _. exists u0, (w_uri w). cbn [mergeduri mvk originVK].
  repeat (split; [first [reflexivity|assumption]|]).
  split.
  - rewrite Ht. destruct links as [|d links]; [reflexivity|].
    change (last (firstdot :: d :: links)) with (last (d :: links)).
    destruct (last (d :: links)) eqn:EL; [reflexivity|].
    apply last_None in EL. discriminate.
  - intros Hnn. apply Forall_cons in Hnn as [Hf Hnn].
    destruct (Hc Hnn Hf) as (H1 & H2 & _). cbn [ttl_covers]. rewrite H2.
    rewrite andb_true_r. apply Z.leb_le. lia.
Qed.

Lemma accepted_chain_in_order_witness :
  exists u0 u,
    Util.RestrictBy "a/b/x" "a/*" = (u0, true) /\
    [x00] = [x00] /\
    linked [x00] [x01] u0 [access_dot [x01] [x02] [x00] 0 "a/b/+" perm_C] /\
    merged u0 [access_dot [x01] [x02] [x00] 0 "a/b/+" perm_C] = Some u /\
    mergeduri (analyze TypeSubscribe "a/b/x"
                 (access_dot [x00] [x01] [x00] 1 "a/*" perm_CstarT)
                 [access_dot [x01] [x02] [x00] 0 "a/b/+" perm_C]) = Some u /\
    Util.valid (Util.AnalyzeSuffix u) = true /\
    mvk (analyze TypeSubscribe "a/b/x"
           (access_dot [x00] [x01] [x00] 1 "a/*" perm_CstarT)
           [access_dot [x01] [x02] [x00] 0 "a/b/+" perm_C]) = Some [x00] /\
    originVK (analyze TypeSubscribe "a/b/x"
                (access_dot [x00] [x01] [x00] 1 "a/*" perm_CstarT)
                [access_dot [x01] [x02] [x00] 0 "a/b/+" perm_C])
      = GetReceiverVK <$> last short_chain /\
    (Forall (fun d => 0 <= GetTTL d) short_chain ->
     ttl_covers short_chain = true).
Proof.
  apply (accepted_chain_in_order TypeSubscribe "a/b/x"
           (access_dot [x00] [x01] [x00] 1 "a/*" perm_CstarT)
           [access_dot [x01] [x02] [x00] 0 "a/b/+" perm_C]).
  vm_compute. reflexivity.
Defined.

End ChainRulesProofs.

(** ** What the subscription tree matches *)

Module MatchProofs.
Import Core CoreClient MatchSpec.

(** *** Induction on the tree *)

Lemma snode_size_child (ch : gmap string snode) p c :
  ch !! p = Some c ->
  (snode_size c <= map_fold (fun _ c n => (snode_size c + n)%nat) O ch)%nat.
Proof.
  intros H. rewrite <- (insert_delete_id ch p c H).
  rewrite map_fold_insert_L.
  - lia.
  - intros. lia.
  - apply lookup_delete_eq.
Qed.

Lemma snode_children_ind (P : snode -> Prop) :
  (forall ch su, (forall p c, ch !! p = Some c -> P c) -> P (SNode ch su)) ->
  forall s, P s.
Proof.
  intros H s. remember (snode_size s) as n eqn:Hn. revert s Hn.
  induction (lt_wf n) as [n _ IH]. intros [ch su] ->.
  apply H. intros p c Hc. apply (IH (snode_size c)); [|reflexivity].
  cbn [snode_size children]. pose proof (snode_size_child ch p c Hc). lia.
Qed.

(** *** The walker *)

(** The loop [for i := 0; i < len(parts); i++] under a "*" child. *)
Lemma star_loop_elem v3 x (l : list string) :
  x ∈ (fix star (ps : list string) : list subscription :=
         match ps with
         | [] => []
         | _ :: ps' => rmatchSubs v3 ps ++ star ps'
         end) l <->
  exists i, (i < length l)%nat /\ x ∈ rmatchSubs v3 (drop i l).
Proof.
  induction l as [|q l IH].
  - split; [intros H; inversion H|intros (i & Hi & _); cbn in Hi; lia].
  - rewrite elem_of_app, IH. split.
    + intros [H|(i & Hi & H)].
      * exists 0%nat. cbn [length drop]. split; [lia|exact H].
      * exists (S i). cbn [length drop]. split; [lia|exact H].
    + intros ([|i] & Hi & H); cbn [length drop] in *.
      * left. exact H.
      * right. exists i. split; [lia|exact H].
Qed.

Lemma tmatch_nil_r pat : tmatch pat [] = true <-> pat = [].
Proof. destruct pat; cbn; split; congruence. Qed.

Lemma stored_at_nil s cl : stored_at s [] cl = subs s !! cl.
Proof. reflexivity. Qed.

Lemma stored_at_cons s p path cl :
  stored_at s (p :: path) cl =
  match children s !! p with
  | Some child => stored_at child path cl
  | None => None
  end.
Proof. unfold stored_at. cbn [descend]. now destruct (children s !! p). Qed.

Lemma tmatch_cons c pat' t topic' :
  tmatch (c :: pat') (t :: topic') = true <->
  (c = t /\ tmatch pat' topic' = true) \/
  (c = "+"%string /\ tmatch pat' topic' = true) \/
  (c = "*"%string /\
   exists i, (i < length (t :: topic'))%nat /\
             tmatch pat' (drop i (t :: topic')) = true).
Proof.
  cbn [tmatch]. rewrite !orb_true_iff, !andb_true_iff, !String.eqb_eq.
  rewrite existsb_exists. setoid_rewrite in_seq.
  split.
  - intros [[H|H]|[H (i & Hi & Hm)]]; [auto|auto|].
    right. right. split; [assumption|]. exists i. split; [lia|assumption].
  - intros [H|[H|[H (i & Hi & Hm)]]]; [auto|auto|].
    right. split; [assumption|]. exists i. split; [lia|assumption].
Qed.

(** The walker hands the visitor the subscriptions of the nodes whose path
    matches the topic. *)
Lemma rmatchSubs_spec s : forall parts x,
  x ∈ rmatchSubs s parts <->
  exists path cl, tmatch path parts = true /\ stored_at s path cl = Some x.
Proof.
  induction s as [ch su IH] using snode_children_ind. intros parts x.
  destruct parts as [|t rest].
  - rewrite TerminusProofs.rmatchSubs_nil. cbn [subs].
    rewrite list_elem_of_fmap. split.
    + intros ([cl y] & -> & H). apply elem_of_map_to_list in H.
      exists [], cl. split; [reflexivity|exact H].
    + intros (path & cl & Hm & H). apply tmatch_nil_r in Hm as ->.
      rewrite stored_at_nil in H. cbn [subs] in H.
      exists (cl, x). split; [reflexivity|]. now apply elem_of_map_to_list.
  - rewrite TerminusProofs.rmatchSubs_cons. cbn [children].
    rewrite !elem_of_app. split.
    + intros [H|[H|H]].
      * destruct (ch !! t) as [v1|] eqn:E; [|inversion H].
        apply (IH t v1 E) in H as (path & cl & Hm & Hs).
        exists (t :: path), cl. split.
        -- apply tmatch_cons. left. auto.
        -- rewrite stored_at_cons. cbn [children]. now rewrite E.
      * destruct (ch !! "+"%string) as [v2|] eqn:E; [|inversion H].
        apply (IH _ v2 E) in H as (path & cl & Hm & Hs).
        exists ("+"%string :: path), cl. split.
        -- apply tmatch_cons. right. left. auto.
        -- rewrite stored_at_cons. cbn [children]. now rewrite E.
      * destruct (ch !! "*"%string) as [v3|] eqn:E; [|inversion H].
        apply (star_loop_elem v3 x (t :: rest)) in H as (i & Hi & H).
        apply (IH _ v3 E) in H as (path & cl & Hm & Hs).
        exists ("*"%string :: path), cl. split.
        -- apply tmatch_cons. right. right. eauto.
        -- rewrite stored_at_cons. cbn [children]. now rewrite E.
    + intros (path & cl & Hm & Hs). destruct path as [|c pat']; [discriminate|].
      rewrite stored_at_cons in Hs. cbn [children] in Hs.
      destruct (ch !! c) as [child|] eqn:E; [|discriminate].
      apply tmatch_cons in Hm as [[-> Hm]|[[-> Hm]|[-> (i & Hi & Hm)]]].
      * left. rewrite E. apply (IH t child E). eauto.
      * right. left. rewrite E. apply (IH _ child E). eauto.
      * right. right. rewrite E. apply (star_loop_elem child x (t :: rest)).
        exists i. split; [assumption|]. apply (IH _ child E). eauto.
Qed.

(** X8.  The subscriptions that match a topic are those of the nodes whose
    path from the root matches the cells of the topic: a cell of the path
    takes the equal cell of the topic, "+" takes any one cell, and "*" takes
    any number of cells, none included, as long as a cell is left for the
    rest of the path; so a path that ends in "*" matches no topic. *)
Theorem RMatchSubs_spec (tm : Terminus) (topic : string) (x : subscription) :
  x ∈ RMatchSubs topic tm <->
  exists path cl, tmatch path (Util.Split topic) = true /\
                  stored_at (stree tm) path cl = Some x.
Proof. unfold RMatchSubs. apply rmatchSubs_spec. Qed.

(** *** Adding a subscription *)

Lemma stored_at_NewSnode path cl : stored_at NewSnode path cl = None.
Proof. destruct path; reflexivity. Qed.

(** [addSub] fills one slot of the tree, the one of the client under the
    path, unless it is taken, and returns the id of what the slot holds. *)
Lemma addSub_stored parts sub : forall s,
  (addSub parts sub s).1
    = subid (default sub (stored_at s parts (client sub))) /\
  forall path cl,
    stored_at (addSub parts sub s).2 path cl =
      if decide (path = parts /\ cl = client sub)
      then Some (default sub (stored_at s parts (client sub)))
      else stored_at s path cl.
Proof.
  induction parts as [|p rest IH]; intros [ch su].
  - cbn [addSub subs children]. rewrite stored_at_nil. cbn [subs].
    destruct (su !! client sub) as [existing|] eqn:E; cbn [fst snd default].
    + split; [reflexivity|]. intros path cl.
      destruct (decide _) as [[-> ->]|]; [|reflexivity].
      rewrite stored_at_nil. exact E.
    + split; [reflexivity|]. intros path cl.
      destruct path as [|q path].
      * rewrite stored_at_nil. cbn [subs].
        destruct (decide _) as [[_ ->]|Hne].
        -- apply lookup_insert_eq.
        -- rewrite lookup_insert_ne by (intros <-; apply Hne; auto).
           reflexivity.
      * destruct (decide _) as [[? _]|_]; [discriminate|].
        rewrite !stored_at_cons. reflexivity.
  - cbn [addSub children subs]. rewrite stored_at_cons. cbn [children].
    destruct (ch !! p) as [child|] eqn:E.
    + destruct (IH child) as [Hid Hst].
      destruct (addSub rest sub child) as [id child'] eqn:EA.
      cbn [fst snd] in *. split; [exact Hid|]. intros path cl.
      destruct path as [|q path].
      * destruct (decide _) as [[? _]|_]; [discriminate|]. reflexivity.
      * rewrite !stored_at_cons. cbn [children].
        destruct (decide (q = p)) as [->|Hq].
        -- rewrite lookup_insert_eq, E, Hst.
           destruct (decide (path = rest /\ cl = client sub)) as [[-> ->]|Hn];
             destruct (decide (p :: _ = p :: rest /\ _)) as [[Hp Hc]|Hn'];
             try reflexivity.
           ++ exfalso. apply Hn'. auto.
           ++ exfalso. apply Hn. split; [congruence|assumption].
        -- rewrite lookup_insert_ne by congruence.
           destruct (decide _) as [[? _]|_]; [congruence|reflexivity].
    + destruct (IH NewSnode) as [Hid Hst].
      destruct (addSub rest sub NewSnode) as [id nc] eqn:EA.
      cbn [fst snd] in *. rewrite stored_at_NewSnode in Hid, Hst.
      split; [exact Hid|]. intros path cl.
      destruct path as [|q path].
      * destruct (decide _) as [[? _]|_]; [discriminate|]. reflexivity.
      * rewrite !stored_at_cons. cbn [children].
        destruct (decide (q = p)) as [->|Hq].
        -- rewrite lookup_insert_eq, E, Hst, stored_at_NewSnode.
           destruct (decide (path = rest /\ cl = client sub)) as [[-> ->]|Hn];
             destruct (decide (p :: _ = p :: rest /\ _)) as [[Hp Hc]|Hn'];
             try reflexivity.
           ++ exfalso. apply Hn'. auto.
           ++ exfalso. apply Hn. split; [congruence|assumption].
        -- rewrite lookup_insert_ne by congruence.
           destruct (decide _) as [[? _]|_]; [congruence|reflexivity].
Qed.

Lemma AddSub_stree topic sub tm :
  stree (AddSub topic sub tm).2 = (addSub (Util.Split topic) sub (stree tm)).2.
Proof.
  unfold AddSub. destruct (addSub _ _ _) as [id tree].
  now destruct (bool_decide _).
Qed.

Lemma AddSub_id topic sub tm :
  (AddSub topic sub tm).1 = (addSub (Util.Split topic) sub (stree tm)).1.
Proof.
  unfold AddSub. destruct (addSub _ _ _) as [id tree].
  now destruct (bool_decide _).
Qed.

(** X9.  After [AddSub] a topic is matched by what matched it before and,
    if the client had no subscription under the pattern yet, by the new
    subscription when the cells of the pattern match the topic; a client that
    has a subscription under the pattern adds nothing. *)
Theorem AddSub_matches (pattern : string) (sub : subscription) (tm : Terminus)
    (topic : string) (x : subscription) :
  x ∈ RMatchSubs topic (AddSub pattern sub tm).2 <->
  x ∈ RMatchSubs topic tm \/
  (x = sub /\ tmatch (Util.Split pattern) (Util.Split topic) = true /\
   stored_at (stree tm) (Util.Split pattern) (client sub) = None).
Proof.
  unfold RMatchSubs. rewrite !rmatchSubs_spec, AddSub_stree.
  destruct (addSub_stored (Util.Split pattern) sub (stree tm)) as [_ Hst].
  split.
  - intros (path & cl & Hm & Hs). rewrite Hst in Hs.
    destruct (decide _) as [[-> ->]|_]; [|left; eauto].
    destruct (stored_at (stree tm) (Util.Split pattern) (client sub))
      as [existing|] eqn:E; cbn [default] in Hs; injection Hs as <-.
    + left. eauto.
    + right. auto.
  - intros [(path & cl & Hm & Hs)|(-> & Hm & Hs)].
    + exists path, cl. split; [assumption|]. rewrite Hst.
      destruct (decide _) as [[-> ->]|_]; [|assumption].
      rewrite Hs. reflexivity.
    + exists (Util.Split pattern), (client sub). split; [assumption|].
      rewrite Hst, Hs. destruct (decide _) as [_|Hn]; [reflexivity|].
      exfalso. apply Hn. auto.
Qed.

(** A client that has a subscription under the path adds nothing. *)
Lemma addSub_again parts sub existing : forall s,
  stored_at s parts (client sub) = Some existing ->
  addSub parts sub s = (subid existing, s).
Proof.
  induction parts as [|p rest IH]; intros [ch su] H.
  - rewrite stored_at_nil in H. cbn [subs] in H.
    cbn [addSub subs]. now rewrite H.
  - rewrite stored_at_cons in H. cbn [children] in H.
    cbn [addSub children subs].
    destruct (ch !! p) as [child|] eqn:E; [|discriminate].
    rewrite (IH child H). now rewrite insert_id.
Qed.

Lemma addSub_descend parts sub : forall s,
  is_Some (descend parts (addSub parts sub s).2).
Proof.
  induction parts as [|p rest IH]; intros [ch su].
  - cbn [addSub subs]. destruct (su !! client sub); cbn; eauto.
  - cbn [addSub children subs]. destruct (ch !! p) as [child|] eqn:E.
    + specialize (IH child). destruct (addSub rest sub child) as [id c'].
      cbn [snd descend children] in *. now rewrite lookup_insert_eq.
    + specialize (IH NewSnode). destruct (addSub rest sub NewSnode) as [id nc].
      cbn [snd descend children] in *. now rewrite lookup_insert_eq.
Qed.

(** [delete_at] empties one slot of the tree, the one of the client under
    the path. *)
Lemma delete_at_stored parts cl0 : forall s,
  is_Some (descend parts s) ->
  forall path cl,
    stored_at (delete_at parts cl0 s) path cl =
      if decide (path = parts /\ cl = cl0) then None else stored_at s path cl.
Proof.
  induction parts as [|p rest IH]; intros [ch su] Hd path cl.
  - cbn [delete_at children subs]. destruct path as [|q path].
    + rewrite !stored_at_nil. cbn [subs].
      destruct (decide _) as [[_ ->]|Hne].
      * apply lookup_delete_eq.
      * apply lookup_delete_ne. intros <-. apply Hne. auto.
    + destruct (decide _) as [[? _]|_]; [discriminate|].
      rewrite !stored_at_cons. reflexivity.
  - cbn [descend children] in Hd. cbn [delete_at children subs].
    destruct (ch !! p) as [child|] eqn:E; [|now destruct Hd].
    destruct path as [|q path].
    + destruct (decide _) as [[? _]|_]; [discriminate|]. reflexivity.
    + rewrite !stored_at_cons. cbn [children].
      destruct (decide (q = p)) as [->|Hq].
      * rewrite lookup_insert_eq, E, (IH child Hd).
        destruct (decide (path = rest /\ cl = cl0)) as [[-> ->]|Hn];
          destruct (decide (p :: _ = p :: rest /\ _)) as [[Hp Hc]|Hn'];
          try reflexivity.
        -- exfalso. apply Hn'. auto.
        -- exfalso. apply Hn. split; [congruence|assumption].
      * rewrite lookup_insert_ne by congruence.
        destruct (decide _) as [[? _]|_]; [congruence|reflexivity].
Qed.

(** X10.  A client that subscribes again to the topic of one of its
    subscriptions gets the id of the subscription it has, and the tree stays
    as it is: the second subscription, its handler and its tap flag are
    dropped. *)
Theorem Subscribe_again (cl : clientid) (m1 m2 : Message) (tm tm1 : Terminus)
    (id : UniqueMessageID) :
  Subscribe cl m1 tm = Some (id, tm1) ->
  Topic m2 = Topic m1 ->
  exists tm2, Subscribe cl m2 tm1 = Some (id, tm2) /\ stree tm2 = stree tm1.
Proof.
  unfold Subscribe. intros H1 HT. rewrite HT.
  destruct (_ <? _)%nat; [discriminate|]. injection H1 as H1.
  set (sub1 := mkSubscription (UMid m1) cl (Type_ m1 =? TypeTap)) in *.
  set (sub2 := mkSubscription (UMid m2) cl (Type_ m2 =? TypeTap)).
  destruct (addSub_stored (Util.Split (Topic m1)) sub1 (stree tm)) as [Hid Hst].
  pose proof (AddSub_id (Topic m1) sub1 tm) as Ei.
  pose proof (AddSub_stree (Topic m1) sub1 tm) as Es.
  rewrite H1 in Ei, Es. cbn [fst snd] in Ei, Es.
  specialize (Hst (Util.Split (Topic m1)) cl). rewrite <- Es in Hst.
  destruct (decide _) as [_|Hn]; [|exfalso; apply Hn; auto].
  pose proof (addSub_again (Util.Split (Topic m1)) sub2 _ (stree tm1) Hst) as Ha.
  exists (AddSub (Topic m1) sub2 tm1).2. split.
  - f_equal. rewrite (surjective_pairing (AddSub _ _ _)) at 1. f_equal.
    rewrite AddSub_id, Ha. cbn [fst]. congruence.
  - rewrite AddSub_stree, Ha. reflexivity.
Qed.

Lemma Subscribe_again_witness :
  exists tm2,
    Subscribe 1%N (mkMessage TypeTap 0 (TerminusSpec.in_ns "a/b") (8, 8))
      (AddSub (TerminusSpec.in_ns "a/b") (mkSubscription (7, 7) 1%N false)
         CreateTerminus).2
    = Some ((7, 7), tm2) /\
    stree tm2 =
    stree (AddSub (TerminusSpec.in_ns "a/b") (mkSubscription (7, 7) 1%N false)
             CreateTerminus).2.
Proof.
  apply (Subscribe_again 1%N
           (mkMessage TypeSubscribe 0 (TerminusSpec.in_ns "a/b") (7, 7))
           (mkMessage TypeTap 0 (TerminusSpec.in_ns "a/b") (8, 8))
           CreateTerminus); reflexivity.
Defined.

(** *** Removing a subscription *)

(** What [Unsubscribe] leaves in the tree when the id is known. *)
Lemma Unsubscribe_stored cl id tm node :
  rstree tm !! id = Some node -> is_Some (descend node (stree tm)) ->
  forall path cl',
    stored_at (stree (Unsubscribe cl id tm)) path cl' =
      if decide (path = node /\ cl' = cl) then None
      else stored_at (stree tm) path cl'.
Proof.
  intros Hr Hd path cl'. unfold Unsubscribe. rewrite Hr. cbn [stree].
  now apply delete_at_stored.
Qed.

(** X11.  A client that subscribes where it had no subscription gets the id
    of its message, and when it unsubscribes with that id every topic is
    matched by the subscriptions that matched it before the two calls. *)
Theorem Subscribe_Unsubscribe (cl : clientid) (m : Message) (tm tm1 : Terminus)
    (id : UniqueMessageID) :
  stored_at (stree tm) (Util.Split (Topic m)) cl = None ->
  Subscribe cl m tm = Some (id, tm1) ->
  id = UMid m /\
  forall topic x,
    x ∈ RMatchSubs topic (Unsubscribe cl id tm1) <-> x ∈ RMatchSubs topic tm.
Proof.
  unfold Subscribe. intros Hfree H1.
  destruct (_ <? _)%nat; [discriminate|]. injection H1 as H1.
  set (sub1 := mkSubscription (UMid m) cl (Type_ m =? TypeTap)) in *.
  set (parts := Util.Split (Topic m)) in *.
  destruct (addSub_stored parts sub1 (stree tm)) as [Hid Hst].
  cbn [client sub1] in Hid, Hst. rewrite Hfree in Hid, Hst.
  cbn [default subid sub1] in Hid.
  pose proof (addSub_descend parts sub1 (stree tm)) as Hd.
  unfold AddSub in H1. fold parts in H1.
  destruct (addSub parts sub1 (stree tm)) as [id' tree] eqn:EA.
  cbn [fst snd] in Hid, Hst, Hd. subst id'.
  rewrite bool_decide_eq_true_2 in H1 by reflexivity.
  injection H1 as <- <-. split; [reflexivity|].
  intros topic x. unfold RMatchSubs. rewrite !rmatchSubs_spec.
  assert (forall path cl',
            stored_at (stree (Unsubscribe cl (UMid m)
                                (mkTerminus tree (<[UMid m := parts]> (rstree tm)))))
                      path cl'
            = stored_at (stree tm) path cl') as Hsame.
  { intros path cl'.
    rewrite (Unsubscribe_stored cl (UMid m) _ parts);
      [|cbn [rstree]; apply lookup_insert_eq|exact Hd].
    cbn [stree]. rewrite Hst.
    destruct (decide _) as [[-> ->]|_]; [now rewrite Hfree|reflexivity]. }
  split; intros (path & cl' & Hm & Hs); exists path, cl'; split;
    try assumption; [rewrite <- Hsame|rewrite Hsame]; exact Hs.
Qed.

Lemma Subscribe_Unsubscribe_witness :
  (7, 7) = UMid (mkMessage TypeSubscribe 0 (TerminusSpec.in_ns "a/b") (7, 7)) /\
  forall topic x,
    x ∈ RMatchSubs topic
          (Unsubscribe 1%N (7, 7)
             (AddSub (TerminusSpec.in_ns "a/b") (mkSubscription (7, 7) 1%N false)
                CreateTerminus).2) <->
    x ∈ RMatchSubs topic CreateTerminus.
Proof.
  apply (Subscribe_Unsubscribe 1%N
           (mkMessage TypeSubscribe 0 (TerminusSpec.in_ns "a/b") (7, 7))
           CreateTerminus); reflexivity.
Defined.

(** X12.  [Unsubscribe] with a known id removes the subscription that the
    calling client holds at the node where the id was registered, whatever
    the id of that subscription, and nothing else: the id need not belong to
    the caller, and the subscription it was given to stays when another
    client passes it. *)
Theorem Unsubscribe_removes_callers (cl : clientid) (id : UniqueMessageID)
    (tm : Terminus) (node : list string) (topic : string) (x : subscription) :
  rstree tm !! id = Some node -> is_Some (descend node (stree tm)) ->
  x ∈ RMatchSubs topic (Unsubscribe cl id tm) <->
  exists path cl', tmatch path (Util.Split topic) = true /\
                   stored_at (stree tm) path cl' = Some x /\
                   ~ (path = node /\ cl' = cl).
Proof.
  intros Hr Hd. unfold RMatchSubs. rewrite rmatchSubs_spec.
  split.
  - intros (path & cl' & Hm & Hs).
    rewrite (Unsubscribe_stored cl id tm node Hr Hd) in Hs.
    destruct (decide _) as [|Hn]; [discriminate|]. eauto 6.
  - intros (path & cl' & Hm & Hs & Hn). exists path, cl'.
    split; [assumption|].
    rewrite (Unsubscribe_stored cl id tm node Hr Hd).
    destruct (decide _) as [|_]; [contradiction|assumption].
Qed.

Lemma Unsubscribe_removes_callers_witness :
  mkSubscription (7, 7) 1%N false ∈ RMatchSubs "a/b" (Unsubscribe 2%N (7, 7) two_clients) <->
  exists path cl', tmatch path (Util.Split "a/b") = true /\
                   stored_at (stree two_clients) path cl'
                     = Some (mkSubscription (7, 7) 1%N false) /\
                   ~ (path = ["a"; "b"]%string /\ cl' = 2%N).
Proof.
  apply (Unsubscribe_removes_callers 2%N (7, 7) two_clients ["a"; "b"]%string).
  - reflexivity.
  - vm_compute. eauto.
Defined.

End MatchProofs.

(** ** The chains that the builder returns *)

Module BuildProofs.
Import Objects Core Api ApiBuilder ChainSpec ChainRules BuildRules.

#[local] Arguments Util.RestrictBy : simpl never.
#[local] Arguments Util.AnalyzeSuffix : simpl never.

Section Build.
Variable sha256 : list byte -> list byte.
Variable GetDOTsFrom : list byte -> list DOTLink.
Variable ResolveKey : string -> option (list byte).
Variable LookupChain : CacheKey -> option (list DChain).
Variable b : ChainBuilder.

Lemma dotUseful_true d :
  dotUseful b d = true ->
  GetAccessURIMVK d = cb_nsvk b /\
  Util.RestrictBy (cb_urisuffix b) (GetAccessURISuffix d) = (cb_urisuffix b, true).
Proof.
  unfold dotUseful.
  destruct (bytes_Equal _ _) eqn:E1; cbn [negb]; [|discriminate].
  destruct (IsSubsetOf _ _); cbn [negb]; [|discriminate].
  destruct (Util.RestrictBy _ _) as [nu ok].
  destruct ok; cbn [negb orb]; [|discriminate].
  destruct (String.eqb_spec nu (cb_urisuffix b)) as [->|]; cbn [negb];
    [|discriminate].
  intros _. split; [|reflexivity]. now apply ChainProofs.bytes_Equal_true.
Qed.

Lemma getOptions_elem from d :
  d ∈ getOptions GetDOTsFrom b from <->
  exists dl, dl ∈ GetDOTsFrom from /\ D dl = d /\
             S dl = Resolution.StateValid /\ dotUseful b d = true.
Proof.
  unfold getOptions. rewrite list_elem_of_fmap. split.
  - intros (dl & -> & H). apply list_elem_of_filter in H as [[H1 H2] H3]. eauto.
  - intros (dl & H & <- & H1 & H2). exists dl. split; [reflexivity|].
    apply list_elem_of_filter. auto.
Qed.

Lemma walkable_snoc from ds dt :
  walkable GetDOTsFrom b from ds ->
  dt ∈ getOptions GetDOTsFrom b (default from (GetReceiverVK <$> last ds)) ->
  walkable GetDOTsFrom b from (ds ++ [dt]).
Proof.
  revert from. induction ds as [|d ds IH]; intros from Hw Hd.
  - cbn in *. auto.
  - cbn [walkable app] in *. destruct Hw as [H1 H2]. split; [assumption|].
    apply IH; [assumption|]. destruct ds as [|d' ds]; [exact Hd|].
    change (last (d :: d' :: ds)) with (last (d' :: ds)) in Hd.
    destruct (last (d' :: ds)) eqn:EL; [exact Hd|].
    apply last_None in EL. discriminate.
Qed.

Lemma GetTerminalVK_default s from :
  chain s <> [] ->
  GetTerminalVK s = default from (GetReceiverVK <$> last (chain s)).
Proof.
  unfold GetTerminalVK. intros H. destruct (last (chain s)) eqn:E; [reflexivity|].
  apply last_None in E. contradiction.
Qed.

Lemma AddAndClone_Some s d s' :
  AddAndClone s d = Some s' ->
  chain s' = chain s ++ [d] /\ 0 <= TTL s' /\
  Util.RestrictBy (suffix s) (GetAccessURISuffix d) = (suffix s', true).
Proof.
  unfold AddAndClone. destruct (Util.RestrictBy _ _) as [nuri okay].
  destruct okay; cbn [negb]; [|discriminate].
  destruct (Z.ltb_spec (TTL (mkScenario (chain s ++ [d]) nuri)) 0);
    [discriminate|].
  intros [= <-]. auto.
Qed.

(** One step of the graph walk keeps what the builder keeps of a
    scenario. *)
Lemma built_step mvk s dt s' :
  built GetDOTsFrom b mvk s ->
  dt ∈ getOptions GetDOTsFrom b (GetTerminalVK s) ->
  AddAndClone s dt = Some s' ->
  built GetDOTsFrom b mvk s'.
Proof.
  intros (Hne & Hw & _) Hd Ha.
  apply AddAndClone_Some in Ha as (Hc & Ht & _).
  unfold built. rewrite Hc. split; [|split].
  - intros E. now apply app_eq_nil in E as [_ ?].
  - apply walkable_snoc; [assumption|].
    now rewrite <- (GetTerminalVK_default s mvk Hne).
  - intros _. exact Ht.
Qed.

Lemma extend_inv (P : scenario -> Prop) s opts :
  (forall dt s', dt ∈ opts -> AddAndClone s dt = Some s' -> P s') ->
  Forall (fun s' => P s' /\ reaches_target b s' = true) (extend b s opts).1 /\
  Forall P (extend b s opts).2.
Proof.
  induction opts as [|dt opts IH]; intros H; [cbn; auto|].
  cbn [extend].
  destruct IH as [IH1 IH2].
  { intros d s' Hd. apply H. now apply list_elem_of_further. }
  destruct (extend b s opts) as [vs es]. cbn [fst snd] in *.
  destruct (AddAndClone s dt) as [s'|] eqn:Ea; [|auto].
  pose proof (H dt s' (list_elem_of_here _ _) Ea) as Hs'.
  destruct (reaches_target b s') eqn:Er; cbn [fst snd]; auto.
Qed.

(** The graph walk keeps an invariant of the scenarios that each step
    keeps. *)
Lemma graph_walk_inv (P : scenario -> Prop) :
  (forall s dt s', P s -> dt ∈ getOptions GetDOTsFrom b (GetTerminalVK s) ->
                   AddAndClone s dt = Some s' -> P s') ->
  forall fuel evals validscenarios all,
    Forall P evals ->
    Forall (fun s => P s /\ reaches_target b s = true) validscenarios ->
    graph_walk GetDOTsFrom fuel b evals validscenarios = Ok all ->
    Forall (fun s => P s /\ reaches_target b s = true) all.
Proof.
  intros Hstep. induction fuel as [|fuel IH];
    intros evals validscenarios all He Hv Hw; [discriminate|].
  cbn [graph_walk] in Hw. destruct evals as [|s evals].
  - now injection Hw as <-.
  - apply Forall_cons in He as [Hs He].
    destruct (extend_inv P s (getOptions GetDOTsFrom b (GetTerminalVK s)))
      as [H1 H2].
    { intros dt s' Hd Ha. exact (Hstep s dt s' Hs Hd Ha). }
    destruct (extend b s _) as [vs es]. cbn [fst snd] in *.
    apply (IH _ _ _ (Forall_app_2 _ _ _ He H2) (Forall_app_2 _ _ _ Hv H1) Hw).
Qed.

(** What [Build] goes through on a cache miss. *)
Lemma Build_Ok_inv fuel chains :
  LookupChain (mkCacheKey (cb_uri b) (cb_perms b) (copy32 (cb_target b))
                 (copy32 (cb_nsvk b))) = None ->
  Build sha256 GetDOTsFrom ResolveKey LookupChain fuel b = Ok chains ->
  exists p0 p1 mvk all,
    SplitN2 (cb_uri b) = [p0; p1] /\
    Util.valid (Util.AnalyzeSuffix p1) = true /\
    ResolveKey p0 = Some mvk /\
    graph_walk GetDOTsFrom fuel b
      (filter (fun s => reaches_target b s <> true)
              (NewScenario <$> getOptions GetDOTsFrom b mvk))
      (filter (fun s => reaches_target b s = true)
              (NewScenario <$> getOptions GetDOTsFrom b mvk)) = Ok all /\
    chains = ToChain sha256 <$> all.
Proof.
  intros Hc. unfold Build. rewrite Hc.
  destruct (SplitN2 (cb_uri b)) as [|p0 [|p1 [|p2 rest]]]; try discriminate.
  destruct (Util.valid (Util.AnalyzeSuffix p1)) eqn:Ev; cbn [negb];
    [|discriminate].
  destruct (ResolveKey p0) as [mvk|] eqn:Ek; [|discriminate].
  destruct (graph_walk _ _ _ _ _) as [all| | |] eqn:Ew; cbn [mbind outcome_bind];
    try discriminate.
  intros [= <-]. exists p0, p1, mvk, all.
  repeat split; try assumption.
  now rewrite BuilderProofs.collect_all.
Qed.

Lemma starts_built mvk :
  Forall (built GetDOTsFrom b mvk)
         (NewScenario <$> getOptions GetDOTsFrom b mvk).
Proof.
  apply Forall_fmap, Forall_forall. intros d Hd.
  unfold built, NewScenario. cbn [chain walkable length].
  split; [discriminate|]. split; [split; [exact Hd|exact I]|].
  cbn [chain length]. lia.
Qed.

Lemma Build_scenarios fuel chains :
  LookupChain (mkCacheKey (cb_uri b) (cb_perms b) (copy32 (cb_target b))
                 (copy32 (cb_nsvk b))) = None ->
  Build sha256 GetDOTsFrom ResolveKey LookupChain fuel b = Ok chains ->
  exists p0 p1 mvk all,
    SplitN2 (cb_uri b) = [p0; p1] /\
    Util.valid (Util.AnalyzeSuffix p1) = true /\
    ResolveKey p0 = Some mvk /\
    chains = ToChain sha256 <$> all /\
    Forall (fun s => built GetDOTsFrom b mvk s /\ reaches_target b s = true) all.
Proof.
  intros Hc Hb.
  destruct (Build_Ok_inv fuel chains Hc Hb) as (p0 & p1 & mvk & all & Hs & Hv & Hk & Hw & ->).
  exists p0, p1, mvk, all. repeat split; try assumption.
  apply (graph_walk_inv (built GetDOTsFrom b mvk)) in Hw; [exact Hw|..].
  - intros s dt s'. apply built_step.
  - apply Forall_forall. intros s Hs'. apply list_elem_of_filter in Hs' as [_ Hs'].
    exact (proj1 (Forall_forall _ _) (starts_built mvk) s Hs').
  - apply Forall_forall. intros s Hs'. apply list_elem_of_filter in Hs' as [Hr Hs'].
    split; [|exact Hr].
    exact (proj1 (Forall_forall _ _) (starts_built mvk) s Hs').
Qed.

(** X13.  On a cache miss every chain that [Build] returns is the chain of
    a scenario that is a path through the router's DOTs: its first DOT is a
    valid DOT from the namespace key that the builder finds useful, every
    other DOT is such a DOT from the receiver of the DOT before, the last
    receiver is the target or everybody, and with more than one DOT the TTL
    of the scenario has not run out. *)
Theorem Build_returns_paths (fuel : nat) (chains : list DChain) :
  LookupChain (mkCacheKey (cb_uri b) (cb_perms b) (copy32 (cb_target b))
                 (copy32 (cb_nsvk b))) = None ->
  Build sha256 GetDOTsFrom ResolveKey LookupChain fuel b = Ok chains ->
  exists p0 p1 mvk,
    SplitN2 (cb_uri b) = [p0; p1] /\ ResolveKey p0 = Some mvk /\
    forall dc, dc ∈ chains ->
      exists s, dc = ToChain sha256 s /\
        chain s <> [] /\ walkable GetDOTsFrom b mvk (chain s) /\
        ((1 < length (chain s))%nat -> 0 <= TTL s) /\
        (GetTerminalVK s = cb_target b \/ GetTerminalVK s = EverybodySlice).
Proof.
  intros Hc Hb.
  destruct (Build_scenarios fuel chains Hc Hb)
    as (p0 & p1 & mvk & all & Hs & _ & Hk & -> & Hall).
  exists p0, p1, mvk. split; [assumption|]. split; [assumption|].
  intros dc Hdc. apply list_elem_of_fmap in Hdc as (s & -> & Hin).
  destruct (proj1 (Forall_forall _ _) Hall s Hin) as [(H1 & H2 & H3) Hr].
  exists s. repeat split; try assumption.
  unfold reaches_target in Hr. apply orb_true_iff in Hr.
  rewrite !ChainProofs.bytes_Equal_true in Hr. exact Hr.
Qed.

(** *** The TTL of a scenario *)

Lemma ttl_after_le ds : forall t, ttl_after t ds <= t - Z.of_nat (length ds).
Proof.
  induction ds as [|d ds IH]; intros t; [cbn; lia|].
  change (ttl_after t (d :: ds))
    with (ttl_after (if GetTTL d <? t - 1 then GetTTL d else t - 1) ds).
  specialize (IH (if GetTTL d <? t - 1 then GetTTL d else t - 1)).
  cbn [length]. destruct (Z.ltb_spec (GetTTL d) (t - 1)); lia.
Qed.

Lemma TTL_ttl_after s : TTL s = ttl_after 256 (chain s).
Proof. reflexivity. Qed.

(** *** The analysis of a chain that was built *)

Section Analysis.
Hypothesis givers :
  forall from dl, dl ∈ GetDOTsFrom from -> GetGiverVK (D dl) = from.

Lemma option_from from d :
  d ∈ getOptions GetDOTsFrom b from ->
  GetGiverVK d = from /\ GetAccessURIMVK d = cb_nsvk b /\
  Util.RestrictBy (cb_urisuffix b) (GetAccessURISuffix d) = (cb_urisuffix b, true).
Proof.
  intros H. apply getOptions_elem in H as (dl & Hdl & <- & _ & Hu).
  split; [now apply givers|]. now apply dotUseful_true.
Qed.

(** The walk of the analysis gets through a path of the builder whose TTL
    has not run out. *)
Lemma walk_links_built links : forall w t,
  w_uri w = cb_urisuffix b ->
  walkable GetDOTsFrom b (w_tail w) links ->
  t <= w_ttl w ->
  (links <> [] -> 0 <= ttl_after t links) ->
  exists w', walk_links (cb_nsvk b) w links = inr w' /\
             w_uri w' = cb_urisuffix b /\
             w_tail w' = default (w_tail w) (GetReceiverVK <$> last links).
Proof.
  induction links as [|d links IH]; intros w t Hu Hw Ht Httl.
  - exists w. cbn. auto.
  - cbn [walkable] in Hw. destruct Hw as [Hd Hw].
    apply option_from in Hd as (Hg & Hm & Hr).
    specialize (Httl ltac:(discriminate)).
    change (ttl_after t (d :: links))
      with (ttl_after (if GetTTL d <? t - 1 then GetTTL d else t - 1) links)
      in Httl.
    set (t1 := if GetTTL d <? t - 1 then GetTTL d else t - 1) in *.
    pose proof (ttl_after_le links t1) as Hle.
    assert (t1 <= Z.min (GetTTL d) (w_ttl w - 1) /\ t1 <= t - 1) as [Ht1 Ht1'].
    { unfold t1. destruct (Z.ltb_spec (GetTTL d) (t - 1)); lia. }
    cbn [walk_links].
    rewrite (ChainRulesProofs.link_step_linked (cb_nsvk b) w d (cb_urisuffix b));
      [|lia|now symmetry|now symmetry|now rewrite Hu].
    destruct (IH (mkWalk (Z.min (GetTTL d) (w_ttl w - 1))
                    (ReduceBy (w_ps w) (GetPermissionSet d))
                    (GetReceiverVK d) (cb_urisuffix b)) t1)
      as (w' & Hwalk & Hu' & Ht'); cbn [w_uri w_tail w_ttl];
      [reflexivity|assumption|assumption|intros _; exact Httl|].
    exists w'. split; [assumption|]. split; [assumption|].
    rewrite Ht'. cbn [w_tail]. destruct links as [|d' links]; [reflexivity|].
    change (last (d :: d' :: links)) with (last (d' :: links)).
    destruct (last (d' :: links)) eqn:EL; [reflexivity|].
    apply last_None in EL. discriminate.
Qed.

(** The analysis of what the builder keeps, for the suffix of the builder. *)
Lemma built_analysis mtype s :
  built GetDOTsFrom b (cb_nsvk b) s ->
  Util.valid (Util.AnalyzeSuffix (cb_urisuffix b)) = true ->
  exists r, AnalyzeAccessDOTChain mtype (cb_urisuffix b) (chain s) = Some r /\
            mergeduri r = Some (cb_urisuffix b) /\
            mvk r = Some (cb_nsvk b) /\
            originVK r = Some (GetTerminalVK s) /\
            (err r = None \/ err r = Some BadPermissions \/
             err r = Some BadOperation).
Proof.
  intros (Hne & Hw & Httl) Hv. rewrite TTL_ttl_after in Httl.
  unfold GetTerminalVK.
  destruct (chain s) as [|d0 links]; [contradiction|].
  cbn [walkable] in Hw. destruct Hw as [Hd Hw].
  apply option_from in Hd as (Hg & Hm & Hr).
  eexists. split; [reflexivity|]. unfold analyze. rewrite Hr. cbn [negb].
  rewrite Hm, Hg.
  rewrite (proj2 (ChainProofs.bytes_Equal_true (cb_nsvk b) (cb_nsvk b)) eq_refl).
  cbn [negb].
  destruct (walk_links_built links
              (mkWalk (GetTTL d0) (GetPermissionSet d0) (GetReceiverVK d0)
                      (cb_urisuffix b))
              (if GetTTL d0 <? 256 - 1 then GetTTL d0 else 256 - 1))
    as (w' & Hwalk & Hu' & Ht'); cbn [w_uri w_tail w_ttl].
  - reflexivity.
  - exact Hw.
  - destruct (Z.ltb_spec (GetTTL d0) (256 - 1)); lia.
  - intros Hl. apply Httl. destruct links; [contradiction|]. cbn [length]. lia.
  - rewrite Hwalk, Hu', Hv. cbn [negb].
    cbn [mergeduri mvk originVK err]. rewrite Ht'. cbn [w_tail].
    repeat split.
    + destruct links as [|d' links]; [reflexivity|].
      change (last (d0 :: d' :: links)) with (last (d' :: links)).
      destruct (last (d' :: links)) eqn:EL; [reflexivity|].
      apply last_None in EL. discriminate.
    + destruct (check_permissions _ _ _ _) as [e|] eqn:E; [|auto].
      apply ChainProofs.check_permissions_codes in E as [->| ->]; auto.
Qed.

End Analysis.

(** *** The graph walk ends *)

Lemma weight_pos m r : (1 <= weight m r)%nat.
Proof. destruct r; cbn; lia. Qed.

Lemma total_weight_app m l1 l2 :
  total_weight m (l1 ++ l2) = (total_weight m l1 + total_weight m l2)%nat.
Proof.
  unfold total_weight. induction l1 as [|s l1 IH]; [reflexivity|].
  cbn [app foldr]. rewrite IH. lia.
Qed.

Lemma length_getOptions m from :
  fan_out GetDOTsFrom m -> (length (getOptions GetDOTsFrom b from) <= m)%nat.
Proof.
  intros H. unfold getOptions. rewrite length_fmap.
  etransitivity; [apply length_filter|apply H].
Qed.

(** The scenarios that one scenario adds to the queue are no more than its
    options, and each has one DOT more, 256 at most. *)
Lemma extend_queue s opts :
  (length (extend b s opts).2 <= length opts)%nat /\
  Forall (fun s' => length (chain s') = Datatypes.S (length (chain s)) /\
                    (length (chain s') <= 256)%nat) (extend b s opts).2.
Proof.
  induction opts as [|dt opts [IH1 IH2]]; [cbn; auto|].
  cbn [extend]. destruct (extend b s opts) as [vs es]. cbn [fst snd] in *.
  destruct (AddAndClone s dt) as [s'|] eqn:Ea; cbn [snd length]; [|split; [lia|auto]].
  destruct (reaches_target b s'); cbn [snd length]; [split; [lia|auto]|].
  split; [lia|]. apply Forall_cons. split; [|assumption].
  apply AddAndClone_Some in Ea as (Hc & Ht & _).
  pose proof (ttl_after_le (chain s') 256) as Hle. rewrite <- TTL_ttl_after in Hle.
  rewrite Hc, length_app in *. cbn [length] in *. lia.
Qed.

Lemma total_weight_same m r es :
  Forall (fun s' => room s' = r) es ->
  total_weight m es = (length es * weight m r)%nat.
Proof.
  unfold total_weight. induction 1 as [|s' es Hs _ IH]; [reflexivity|].
  cbn [foldr length]. rewrite IH, Hs. lia.
Qed.

Lemma total_weight_queue m s es :
  Forall (fun s' => length (chain s') = Datatypes.S (length (chain s)) /\
                    (length (chain s') <= 256)%nat) es ->
  (length es <= m)%nat ->
  (total_weight m es < weight m (room s))%nat.
Proof.
  intros Hall Hlen.
  destruct (decide (length (chain s) < 256)%nat) as [Hlt|Hge].
  - assert (room s = Datatypes.S (255 - length (chain s))) as -> by (unfold room; lia).
    rewrite (total_weight_same m (255 - length (chain s)) es).
    + cbn [weight].
      pose proof (Nat.mul_le_mono_r _ _ (weight m (255 - length (chain s))) Hlen).
      lia.
    + eapply Forall_impl; [exact Hall|]. intros s' [H1 H2]. unfold room. lia.
  - destruct es as [|s' es].
    + cbn. pose proof (weight_pos m (room s)). lia.
    + apply Forall_cons in Hall as [[H1 H2] _]. lia.
Qed.

(** The graph walk ends: a scenario holds 256 DOTs at most, and a key has
    [m] options at most. *)
Lemma graph_walk_ends m :
  fan_out GetDOTsFrom m ->
  forall fuel evals validscenarios,
    (total_weight m evals < fuel)%nat ->
    exists all, graph_walk GetDOTsFrom fuel b evals validscenarios = Ok all.
Proof.
  intros Hm. induction fuel as [|fuel IH]; intros evals validscenarios Hf; [lia|].
  cbn [graph_walk]. destruct evals as [|s evals]; [eauto|].
  destruct (extend_queue s (getOptions GetDOTsFrom b (GetTerminalVK s)))
    as [H1 H2].
  pose proof (length_getOptions m (GetTerminalVK s) Hm) as Hopts.
  destruct (extend b s _) as [vs es]. cbn [fst snd] in *.
  apply IH. rewrite total_weight_app.
  pose proof (total_weight_queue m s es H2 ltac:(lia)) as Hq.
  change (total_weight m (s :: evals))
    with (weight m (room s) + total_weight m evals)%nat in Hf.
  lia.
Qed.

(** X15.  When the router lists no more than [m] DOTs under any key,
    [Build] returns, with its chains or with an error, whatever the graph of
    the DOTs: a scenario with more than 256 DOTs has a negative TTL and is
    dropped, so a cycle of DOTs is not walked for ever. *)
Theorem Build_returns (m : nat) :
  fan_out GetDOTsFrom m ->
  exists fuel, forall fuel', (fuel <= fuel')%nat ->
    (exists chains,
       Build sha256 GetDOTsFrom ResolveKey LookupChain fuel' b = Ok chains) \/
    (exists e,
       Build sha256 GetDOTsFrom ResolveKey LookupChain fuel' b = Err e).
Proof.
  intros Hm. unfold Build.
  destruct (LookupChain _) as [cached|]; [exists 0%nat; eauto|].
  destruct (SplitN2 (cb_uri b)) as [|p0 [|p1 [|p2 rest]]];
    try (exists 0%nat; eauto; fail).
  destruct (Util.valid (Util.AnalyzeSuffix p1)); cbn [negb];
    [|exists 0%nat; eauto].
  destruct (ResolveKey p0) as [mvk|]; [|exists 0%nat; eauto].
  set (starts := NewScenario <$> getOptions GetDOTsFrom b mvk).
  exists (Datatypes.S (total_weight m
            (filter (fun s => reaches_target b s <> true) starts))).
  intros fuel' Hf. left.
  destruct (graph_walk_ends m Hm fuel'
              (filter (fun s => reaches_target b s <> true) starts)
              (filter (fun s => reaches_target b s = true) starts))
    as [all ->]; [lia|].
  cbn [mbind outcome_bind]. eauto.
Qed.

End Build.

Lemma NewChainBuilder_Some ResolveKey GetADPSFromPermString uri perms target b :
  NewChainBuilder ResolveKey GetADPSFromPermString uri perms target = Ok (Some b) ->
  exists p0, SplitN2 uri !! 0%nat = Some p0 /\
             ResolveKey p0 = Some (cb_nsvk b) /\
             SplitN2 uri !! 1%nat = Some (cb_urisuffix b) /\
             cb_uri b = uri /\ cb_perms b = perms /\ cb_target b = target /\
             GetADPSFromPermString perms = Some (cb_desperms b).
Proof.
  unfold NewChainBuilder.
  destruct (GetADPSFromPermString perms) as [dp|]; [|discriminate].
  destruct (SplitN2 uri !! 0%nat) as [p0|]; [|discriminate].
  destruct (ResolveKey p0) as [nsvk|] eqn:Ek; [|discriminate].
  destruct (SplitN2 uri !! 1%nat) as [p1|]; [|discriminate].
  intros [= <-]. exists p0. cbn. auto 10.
Qed.

(** X14.  When the router lists under a key the DOTs that the key gave, a
    chain that [Build] returns for a builder made by [NewChainBuilder] gets
    through the analysis for the suffix of the builder's URI: the analysis
    finds the URI, the origin, every link and the TTL in order, reports the
    suffix as the merged URI and the target (or everybody) as the origin,
    and can only fail on the permissions or on the message type. *)
Theorem Build_chains_pass_analysis (sha256 : list byte -> list byte)
    (GetDOTsFrom : list byte -> list DOTLink)
    (ResolveKey : string -> option (list byte))
    (LookupChain : CacheKey -> option (list DChain))
    (GetADPSFromPermString : string -> option AccessDOTPermissionSet)
    (mtype : Z) (uri perms : string) (target : list byte) (b : ChainBuilder)
    (fuel : nat) (chains : list DChain) :
  (forall from dl, dl ∈ GetDOTsFrom from -> GetGiverVK (D dl) = from) ->
  NewChainBuilder ResolveKey GetADPSFromPermString uri perms target = Ok (Some b) ->
  LookupChain (mkCacheKey (cb_uri b) (cb_perms b) (copy32 (cb_target b))
                 (copy32 (cb_nsvk b))) = None ->
  Build sha256 GetDOTsFrom ResolveKey LookupChain fuel b = Ok chains ->
  forall dc, dc ∈ chains ->
    exists s r,
      dc = ToChain sha256 s /\
      AnalyzeAccessDOTChain mtype (cb_urisuffix b) (chain s) = Some r /\
      mergeduri r = Some (cb_urisuffix b) /\
      mvk r = Some (cb_nsvk b) /\
      (originVK r = Some target \/ originVK r = Some EverybodySlice) /\
      (err r = None \/ err r = Some BadPermissions \/ err r = Some BadOperation).
Proof.
  intros Hg Hn Hc Hb dc Hdc.
  apply NewChainBuilder_Some in Hn as (q0 & H0 & Hk & H1 & Hu & _ & Ht & _).
  destruct (Build_scenarios sha256 GetDOTsFrom ResolveKey LookupChain b fuel
              chains Hc Hb) as (p0 & p1 & mvk & all & Hs & Hv & Hk' & -> & Hall).
  rewrite Hu in Hs. rewrite Hs in H0, H1. cbn in H0, H1.
  injection H0 as <-. injection H1 as H1. rewrite Hk in Hk'.
  injection Hk' as <-. subst p1.
  apply list_elem_of_fmap in Hdc as (s & -> & Hin).
  destruct (proj1 (Forall_forall _ _) Hall s Hin) as [Hbuilt Hr].
  destruct (built_analysis GetDOTsFrom b Hg mtype s Hbuilt Hv)
    as (r & Ha & Hm & Hmvk & Ho & He).
  exists s, r. repeat split; try assumption.
  rewrite Ho. unfold reaches_target in Hr. apply orb_true_iff in Hr.
  rewrite !ChainProofs.bytes_Equal_true, Ht in Hr.
  destruct Hr as [-> | ->]; auto.
Qed.

Lemma Build_returns_paths_witness :
  exists p0 p1 mvk,
    SplitN2 (cb_uri BuilderSpec.builder_MT) = [p0; p1] /\
    BuilderSpec.resolve_M p0 = Some mvk /\
    forall dc, dc ∈ chains_MT ->
      exists s, dc = ToChain DOTSpec.no_hash s /\
        chain s <> [] /\
        walkable BuilderSpec.listed_twice BuilderSpec.builder_MT mvk (chain s) /\
        ((1 < length (chain s))%nat -> 0 <= TTL s) /\
        (GetTerminalVK s = cb_target BuilderSpec.builder_MT \/
         GetTerminalVK s = EverybodySlice).
Proof.
  apply (Build_returns_paths DOTSpec.no_hash BuilderSpec.listed_twice
           BuilderSpec.resolve_M BuilderSpec.no_cache BuilderSpec.builder_MT 1).
  - reflexivity.
  - vm_compute. reflexivity.
Defined.

Lemma listed_twice_givers from dl :
  dl ∈ BuilderSpec.listed_twice from -> GetGiverVK (D dl) = from.
Proof.
  unfold BuilderSpec.listed_twice.
  destruct (bytes_Equal from BuilderSpec.key_M) eqn:E; [|intros H; inversion H].
  apply ChainProofs.bytes_Equal_true in E as ->. intros H.
  repeat (apply elem_of_cons in H as [->|H]; [reflexivity|]).
  inversion H.
Qed.

Lemma Build_chains_pass_analysis_witness :
  exists s r,
    ToChain DOTSpec.no_hash (NewScenario BuilderSpec.grant_MT)
      = ToChain DOTSpec.no_hash s /\
    AnalyzeAccessDOTChain TypeSubscribe (cb_urisuffix BuilderSpec.builder_MT)
      (chain s) = Some r /\
    mergeduri r = Some (cb_urisuffix BuilderSpec.builder_MT) /\
    mvk r = Some (cb_nsvk BuilderSpec.builder_MT) /\
    (originVK r = Some BuilderSpec.key_T \/ originVK r = Some EverybodySlice) /\
    (err r = None \/ err r = Some BadPermissions \/ err r = Some BadOperation).
Proof.
  apply (Build_chains_pass_analysis DOTSpec.no_hash BuilderSpec.listed_twice
           BuilderSpec.resolve_M BuilderSpec.no_cache reads_C TypeSubscribe
           "M/a/b" "C" BuilderSpec.key_T BuilderSpec.builder_MT 1 chains_MT).
  - exact listed_twice_givers.
  - reflexivity.
  - reflexivity.
  - vm_compute. reflexivity.
  - apply list_elem_of_here.
Defined.

Lemma Build_returns_witness :
  exists fuel, forall fuel', (fuel <= fuel')%nat ->
    (exists chains,
       Build DOTSpec.no_hash BuilderSpec.listed_twice BuilderSpec.resolve_M
         BuilderSpec.no_cache fuel' BuilderSpec.builder_MT = Ok chains) \/
    (exists e,
       Build DOTSpec.no_hash BuilderSpec.listed_twice BuilderSpec.resolve_M
         BuilderSpec.no_cache fuel' BuilderSpec.builder_MT = Err e).
Proof.
  apply (Build_returns DOTSpec.no_hash BuilderSpec.listed_twice
           BuilderSpec.resolve_M BuilderSpec.no_cache BuilderSpec.builder_MT 2).
  intros from. unfold BuilderSpec.listed_twice.
  destruct (bytes_Equal from BuilderSpec.key_M); cbn; lia.
Defined.

End BuildProofs.

(** ** Objects as their constructors leave them *)

Module ObjectProofs.
Import Objects DOTs DOTSpec ObjectSpec.

Lemma slice_Ok content a b x :
  slice content a b = Ok x ->
  (a <= b <= length content)%nat /\ x = take (b - a) (drop a content) /\
  length x = (b - a)%nat.
Proof.
  unfold slice. destruct (Nat.leb_spec a b); cbn [andb]; [|discriminate].
  destruct (Nat.leb_spec b (length content)); [|discriminate].
  intros [= <-]. split; [lia|]. split; [reflexivity|].
  rewrite length_take, length_drop. lia.
Qed.

(** *** A DChain read from its content *)

Lemma concat_chunks n : forall content : list byte,
  length content = (n * 32)%nat ->
  concat ((fun i => take 32 (drop (i * 32) content)) <$> seq 0 n) = content.
Proof.
  induction n as [|n IH]; intros content Hl.
  - destruct content; [reflexivity|discriminate].
  - cbn [seq fmap list_fmap concat]. change (drop (0 * 32) content) with content.
    transitivity (take 32 content ++ drop 32 content); [|apply take_drop].
    f_equal.
    rewrite <- (IH (drop 32 content)) by (rewrite length_drop; lia).
    f_equal. rewrite <- seq_shift.
    change (list_fmap ?A ?B ?f ?l) with (f <$> l).
    rewrite <- list_fmap_compose.
    apply list_fmap_ext. intros _ i _. unfold compose. rewrite drop_drop.
    reflexivity.
Qed.

(** *** A slice without spare capacity *)

Lemma bind_ext {A B} (m m' : outcome A) (f g : A -> outcome B) :
  m = m' -> (forall a, f a = g a) -> m ≫= f = m' ≫= g.
Proof. intros -> H. destruct m'; cbn; auto. Qed.

Lemma sub_slice_nil content a b :
  SubSlice.slice [] content a b = slice content a b.
Proof.
  unfold SubSlice.slice, slice. rewrite app_nil_r, Nat.add_0_r. reflexivity.
Qed.

Ltac same_step :=
  first
    [ reflexivity
    | apply sub_slice_nil
    | apply bind_ext; [|intros ?]
    | match goal with
      | |- (if ?b then _ else _) = _ => destruct b
      | |- (match ?x with _ => _ end) = _ => destruct x
      | |- (let x := _ in _) = _ => cbv zeta
      end ].

Lemma sub_header_field_nil ronum content idx h :
  SubSlice.header_field [] ronum content idx h = header_field ronum content idx h.
Proof. unfold SubSlice.header_field, header_field. repeat same_step. Qed.

Lemma sub_kv_pair_nil content idx kv0 :
  SubSlice.kv_pair [] content idx kv0 = kv_pair content idx kv0.
Proof. unfold SubSlice.kv_pair, kv_pair. repeat same_step. Qed.

Lemma sub_header_loop_nil ronum content fuel : forall idx h,
  SubSlice.header_loop [] fuel ronum content idx h = header_loop fuel ronum content idx h.
Proof.
  induction fuel as [|k IH]; intros idx h; [reflexivity|].
  cbn [SubSlice.header_loop header_loop].
  apply bind_ext; [apply sub_header_field_nil|]. intros [[done idx'] h'].
  destruct done; [reflexivity|apply IH].
Qed.

Lemma sub_kv_loop_nil content fuel : forall idx kv0,
  SubSlice.kv_loop [] fuel content idx kv0 = kv_loop fuel content idx kv0.
Proof.
  induction fuel as [|k IH]; intros idx kv0; [reflexivity|].
  cbn [SubSlice.kv_loop kv_loop].
  apply bind_ext; [apply sub_kv_pair_nil|]. intros [[done idx'] kv'].
  destruct done; [reflexivity|apply IH].
Qed.

Section Codec.
Variable sha256 : list byte -> list byte.
Variable base64url : list byte -> string.
Variable SignBlob : list byte -> list byte -> list byte -> list byte.

(** X16.  What [NewDChain] accepts it gives back: the object is a DChain
    with the ronum and the content it was made from.  A full chain has a
    content of 32 n bytes with n > 0, n hashes that are the content 32 bytes
    at a time, and the SHA-256 of the content as its chain hash; a chain hash
    has 32 bytes, which are its chain hash, and no count of hashes. *)
Theorem NewDChain_round_trip (ronum : Z) (content : list byte) (ro : RoutingObject) :
  NewDChain sha256 ronum content = Ok ro ->
  exists dc, ro = RODChain dc /\
    DChain_GetRONum dc = ronum /\
    DChain_GetContent dc = Ok content /\
    (ronum = ROAccessDChain \/ ronum = ROPermissionDChain ->
     exists n, (0 < n)%nat /\ length content = (n * 32)%nat /\
       NumHashes dc = Ok (Z.of_nat n) /\
       chainhash dc = sha256 content /\
       (forall i, (i < n)%nat ->
                  GetHashAt dc i = Ok (take 32 (drop (i * 32) content))) /\
       concat ((fun i => take 32 (drop (i * 32) content)) <$> seq 0 n) = content) /\
    (ronum = ROAccessDChainHash \/ ronum = ROPermissionDChainHash ->
     length content = 32%nat /\ chainhash dc = content /\ NumHashes dc = Panic).
Proof.
  unfold NewDChain, NewDChain_body.
  destruct ((ronum =? ROAccessDChain) || (ronum =? ROPermissionDChain)) eqn:Efull.
  - destruct (Nat.eqb_spec (length content mod 32) 0) as [Hm|]; cbn [negb orb];
      [|discriminate].
    destruct (Nat.eqb_spec (length content) 0) as [|Hz]; [discriminate|].
    cbn [recover]. intros [= <-]. eexists. split; [reflexivity|].
    unfold DChain_GetRONum, DChain_GetContent. cbn [dc_ronum dothashes].
    rewrite Efull. split; [reflexivity|]. split; [reflexivity|].
    apply Nat.Div0.div_exact in Hm.
    assert (length content = (length content / 32 * 32)%nat) as Hl by lia.
    split.
    + intros _. exists (length content / 32)%nat.
      split; [lia|]. split; [exact Hl|].
      unfold NumHashes, GetHashAt. cbn [elaborated dots dothashes chainhash].
      rewrite length_replicate. split; [reflexivity|]. split; [reflexivity|].
      split; [|now apply concat_chunks].
      intros i Hi. unfold slice.
      destruct (Nat.leb_spec (i * 32) ((i + 1) * 32)); [|lia].
      destruct (Nat.leb_spec ((i + 1) * 32) (length content)); [|lia].
      cbn [andb]. do 2 f_equal. lia.
    + intros [-> | ->]; discriminate.
  - destruct ((ronum =? ROAccessDChainHash) || (ronum =? ROPermissionDChainHash))
      eqn:Ehash; [|discriminate].
    destruct (Nat.eqb_spec (length content) 32) as [Hl|]; cbn [negb];
      [|discriminate].
    cbn [recover]. intros [= <-]. eexists. split; [reflexivity|].
    unfold DChain_GetRONum, DChain_GetContent. cbn [dc_ronum chainhash].
    rewrite Efull, Ehash. split; [reflexivity|]. split; [reflexivity|].
    split.
    + intros [-> | ->]; discriminate.
    + intros _. auto.
Qed.

(** *** A DOT read from its content *)

Lemma sub_slice_Ok spare content a b x :
  SubSlice.slice spare content a b = Ok x ->
  (a <= b <= length content + length spare)%nat /\
  x = take (b - a) (drop a (content ++ spare)) /\
  length x = (b - a)%nat.
Proof.
  unfold SubSlice.slice. destruct (Nat.leb_spec a b); cbn [andb]; [|discriminate].
  destruct (Nat.leb_spec b (length content + length spare)); [|discriminate].
  intros [= <-]. split; [lia|]. split; [reflexivity|].
  rewrite length_take, length_drop, length_app. lia.
Qed.

Lemma halts_sub_slice spare content a b :
  CodecSpec.halts (SubSlice.slice spare content a b).
Proof. unfold CodecSpec.halts, SubSlice.slice. destruct (_ && _); discriminate. Qed.

Ltac halts_sub_step :=
  first
    [ apply CodecProofs.halts_index | apply halts_sub_slice
    | apply CodecProofs.halts_slice_from
    | apply CodecProofs.halts_le_value | apply CodecProofs.halts_unix_ms
    | apply CodecProofs.halts_bind; [|intros ? ?]
    | match goal with
      | |- CodecSpec.halts (Ok _) => discriminate
      | |- CodecSpec.halts (Err _) => discriminate
      | |- CodecSpec.halts Panic => discriminate
      | |- CodecSpec.halts (NewObjectError _ _) => discriminate
      | |- CodecSpec.halts (if ?b then _ else _) => destruct b
      | |- CodecSpec.halts (match ?x with _ => _ end) => destruct x
      end ].

Lemma halts_sub_header_field spare ronum content idx h :
  CodecSpec.halts (SubSlice.header_field spare ronum content idx h).
Proof. unfold SubSlice.header_field, Uint64. repeat halts_sub_step. Qed.

Lemma halts_sub_kv_pair spare content idx kv0 :
  CodecSpec.halts (SubSlice.kv_pair spare content idx kv0).
Proof. unfold SubSlice.kv_pair, Uint16. repeat halts_sub_step. Qed.

(** A header field that does not end the loop moves the index on, and was
    found within the length of the content. *)
Lemma sub_header_field_progress spare ronum content idx h idx' h' :
  SubSlice.header_field spare ronum content idx h = Ok (false, idx', h') ->
  (idx < idx')%nat /\ (idx < length content)%nat.
Proof.
  unfold SubSlice.header_field. intros H.
  apply CodecProofs.bind_Ok in H as (tag & Ht & H).
  apply CodecProofs.index_Ok in Ht.
  split; [|exact Ht].
  repeat match type of H with
         | match ?x with _ => _ end = _ => destruct x
         end;
  repeat match type of H with
         | (_ ≫= _) = Ok _ => apply CodecProofs.bind_Ok in H as (? & _ & H)
         | (if ?b then _ else _) = Ok _ => destruct b
         | NewObjectError _ _ = Ok _ => discriminate H
         | Ok _ = Ok _ => injection H as ? ?; subst
         end;
  try discriminate; lia.
Qed.

Lemma sub_kv_pair_progress spare content idx kv0 idx' kv' :
  SubSlice.kv_pair spare content idx kv0 = Ok (false, idx', kv') ->
  (idx < idx')%nat /\ (idx < length content)%nat.
Proof.
  unfold SubSlice.kv_pair. intros H.
  apply CodecProofs.bind_Ok in H as (tag & Ht & H).
  apply CodecProofs.index_Ok in Ht.
  split; [|exact Ht].
  repeat match type of H with
         | (_ ≫= _) = Ok _ => apply CodecProofs.bind_Ok in H as (? & _ & H)
         | (if ?b then _ else _) = Ok _ => destruct b
         | Ok _ = Ok _ => injection H as ? ?; subst
         end;
  try discriminate; lia.
Qed.

Lemma halts_sub_header_loop spare ronum content fuel : forall idx h,
  (length content - idx < fuel)%nat ->
  CodecSpec.halts (SubSlice.header_loop spare fuel ronum content idx h).
Proof.
  induction fuel as [|k IH]; intros idx h Hf; [lia|].
  cbn [SubSlice.header_loop].
  apply CodecProofs.halts_bind; [apply halts_sub_header_field|].
  intros [[done idx'] h'] E. destruct done; [discriminate|].
  apply sub_header_field_progress in E as [H1 H2]. apply IH. lia.
Qed.

Lemma halts_sub_kv_loop spare content fuel : forall idx kv0,
  (length content - idx < fuel)%nat ->
  CodecSpec.halts (SubSlice.kv_loop spare fuel content idx kv0).
Proof.
  induction fuel as [|k IH]; intros idx kv0 Hf; [lia|].
  cbn [SubSlice.kv_loop].
  apply CodecProofs.halts_bind; [apply halts_sub_kv_pair|].
  intros [[done idx'] kv'] E. destruct done; [discriminate|].
  apply sub_kv_pair_progress in E as [H1 H2]. apply IH. lia.
Qed.

(** [NewDOT] returns on a slice of a larger buffer as well: the loops look
    for their next field within the length of the content. *)
Lemma sub_NewDOT_returns spare ronum content :
  CodecSpec.returns (SubSlice.NewDOT spare sha256 base64url ronum content).
Proof.
  unfold SubSlice.NewDOT. apply CodecProofs.halts_recover.
  unfold SubSlice.NewDOT_body.
  repeat (apply CodecProofs.halts_bind;
          [first [apply halts_sub_slice|apply CodecProofs.halts_index]|intros ? _]).
  apply CodecProofs.halts_bind; [apply halts_sub_header_loop; lia|].
  intros [idx h] _. unfold SubSlice.NewDOT_tail, Uint16.
  destruct (ronum =? ROAccessDOT); [repeat halts_sub_step|].
  destruct (ronum =? ROPermissionDOT); [|discriminate].
  apply CodecProofs.halts_bind; [apply halts_sub_kv_loop; lia|].
  intros [idx' kv0] _. repeat halts_sub_step.
Qed.

(** On a slice without spare capacity the two readings of [NewDOT] agree. *)
Lemma sub_NewDOT_nil ronum content :
  SubSlice.NewDOT [] sha256 base64url ronum content
  = NewDOT sha256 base64url ronum content.
Proof.
  unfold SubSlice.NewDOT, NewDOT. f_equal.
  unfold SubSlice.NewDOT_body, NewDOT_body.
  apply bind_ext; [apply sub_slice_nil|]. intros g.
  apply bind_ext; [apply sub_slice_nil|]. intros r.
  apply bind_ext; [reflexivity|]. intros t.
  apply bind_ext; [apply sub_header_loop_nil|]. intros [idx h].
  unfold SubSlice.NewDOT_tail, NewDOT_tail.
  destruct (ronum =? ROAccessDOT); [repeat same_step|].
  destruct (ronum =? ROPermissionDOT); [|reflexivity].
  apply bind_ext; [apply sub_kv_loop_nil|]. intros [idx' kv0].
  repeat same_step.
Qed.
(** X17.  A DOT that [NewDOT] accepts is in order, whatever the slice it was
    read from, [spare] being the bytes of the buffer that lie behind that
    slice: it holds the content and the ronum it was read from, the first 32
    bytes of the content as the giver and the next 32 as the receiver, a TTL
    of one byte, a signature of 64 bytes, and permissions in which star
    implies plus and plus the plain permission; its hash is the SHA-256 of
    the bytes before the signature.  The signature and what is hashed are cut
    out of the buffer, not of the content: they lie within the content when
    the slice has no spare capacity, and what follows the signature is not
    looked at.  An access DOT has a namespace key of 32 bytes and the URI of
    that key and its suffix. *)
Theorem NewDOT_wellformed (spare : list byte) (ronum : Z) (content : list byte)
    (ro : RoutingObject) :
  SubSlice.NewDOT spare sha256 base64url ronum content = Ok ro ->
  exists d, ro = RODOT d /\
    GetContent d = content /\ GetRONum d = ronum /\
    giverVK d = take 32 content /\ length (giverVK d) = 32%nat /\
    receiverVK d = take 32 (drop 32 content) /\ length (receiverVK d) = 32%nat /\
    0 <= GetTTL d <= 255 /\
    length (signature d) = 64%nat /\
    closed_flags d /\
    (exists signed rest,
       content ++ spare = signed ++ signature d ++ rest /\
       hash d = sha256 signed) /\
    (isAccess d = true ->
     length (mVK d) = 32%nat /\
     uri d = String.append (base64url (mVK d)) (String "/" (uriSuffix d)) /\
     kv d = ∅).
Proof.
  unfold SubSlice.NewDOT.
  destruct (SubSlice.NewDOT_body spare sha256 base64url (S (length content))
              ronum content)
    as [ro'| | |] eqn:Eb; cbn [recover NewObjectError]; try discriminate.
  intros [= <-]. unfold SubSlice.NewDOT_body in Eb.
  apply CodecProofs.bind_Ok in Eb as (g & Hg & Eb).
  apply CodecProofs.bind_Ok in Eb as (r & Hr & Eb).
  apply CodecProofs.bind_Ok in Eb as (t & Ht & Eb).
  apply CodecProofs.bind_Ok in Eb as ([idx h] & _ & Eb).
  apply CodecProofs.index_Ok in Ht.
  apply sub_slice_Ok in Hg as (_ & Hg & Hgl).
  apply sub_slice_Ok in Hr as (_ & Hr & Hrl).
  change (drop 0 (content ++ spare)) with (content ++ spare) in Hg.
  change (32 - 0)%nat with 32%nat in Hg, Hgl.
  change (64 - 32)%nat with 32%nat in Hr, Hrl.
  rewrite take_app_le in Hg by lia.
  rewrite drop_app_le in Hr by lia.
  rewrite take_app_le in Hr by (rewrite length_drop; lia).
  unfold SubSlice.NewDOT_tail in Eb.
  assert (forall idx' acc perm mvk sfx u kv0 d,
    (signed ← SubSlice.slice spare content 0 idx';
     sig ← SubSlice.slice spare content idx' (idx' + 64);
     Ok (RODOT (mkDOT content (sha256 signed) g r (h_expires h) (h_created h)
                  (h_revokers h) (h_contact h) (h_comment h) sig acc
                  (byte_val t) mvk sfx u (h_pubLim h)
                  (bit perm 0x0040)
                  (bit perm 0x0001 || bit perm 0x0002 || bit perm 0x0004)
                  (bit perm 0x0002 || bit perm 0x0004)
                  (bit perm 0x0004)
                  (bit perm 0x0008 || bit perm 0x0010 || bit perm 0x0020)
                  (bit perm 0x0010 || bit perm 0x0020)
                  (bit perm 0x0020)
                  (bit perm 0x0080)
                  kv0))) = Ok (RODOT d) ->
    GetContent d = content /\ isAccess d = acc /\
    giverVK d = take 32 content /\ length (giverVK d) = 32%nat /\
    receiverVK d = take 32 (drop 32 content) /\ length (receiverVK d) = 32%nat /\
    0 <= GetTTL d <= 255 /\
    length (signature d) = 64%nat /\
    closed_flags d /\
    (exists signed rest,
       content ++ spare = signed ++ signature d ++ rest /\
       hash d = sha256 signed) /\
    mVK d = mvk /\ uriSuffix d = sfx /\ uri d = u /\ kv d = kv0) as Hfinish.
  { intros idx' acc perm mvk sfx u kv0 d E.
    apply CodecProofs.bind_Ok in E as (signed & Hs & E).
    apply CodecProofs.bind_Ok in E as (sig & Hsig & E).
    injection E as <-.
    apply sub_slice_Ok in Hs as (Hsb & Hs & _).
    apply sub_slice_Ok in Hsig as (Hsigb & Hsig & Hsigl).
    change (drop 0 (content ++ spare)) with (content ++ spare) in Hs.
    replace (idx' - 0)%nat with idx' in Hs by lia.
    replace (idx' + 64 - idx')%nat with 64%nat in Hsig, Hsigl by lia.
    unfold GetContent, GetTTL, closed_flags.
    cbn [Objects.content isAccess giverVK receiverVK ttl signature hash mVK
         uriSuffix uri Objects.kv canConsume canConsumePlus canConsumeStar
         canTap canTapPlus canTapStar].
    pose proof (DOTProofs.byte_val_range t).
    repeat split; try assumption; try reflexivity; try lia;
      try (repeat match goal with
                  | |- context [bit ?p ?m] => destruct (bit p m)
                  end; cbn; congruence).
    exists signed, (drop (idx' + 64) (content ++ spare)). split; [|reflexivity].
    rewrite Hs, Hsig.
    rewrite <- (take_drop idx' (content ++ spare)) at 1. f_equal.
    rewrite <- (take_drop 64 (drop idx' (content ++ spare))) at 1. f_equal.
    rewrite drop_drop. reflexivity. }
  destruct (Z.eqb_spec ronum ROAccessDOT) as [->|Hna].
  - apply CodecProofs.bind_Ok in Eb as (b1 & _ & Eb).
    apply CodecProofs.bind_Ok in Eb as (perm & _ & Eb).
    apply CodecProofs.bind_Ok in Eb as (mvk & Hmvk & Eb).
    apply CodecProofs.bind_Ok in Eb as (b2 & _ & Eb).
    apply CodecProofs.bind_Ok in Eb as (ln & _ & Eb).
    apply CodecProofs.bind_Ok in Eb as (sfx & _ & Eb).
    apply sub_slice_Ok in Hmvk as (_ & _ & Hml).
    destruct ro' as [dc|d].
    { apply CodecProofs.bind_Ok in Eb as (? & _ & Eb).
      apply CodecProofs.bind_Ok in Eb as (? & _ & Eb). discriminate. }
    apply Hfinish in Eb
      as (H1 & H2 & H3 & H4 & H5 & H6 & H7 & H8 & H9 & H10 & H11 & H12 & H13 & H14).
    exists d. split; [reflexivity|]. unfold GetRONum. rewrite H2.
    repeat (split; [first [assumption|reflexivity]|]).
    intros _. rewrite H11, H12, H13, H14. split; [lia|]. auto.
  - destruct (Z.eqb_spec ronum ROPermissionDOT) as [->|Hnp]; [|discriminate].
    apply CodecProofs.bind_Ok in Eb as ([idx' kv0] & _ & Eb).
    destruct ro' as [dc|d].
    { apply CodecProofs.bind_Ok in Eb as (? & _ & Eb).
      apply CodecProofs.bind_Ok in Eb as (? & _ & Eb). discriminate. }
    apply Hfinish in Eb
      as (H1 & H2 & H3 & H4 & H5 & H6 & H7 & H8 & H9 & H10 & H11 & H12 & H13 & H14).
    exists d. split; [reflexivity|]. unfold GetRONum. rewrite H2.
    repeat (split; [first [assumption|reflexivity]|]).
    intros Ha. congruence.
Qed.

(** *** A DOT made from scratch *)

Lemma quot_whole_ms now :
  - 2 ^ 63 <= now < 2 ^ 63 -> whole_ms (Some (Z.quot now 1000000 * 1000000)).
Proof.
  intros Hn. cbn [whole_ms].
  pose proof (Z.quot_rem' now 1000000) as Hq.
  split; [apply Z.rem_mul; lia|].
  destruct (Z.le_gt_cases 0 now) as [Hp|Hneg].
  - pose proof (Z.rem_bound_pos now 1000000 Hp ltac:(lia)). lia.
  - pose proof (Z.rem_bound_pos_neg now 1000000 ltac:(lia) ltac:(lia)). lia.
Qed.

(** X18.  An access DOT made with [CreateDOT], [SetAccessURI], [SetTTL], the
    setters of the permissions and [SetCreationToNow], for keys of 32 bytes
    and a suffix shorter than 65536 bytes, is read back by [NewDOT] from the
    content that [Encode] packs as [Encode] leaves it: the setters close the
    permissions under star and plus, and the creation time is cut to the
    millisecond that the packed form can hold. *)
Theorem made_access_DOT_round_trip (sk giver receiver mvk : list byte)
    (suffix : string) (v : Z) (consume tap : bool * bool * bool)
    (publish list_ : bool) (now : Z) (ro : DOT) :
  length giver = 32%nat -> length receiver = 32%nat -> length mvk = 32%nat ->
  Z.of_nat (String.length suffix) < 65536 ->
  - 2 ^ 63 <= now < 2 ^ 63 ->
  access_dot_of base64url giver receiver mvk suffix v consume tap publish list_ now
    = Ok ro ->
  NewDOT sha256 base64url ROAccessDOT (GetContent (Encode sha256 SignBlob sk ro))
  = Ok (RODOT (Encode sha256 SignBlob sk ro)).
Proof.
  intros Hg Hr Hm Hs Hn Hro. unfold access_dot_of in Hro.
  cbn [CreateDOT SetAccessURI isAccess negb mbind outcome_bind] in Hro.
  unfold SetTTL in Hro.
  destruct ((v <? 0) || (v >? 255)) eqn:Ev; [discriminate|].
  apply orb_false_iff in Ev as [Ev1 Ev2].
  apply Z.ltb_ge in Ev1. rewrite Z.gtb_ltb in Ev2. apply Z.ltb_ge in Ev2.
  cbn in Hro. injection Hro as <-.
  destruct consume as [[cn cp] cs], tap as [[tn tp] ts]. cbn [fst snd].
  match goal with |- context [Encode _ _ _ ?d] => set (ro := d) end.
  assert (access_packable base64url ro) as Hp.
  { unfold ro, SetCreationToNow, SetCreation.
    constructor; [constructor|..]; cbn; try assumption; try reflexivity;
      try lia; try exact I.
    - exact (quot_whole_ms now Hn).
    - unfold closed_flags. cbn. repeat split; intros ->;
        rewrite ?orb_true_r; reflexivity. }
  rewrite (DOTProofs.NewDOT_Encode_access sha256 base64url SignBlob sk ro Hp eq_refl).
  replace (packed_limits <$> pubLim ro)
    with (pubLim (Encode sha256 SignBlob sk ro)).
  - now rewrite DOTProofs.with_pubLim_id.
  - rewrite (DOTProofs.Encode_eq sha256 SignBlob sk ro Hg Hr). reflexivity.
Qed.

End Codec.

Lemma NewDChain_round_trip_witness :
  exists dc, RODChain (mkDChain (replicate 64 x07) [] [None; None] true ROAccessDChain true)
             = RODChain dc /\
    DChain_GetRONum dc = ROAccessDChain /\
    DChain_GetContent dc = Ok (replicate 64 x07) /\
    (ROAccessDChain = ROAccessDChain \/ ROAccessDChain = ROPermissionDChain ->
     exists n, (0 < n)%nat /\ length (replicate 64 x07) = (n * 32)%nat /\
       NumHashes dc = Ok (Z.of_nat n) /\
       chainhash dc = no_hash (replicate 64 x07) /\
       (forall i, (i < n)%nat ->
                  GetHashAt dc i = Ok (take 32 (drop (i * 32) (replicate 64 x07)))) /\
       concat ((fun i => take 32 (drop (i * 32) (replicate 64 x07))) <$> seq 0 n)
       = replicate 64 x07) /\
    (ROAccessDChain = ROAccessDChainHash \/ ROAccessDChain = ROPermissionDChainHash ->
     length (replicate 64 x07) = 32%nat /\ chainhash dc = replicate 64 x07 /\
     NumHashes dc = Panic).
Proof.
  apply (NewDChain_round_trip no_hash ROAccessDChain (replicate 64 x07)).
  reflexivity.
Defined.

Lemma NewDOT_wellformed_witness :
  exists d, RODOT cut_sample = RODOT d /\
    GetContent d = cut_content /\
    GetRONum d = ROAccessDOT /\
    giverVK d = take 32 cut_content /\
    length (giverVK d) = 32%nat /\
    receiverVK d = take 32 (drop 32 cut_content) /\
    length (receiverVK d) = 32%nat /\
    0 <= GetTTL d <= 255 /\
    length (signature d) = 64%nat /\
    closed_flags d /\
    (exists signed rest,
       cut_content ++ cut_spare = signed ++ signature d ++ rest /\
       hash d = no_hash signed) /\
    (isAccess d = true ->
     length (mVK d) = 32%nat /\
     uri d = String.append (ns_name (mVK d)) (String "/" (uriSuffix d)) /\
     kv d = ∅).
Proof.
  apply (NewDOT_wellformed no_hash ns_name cut_spare ROAccessDOT cut_content).
  vm_compute. reflexivity.
Defined.

Lemma made_access_DOT_round_trip_witness :
  NewDOT no_hash ns_name ROAccessDOT
    (GetContent (Encode no_hash no_signature [] made_sample))
  = Ok (RODOT (Encode no_hash no_signature [] made_sample)).
Proof.
  apply (made_access_DOT_round_trip no_hash ns_name no_signature []
           (replicate 32 x01) (replicate 32 x02) (replicate 32 x03)
           "a/b" 3 (true, true, false) (false, false, false) true false
           1700000000123456789 made_sample).
  - reflexivity.
  - reflexivity.
  - reflexivity.
  - reflexivity.
  - lia.
  - vm_compute. reflexivity.
Defined.

End ObjectProofs.
